(** * minHumdrum: the spine-structure analysis of [HumdrumFileBase]

    A shallow embedding of [src/src/HumdrumFileBase.cpp] and a check of the
    properties stated for it in the design document.

    Layout of the development:
    - Part I    machine integers, [std::string] and [std::vector] primitives;
    - Part II   tokens and lines ([HumdrumToken], [HumdrumLine]: these two
                classes are not part of the sources at hand, the few
                members used by [HumdrumFileBase] are modelled from the
                design document);
    - Part III  the [HumdrumFileBase] object and its member functions,
                one definition per member function, in source order where
                dependencies allow;
    - Part IV   the properties.

    Conventions.  A [HumdrumToken*] is a handle [(l, f)]: index of the owning
    line in [lines] and index of the field on that line.  The members of a
    token that the analysis writes (spine info, links, track) live in finite
    maps keyed by handle.  A computation whose C++ behaviour is not defined
    (out-of-range [operator[]] on a vector or on a line, [back()] of an
    empty vector, an uncaught [std::out_of_range]) is [None]; every other
    computation is [Some] of its result. *)

From Stdlib Require Import ZArith String Ascii List Lia DecimalString.
From stdpp Require Import base option list gmap strings.

Open Scope string_scope.
Open Scope list_scope.
Open Scope Z_scope.

(* ================================================================= *)
(** * Part I: integers, strings, vectors *)

Module Cpp.

(** [int] is 32 bits wide and [size_t] 64 bits (LP64).  A conversion to
    either type reduces modulo the width. *)
Definition to_int (z : Z) : Z := (z + 2 ^ 31) mod 2 ^ 32 - 2 ^ 31.
Definition to_size_t (z : Z) : Z := z mod 2 ^ 64.

(** [v.size()] as the mathematical value of the [size_t]. *)
Definition size {A} (v : list A) : Z := Z.of_nat (length v).
Definition ssize (s : string) : Z := Z.of_nat (String.length s).

(** [v[i]] for an integer [i] already converted to [size_t]. *)
Definition at_ {A} (v : list A) (i : Z) : option A :=
  if (0 <=? i) && (i <? size v) then v !! Z.to_nat i else None.

(** [v.resize(n)] on a vector of strings: truncate, or pad with empty
    strings. *)
Definition resize (v : list string) (n : nat) : list string :=
  take n v ++ replicate (n - length v) "".

(** [v.back() = x]. *)
Definition set_back {A} (v : list A) (x : A) : option (list A) :=
  match v with
  | [] => None
  | _ => Some (<[pred (length v) := x]> v)
  end.

(** [v.back()]. *)
Definition back {A} (v : list A) : option A := last v.

(** [s.substr(pos, n)] with [n] an [int] expression converted to [size_t]:
    throws when [pos > size()], else yields [min(n, size() - pos)]
    characters from [pos]. *)
Definition substr (s : string) (pos : nat) (n : Z) : option string :=
  if (String.length s <? pos)%nat then None
  else
    let avail := ssize s - Z.of_nat pos in
    Some (String.substring pos (Z.to_nat (Z.min (to_size_t n) avail)) s).

(** [std::to_string(int)]. *)
Definition to_string (z : Z) : string := NilZero.string_of_int (Z.to_int z).

Definition tab : string := String "009"%char EmptyString.
Definition endl : string := String "010"%char EmptyString.

End Cpp.

(** [is_infix sub s]: the text [sub] occurs in [s]. *)
Definition is_infix (sub s : string) : Prop :=
  ∃ pre post : string, s = pre +:+ sub +:+ post.

(** A decision procedure for [is_infix], for concrete messages. *)
Fixpoint infixb (sub s : string) : bool :=
  String.prefix sub s ||
  match s with
  | EmptyString => false
  | String _ s' => infixb sub s'
  end.

(* ================================================================= *)
(** * Part II: tokens and lines *)

(** A token handle: (index of the line in the file, index of the field). *)
Abbreviation TokenRef := (nat * nat)%type.

Module HumdrumToken.

(** Modelled from the spec: the class [HumdrumToken] is missing from the
    sources.  The design document (Tokenizer) classifies a token "from a
    fixed prefix table": [**] exclusive, [*^] split, [*v] merge, [*x]
    exchange, [*+] add, [*-] terminate, [.] null. *)
Definition isExclusiveInterpretation (t : string) : bool := String.prefix "**" t.
Definition isSplitInterpretation (t : string) : bool := String.prefix "*^" t.
Definition isMergeInterpretation (t : string) : bool := String.prefix "*v" t.
Definition isExchangeInterpretation (t : string) : bool := String.prefix "*x" t.
Definition isAddInterpretation (t : string) : bool := String.prefix "*+" t.
Definition isTerminateInterpretation (t : string) : bool := String.prefix "*-" t.
Definition isExclusive := isExclusiveInterpretation.
Definition isTerminator := isTerminateInterpretation.
Definition isNull (t : string) : bool := String.eqb t ".".

(** Modelled from the spec: [HumdrumToken::isManipulator].  The callers in
    [HumdrumFileBase.cpp] test [isManipulator() && !isTerminator() &&
    !isExclusive()] and reach an [isExclusiveInterpretation()] branch only
    after [isManipulator()] held, so terminators and exclusive
    interpretations count as manipulators. *)
Definition isManipulator (t : string) : bool :=
  isExclusiveInterpretation t || isSplitInterpretation t ||
  isMergeInterpretation t || isExchangeInterpretation t ||
  isAddInterpretation t || isTerminateInterpretation t.

End HumdrumToken.

Module HumdrumLine.

(** One line of the file: its text (a [HumdrumLine] is a [std::string]),
    the texts of its tokens, and the index stored by [setLineIndex]. *)
Record t : Type := mk {
  text : string;
  tokens : list string;
  lineindex : Z
}.

(** Modelled from the spec: [HumdrumLine::createTokensFromLine] is missing
    from the sources; the Tokenizer splits the text "on the field
    delimiter", the horizontal tab.  Every text yields at least one token. *)
Fixpoint split_fields (s : string) : list string :=
  match s with
  | EmptyString => [EmptyString]
  | String c s' =>
      if Ascii.eqb c "009"%char then EmptyString :: split_fields s'
      else match split_fields s' with
           | [] => [String c EmptyString]
           | tok :: toks => String c tok :: toks
           end
  end.

Definition createTokensFromLine (l : t) : t :=
  mk (text l) (split_fields (text l)) (lineindex l).

Definition setLineIndex (i : Z) (l : t) : t := mk (text l) (tokens l) i.
Definition getLineIndex (l : t) : Z := lineindex l.

(** Modelled from the spec: line numbers count from one
    ([analyzeSpines] reports line [i+1] for index [i]). *)
Definition getLineNumber (l : t) : Z := lineindex l + 1.

(** Modelled from the spec: [HumdrumLine::getTokenCount] is missing from
    the sources; the number of tokens the Tokenizer made of the line. *)
Definition getTokenCount (l : t) : nat := length (tokens l).

(** Modelled from the spec: [HumdrumLine::token] and
    [HumdrumLine::getTokenString] are missing from the sources;
    [line.token(j)] is field [j] of the line, here its text, and an index
    outside of the line is undefined. *)
Definition token (l : t) (j : nat) : option string := tokens l !! j.

Definition first_token (l : t) : string := default "" (tokens l !! 0%nat).

(** Modelled from the spec (Line Classifier): whether a line takes part in
    the spine structure is "a pure function of the line's first token's
    text"; blank lines, global comments and reference records ([!!...])
    do not. *)
Definition hasSpines (l : t) : bool :=
  negb (String.eqb (first_token l) "" || String.prefix "!!" (first_token l)).

(** Modelled from the spec: an interpretation line starts with [*], a line
    of exclusive interpretations with [**]. *)
Definition isInterpretation (l : t) : bool := String.prefix "*" (first_token l).
Definition isExclusive (l : t) : bool := String.prefix "**" (first_token l).

(** Modelled from the spec: a manipulator line "contains manipulator
    tokens". *)
Definition isManipulator (l : t) : bool :=
  existsb HumdrumToken.isManipulator (tokens l).

(** Modelled from the spec: [HumdrumLine::analyzeTracks(string&)] is
    missing from the sources.  The track of a token is the number that
    opens its spine-path label ("labels initialized to the column's track
    number as a string", wrapped in parentheses by splits); the design
    document lists no failure of this stage, so the status is [true] and
    the error text is left alone. *)
Definition is_digit (c : ascii) : bool :=
  let n := nat_of_ascii c in (48 <=? n)%nat && (n <=? 57)%nat.

Fixpoint read_digits (s : string) (acc : Z) : Z :=
  match s with
  | String c s' =>
      if is_digit c
      then read_digits s' (10 * acc + (Z.of_nat (nat_of_ascii c) - 48))
      else acc
  | EmptyString => acc
  end.

Fixpoint track_of_spineinfo (s : string) : Z :=
  match s with
  | EmptyString => 0
  | String c s' => if is_digit c then read_digits s 0 else track_of_spineinfo s'
  end.

End HumdrumLine.

Abbreviation HLine := HumdrumLine.t.

(* ================================================================= *)
(** * Part III: the file object *)

Module HumdrumFileBase.

(** The object state.  [lines], [trackstarts], [trackends] and
    [parseError] are the data members of the class; [spineinfo],
    [nextTokens], [previousTokens] and [track] are the members of the
    tokens, stored by handle (a missing key is the freshly constructed
    value: empty text, no link, track 0).  The field index
    written by [setFieldIndex] is the second component of the handle and
    the local [lastspine] of [analyzeSpines] is never read; neither is
    stored. *)
Record t : Type := mk {
  lines : list HLine;
  trackstarts : list (option TokenRef);
  trackends : list (list TokenRef);
  parseError : string;
  spineinfo : gmap TokenRef string;
  nextTokens : gmap TokenRef (list TokenRef);
  previousTokens : gmap TokenRef (list TokenRef);
  track : gmap TokenRef Z
}.

Definition with_lines (x : list HLine) (f : t) : t :=
  mk x (trackstarts f) (trackends f) (parseError f) (spineinfo f)
     (nextTokens f) (previousTokens f) (track f).
Definition with_tracks (ts : list (option TokenRef)) (te : list (list TokenRef))
    (f : t) : t :=
  mk (lines f) ts te (parseError f) (spineinfo f)
     (nextTokens f) (previousTokens f) (track f).
Definition with_parseError (e : string) (f : t) : t :=
  mk (lines f) (trackstarts f) (trackends f) e (spineinfo f)
     (nextTokens f) (previousTokens f) (track f).
Definition with_spineinfo (m : gmap TokenRef string) (f : t) : t :=
  mk (lines f) (trackstarts f) (trackends f) (parseError f) m
     (nextTokens f) (previousTokens f) (track f).
Definition with_links (n p : gmap TokenRef (list TokenRef)) (f : t) : t :=
  mk (lines f) (trackstarts f) (trackends f) (parseError f) (spineinfo f)
     n p (track f).
Definition with_track (m : gmap TokenRef Z) (f : t) : t :=
  mk (lines f) (trackstarts f) (trackends f) (parseError f) (spineinfo f)
     (nextTokens f) (previousTokens f) m.

(** ** Token members, by handle *)

Definition getSpineInfo (f : t) (r : TokenRef) : string :=
  default "" (spineinfo f !! r).
Definition setSpineInfo (r : TokenRef) (s : string) (f : t) : t :=
  with_spineinfo (<[r := s]> (spineinfo f)) f.
Definition getNextTokens (f : t) (r : TokenRef) : list TokenRef :=
  default [] (nextTokens f !! r).
Definition getPreviousTokens (f : t) (r : TokenRef) : list TokenRef :=
  default [] (previousTokens f !! r).
Definition getTrack (f : t) (r : TokenRef) : Z := default 0 (track f !! r).

(** Modelled from the spec: [HumdrumToken::makeForwardLink] is missing
    from the sources; the Line Stitcher creates "forward/backward links",
    so the target is appended to the forward links of the source and the
    source to the backward links of the target. *)
Definition makeForwardLink (a b : TokenRef) (f : t) : t :=
  let n := <[a := getNextTokens f a ++ [b]]> (nextTokens f) in
  let p := <[b := getPreviousTokens f b ++ [a]]> (previousTokens f) in
  with_links n p f.

(** The text of the token behind a handle; [None] when the handle does not
    designate a token of the file. *)
Definition tokenText (f : t) (r : TokenRef) : option string :=
  l ← lines f !! r.1; HumdrumLine.token l r.2.
Definition tokenLineIndex (f : t) (r : TokenRef) : option Z :=
  l ← lines f !! r.1; Some (HumdrumLine.getLineIndex l).

(** ** [isValid], [setParseError] *)

Definition isValid (f : t) : bool := (String.length (parseError f) =? 0)%nat.

(** [setParseError(err)]: stores the text and returns [!parseError.size()].
    The [stringstream] and the [printf]-style overloads (the latter only
    ever called here with a format free of conversion specifications) store
    the text they are given. *)
Definition setParseError (err : string) (f : t) : bool * t :=
  let f' := with_parseError err f in (isValid f', f').

(** ** [addToTrackStarts], constructor, [getMaxTrack], [getLineCount] *)

Definition addToTrackStarts (token : option TokenRef) (f : t) : option t :=
  match token with
  | None => Some (with_tracks (trackstarts f ++ [None]) (trackends f ++ [[]]) f)
  | Some tok =>
      if (1 <? Cpp.size (trackstarts f)) &&
         bool_decide (Cpp.back (trackstarts f) = Some None)
      then ts ← Cpp.set_back (trackstarts f) (Some tok);
           Some (with_tracks ts (trackends f) f)
      else Some (with_tracks (trackstarts f ++ [Some tok]) (trackends f ++ [[]]) f)
  end.

(** The default constructor: [addToTrackStarts(NULL)] on the empty object
    ([ticksperquarternote] and [quietParse] play no part below). *)
Definition empty : t := mk [] [] [] "" ∅ ∅ ∅ ∅.
Definition new : t := with_tracks [None] [[]] empty.

Definition getLineCount (f : t) : Z := Cpp.to_int (Cpp.size (lines f)).
Definition getMaxTrack (f : t) : Z :=
  Cpp.to_int (Cpp.to_size_t (Cpp.size (trackstarts f) - 1)).

(** ** [operator[]] and [token] *)

(** [operator[](index)]: the position in [lines] of the line returned.  An
    [int] meets a [size_t] in [lines.size() - index] and in
    [index >= lines.size()]; both are computed in [size_t].  The message
    printed on [cerr] is not part of the state. *)
Definition operator_index (f : t) (index : Z) : option nat :=
  let sz := Cpp.size (lines f) in
  let index :=
    if index <? 0 then Cpp.to_int (Cpp.to_size_t (sz - Cpp.to_size_t index))
    else index in
  let index :=
    if (index <? 0) || (sz <=? Cpp.to_size_t index)
    then Cpp.to_int (Cpp.to_size_t (sz - 1))
    else index in
  _ ← Cpp.at_ (lines f) (Cpp.to_size_t index);
  Some (Z.to_nat (Cpp.to_size_t index)).

(** [token(lineindex, fieldindex)]: the handle of the token returned. *)
Definition token (f : t) (lineindex fieldindex : Z) : option TokenRef :=
  let lineindex :=
    if lineindex <? 0 then Cpp.to_int (lineindex + getLineCount f)
    else lineindex in
  l ← Cpp.at_ (lines f) (Cpp.to_size_t lineindex);
  _ ← Cpp.at_ (HumdrumLine.tokens l) (Cpp.to_size_t fieldindex);
  Some (Z.to_nat (Cpp.to_size_t lineindex), Z.to_nat (Cpp.to_size_t fieldindex)).

(** ** [getTrackStart], [getTrackEndCount], [getTrackEnd] *)

(** The result is [Some None] for the C++ [NULL]. *)
Definition getTrackStart (f : t) (track : Z) : option (option TokenRef) :=
  if (0 <? track) && (Cpp.to_size_t track <? Cpp.size (trackstarts f))
  then Cpp.at_ (trackstarts f) (Cpp.to_size_t track)
  else Some None.

Definition getTrackEndCount (f : t) (track : Z) : option Z :=
  let track :=
    if track <? 0
    then Cpp.to_int (Cpp.to_size_t (Cpp.to_size_t track + Cpp.size (trackends f)))
    else track in
  if track <? 0 then Some 0
  else if Cpp.size (trackends f) <=? Cpp.to_size_t track then Some 0
  else ends ← Cpp.at_ (trackends f) (Cpp.to_size_t track);
       Some (Cpp.to_int (Cpp.size ends)).

Definition getTrackEnd (f : t) (track subtrack : Z) : option (option TokenRef) :=
  let track :=
    if track <? 0
    then Cpp.to_int (Cpp.to_size_t (Cpp.to_size_t track + Cpp.size (trackends f)))
    else track in
  if track <? 0 then Some None
  else if Cpp.size (trackends f) <=? Cpp.to_size_t track then Some None
  else
    ends ← Cpp.at_ (trackends f) (Cpp.to_size_t track);
    let subtrack :=
      if subtrack <? 0
      then Cpp.to_int (Cpp.to_size_t (Cpp.to_size_t subtrack + Cpp.size ends))
      else subtrack in
    if subtrack <? 0 then Some None
    else if Cpp.size ends <=? Cpp.to_size_t subtrack then Some None
    else r ← Cpp.at_ ends (Cpp.to_size_t subtrack); Some (Some r).

(** ** [analyzeTokens], [analyzeLines] *)

(** [analyzeTokens]: every line is tokenized anew; the tokens are new
    objects, so no member of an earlier token survives. *)
Definition analyzeTokens (f : t) : bool * t :=
  let f' := mk (map HumdrumLine.createTokensFromLine (lines f))
               (trackstarts f) (trackends f) (parseError f) ∅ ∅ ∅ ∅ in
  (isValid f', f').

Definition analyzeLines (f : t) : bool * t :=
  let f' := with_lines (imap (λ i l, HumdrumLine.setLineIndex (Z.of_nat i) l) (lines f)) f in
  (isValid f', f').

(** ** [getMergedSpineInfo] *)

(** The loop of the general case: [extra] rounds of
    [output += " " + info[starti+1+extra]]. *)
Fixpoint merged_tail (info : list string) (idx : nat) (rounds : nat)
    (output : string) : option string :=
  match rounds with
  | O => Some output
  | S r => s ← info !! idx; merged_tail info idx r (output +:+ " " +:+ s)
  end.

Definition getMergedSpineInfo (info : list string) (starti extra : nat) : option string :=
  if (extra =? 1)%nat then
    a ← info !! starti;
    b ← info !! (starti + 1)%nat;
    let len1 := Cpp.to_int (Cpp.ssize a) in
    let len2 := Cpp.to_int (Cpp.ssize b) in
    let joined := a +:+ " " +:+ b in
    if len1 =? len2 then
      pa ← Cpp.substr a 0 (len1 - 1);
      pb ← Cpp.substr b 0 (len2 - 1);
      if String.eqb pa pb then Cpp.substr a 1 (len1 - 3) else Some joined
    else Some joined
  else
    a ← info !! starti;
    merged_tail info (starti + 1 + extra)%nat extra a.

(** ** [adjustSpines] *)

(** How a loop over the tokens of a line ends: by an early
    [return setParseError(...)], or by running to the end with its local
    vectors. *)
Inductive adjusted : Type :=
| AdjustReturn (status : bool) (f : t)
| AdjustDone (newtype newinfo : list string) (f : t).

(** [mergecount]: the number of merge tokens that directly follow. *)
Fixpoint count_merges (rest : list string) : nat :=
  match rest with
  | tok :: rest' =>
      if HumdrumToken.isMergeInterpretation tok then S (count_merges rest') else O
  | [] => O
  end.

(** The [for] loop of [adjustSpines].  [rest] holds the tokens from index
    [i] on.  The source advances [i] inside the body ([i += mergecount],
    [i++]); here [skip] counts the tokens that the loop passes over
    without running the body. *)
Fixpoint adjustSpines_loop (li : nat) (line : HLine) (datatype sinfo : list string)
    (rest : list string) (i skip : nat) (newtype newinfo : list string) (f : t)
    : option adjusted :=
  match rest with
  | [] => Some (AdjustDone newtype newinfo f)
  | tok :: rest' =>
    let continue := adjustSpines_loop li line datatype sinfo rest' (S i) in
    match skip with
    | S k => continue k newtype newinfo f
    | O =>
      if HumdrumToken.isSplitInterpretation tok then
        d ← datatype !! i;
        s ← sinfo !! i;
        continue O (newtype ++ [d; d])
                   (newinfo ++ ["(" +:+ s +:+ ")a"; "(" +:+ s +:+ ")b"]) f
      else if HumdrumToken.isMergeInterpretation tok then
        let mergecount := count_merges rest' in
        merged ← getMergedSpineInfo sinfo i mergecount;
        newinfo' ← Cpp.set_back (Cpp.resize newinfo (length newtype + 1)) merged;
        d ← datatype !! i;
        continue mergecount (newtype ++ [d]) newinfo' f
      else if HumdrumToken.isAddInterpretation tok then
        d ← datatype !! i;
        s ← sinfo !! i;
        f' ← addToTrackStarts None f;
        let n := getMaxTrack f' in
        continue O (newtype ++ [d; ""]) (newinfo ++ [s; Cpp.to_string n]) f'
      else if HumdrumToken.isExchangeInterpretation tok then
        if Z.of_nat i <? Z.of_nat (HumdrumLine.getTokenCount line) - 1 then
          if HumdrumToken.isExchangeInterpretation tok then
            d1 ← datatype !! (i + 1)%nat;
            d ← datatype !! i;
            s1 ← sinfo !! (i + 1)%nat;
            s ← sinfo !! i;
            continue 1%nat (newtype ++ [d1; d]) (newinfo ++ [s1; s]) f
          else
            let '(b, f') := setParseError "ERROR1 in *x calculation" f in
            Some (AdjustReturn b f')
        else
          let err := "ERROR2 in *x calculation" +:+ Cpp.endl +:+
                     "Index " +:+ Cpp.to_string (Z.of_nat i) +:+
                     " larger than allowed: " +:+
                     Cpp.to_string (Z.of_nat (HumdrumLine.getTokenCount line) - 1) +:+
                     Cpp.endl in
          let '(b, f') := setParseError err f in
          Some (AdjustReturn b f')
      else if HumdrumToken.isTerminateInterpretation tok then
        let k := Cpp.to_size_t (Cpp.size (trackstarts f) - 1) in
        ends ← Cpp.at_ (trackends f) k;
        continue O newtype newinfo
          (with_tracks (trackstarts f)
                       (<[Z.to_nat k := ends ++ [(li, i)]]> (trackends f)) f)
      else if String.eqb (String.substring 0 2 tok) "**" then
        s ← sinfo !! i;
        let prepared := (1 <? Cpp.size (trackstarts f)) &&
                        bool_decide (Cpp.back (trackstarts f) = Some None) in
        if negb prepared then
          let err := "Error: Exclusive interpretation with no preparation " +:+
                     "on line " +:+ Cpp.to_string (HumdrumLine.getLineIndex line) +:+
                     " spine index " +:+ Cpp.to_string (Z.of_nat i) +:+ Cpp.endl +:+
                     "Line: " +:+ HumdrumLine.text line +:+ Cpp.endl in
          let '(b, f') := setParseError err f in
          Some (AdjustReturn b f')
        else
          top ← Cpp.back (trackstarts f);
          f' ← (if bool_decide (top = None) then addToTrackStarts (Some (li, i)) f
                else Some f);
          continue O (newtype ++ [tok]) (newinfo ++ [s]) f'
      else
        d ← datatype !! i;
        s ← sinfo !! i;
        continue O (newtype ++ [d]) (newinfo ++ [s]) f
    end
  end.

(** [adjustSpines(line, datatype, sinfo)]: status, the two vectors as the
    call leaves them, and the object.  The closing loop copies
    [newtype.size()] entries of both local vectors. *)
Definition adjustSpines (li : nat) (line : HLine) (datatype sinfo : list string) (f : t)
    : option (bool * (list string * list string) * t) :=
  r ← adjustSpines_loop li line datatype sinfo (HumdrumLine.tokens line) 0 0 [] [] f;
  match r with
  | AdjustReturn b f' => Some (b, (datatype, sinfo), f')
  | AdjustDone newtype newinfo f' =>
      if (length newtype <=? length newinfo)%nat then
        let sinfo' := take (length newtype) newinfo ++
                      drop (length newtype) (Cpp.resize sinfo (length newinfo)) in
        Some (true, (newtype, sinfo'), f')
      else None
  end.

(** ** [analyzeSpines] *)

(** The inner loop on the first exclusive line: token [j] opens a track and
    is labelled [to_string(j+1)]. *)
Fixpoint open_tracks (li : nat) (toks : list string) (j : nat) (f : t) : option t :=
  match toks with
  | [] => Some f
  | _ :: toks' =>
      f1 ← addToTrackStarts (Some (li, j)) f;
      let n := Z.of_nat j + 1 in
      let f2 := setSpineInfo (li, j) (Cpp.to_string n) f1 in
      open_tracks li toks' (S j) f2
  end.

(** The loop [setSpineInfo(sinfo[j])] over the tokens of a line. *)
Fixpoint label_tokens (li : nat) (toks : list string) (j : nat) (sinfo : list string)
    (f : t) : option t :=
  match toks with
  | [] => Some f
  | _ :: toks' =>
      s ← sinfo !! j;
      label_tokens li toks' (S j) sinfo (setSpineInfo (li, j) s f)
  end.

Definition first_labels (n : nat) : list string :=
  map (λ j : nat, Cpp.to_string (Z.of_nat j + 1)) (seq 0 n).

(** How the body of a loop over the lines ends: with a [return], or by
    going on to the next line with the local variables of the loop. *)
Inductive spines_step : Type :=
| SpinesReturn (status : bool) (f : t)
| SpinesContinue (init : bool) (datatype sinfo : list string) (f : t).

(** The body of the main loop for line [l] at index [i]. *)
Definition analyzeSpines_line (i : nat) (l : HLine) (init : bool)
    (datatype sinfo : list string) (f : t) : option spines_step :=
  if negb (HumdrumLine.hasSpines l) then
    _ ← HumdrumLine.token l 0;
    Some (SpinesContinue init datatype sinfo f)
  else if negb init && negb (HumdrumLine.isExclusive l) then
    let err := "Error on line: " +:+ Cpp.to_string (Z.of_nat i + 1) +:+ ":" +:+
               Cpp.endl +:+
               "   Data found before exclusive interpretation" +:+ Cpp.endl +:+
               "   LINE: " +:+ HumdrumLine.text l in
    let '(b, f') := setParseError err f in Some (SpinesReturn b f')
  else if negb init && HumdrumLine.isExclusive l then
    f' ← open_tracks i (HumdrumLine.tokens l) 0 f;
    Some (SpinesContinue true (HumdrumLine.tokens l)
            (first_labels (HumdrumLine.getTokenCount l)) f')
  else if negb (length datatype =? HumdrumLine.getTokenCount l)%nat then
    let err := "Error on line " +:+ Cpp.to_string (Z.of_nat i + 1) +:+ ":" +:+
               Cpp.endl +:+
               "   Expected " +:+ Cpp.to_string (Cpp.size datatype) +:+ " fields," +:+
               " but found " +:+
               Cpp.to_string (Z.of_nat (HumdrumLine.getTokenCount l)) +:+ Cpp.endl in
    let '(b, f') := setParseError err f in Some (SpinesReturn b f')
  else
    f1 ← label_tokens i (HumdrumLine.tokens l) 0 sinfo f;
    if negb (HumdrumLine.isManipulator l) then
      Some (SpinesContinue init datatype sinfo f1)
    else
      '(ok, (datatype', sinfo'), f2) ← adjustSpines i l datatype sinfo f1;
      if negb ok then Some (SpinesReturn (isValid f2) f2)
      else Some (SpinesContinue init datatype' sinfo' f2).

(** The main loop, over the lines from index [i] on. *)
Fixpoint analyzeSpines_loop (ls : list HLine) (i : nat) (init : bool)
    (datatype sinfo : list string) (f : t) : option (bool * t) :=
  match ls with
  | [] => Some (isValid f, f)
  | l :: ls' =>
      r ← analyzeSpines_line i l init datatype sinfo f;
      match r with
      | SpinesReturn status f' => Some (status, f')
      | SpinesContinue init' datatype' sinfo' f' =>
          analyzeSpines_loop ls' (S i) init' datatype' sinfo' f'
      end
  end.

Definition analyzeSpines (f : t) : option (bool * t) :=
  f0 ← addToTrackStarts None (with_tracks [] [] f);
  analyzeSpines_loop (lines f0) 0 false [] [] f0.

(** ** [stitchLinesTogether] *)

Inductive stitched : Type :=
| StitchReturn (status : bool) (f : t)
| StitchDone (i ii : nat) (f : t).

(** [previous.token(i).makeForwardLink(next.token(i))] for every [i]: the
    loop of the one-to-one case. *)
Fixpoint link_columns (p n : nat) (next : HLine) (rest : list string) (i : nat) (f : t)
    : option t :=
  match rest with
  | [] => Some f
  | _ :: rest' =>
      _ ← HumdrumLine.token next i;
      link_columns p n next rest' (S i) (makeForwardLink (p, i) (n, i) f)
  end.

(** The [while] loop on a run of merge tokens: each of the [run] tokens
    from index [i] on is linked to [next.token(ii)]. *)
Fixpoint link_merges (p n : nat) (run : nat) (i ii : nat) (f : t) : t :=
  match run with
  | O => f
  | S r => link_merges p n r (S i) ii (makeForwardLink (p, i) (n, ii) f)
  end.

(** The general [for] loop.  [rest] holds the tokens of the previous line
    from index [i] on, [ii] is the cursor on the next line, and [skip]
    counts the tokens passed over after the body advanced [i] itself (the
    run of merges, the partner of an exchange).  At the end the loop
    variable stands at [i + skip]. *)
Fixpoint stitch_loop (p n : nat) (previous next : HLine) (rest : list string)
    (i skip ii : nat) (f : t) : option stitched :=
  match rest with
  | [] => Some (StitchDone (i + skip) ii f)
  | tok :: rest' =>
    let continue := stitch_loop p n previous next rest' (S i) in
    match skip with
    | S k => continue k ii f
    | O =>
      if negb (HumdrumToken.isManipulator tok) then
        _ ← HumdrumLine.token next ii;
        continue O (S ii) (makeForwardLink (p, i) (n, ii) f)
      else if HumdrumToken.isSplitInterpretation tok then
        _ ← HumdrumLine.token next ii;
        _ ← HumdrumLine.token next (S ii);
        continue O (S (S ii))
          (makeForwardLink (p, i) (n, S ii) (makeForwardLink (p, i) (n, ii) f))
      else if HumdrumToken.isMergeInterpretation tok then
        _ ← HumdrumLine.token next ii;
        let run := S (count_merges rest') in
        continue (pred run) (S ii) (link_merges p n run i ii f)
      else if HumdrumToken.isExchangeInterpretation tok then
        if (i <? HumdrumLine.getTokenCount previous)%nat then
          partner ← HumdrumLine.token previous (S i);
          if HumdrumToken.isExchangeInterpretation partner then
            _ ← HumdrumLine.token next ii;
            _ ← HumdrumLine.token next (S ii);
            continue 1%nat (S (S ii))
              (makeForwardLink (p, i) (n, S ii) (makeForwardLink (p, S i) (n, ii) f))
          else continue 1%nat ii f
        else continue 1%nat ii f
      else if HumdrumToken.isTerminateInterpretation tok then
        continue O ii f
      else if HumdrumToken.isAddInterpretation tok then
        opened ← HumdrumLine.token next (S ii);
        if negb (HumdrumToken.isExclusiveInterpretation opened) then
          got ← HumdrumLine.token next i;
          let err := "Error: expecting exclusive interpretation on line " +:+
                     Cpp.to_string (HumdrumLine.getLineNumber next) +:+
                     " at token " +:+ Cpp.to_string (Z.of_nat i) +:+
                     " but got " +:+ got +:+ Cpp.endl in
          let '(b, f') := setParseError err f in
          Some (StitchReturn b f')
        else
          _ ← HumdrumLine.token next ii;
          continue O (S (S ii)) (makeForwardLink (p, i) (n, ii) f)
      else if HumdrumToken.isExclusiveInterpretation tok then
        _ ← HumdrumLine.token next ii;
        continue O (S ii) (makeForwardLink (p, i) (n, ii) f)
      else
        let '(b, f') := setParseError "Error: should not get here" f in
        Some (StitchReturn b f')
    end
  end.

Definition length_error (previous next : HLine) : string :=
  "Error lines " +:+ Cpp.to_string (HumdrumLine.getLineNumber previous) +:+
  " and " +:+ Cpp.to_string (HumdrumLine.getLineNumber next) +:+
  " not same length" +:+ Cpp.endl +:+
  "Line " +:+ Cpp.to_string (HumdrumLine.getLineNumber previous) +:+ ": " +:+
  HumdrumLine.text previous +:+ Cpp.endl +:+
  "Line " +:+ Cpp.to_string (HumdrumLine.getLineNumber next) +:+ ": " +:+
  HumdrumLine.text next.

Definition alignment_error (previous next : HLine) (i ii : nat) : string :=
  "Error: cannot stitch lines together due to alignment problem" +:+ Cpp.endl +:+
  "Line " +:+ Cpp.to_string (HumdrumLine.getLineNumber previous) +:+ ": " +:+
  HumdrumLine.text previous +:+ Cpp.endl +:+
  "Line " +:+ Cpp.to_string (HumdrumLine.getLineNumber next) +:+ ": " +:+
  HumdrumLine.text next +:+ Cpp.endl +:+
  "I = " +:+ Cpp.to_string (Z.of_nat i) +:+ " token count " +:+
  Cpp.to_string (Z.of_nat (HumdrumLine.getTokenCount previous)) +:+ Cpp.endl +:+
  "II = " +:+ Cpp.to_string (Z.of_nat ii) +:+ " token count " +:+
  Cpp.to_string (Z.of_nat (HumdrumLine.getTokenCount next)) +:+ Cpp.endl.

(** [stitchLinesTogether(previous, next)], the two lines given by their
    positions [p] and [n] in [lines]. *)
Definition stitchLinesTogether (p n : nat) (f : t) : option (bool * t) :=
  previous ← lines f !! p;
  next ← lines f !! n;
  if negb (HumdrumLine.isInterpretation previous) &&
     negb (HumdrumLine.isInterpretation next) then
    if negb (HumdrumLine.getTokenCount previous =? HumdrumLine.getTokenCount next)%nat
    then Some (setParseError (length_error previous next) f)
    else
      f' ← link_columns p n next (HumdrumLine.tokens previous) 0 f;
      Some (true, f')
  else
    r ← stitch_loop p n previous next (HumdrumLine.tokens previous) 0 0 0 f;
    match r with
    | StitchReturn b f' => Some (b, f')
    | StitchDone i ii f' =>
        if negb (i =? HumdrumLine.getTokenCount previous)%nat ||
           negb (ii =? HumdrumLine.getTokenCount next)%nat
        then Some (setParseError (alignment_error previous next i ii) f')
        else Some (isValid f', f')
    end.

(** ** [analyzeLinks] *)

Inductive links_step : Type :=
| LinksReturn (status : bool) (f : t)
| LinksContinue (next : option nat) (f : t).

(** The body of the loop for line [l] at index [i]; [next] is the local
    pointer of the source, [None] for [NULL].  A line handed to the
    stitcher is the line at its position in [lines]. *)
Definition analyzeLinks_line (i : nat) (l : HLine) (next : option nat) (f : t)
    : option links_step :=
  if negb (HumdrumLine.hasSpines l) then Some (LinksContinue next f)
  else
    match next with
    | None => Some (LinksContinue (Some i) f)
    | Some previous =>
        '(ok, f') ← stitchLinesTogether previous i f;
        if negb ok then Some (LinksReturn (isValid f') f')
        else Some (LinksContinue (Some i) f')
    end.

Fixpoint analyzeLinks_loop (ls : list HLine) (i : nat) (next : option nat) (f : t)
    : option (bool * t) :=
  match ls with
  | [] => Some (isValid f, f)
  | l :: ls' =>
      r ← analyzeLinks_line i l next f;
      match r with
      | LinksReturn status f' => Some (status, f')
      | LinksContinue next' f' => analyzeLinks_loop ls' (S i) next' f'
      end
  end.

Definition analyzeLinks (f : t) : option (bool * t) :=
  analyzeLinks_loop (lines f) 0 None f.

(** ** [analyzeTracks] *)

(** Modelled from the spec: [HumdrumLine::analyzeTracks] (see
    [HumdrumLine.track_of_spineinfo]) on the line at position [li]. *)
Fixpoint line_analyzeTracks (li : nat) (toks : list string) (j : nat) (f : t) : bool * t :=
  match toks with
  | [] => (true, f)
  | _ :: toks' =>
      let tr := HumdrumLine.track_of_spineinfo (getSpineInfo f (li, j)) in
      line_analyzeTracks li toks' (S j) (with_track (<[(li, j) := tr]> (track f)) f)
  end.

Fixpoint analyzeTracks_loop (ls : list HLine) (i : nat) (f : t) : bool * t :=
  match ls with
  | [] => (isValid f, f)
  | l :: ls' =>
      let '(status, f') := line_analyzeTracks i (HumdrumLine.tokens l) 0 f in
      if negb status then (false, f') else analyzeTracks_loop ls' (S i) f'
  end.

Definition analyzeTracks (f : t) : bool * t := analyzeTracks_loop (lines f) 0 f.

(** ** [read] *)

(** The [getline] loop of [read(istream&)]: one new line per text line of
    the stream.  (The index of a new line is set by [analyzeLines] before
    anything reads it.) *)
Definition append_lines (contents : list string) (f : t) : t :=
  with_lines (lines f ++ map (λ s, HumdrumLine.mk s [] 0) contents) f.

Definition read (contents : list string) (f : t) : option (bool * t) :=
  let f0 := append_lines contents f in
  let '(ok1, f1) := analyzeTokens f0 in
  if negb ok1 then Some (isValid f1, f1) else
  let '(ok2, f2) := analyzeLines f1 in
  if negb ok2 then Some (isValid f2, f2) else
  '(ok3, f3) ← analyzeSpines f2;
  if negb ok3 then Some (isValid f3, f3) else
  '(ok4, f4) ← analyzeLinks f3;
  if negb ok4 then Some (isValid f4, f4) else
  let '(ok5, f5) := analyzeTracks f4 in
  if negb ok5 then Some (isValid f5, f5) else
  Some (isValid f5, f5).

(** ** [getPrimaryTrackSeq] *)

(** The option bits, as the comment above the function gives them. *)
Definition OPT_NONULLS : Z := 1.
Definition OPT_NOMANIP : Z := 2.
Definition OPT_NOGLOBAL : Z := 4.

(** [for (i = from; ...; i++) if (!infile[i].hasSpines())
    output.push_back(&infile[i].token(0))], for [rounds] rounds. *)
Fixpoint push_globals (f : t) (rounds : nat) (i : Z) (output : list TokenRef)
    : option (list TokenRef) :=
  match rounds with
  | O => Some output
  | S r =>
      pos ← operator_index f i;
      l ← lines f !! pos;
      if negb (HumdrumLine.hasSpines l) then
        _ ← HumdrumLine.token l 0;
        push_globals f r (i + 1) (output ++ [(pos, 0%nat)])
      else push_globals f r (i + 1) output
  end.

(** The [while (current != NULL)] loop.  The links made by [analyzeLinks]
    lead from a line to a later one, so the walk is bounded by the number
    of lines; [None] also stands for a walk that outruns this bound. *)
Fixpoint walk_track (fuel : nat) (f : t) (nullQ manipQ globalQ : bool)
    (current : TokenRef) (output : list TokenRef) : option (list TokenRef) :=
  match fuel with
  | O => None
  | S fuel' =>
      txt ← tokenText f current;
      output' ←
        (if negb nullQ && HumdrumToken.isNull txt then Some output
         else if negb manipQ && HumdrumToken.isManipulator txt &&
                 negb (HumdrumToken.isTerminator txt) &&
                 negb (HumdrumToken.isExclusive txt) then Some output
         else
           filled ←
             (if (0 <? Cpp.size output) && globalQ then
                last_tok ← Cpp.back output;
                from ← tokenLineIndex f last_tok;
                upto ← tokenLineIndex f current;
                push_globals f (Z.to_nat (upto - from)) from output
              else Some output);
           Some (filled ++ [current]));
      if (0 <? Cpp.size (getNextTokens f current)) then
        nxt ← getNextTokens f current !! 0%nat;
        walk_track fuel' f nullQ manipQ globalQ nxt output'
      else Some output'
  end.

Definition getPrimaryTrackSeq (f : t) (track options : Z) : option (list TokenRef) :=
  let nullQ := negb (Z.land options OPT_NONULLS =? 0) in
  let manipQ := negb (Z.land options OPT_NOMANIP =? 0) in
  let globalQ := negb (Z.land options OPT_NOGLOBAL =? 0) in
  start ← getTrackStart f track;
  match start with
  | None => Some []
  | Some current =>
      startindex ← tokenLineIndex f current;
      output ← (if globalQ then push_globals f (Z.to_nat startindex) 0 []
                else Some []);
      output ← walk_track (S (length (lines f))) f nullQ manipQ globalQ current output;
      last_tok ← Cpp.back output;
      endindex ← tokenLineIndex f last_tok;
      if globalQ
      then push_globals f (Z.to_nat (getLineCount f - endindex)) endindex output
      else Some output
  end.

(** ** [getTrackSeq] *)

(** The loop over the fields of the line at position [pos]: [toks] holds
    the texts of the tokens from field [j] on.  The test for a null token
    stands twice in the source. *)
Fixpoint trackseq_fields (f : t) (pos : nat) (toks : list string) (j : nat)
    (track : Z) (nullQ manipQ : bool) (tempout : list TokenRef) : list TokenRef :=
  match toks with
  | [] => tempout
  | txt :: toks' =>
      let continue := trackseq_fields f pos toks' (S j) track nullQ manipQ in
      if getTrack f (pos, j) =? track then
        if negb nullQ && HumdrumToken.isNull txt then continue tempout
        else if negb nullQ && HumdrumToken.isNull txt then continue tempout
        else if negb manipQ && HumdrumToken.isManipulator txt &&
                negb (HumdrumToken.isTerminator txt) &&
                negb (HumdrumToken.isExclusive txt) then continue tempout
        else continue (tempout ++ [(pos, j)])
      else continue tempout
  end.

(** The loop over the lines, for [rounds] rounds from index [i] on; every
    [infile[i]] goes through [operator[]].  Modelled from the spec:
    [HumdrumLine::getFieldCount] is missing from the sources; the fields of
    a line are its tokens. *)
Fixpoint trackseq_lines (f : t) (rounds : nat) (i : Z) (track : Z)
    (nullQ manipQ globalQ : bool) (output : list (list TokenRef))
    : option (list (list TokenRef)) :=
  match rounds with
  | O => Some output
  | S r =>
      pos ← operator_index f i;
      l ← lines f !! pos;
      if globalQ && negb (HumdrumLine.hasSpines l) then
        trackseq_lines f r (i + 1) track nullQ manipQ globalQ (output ++ [[]])
      else
        let tempout :=
          trackseq_fields f pos (HumdrumLine.tokens l) 0 track nullQ manipQ [] in
        trackseq_lines f r (i + 1) track nullQ manipQ globalQ
          (if 0 <? Cpp.size tempout then output ++ [tempout] else output)
  end.

Definition getTrackSeq (f : t) (track options : Z) : option (list (list TokenRef)) :=
  let nullQ := negb (Z.land options OPT_NONULLS =? 0) in
  let manipQ := negb (Z.land options OPT_NOMANIP =? 0) in
  let globalQ := negb (Z.land options OPT_NOGLOBAL =? 0) in
  trackseq_lines f (Z.to_nat (getLineCount f)) 0 track nullQ manipQ globalQ [].

(** ** [read(istream&)] on the characters of a stream, [readString] *)

(** [sizeof(buffer)] in [read(istream&)]. *)
Definition buffer_size : N := 123123.

(** A [char] array read as a C string, as the constructor
    [HumdrumLine(buffer)] does: the text ends before the first NUL. *)
Fixpoint c_str (s : string) : string :=
  match s with
  | EmptyString => EmptyString
  | String c s' =>
      if Ascii.eqb c "000"%char then EmptyString else String c (c_str s')
  end.

(** The loop [while (contents.getline(buffer, sizeof(buffer), '\n'))] with
    the characters [s] left in the stream; [cur] holds the characters that
    the running call of [getline] has stored and [stored] is their number.
    A call of [getline] ends, the conditions being tested in this order,
    at the end of the stream (the call fails when it has extracted
    nothing), at a newline (extracted and not stored), or when
    [sizeof(buffer) - 1] characters are stored (the call fails).  A call
    that fails ends the loop; every other call adds a line. *)
Fixpoint getlines_from (s : string) (cur : string) (stored : N) : list string :=
  match s with
  | EmptyString => if (stored =? 0)%N then [] else [c_str cur]
  | String c s' =>
      if Ascii.eqb c "010"%char then c_str cur :: getlines_from s' "" 0
      else if (stored =? buffer_size - 1)%N then []
      else getlines_from s' (cur +:+ String c "") (stored + 1)
  end.

Definition getlines (s : string) : list string := getlines_from s "" 0.

(** [readString(const string&)]: the text is written to a [stringstream],
    which [read(istream&)] then consumes. *)
Definition readString (contents : string) (f : t) : option (bool * t) :=
  read (getlines contents) f.

(** ** [addUniqueTokens] *)

(** The inner loop [for (j=0; j<target.size(); j++)]: every round compares
    [source[i]] with [target[i]]. *)
Fixpoint addUnique_found (rounds : nat) (x : TokenRef) (target : list TokenRef)
    (i : nat) (found : bool) : option bool :=
  match rounds with
  | O => Some found
  | S r =>
      y ← target !! i;
      addUnique_found r x target i (if decide (x = y) then true else found)
  end.

(** The outer loop, with the elements of [source] from index [i] on. *)
Fixpoint addUnique_loop (source : list TokenRef) (i : nat) (target : list TokenRef)
    : option (list TokenRef) :=
  match source with
  | [] => Some target
  | x :: source' =>
      addUnique_found (length target) x target i false ≫= λ found : bool,
      addUnique_loop source' (S i) (if found then target else target ++ [x])
  end.

(** [addUniqueTokens(target, source)]: the vector [target] after the call. *)
Definition addUniqueTokens (target source : list TokenRef) : option (list TokenRef) :=
  addUnique_loop source 0 target.

(** ** [operator<<] *)

(** The loop [out << infile[i] << '\n'], for [rounds] rounds from index
    [i] on; a line is printed as its text. *)
Fixpoint print_lines (f : t) (rounds : nat) (i : Z) (out : string) : option string :=
  match rounds with
  | O => Some out
  | S r =>
      pos ← operator_index f i;
      l ← lines f !! pos;
      print_lines f r (i + 1) (out +:+ HumdrumLine.text l +:+ Cpp.endl)
  end.

(** [out << infile]: the characters written to [out]. *)
Definition operator_out (f : t) : option string :=
  print_lines f (Z.to_nat (getLineCount f)) 0 "".

(** ** [sortTokenPairsByLineIndex] *)

Section TokenPairs.

(** The comparator reads the line index and the field index of the first
    token of each pair. *)
Context {Token : Type} (getLineIndex getFieldIndex : Token → Z).

Definition sortTokenPairsByLineIndex (a b : Token * Token) : bool :=
  if getLineIndex a.1 <? getLineIndex b.1 then true
  else if (getLineIndex a.1 =? getLineIndex b.1) &&
          (getFieldIndex a.1 <? getFieldIndex b.1) then true
  else false.

End TokenPairs.

End HumdrumFileBase.

(* ================================================================= *)
(** * Part IV: properties *)

Import HumdrumFileBase.

(** The member functions are unfolded on request only. *)
Arguments addToTrackStarts : simpl never.
Arguments setParseError : simpl never.
Arguments setSpineInfo : simpl never.
Arguments makeForwardLink : simpl never.
Arguments getMaxTrack : simpl never.
Arguments getMergedSpineInfo : simpl never.
Arguments adjustSpines : simpl never.
Arguments analyzeSpines_line : simpl never.
Arguments stitchLinesTogether : simpl never.
Arguments analyzeLinks_line : simpl never.
Arguments Cpp.substr : simpl never.

(** ** Vocabulary of the statements *)

(** The values of an [int]. *)
Definition int_range (z : Z) : Prop := - 2 ^ 31 <= z < 2 ^ 31.

(** An index counted from the end when negative. *)
Definition from_end (n sz : Z) : Z := if n <? 0 then n + sz else n.

(** States that differ at most in the track table, the labels and the
    error text. *)
Definition same_lines_links (f f' : HumdrumFileBase.t) : Prop :=
  lines f' = lines f ∧ nextTokens f' = nextTokens f ∧
  previousTokens f' = previousTokens f.

(** States that agree on everything but the links and the error text. *)
Definition same_analysis (f f' : HumdrumFileBase.t) : Prop :=
  lines f' = lines f ∧ spineinfo f' = spineinfo f ∧
  trackstarts f' = trackstarts f ∧ trackends f' = trackends f ∧
  track f' = track f.

(** [links_within p n f f']: from [f] to [f'] forward links were added
    only to tokens of line [p], backward links only to tokens of line
    [n]. *)
Definition links_within (p n : nat) (f f' : HumdrumFileBase.t) : Prop :=
  same_analysis f f' ∧
  (∀ r : TokenRef, r.1 ≠ p → nextTokens f' !! r = nextTokens f !! r) ∧
  (∀ r : TokenRef, r.1 ≠ n → previousTokens f' !! r = previousTokens f !! r).

(** The track numbers [1; 2; ...; n]. *)
Definition track_numbers (n : nat) : list Z := map Z.of_nat (seq 1 n).

(** From [f] to [f'] the track table only grew and start tokens once
    stored stayed. *)
Definition tracks_step (f f' : HumdrumFileBase.t) : Prop :=
  (length (trackstarts f) <= length (trackstarts f'))%nat ∧
  (∀ k r, trackstarts f !! k = Some (Some r) → trackstarts f' !! k = Some (Some r)).

Definition adjusted_state (r : adjusted) : HumdrumFileBase.t :=
  match r with AdjustReturn _ f | AdjustDone _ _ f => f end.

Definition spines_state (r : spines_step) : HumdrumFileBase.t :=
  match r with SpinesReturn _ f | SpinesContinue _ _ _ f => f end.

Definition stitched_state (r : stitched) : HumdrumFileBase.t :=
  match r with StitchReturn _ f | StitchDone _ _ f => f end.

Definition links_state (r : links_step) : HumdrumFileBase.t :=
  match r with LinksReturn _ f | LinksContinue _ f => f end.

(** A line of text from the texts of its fields. *)
Fixpoint row (fields : list string) : string :=
  match fields with
  | [] => ""
  | [x] => x
  | x :: rest => x +:+ Cpp.tab +:+ row rest
  end.

(** The object after [read] on a new object; the new object itself where
    the behaviour of [read] is not defined. *)
Definition parsed (contents : list string) : HumdrumFileBase.t :=
  match read contents new with
  | Some (_, f) => f
  | None => new
  end.

(** The object on which [read] runs the spine analysis. *)
Definition tokenized (contents : list string) (f : HumdrumFileBase.t)
    : HumdrumFileBase.t :=
  (analyzeLines (analyzeTokens (append_lines contents f)).2).2.

(** Line [j] is the first structural line after line [i]. *)
Definition next_structural (ls : list HLine) (i j : nat) : Prop :=
  (i < j)%nat ∧
  (∃ lj, ls !! j = Some lj ∧ HumdrumLine.hasSpines lj = true) ∧
  (∀ k lk, (i < k < j)%nat → ls !! k = Some lk → HumdrumLine.hasSpines lk = false).

(** Lines [i] and [j] are adjacent structural lines without manipulator
    tokens and with differing field counts. *)
Definition ragged_pair (ls : list HLine) (i j : nat) (li lj : HLine) : Prop :=
  ls !! i = Some li ∧ ls !! j = Some lj ∧
  HumdrumLine.hasSpines li = true ∧ next_structural ls i j ∧
  HumdrumLine.isManipulator li = false ∧ HumdrumLine.isManipulator lj = false ∧
  HumdrumLine.getTokenCount li ≠ HumdrumLine.getTokenCount lj.

(** The message holds the numbers and the texts of both lines. *)
Definition names_both_lines (msg : string) (la lb : HLine) : Prop :=
  is_infix (Cpp.to_string (HumdrumLine.getLineNumber la)) msg ∧
  is_infix (Cpp.to_string (HumdrumLine.getLineNumber lb)) msg ∧
  is_infix (HumdrumLine.text la) msg ∧ is_infix (HumdrumLine.text lb) msg.

(** The pipeline as the design document words it: the stages run in a
    fixed order, and the first stage that leaves an error stored ends the
    run, which is then reported invalid. *)
Definition stage : Type := HumdrumFileBase.t → option (bool * HumdrumFileBase.t).
Definition pipeline_stages : list stage :=
  [ (λ f, Some (analyzeTokens f)); (λ f, Some (analyzeLines f));
    analyzeSpines; analyzeLinks; (λ f, Some (analyzeTracks f)) ].
Fixpoint run_until_error (stages : list stage) (f : HumdrumFileBase.t)
    : option (bool * HumdrumFileBase.t) :=
  match stages with
  | [] => Some (isValid f, f)
  | s :: rest =>
      '(_, f') ← s f;
      if isValid f' then run_until_error rest f' else Some (false, f')
  end.

(** Two tokenized lines, an exchange line and a data line, before any
    link is made. *)
Definition exchange_pair : HumdrumFileBase.t :=
  with_lines [HumdrumLine.mk (row ["*x"; "*x"]) ["*x"; "*x"] 0;
              HumdrumLine.mk (row ["A"; "B"]) ["A"; "B"] 1] new.

(** A file of [n] one-token data lines. *)
Definition data_lines (n : nat) : list HLine :=
  imap (λ i _, HumdrumLine.mk "x" ["x"] (Z.of_nat i)) (replicate n ()).

Definition three_lines : HumdrumFileBase.t := with_lines (data_lines 3) new.

(** The single-spine file of the end-to-end scenario. *)
Definition kern_file : list string := ["**kern"; "4c"; "4d"; "*-"].

(** Example files. *)
Definition two_spines : list string :=
  [row ["**a"; "**b"]; row ["*-"; "*-"]].

Definition three_way_merge : list string :=
  [row ["**a"; "**b"; "**c"; "**d"]; row ["*v"; "*v"; "*v"; "*"];
   row ["x"; "y"]; row ["*-"; "*-"]].

Definition two_way_merge : list string :=
  [row ["**a"; "**b"]; row ["*v"; "*v"]; "x"; "*-"].

Definition unmatched_exchange : list string :=
  [row ["**a"; "**b"]; row ["1"; "2"]; row ["*x"; "*"]].

Definition ragged_data : list string :=
  [row ["**a"; "**b"; "**c"; "**d"]; row ["p"; "q"; "r"; "s"];
   row ["p"; "q"; "r"; "s"; "t"]].

Definition split_file : list string :=
  ["**kern"; "*^"; "!! both halves"; row ["4c"; "4e"]; row ["*v"; "*v"]; "*-"].

Definition add_file : list string :=
  ["**a"; "*+"; row ["*"; "**b"]; row ["x"; "y"]; row ["*-"; "*-"]].


(** A file with an exchange line. *)
Definition exchange_file : list string :=
  [row ["**a"; "**b"]; row ["*x"; "*x"]; row ["A"; "B"]; row ["*-"; "*-"]].

(** The text that holds the lines [ls], each one ended by a newline. *)
Fixpoint unlines (ls : list string) : string :=
  match ls with
  | [] => ""
  | l :: ls' => l +:+ Cpp.endl +:+ unlines ls'
  end.

(** The character [c] does not occur in [s]. *)
Fixpoint no_char (c : ascii) (s : string) : bool :=
  match s with
  | EmptyString => true
  | String d s' => negb (Ascii.eqb d c) && no_char c s'
  end.

(** A line that [getline] hands over whole: no newline and no NUL in it,
    and short enough for the buffer. *)
Definition fits_buffer (l : string) : Prop :=
  no_char "010" l = true ∧ no_char "000" l = true ∧
  (N.of_nat (String.length l) < buffer_size)%N.

(** A line of as many characters as the buffer has. *)
Definition long_line : string :=
  string_of_list_ascii (repeat "a"%char (N.to_nat buffer_size)).

(** The line classes of a text, as [read] will see them once the text is
    tokenized. *)
Definition text_has_spines (s : string) : bool :=
  HumdrumLine.hasSpines (HumdrumLine.createTokensFromLine (HumdrumLine.mk s [] 0)).
Definition text_is_exclusive (s : string) : bool :=
  HumdrumLine.isExclusive (HumdrumLine.createTokensFromLine (HumdrumLine.mk s [] 0)).

(** [r] is a terminate token of the lines [ls]. *)
Definition is_terminator_of (ls : list HLine) (r : TokenRef) : Prop :=
  ∃ l txt, ls !! r.1 = Some l ∧ HumdrumLine.tokens l !! r.2 = Some txt ∧
    HumdrumToken.isTerminateInterpretation txt = true.

(** The track table has one end list for every start entry, the reserved
    entry 0 included, and the end lists hold terminate tokens only. *)
Definition track_table_ok (ls : list HLine) (f : HumdrumFileBase.t) : Prop :=
  length (trackstarts f) = length (trackends f) ∧
  (0 < length (trackstarts f))%nat ∧
  Forall (Forall (is_terminator_of ls)) (trackends f).

(** [r] designates a token of the lines [ls]. *)
Definition is_token_of (ls : list HLine) (r : TokenRef) : Prop :=
  ∃ l, ls !! r.1 = Some l ∧ (r.2 < HumdrumLine.getTokenCount l)%nat.

(** A link from [a] to [b] leads from a token of a line with spines to a
    token of the next line with spines. *)
Definition link_ok (ls : list HLine) (a b : TokenRef) : Prop :=
  is_token_of ls a ∧ is_token_of ls b ∧
  (∃ la, ls !! a.1 = Some la ∧ HumdrumLine.hasSpines la = true) ∧
  next_structural ls a.1 b.1.

(** Every forward link is such a link, and the backward links mirror the
    forward links. *)
Definition links_ok (ls : list HLine) (f : HumdrumFileBase.t) : Prop :=
  (∀ a b, b ∈ getNextTokens f a → link_ok ls a b) ∧
  (∀ a b, b ∈ getNextTokens f a ↔ a ∈ getPreviousTokens f b).

(** [c] is reached from [a] by following, zero or more times, the first
    forward link of a token. *)
Inductive follows_first (f : HumdrumFileBase.t) : TokenRef → TokenRef → Prop :=
| follows_refl (a : TokenRef) : follows_first f a a
| follows_step (a b c : TokenRef) :
    getNextTokens f a !! 0%nat = Some b → follows_first f b c →
    follows_first f a c.

(** The tokens of a sequence stand on lines further and further down. *)
Definition lines_increase (l : list TokenRef) : Prop :=
  ∀ i j x y, (i < j)%nat → l !! i = Some x → l !! j = Some y → (x.1 < y.1)%nat.

(** The tokens that the extraction of a track sequence lets through. *)
Definition kept_by (nullQ manipQ : bool) (txt : string) : bool :=
  negb (negb nullQ && HumdrumToken.isNull txt) &&
  negb (negb manipQ && HumdrumToken.isManipulator txt &&
        negb (HumdrumToken.isTerminator txt) && negb (HumdrumToken.isExclusive txt)).

(** The links from field [c] of line [p] to field [c] of line [n], for
    the [k] fields from [i] on. *)
Fixpoint link_straight (p n : nat) (k i : nat) (g : HumdrumFileBase.t)
    : HumdrumFileBase.t :=
  match k with
  | O => g
  | S k' => link_straight p n k' (S i) (makeForwardLink (p, i) (n, i) g)
  end.


(** The tokens of line [n] before field [ii] have a backward link, or are
    exclusive interpretations. *)
Definition reached_upto (n : nat) (next : HLine) (ii : nat) (f : HumdrumFileBase.t)
    : Prop :=
  ∀ c t, (c < ii)%nat → HumdrumLine.token next c = Some t →
    getPreviousTokens f (n, c) ≠ [] ∨ HumdrumToken.isExclusiveInterpretation t = true.

(** The tokens of line [p] before field [k] have a forward link, the
    terminate tokens apart. *)
Definition linked_upto (p : nat) (previous : HLine) (k : nat) (f : HumdrumFileBase.t)
    : Prop :=
  ∀ a t, (a < k)%nat → HumdrumLine.token previous a = Some t →
    HumdrumToken.isTerminateInterpretation t = false →
    getNextTokens f (p, a) ≠ [].

(** The terminate tokens of line [p] have no forward link. *)
Definition ends_unlinked (p : nat) (previous : HLine) (f : HumdrumFileBase.t) : Prop :=
  ∀ a t, HumdrumLine.token previous a = Some t →
    HumdrumToken.isTerminateInterpretation t = true →
    getNextTokens f (p, a) = [].










(** ** Integers and vectors *)

Lemma to_size_t_nonneg (z : Z) : 0 <= z < 2 ^ 64 → Cpp.to_size_t z = z.
Proof. intros H. unfold Cpp.to_size_t. apply Z.mod_small. lia. Qed.

Lemma to_size_t_neg (z : Z) : - 2 ^ 64 <= z < 0 → Cpp.to_size_t z = z + 2 ^ 64.
Proof.
  intros H. unfold Cpp.to_size_t.
  symmetry. apply (Z.mod_unique _ _ (-1)); lia.
Qed.

Lemma to_int_id (z : Z) : int_range z → Cpp.to_int z = z.
Proof.
  unfold int_range, Cpp.to_int. intros H.
  rewrite Z.mod_small by lia. lia.
Qed.

Lemma to_int_high (z : Z) : 2 ^ 64 - 2 ^ 31 <= z < 2 ^ 64 → Cpp.to_int z = z - 2 ^ 64.
Proof.
  intros H. unfold Cpp.to_int.
  rewrite <- (Z.mod_unique (z + 2 ^ 31) (2 ^ 32) (2 ^ 32) (z - 2 ^ 64 + 2 ^ 31)); lia.
Qed.

(** [n += v.size()] for a negative [int n]: the sum is formed in [size_t]
    and converted back; as long as the size fits an [int] this is the
    mathematical sum. *)
Lemma add_size_to_negative (n sz : Z) :
  - 2 ^ 31 <= n < 0 → 0 <= sz < 2 ^ 31 →
  Cpp.to_int (Cpp.to_size_t (Cpp.to_size_t n + sz)) = n + sz.
Proof.
  intros Hn Hsz. rewrite (to_size_t_neg n) by lia.
  destruct (Z.lt_ge_cases (n + sz) 0) as [Hneg | Hpos].
  - rewrite to_size_t_nonneg by lia. rewrite to_int_high by lia. lia.
  - replace (n + 2 ^ 64 + sz) with (n + sz + 1 * 2 ^ 64) by lia.
    unfold Cpp.to_size_t. rewrite Z.mod_add by lia.
    rewrite Z.mod_small by lia. apply to_int_id. unfold int_range. lia.
Qed.

(** [v.size() - n] for a negative [int n], as [operator[]] computes it. *)
Lemma size_minus_negative (n sz : Z) :
  - 2 ^ 31 <= n < 0 → 0 <= sz → sz - n < 2 ^ 31 →
  Cpp.to_int (Cpp.to_size_t (sz - Cpp.to_size_t n)) = sz - n.
Proof.
  intros Hn Hsz Hsum. rewrite (to_size_t_neg n) by lia.
  replace (sz - (n + 2 ^ 64)) with (sz - n + (-1) * 2 ^ 64) by lia.
  unfold Cpp.to_size_t. rewrite Z.mod_add by lia.
  rewrite Z.mod_small by lia. apply to_int_id. unfold int_range. lia.
Qed.

Lemma at_lookup {A} (v : list A) (i : nat) :
  Cpp.at_ v (Z.of_nat i) = v !! i.
Proof.
  unfold Cpp.at_, Cpp.size.
  destruct (v !! i) eqn:E.
  - pose proof (lookup_lt_Some _ _ _ E) as Hlt.
    rewrite (proj2 (Z.leb_le _ _)), (proj2 (Z.ltb_lt _ _)) by lia.
    simpl. by rewrite Nat2Z.id.
  - pose proof (proj1 (lookup_ge_None _ _) E) as Hge.
    rewrite (proj2 (Z.ltb_ge _ _)) by lia. by rewrite andb_false_r.
Qed.

Lemma at_in_range {A} (v : list A) (i : Z) :
  0 <= i < Cpp.size v → is_Some (Cpp.at_ v i).
Proof.
  intros H. unfold Cpp.at_.
  rewrite (proj2 (Z.leb_le _ _)), (proj2 (Z.ltb_lt _ _)) by lia. simpl.
  apply lookup_lt_is_Some. unfold Cpp.size in H. lia.
Qed.

Lemma getMaxTrack_small (f : HumdrumFileBase.t) :
  1 <= Cpp.size (trackstarts f) <= 2 ^ 31 →
  getMaxTrack f = Cpp.size (trackstarts f) - 1.
Proof.
  intros H. unfold getMaxTrack.
  rewrite to_size_t_nonneg by lia. apply to_int_id. unfold int_range. lia.
Qed.

Lemma resize_length (v : list string) (n : nat) : length (Cpp.resize v n) = n.
Proof.
  unfold Cpp.resize. rewrite length_app, length_take, length_replicate. lia.
Qed.

Lemma set_back_spec {A} (v v' : list A) (x : A) :
  Cpp.set_back v x = Some v' → v' = <[pred (length v) := x]> v.
Proof. unfold Cpp.set_back. destruct v; [done|]. by intros [= <-]. Qed.

Lemma lookup_split_two {A} (ls : list A) (i j : nat) (a b : A) :
  ls !! i = Some a → ls !! j = Some b → (i < j)%nat →
  ∃ pre mid post, ls = pre ++ a :: mid ++ b :: post ∧
    length pre = i ∧ (S i + length mid)%nat = j.
Proof.
  intros Hi Hj Hij.
  destruct (list_elem_of_split_length ls i a Hi) as (pre & rest & -> & ->).
  rewrite lookup_app_r in Hj by lia.
  replace (j - length pre)%nat with (S (j - length pre - 1)) in Hj by lia.
  simpl in Hj.
  destruct (list_elem_of_split_length rest _ b Hj) as (mid & post & -> & Hm).
  exists pre, mid, post. split; [done|]. split; [done|]. lia.
Qed.

(** ** Strings and token classes *)

Lemma append_cons (c : ascii) (s t : string) :
  String c s +:+ t = String c (s +:+ t).
Proof. reflexivity. Qed.

Lemma paren_append (s : string) : "(" +:+ s = String "(" s.
Proof. reflexivity. Qed.

Lemma append_nil_r (s : string) : s +:+ "" = s.
Proof. induction s as [|c s IH]; [done|]. by rewrite append_cons, IH. Qed.

Lemma append_assoc (s t u : string) : (s +:+ t) +:+ u = s +:+ t +:+ u.
Proof.
  induction s as [|c s IH]; [reflexivity|]. by rewrite !append_cons, IH.
Qed.

Lemma length_append (s t : string) :
  String.length (s +:+ t) = (String.length s + String.length t)%nat.
Proof. induction s as [|c s IH]; [done|]. rewrite append_cons. simpl. by rewrite IH. Qed.

Lemma substring_append (s t : string) (k : nat) :
  String.substring 0 (String.length s + k) (s +:+ t) = s +:+ String.substring 0 k t.
Proof.
  induction s as [|c s IH]; [reflexivity|]. rewrite !append_cons. simpl. by rewrite IH.
Qed.

Lemma substring_0_0 (s : string) : String.substring 0 0 s = "".
Proof. by destruct s. Qed.

Lemma substr_spec (s : string) (pos : nat) (n : Z) (k : nat) :
  (pos <= String.length s)%nat → 0 <= n < 2 ^ 64 →
  k = Z.to_nat (Z.min n (Cpp.ssize s - Z.of_nat pos)) →
  Cpp.substr s pos n = Some (String.substring pos k s).
Proof.
  intros Hpos Hn ->. unfold Cpp.substr.
  rewrite (proj2 (Nat.ltb_ge _ _)) by done.
  by rewrite to_size_t_nonneg by done.
Qed.

Lemma prefix_app (s t : string) : String.prefix s (s +:+ t) = true.
Proof.
  induction s as [|c s IH]; simpl; [by destruct t|].
  destruct (ascii_dec c c); [done|congruence].
Qed.

Lemma infixb_of_prefix (sub s : string) :
  String.prefix sub s = true → infixb sub s = true.
Proof. intros H. destruct s; cbn [infixb]; by rewrite H. Qed.

Lemma infixb_complete (sub s : string) : is_infix sub s → infixb sub s = true.
Proof.
  intros (pre & post & ->).
  induction pre as [|c pre IH].
  - change (infixb sub (sub +:+ post) = true).
    apply infixb_of_prefix, prefix_app.
  - change (infixb sub (String c (pre +:+ sub +:+ post)) = true).
    cbn [infixb]. rewrite IH. apply orb_true_r.
Qed.

Lemma is_infix_app_r (sub s pre : string) :
  is_infix sub s → is_infix sub (pre +:+ s).
Proof.
  intros (a & b & ->). exists (pre +:+ a), b. by rewrite append_assoc.
Qed.

Lemma is_infix_here (sub post : string) : is_infix sub (sub +:+ post).
Proof. by exists "", post. Qed.

Lemma is_infix_refl (s : string) : is_infix s s.
Proof.
  exists "", "". change (s = s +:+ "").
  induction s as [|c s IH]; [reflexivity|]. by rewrite append_cons, <- IH.
Qed.

Lemma prefix_two (c1 c2 : ascii) (t : string) :
  String.prefix (String c1 (String c2 "")) t = true →
  ∃ r, t = String c1 (String c2 r).
Proof.
  destruct t as [|a [|b r]]; simpl; try discriminate.
  - destruct (ascii_dec c1 a); discriminate.
  - destruct (ascii_dec c1 a) as [->|]; [|discriminate].
    destruct (ascii_dec c2 b) as [->|]; [|discriminate]. eauto.
Qed.

Lemma exchange_shape (t : string) :
  HumdrumToken.isExchangeInterpretation t = true → ∃ r, t = String "*" (String "x" r).
Proof. apply prefix_two. Qed.

Lemma exchange_facts (t : string) :
  HumdrumToken.isExchangeInterpretation t = true →
  HumdrumToken.isManipulator t = true ∧
  HumdrumToken.isSplitInterpretation t = false ∧
  HumdrumToken.isMergeInterpretation t = false ∧
  String.prefix "*" t = true.
Proof.
  intros H. destruct (exchange_shape t H) as [r ->].
  destruct r; repeat split; reflexivity.
Qed.

Lemma exchange_line_facts (l : HLine) (a b : string) :
  HumdrumLine.tokens l = [a; b] → HumdrumToken.isExchangeInterpretation a = true →
  HumdrumLine.hasSpines l = true.
Proof.
  intros Ht Ha. destruct (exchange_shape a Ha) as [r ->].
  unfold HumdrumLine.hasSpines, HumdrumLine.first_token. rewrite Ht. simpl.
  by destruct r.
Qed.

Lemma split_facts (t : string) :
  HumdrumToken.isSplitInterpretation t = true →
  HumdrumToken.isManipulator t = true ∧
  HumdrumToken.isExclusiveInterpretation t = false ∧
  String.prefix "*" t = true ∧ String.prefix "!!" t = false ∧
  String.eqb t "" = false.
Proof.
  intros H. destruct (prefix_two _ _ _ H) as [r ->].
  destruct r; repeat split; reflexivity.
Qed.

Lemma split_line_facts (l : HLine) (tok : string) :
  HumdrumLine.tokens l = [tok] → HumdrumToken.isSplitInterpretation tok = true →
  HumdrumLine.hasSpines l = true ∧ HumdrumLine.isExclusive l = false ∧
  HumdrumLine.isInterpretation l = true ∧ HumdrumLine.isManipulator l = true ∧
  HumdrumLine.getTokenCount l = 1%nat.
Proof.
  intros Ht Hs. destruct (split_facts tok Hs) as (Hm & He & Hi & Hg & Hn).
  unfold HumdrumLine.hasSpines, HumdrumLine.isExclusive, HumdrumLine.isInterpretation,
    HumdrumLine.isManipulator, HumdrumLine.getTokenCount, HumdrumLine.first_token.
  rewrite Ht. simpl. rewrite Hn, Hg, Hi, Hm.
  unfold HumdrumToken.isExclusiveInterpretation in He. rewrite He. done.
Qed.

Lemma exclusive_line_is_manipulator (l : HLine) :
  HumdrumLine.isExclusive l = true → HumdrumLine.isManipulator l = true.
Proof.
  unfold HumdrumLine.isExclusive, HumdrumLine.isManipulator, HumdrumLine.first_token.
  destruct (HumdrumLine.tokens l) as [|tok toks]; simpl; [discriminate|].
  intros H. unfold HumdrumToken.isManipulator, HumdrumToken.isExclusiveInterpretation.
  by rewrite H.
Qed.

(** ** Results of the stages; the pipeline (C9) *)

Lemma isValid_false_iff (f : HumdrumFileBase.t) :
  isValid f = false ↔ parseError f ≠ "".
Proof.
  unfold isValid. destruct (parseError f); simpl; split; intros; congruence.
Qed.

Lemma setParseError_inv (err : string) (f : HumdrumFileBase.t) b f' :
  setParseError err f = (b, f') → b = isValid f' ∧ f' = with_parseError err f.
Proof. unfold setParseError. intros [= <- <-]. done. Qed.

Ltac bind_inv :=
  repeat match goal with
  | H : _ = _ |- _ => discriminate H
  | H : Some _ = Some _ |- _ => injection H as ?; subst
  | H : setParseError _ _ = (_, _) |- _ =>
      apply setParseError_inv in H as [? ?]; subst
  | H : mbind _ ?x = Some _ |- _ =>
      destruct x eqn:?; cbn [mbind option_bind] in H
  | H : (match ?x with _ => _ end) = Some _ |- _ => destruct x eqn:?
  end.

Lemma analyzeSpines_loop_status ls : ∀ i init datatype sinfo f b f',
  analyzeSpines_loop ls i init datatype sinfo f = Some (b, f') → b = isValid f'.
Proof.
  induction ls as [|l ls IH]; intros i init datatype sinfo f b f' H; simpl in H.
  - by inversion H.
  - unfold analyzeSpines_line in H. bind_inv; eauto.
Qed.

Lemma analyzeSpines_status f b f' :
  analyzeSpines f = Some (b, f') → b = isValid f'.
Proof.
  unfold analyzeSpines. intros H. bind_inv. eauto using analyzeSpines_loop_status.
Qed.

Lemma analyzeLinks_loop_status ls : ∀ i next f b f',
  analyzeLinks_loop ls i next f = Some (b, f') → b = isValid f'.
Proof.
  induction ls as [|l ls IH]; intros i next f b f' H; simpl in H.
  - by inversion H.
  - unfold analyzeLinks_line in H. bind_inv; eauto.
Qed.

Lemma line_analyzeTracks_status toks : ∀ li j f, (line_analyzeTracks li toks j f).1 = true.
Proof. induction toks; intros; simpl; auto. Qed.

Lemma analyzeTracks_loop_status ls : ∀ i f, (analyzeTracks_loop ls i f).1 = isValid (analyzeTracks_loop ls i f).2.
Proof.
  induction ls as [|l ls IH]; intros i f; simpl; [done|].
  pose proof (line_analyzeTracks_status (HumdrumLine.tokens l) i 0%nat f) as Hs.
  destruct (line_analyzeTracks _ _ _ _) as [st f1]. simpl in Hs. subst st. simpl. apply IH.
Qed.

Lemma analyzeTokens_status f : (analyzeTokens f).1 = isValid (analyzeTokens f).2.
Proof. reflexivity. Qed.

Lemma analyzeLines_status f : (analyzeLines f).1 = isValid (analyzeLines f).2.
Proof. reflexivity. Qed.

Lemma analyzeTracks_status f : (analyzeTracks f).1 = isValid (analyzeTracks f).2.
Proof. apply analyzeTracks_loop_status. Qed.

Lemma run_until_error_status stages : ∀ f b f',
  run_until_error stages f = Some (b, f') → b = isValid f'.
Proof.
  induction stages as [|s rest IH]; intros f b f' H; simpl in H.
  - by inversion H.
  - bind_inv; eauto.
Qed.

Lemma read_as_pipeline (contents : list string) (f : HumdrumFileBase.t) :
  read contents f = run_until_error pipeline_stages (append_lines contents f).
Proof.
  unfold read, pipeline_stages, run_until_error.
  generalize (append_lines contents f). intros f0.
  pose proof (analyzeTokens_status f0) as E1.
  destruct (analyzeTokens f0) as [ok1 f1]. cbn [fst snd] in E1. subst ok1.
  cbn [mbind option_bind]. destruct (isValid f1); cbn [negb]; [|done].
  pose proof (analyzeLines_status f1) as E2.
  destruct (analyzeLines f1) as [ok2 f2]. cbn [fst snd] in E2. subst ok2.
  destruct (isValid f2); cbn [negb]; [|done].
  destruct (analyzeSpines f2) as [[ok3 f3]|] eqn:E3; cbn [mbind option_bind]; [|done].
  rewrite (analyzeSpines_status _ _ _ E3).
  destruct (isValid f3); cbn [negb]; [|done].
  destruct (analyzeLinks f3) as [[ok4 f4]|] eqn:E4; cbn [mbind option_bind]; [|done].
  rewrite (analyzeLinks_loop_status _ _ _ _ _ _ E4).
  destruct (isValid f4); cbn [negb]; [|done].
  pose proof (analyzeTracks_status f4) as E5.
  destruct (analyzeTracks f4) as [ok5 f5]. cbn [fst snd] in E5. subst ok5.
  by destruct (isValid f5).
Qed.

Lemma read_status contents f0 b f :
  read contents f0 = Some (b, f) → b = isValid f.
Proof. rewrite read_as_pipeline. apply run_until_error_status. Qed.

(** C9.  [read] runs tokenize, index lines, spine topology, links and
    tracks in this order and stops after the first stage that leaves an
    error stored; the status it returns is [isValid()], and [isValid()] is
    false exactly when the stored error text is not empty (the text stays
    in [parseError]). *)
Theorem read_halts_at_first_error (contents : list string) (f : HumdrumFileBase.t) :
  read contents f = run_until_error pipeline_stages (append_lines contents f) ∧
  (∀ b f', read contents f = Some (b, f') → b = isValid f') ∧
  (∀ f' : HumdrumFileBase.t, isValid f' = false ↔ parseError f' ≠ "").
Proof.
  split; [apply read_as_pipeline|]. split; [|apply isValid_false_iff].
  intros b f' H. rewrite read_as_pipeline in H.
  eauto using run_until_error_status.
Qed.

(** ** Indexed access from the end (C8) *)

(** For every [k >= 1] the line accessor turns the index [-k] into
    [size + k], finds it out of range and falls back to the last line. *)
Lemma operator_index_negative (f : HumdrumFileBase.t) (k : Z) :
  1 <= k → 1 <= Cpp.size (lines f) → Cpp.size (lines f) + k < 2 ^ 31 →
  operator_index f (- k) = Some (Z.to_nat (Cpp.size (lines f) - 1)).
Proof.
  intros Hk Hl Hsum. unfold operator_index.
  rewrite (proj2 (Z.ltb_lt (- k) 0)) by lia.
  rewrite size_minus_negative by lia.
  rewrite (proj2 (Z.ltb_ge _ 0)) by lia. simpl.
  rewrite (to_size_t_nonneg (Cpp.size (lines f) - - k)) by lia.
  rewrite (proj2 (Z.leb_le _ _)) by lia.
  rewrite (to_size_t_nonneg (Cpp.size (lines f) - 1)) by lia.
  rewrite to_int_id by (unfold int_range; lia).
  rewrite (to_size_t_nonneg (Cpp.size (lines f) - 1)) by lia.
  destruct (at_in_range (lines f) (Cpp.size (lines f) - 1)) as [l Hl']; [lia|].
  by rewrite Hl'.
Qed.

(** The token accessor adds the line count and reaches line [L - k]. *)
Lemma token_negative (f : HumdrumFileBase.t) (k : Z) (j : nat) (l : HLine) :
  1 <= k <= Cpp.size (lines f) → Cpp.size (lines f) < 2 ^ 31 →
  lines f !! Z.to_nat (Cpp.size (lines f) - k) = Some l →
  (j < HumdrumLine.getTokenCount l)%nat → Z.of_nat j < 2 ^ 31 →
  token f (- k) (Z.of_nat j) = Some (Z.to_nat (Cpp.size (lines f) - k), j).
Proof.
  intros Hk Hl Hline Hj Hj'. unfold token, getLineCount.
  rewrite (proj2 (Z.ltb_lt (- k) 0)) by lia.
  rewrite (to_int_id (Cpp.size _)) by (unfold int_range; lia).
  rewrite to_int_id by (unfold int_range; lia).
  rewrite to_size_t_nonneg by lia.
  replace (- k + Cpp.size (lines f)) with (Cpp.size (lines f) - k) by lia.
  rewrite <- (Z2Nat.id (Cpp.size (lines f) - k)) at 1 by lia.
  rewrite at_lookup, Hline. simpl.
  rewrite to_size_t_nonneg by lia.
  rewrite at_lookup.
  destruct (lookup_lt_is_Some_2 (HumdrumLine.tokens l) j Hj) as [x Hx].
  rewrite Hx. simpl. by rewrite Nat2Z.id.
Qed.

(** C8 (code defect).  On a file of three lines the line accessor at
    index [-2] yields the last line (position 2), not the line at position
    [3 - 2 = 1]; the two-argument token accessor at line index [-2] does
    reach position 1. *)
Theorem operator_index_minus_two_is_last_line :
  Cpp.size (lines three_lines) = 3 ∧
  operator_index three_lines (-2) = Some 2%nat ∧
  operator_index three_lines (-2) ≠ Some 1%nat ∧
  token three_lines (-2) 0 = Some (1%nat, 0%nat).
Proof. repeat split; try reflexivity. vm_compute. discriminate. Qed.

(** ** The per-track accessors (C10) *)

Lemma offset_track (n sz : Z) :
  int_range n → 0 <= sz < 2 ^ 31 →
  (if n <? 0 then Cpp.to_int (Cpp.to_size_t (Cpp.to_size_t n + sz)) else n)
  = from_end n sz.
Proof.
  intros Hn Hsz. unfold from_end, int_range in *.
  destruct (n <? 0) eqn:E; [|done].
  apply Z.ltb_lt in E. apply add_size_to_negative; lia.
Qed.

Lemma getTrackEndCount_spec (f : HumdrumFileBase.t) (n : Z) :
  int_range n → Cpp.size (trackends f) < 2 ^ 31 →
  getTrackEndCount f n =
    let n' := from_end n (Cpp.size (trackends f)) in
    if (n' <? 0) || (Cpp.size (trackends f) <=? n') then Some 0
    else ends ← trackends f !! Z.to_nat n'; Some (Cpp.to_int (Cpp.size ends)).
Proof.
  intros Hn Hsz. unfold getTrackEndCount.
  rewrite offset_track; [| assumption | unfold Cpp.size in *; lia].
  cbv zeta. set (n' := from_end n _).
  assert (int_range n') as Hn'.
  { unfold n', from_end, int_range, Cpp.size in *. destruct (n <? 0) eqn:E; [apply Z.ltb_lt in E|]. all: lia. }
  destruct (n' <? 0) eqn:E1; [done|]. apply Z.ltb_ge in E1.
  unfold int_range in Hn'.
  rewrite to_size_t_nonneg by lia. simpl.
  destruct (Cpp.size (trackends f) <=? n') eqn:E2; [done|]. apply Z.leb_gt in E2.
  rewrite <- (Z2Nat.id n') at 1 by lia. by rewrite at_lookup.
Qed.

Lemma getTrackEnd_spec (f : HumdrumFileBase.t) (n k : Z) :
  int_range n → int_range k → Cpp.size (trackends f) < 2 ^ 31 →
  Forall (λ ends, Cpp.size ends < 2 ^ 31) (trackends f) →
  getTrackEnd f n k =
    let n' := from_end n (Cpp.size (trackends f)) in
    if (n' <? 0) || (Cpp.size (trackends f) <=? n') then Some None
    else
      ends ← trackends f !! Z.to_nat n';
      let k' := from_end k (Cpp.size ends) in
      if (k' <? 0) || (Cpp.size ends <=? k') then Some None
      else r ← ends !! Z.to_nat k'; Some (Some r).
Proof.
  intros Hn Hk Hsz Hall. unfold getTrackEnd.
  rewrite offset_track; [| assumption | unfold Cpp.size in *; lia].
  cbv zeta. set (n' := from_end n _).
  assert (int_range n') as Hn'.
  { unfold n', from_end, int_range, Cpp.size in *.
    destruct (n <? 0) eqn:E; [apply Z.ltb_lt in E|]; lia. }
  destruct (n' <? 0) eqn:E1; [done|]. apply Z.ltb_ge in E1.
  unfold int_range in Hn'.
  rewrite to_size_t_nonneg by lia. simpl.
  destruct (Cpp.size (trackends f) <=? n') eqn:E2; [done|]. apply Z.leb_gt in E2.
  rewrite <- (Z2Nat.id n') at 1 by lia. rewrite at_lookup.
  destruct (trackends f !! Z.to_nat n') as [ends|] eqn:Hends; [|done]. simpl.
  assert (Cpp.size ends < 2 ^ 31) as Hends'.
  { eapply (proj1 (Forall_lookup _ _) Hall); eauto. }
  rewrite offset_track; [| assumption | unfold Cpp.size in *; lia].
  set (k' := from_end k _).
  assert (int_range k') as Hk'.
  { unfold k', from_end, int_range, Cpp.size in *.
    destruct (k <? 0) eqn:E; [apply Z.ltb_lt in E|]; lia. }
  destruct (k' <? 0) eqn:E3; [done|]. apply Z.ltb_ge in E3.
  unfold int_range in Hk'.
  rewrite to_size_t_nonneg by lia. simpl.
  destruct (Cpp.size ends <=? k') eqn:E4; [done|]. apply Z.leb_gt in E4.
  rewrite <- (Z2Nat.id k') at 1 by lia. by rewrite at_lookup.
Qed.

Lemma getTrackStart_spec (f : HumdrumFileBase.t) (n : Z) :
  int_range n →
  getTrackStart f n =
    if (0 <? n) && (n <? Cpp.size (trackstarts f))
    then trackstarts f !! Z.to_nat n else Some None.
Proof.
  intros Hn. unfold getTrackStart, int_range in *.
  destruct (0 <? n) eqn:E; [|done]. apply Z.ltb_lt in E.
  rewrite to_size_t_nonneg by lia. simpl.
  destruct (n <? Cpp.size (trackstarts f)); [|done].
  rewrite <- (Z2Nat.id n) at 1 by lia. by rewrite at_lookup.
Qed.

(** C10.  The per-track read accessors are total on [int] arguments:
    [getTrackStart] is [NULL] for a track [n <= 0] or [n > getMaxTrack()];
    with negative arguments first counted from the end, an out-of-range
    track makes [getTrackEndCount] return 0 and [getTrackEnd] return
    [NULL], an out-of-range subtrack makes [getTrackEnd] return [NULL];
    and [getPrimaryTrackSeq] of a track without start token is the empty
    sequence.  (The vectors are assumed to hold fewer than [2^31]
    entries.) *)
Theorem track_accessors_total (f : HumdrumFileBase.t) (n k options : Z) :
  int_range n → int_range k →
  Cpp.size (trackstarts f) < 2 ^ 31 →
  Cpp.size (trackends f) < 2 ^ 31 →
  Forall (λ ends, Cpp.size ends < 2 ^ 31) (trackends f) →
  (is_Some (getTrackStart f n) ∧ is_Some (getTrackEndCount f n) ∧
   is_Some (getTrackEnd f n k)) ∧
  (n <= 0 ∨ getMaxTrack f < n → getTrackStart f n = Some None) ∧
  (let n' := from_end n (Cpp.size (trackends f)) in
   n' < 0 ∨ Cpp.size (trackends f) <= n' →
   getTrackEndCount f n = Some 0 ∧ getTrackEnd f n k = Some None) ∧
  (∀ ends, trackends f !! Z.to_nat (from_end n (Cpp.size (trackends f))) = Some ends →
   0 <= from_end n (Cpp.size (trackends f)) →
   let k' := from_end k (Cpp.size ends) in
   k' < 0 ∨ Cpp.size ends <= k' → getTrackEnd f n k = Some None) ∧
  (getTrackStart f n = Some None → getPrimaryTrackSeq f n options = Some []).
Proof.
  intros Hn Hk Hts Hte Hall.
  rewrite getTrackEndCount_spec, getTrackEnd_spec, getTrackStart_spec by assumption.
  cbv zeta. remember (from_end n (Cpp.size (trackends f))) as n' eqn:En'.
  refine (conj (conj _ (conj _ _)) (conj _ (conj (λ H, conj _ _) (conj _ _)))).
  - destruct ((0 <? n) && (n <? Cpp.size (trackstarts f))) eqn:E; [|by eexists].
    apply andb_prop in E as [E1 E2]. apply Z.ltb_lt in E1, E2.
    apply lookup_lt_is_Some. unfold Cpp.size in *. lia.
  - destruct ((n' <? 0) || (Cpp.size (trackends f) <=? n')) eqn:E; [by eexists|].
    apply orb_false_elim in E as [E1 E2]. apply Z.ltb_ge in E1. apply Z.leb_gt in E2.
    destruct (lookup_lt_is_Some_2 (trackends f) (Z.to_nat n')) as [e He].
    { unfold Cpp.size in *. lia. }
    rewrite He. by eexists.
  - destruct ((n' <? 0) || (Cpp.size (trackends f) <=? n')) eqn:E; [by eexists|].
    apply orb_false_elim in E as [E1 E2]. apply Z.ltb_ge in E1. apply Z.leb_gt in E2.
    destruct (lookup_lt_is_Some_2 (trackends f) (Z.to_nat n')) as [e He].
    { unfold Cpp.size in *. lia. }
    rewrite He. simpl.
    destruct ((from_end k (Cpp.size e) <? 0) || (Cpp.size e <=? from_end k (Cpp.size e))) eqn:E';
      [by eexists|].
    apply orb_false_elim in E' as [E3 E4]. apply Z.ltb_ge in E3. apply Z.leb_gt in E4.
    destruct (lookup_lt_is_Some_2 e (Z.to_nat (from_end k (Cpp.size e)))) as [r Hr].
    { unfold Cpp.size in *. lia. }
    rewrite Hr. by eexists.
  - intros [Hle | Hgt].
    + by rewrite (proj2 (Z.ltb_ge 0 n)) by lia.
    + destruct (Z.lt_ge_cases (Cpp.size (trackstarts f)) 1) as [Hz | Hnz].
      * rewrite (proj2 (Z.ltb_ge n _)); [by rewrite andb_false_r|].
        unfold getMaxTrack in Hgt. assert (Cpp.size (trackstarts f) = 0) as Hs
          by (unfold Cpp.size in *; lia).
        rewrite Hs in *.
        change (Cpp.to_int (Cpp.to_size_t (0 - 1))) with (-1) in Hgt. lia.
      * rewrite getMaxTrack_small in Hgt by lia.
        rewrite (proj2 (Z.ltb_ge n _)) by lia. by rewrite andb_false_r.
  - destruct H as [H | H].
    + by rewrite (proj2 (Z.ltb_lt _ _) H).
    + rewrite (proj2 (Z.leb_le _ _) H). by rewrite orb_true_r.
  - destruct H as [H | H].
    + by rewrite (proj2 (Z.ltb_lt _ _) H).
    + rewrite (proj2 (Z.leb_le _ _) H). by rewrite orb_true_r.
  - intros ends Hends Hpos [H | H];
      (destruct ((n' <? 0) || (Cpp.size (trackends f) <=? n')); [done|]);
      rewrite Hends; simpl.
    + by rewrite (proj2 (Z.ltb_lt _ _) H).
    + rewrite (proj2 (Z.leb_le _ _) H). by rewrite orb_true_r.
  - intros Hstart. unfold getPrimaryTrackSeq.
    rewrite getTrackStart_spec by assumption. by rewrite Hstart.
Qed.

(** C10 on the parsed [kern_file], for track 5 and subtrack -7. *)
Lemma track_accessors_total_witness :
  let f := parsed kern_file in
  (int_range 5 ∧ int_range (-7) ∧
   Cpp.size (trackstarts f) < 2 ^ 31 ∧ Cpp.size (trackends f) < 2 ^ 31 ∧
   Forall (λ ends, Cpp.size ends < 2 ^ 31) (trackends f)) ∧
  getTrackStart f 5 = Some None ∧
  getTrackEndCount f 5 = Some 0 ∧ getTrackEnd f 5 (-7) = Some None ∧
  getPrimaryTrackSeq f 5 0 = Some [].
Proof.
  intros f.
  assert (int_range 5) as H1 by (unfold int_range; lia).
  assert (int_range (-7)) as H2 by (unfold int_range; lia).
  assert (Cpp.size (trackstarts f) < 2 ^ 31) as H3 by (vm_compute; reflexivity).
  assert (Cpp.size (trackends f) < 2 ^ 31) as H4 by (vm_compute; reflexivity).
  assert (Forall (λ ends, Cpp.size ends < 2 ^ 31) (trackends f)) as H5
    by (repeat constructor).
  pose proof (track_accessors_total f 5 (-7) 0 H1 H2 H3 H4 H5)
    as (_ & Hstart & Hends & _ & Hseq).
  assert (getTrackStart f 5 = Some None) as Hs
    by (apply Hstart; right; vm_compute; reflexivity).
  destruct Hends as [Hc He]; [right; vm_compute; discriminate |].
  exact (conj (conj H1 (conj H2 (conj H3 (conj H4 H5))))
              (conj Hs (conj Hc (conj He (Hseq Hs))))).
Defined.

(** ** What the spine analysis leaves alone *)

Lemma same_lines_links_refl f : same_lines_links f f.
Proof. by repeat split. Qed.

Lemma same_lines_links_trans f1 f2 f3 :
  same_lines_links f1 f2 → same_lines_links f2 f3 → same_lines_links f1 f3.
Proof. unfold same_lines_links. intuition congruence. Qed.

Lemma addToTrackStarts_frame tok f f' :
  addToTrackStarts tok f = Some f' →
  same_lines_links f f' ∧ spineinfo f' = spineinfo f ∧
  parseError f' = parseError f.
Proof.
  unfold addToTrackStarts, same_lines_links. intros H.
  destruct tok; bind_inv; simpl; auto.
Qed.

Lemma adjustSpines_loop_frame li line datatype sinfo rest :
  ∀ i skip newtype newinfo f r,
  adjustSpines_loop li line datatype sinfo rest i skip newtype newinfo f = Some r →
  same_lines_links f (adjusted_state r) ∧
  spineinfo (adjusted_state r) = spineinfo f.
Proof.
  induction rest as [|tok rest IH]; intros i skip newtype newinfo f r H; simpl in H.
  - inversion H. simpl. split; [apply same_lines_links_refl | done].
  - destruct skip as [|k]; [|by apply IH in H].
    bind_inv;
      repeat match goal with
      | H : adjustSpines_loop _ _ _ _ _ _ _ _ _ _ = Some _ |- _ => apply IH in H
      | H : addToTrackStarts _ _ = Some _ |- _ => apply addToTrackStarts_frame in H
      end;
      unfold same_lines_links in *; simpl in *; intuition congruence.
Qed.

Lemma setSpineInfo_lookup r s f r' :
  spineinfo (setSpineInfo r s f) !! r' =
  if decide (r = r') then Some s else spineinfo f !! r'.
Proof. unfold setSpineInfo. simpl. by rewrite lookup_insert. Qed.

Lemma open_tracks_frame li toks : ∀ j f f',
  open_tracks li toks j f = Some f' →
  same_lines_links f f' ∧ parseError f' = parseError f ∧
  (∀ r, r.1 ≠ li → spineinfo f' !! r = spineinfo f !! r).
Proof.
  induction toks as [|tok toks IH]; intros j f f' H; simpl in H.
  - inversion H. subst. split; [apply same_lines_links_refl | done].
  - destruct (addToTrackStarts (Some (li, j)) f) as [f1|] eqn:E; [|done].
    cbn [mbind option_bind] in H.
    apply addToTrackStarts_frame in E as (Hl & Hs & He).
    apply IH in H as (Hl' & He' & Hs').
    unfold same_lines_links in *. simpl in *.
    split; [intuition congruence|]. split; [congruence|].
    intros r Hr. rewrite Hs' by done. simpl. rewrite lookup_insert_ne; [congruence|].
    intros <-. by apply Hr.
Qed.

Lemma label_tokens_frame li toks : ∀ j sinfo f f',
  label_tokens li toks j sinfo f = Some f' →
  same_lines_links f f' ∧ parseError f' = parseError f ∧
  trackstarts f' = trackstarts f ∧ trackends f' = trackends f ∧
  (∀ r, r.1 ≠ li → spineinfo f' !! r = spineinfo f !! r).
Proof.
  induction toks as [|tok toks IH]; intros j sinfo f f' H; simpl in H.
  - inversion H. subst. split; [apply same_lines_links_refl | done].
  - destruct (sinfo !! j) as [s|] eqn:E; [|done]. cbn [mbind option_bind] in H.
    apply IH in H as (Hl' & He' & Hts & Hte & Hs').
    unfold same_lines_links in *. simpl in *.
    repeat split; try intuition congruence.
    intros r Hr. rewrite Hs' by done. simpl. rewrite lookup_insert_ne; [congruence|].
    intros <-. by apply Hr.
Qed.

Lemma adjustSpines_frame li line datatype sinfo f ok dt' si' f' :
  adjustSpines li line datatype sinfo f = Some (ok, (dt', si'), f') →
  same_lines_links f f' ∧ spineinfo f' = spineinfo f.
Proof.
  unfold adjustSpines. intros H.
  destruct (adjustSpines_loop _ _ _ _ _ _ _ _ _ _) as [r|] eqn:E; [|done].
  apply adjustSpines_loop_frame in E. cbn [mbind option_bind] in H.
  destruct r; bind_inv; done.
Qed.

Lemma analyzeSpines_line_frame i l init datatype sinfo f r :
  analyzeSpines_line i l init datatype sinfo f = Some r →
  same_lines_links f (spines_state r) ∧
  (∀ k, k.1 ≠ i → spineinfo (spines_state r) !! k = spineinfo f !! k).
Proof.
  unfold analyzeSpines_line. intros H. bind_inv; simpl;
    repeat match goal with
    | H : open_tracks _ _ _ _ = Some _ |- _ => apply open_tracks_frame in H
    | H : label_tokens _ _ _ _ _ = Some _ |- _ => apply label_tokens_frame in H
    | H : adjustSpines _ _ _ _ _ = Some _ |- _ => apply adjustSpines_frame in H
    end;
    try (split; [apply same_lines_links_refl | done]);
    unfold same_lines_links in *; simpl in *;
    (split; [intuition congruence|]); intros k Hk; destruct_and?;
    repeat match goal with H : ∀ r, _ → spineinfo _ !! r = _ |- _ =>
      rewrite <- (H k Hk); clear H end; congruence.
Qed.

Lemma analyzeSpines_loop_frame ls : ∀ i init datatype sinfo f b f',
  analyzeSpines_loop ls i init datatype sinfo f = Some (b, f') →
  same_lines_links f f' ∧
  (∀ k, (k.1 < i)%nat → spineinfo f' !! k = spineinfo f !! k).
Proof.
  induction ls as [|l ls IH]; intros i init datatype sinfo f b f' H; simpl in H.
  - inversion H. subst. split; [apply same_lines_links_refl | done].
  - destruct (analyzeSpines_line i l init datatype sinfo f) as [r|] eqn:E; [|done].
    apply analyzeSpines_line_frame in E as [Hl Hs]. simpl in H.
    destruct r as [st f1 | init1 dt1 si1 f1]; simpl in *.
    + inversion H. subst. split; [done|]. intros k Hk. apply Hs. lia.
    + apply IH in H as [Hl' Hs'].
      split; [eauto using same_lines_links_trans|].
      intros k Hk. rewrite Hs' by lia. apply Hs. lia.
Qed.

Lemma adjustSpines_loop_return li line datatype sinfo rest :
  ∀ i skip newtype newinfo f b f',
  adjustSpines_loop li line datatype sinfo rest i skip newtype newinfo f
    = Some (AdjustReturn b f') →
  b = false ∧ isValid f' = false.
Proof.
  induction rest as [|tok rest IH]; intros i skip newtype newinfo f b f' H; simpl in H.
  - discriminate.
  - destruct skip as [|k]; [|by apply IH in H].
    bind_inv; eauto; try (split; reflexivity).
Qed.

Lemma adjustSpines_false li line datatype sinfo f dt' si' f' :
  adjustSpines li line datatype sinfo f = Some (false, (dt', si'), f') →
  isValid f' = false.
Proof.
  unfold adjustSpines. intros H.
  destruct (adjustSpines_loop _ _ _ _ _ _ _ _ _ _) as [r|] eqn:E; [|done].
  cbn [mbind option_bind] in H. destruct r; bind_inv.
  by apply adjustSpines_loop_return in E as [_ ?].
Qed.

Lemma analyzeSpines_line_return i l init datatype sinfo f b f' :
  analyzeSpines_line i l init datatype sinfo f = Some (SpinesReturn b f') →
  b = false ∧ isValid f' = false.
Proof.
  unfold analyzeSpines_line. intros H. bind_inv; try (split; reflexivity).
  destruct b0; [discriminate|].
  match goal with H : adjustSpines _ _ _ _ _ = Some _ |- _ =>
    apply adjustSpines_false in H end.
  split; congruence.
Qed.

(** A successful run of the loop over [pre ++ rest] passes through the
    loop over [rest]. *)
Lemma analyzeSpines_loop_app pre : ∀ rest i init datatype sinfo f f',
  analyzeSpines_loop (pre ++ rest) i init datatype sinfo f = Some (true, f') →
  ∃ init' datatype' sinfo' f1,
    analyzeSpines_loop rest (i + length pre) init' datatype' sinfo' f1 = Some (true, f') ∧
    same_lines_links f f1 ∧
    (∀ k, (i + length pre <= k.1)%nat → spineinfo f1 !! k = spineinfo f !! k).
Proof.
  induction pre as [|l pre IH]; intros rest i init datatype sinfo f f' H; simpl in H.
  - exists init, datatype, sinfo, f. rewrite Nat.add_0_r.
    split; [done|]. split; [apply same_lines_links_refl | done].
  - destruct (analyzeSpines_line i l init datatype sinfo f) as [r|] eqn:E; [|done].
    cbn [mbind option_bind] in H.
    destruct r as [st f1 | init1 dt1 si1 f1].
    + apply analyzeSpines_line_return in E as [-> _]. discriminate.
    + apply analyzeSpines_line_frame in E as [Hl Hs]. simpl in Hl, Hs.
      apply IH in H as (init' & dt' & si' & f2 & Hloop & Hl' & Hs').
      exists init', dt', si', f2. simpl.
      replace (i + S (length pre))%nat with (S i + length pre)%nat by lia.
      split; [done|]. split; [eauto using same_lines_links_trans|].
      intros k Hk. rewrite Hs' by lia. apply Hs. lia.
Qed.

Lemma analyzeSpines_line_global i l init datatype sinfo f r :
  analyzeSpines_line i l init datatype sinfo f = Some r →
  HumdrumLine.hasSpines l = false →
  r = SpinesContinue init datatype sinfo f.
Proof.
  unfold analyzeSpines_line. intros H Hs. rewrite Hs in H. simpl in H. by bind_inv.
Qed.

Lemma analyzeSpines_loop_skip mid : ∀ rest i init datatype sinfo f r,
  analyzeSpines_loop (mid ++ rest) i init datatype sinfo f = Some r →
  Forall (λ l, HumdrumLine.hasSpines l = false) mid →
  analyzeSpines_loop rest (i + length mid) init datatype sinfo f = Some r.
Proof.
  induction mid as [|l mid IH]; intros rest i init datatype sinfo f r H Hall; simpl in *.
  - by rewrite Nat.add_0_r.
  - inversion Hall as [|? ? Hl Hall']. subst.
    destruct (analyzeSpines_line i l init datatype sinfo f) as [s|] eqn:E; [|done].
    cbn [mbind option_bind] in H.
    rewrite (analyzeSpines_line_global _ _ _ _ _ _ _ E Hl) in H.
    replace (i + S (length mid))%nat with (S i + length mid)%nat by lia. eauto.
Qed.

Lemma analyzeSpines_inv f b f' :
  analyzeSpines f = Some (b, f') →
  ∃ f0, analyzeSpines_loop (lines f) 0 false [] [] f0 = Some (b, f') ∧
    same_lines_links f f0 ∧ spineinfo f0 = spineinfo f ∧
    trackstarts f0 = [None] ∧ trackends f0 = [[]].
Proof.
  unfold analyzeSpines, addToTrackStarts. cbn [mbind option_bind]. simpl.
  intros H. eexists. split; [exact H|]. by repeat split.
Qed.

(** ** What the link analysis leaves alone *)

Lemma same_analysis_refl f : same_analysis f f.
Proof. by repeat split. Qed.

Lemma same_analysis_trans f1 f2 f3 :
  same_analysis f1 f2 → same_analysis f2 f3 → same_analysis f1 f3.
Proof. unfold same_analysis. intuition congruence. Qed.

Lemma links_within_refl p n f : links_within p n f f.
Proof. split; [apply same_analysis_refl | done]. Qed.

Lemma links_within_trans p n f1 f2 f3 :
  links_within p n f1 f2 → links_within p n f2 f3 → links_within p n f1 f3.
Proof.
  intros (Ha & Hn & Hp) (Ha' & Hn' & Hp').
  split; [eauto using same_analysis_trans|].
  split; intros r Hr; [rewrite Hn', Hn | rewrite Hp', Hp]; done.
Qed.

Lemma makeForwardLink_next (a b r : TokenRef) (f : HumdrumFileBase.t) :
  getNextTokens (makeForwardLink a b f) r =
  if decide (a = r) then getNextTokens f a ++ [b] else getNextTokens f r.
Proof.
  unfold getNextTokens, makeForwardLink. simpl.
  rewrite lookup_insert. by destruct (decide (a = r)).
Qed.

Lemma makeForwardLink_previous (a b r : TokenRef) (f : HumdrumFileBase.t) :
  getPreviousTokens (makeForwardLink a b f) r =
  if decide (b = r) then getPreviousTokens f b ++ [a] else getPreviousTokens f r.
Proof.
  unfold getPreviousTokens, makeForwardLink. simpl.
  rewrite lookup_insert. by destruct (decide (b = r)).
Qed.

Lemma makeForwardLink_within p i n ii f :
  links_within p n f (makeForwardLink (p, i) (n, ii) f).
Proof.
  split; [by repeat split|]. unfold makeForwardLink. simpl.
  split; intros r Hr; apply lookup_insert_ne; intros <-; by apply Hr.
Qed.

Lemma makeForwardLink_step p i n ii f g :
  links_within p n f g → links_within p n f (makeForwardLink (p, i) (n, ii) g).
Proof.
  intros H. eapply links_within_trans; [exact H | apply makeForwardLink_within].
Qed.

Lemma link_columns_within p n next rest : ∀ i f f',
  link_columns p n next rest i f = Some f' →
  links_within p n f f' ∧ parseError f' = parseError f.
Proof.
  induction rest as [|tok rest IH]; intros i f f' H; simpl in H.
  - bind_inv. split; [apply links_within_refl | done].
  - bind_inv. apply IH in H as [Hw He].
    split; [|by rewrite He].
    eapply links_within_trans; [apply makeForwardLink_within | done].
Qed.

Lemma link_merges_within p n run : ∀ i ii f,
  links_within p n f (link_merges p n run i ii f) ∧
  parseError (link_merges p n run i ii f) = parseError f.
Proof.
  induction run as [|run IH]; intros i ii f; simpl.
  - split; [apply links_within_refl | done].
  - destruct (IH (S i) ii (makeForwardLink (p, i) (n, ii) f)) as [Hw He].
    split; [|by rewrite He].
    eapply links_within_trans; [apply makeForwardLink_within | done].
Qed.

Lemma link_merges_step p n run i ii f g :
  links_within p n f g → links_within p n f (link_merges p n run i ii g).
Proof.
  intros H. eapply links_within_trans; [exact H | apply link_merges_within].
Qed.

Lemma stitch_loop_within p n previous next rest : ∀ i skip ii f r,
  stitch_loop p n previous next rest i skip ii f = Some r →
  links_within p n f (stitched_state r) ∧
  match r with
  | StitchReturn b f' => b = false ∧ isValid f' = false
  | StitchDone _ _ f' => parseError f' = parseError f
  end.
Proof.
  induction rest as [|tok rest IH]; intros i skip ii f r H; simpl in H.
  - bind_inv. split; [apply links_within_refl | done].
  - destruct skip as [|k]; [|by apply IH in H].
    bind_inv;
      try (split; [by repeat split | split; reflexivity]);
      apply IH in H as [Hw Hr];
      (split;
       [ eapply links_within_trans; [|exact Hw];
         repeat first [apply makeForwardLink_step | apply link_merges_step];
         apply links_within_refl
       | destruct r; [done|];
         rewrite Hr, ?(proj2 (link_merges_within _ _ _ _ _ _)); done ]).
Qed.

Lemma stitchLinesTogether_within p n f b f' :
  stitchLinesTogether p n f = Some (b, f') →
  links_within p n f f' ∧ (b = false → isValid f' = false).
Proof.
  unfold stitchLinesTogether. intros H. bind_inv.
  - split; [by repeat split | done].
  - match goal with H : link_columns _ _ _ _ _ _ = Some _ |- _ =>
      apply link_columns_within in H as [? ?] end. done.
  - match goal with H : stitch_loop _ _ _ _ _ _ _ _ _ = Some _ |- _ =>
      apply stitch_loop_within in H as [? [? ?]] end. done.
  - match goal with H : stitch_loop _ _ _ _ _ _ _ _ _ = Some _ |- _ =>
      apply stitch_loop_within in H as [? ?] end. done.
  - match goal with H : stitch_loop _ _ _ _ _ _ _ _ _ = Some _ |- _ =>
      apply stitch_loop_within in H as [? ?] end. done.
Qed.

(** The body for line [i] adds forward links to the line [next] points to
    and backward links to line [i]. *)
Lemma analyzeLinks_line_within i l next f r :
  analyzeLinks_line i l next f = Some r →
  same_analysis f (links_state r) ∧
  (∀ k : TokenRef, next ≠ Some k.1 →
     nextTokens (links_state r) !! k = nextTokens f !! k) ∧
  (∀ k : TokenRef, k.1 ≠ i →
     previousTokens (links_state r) !! k = previousTokens f !! k) ∧
  match r with
  | LinksReturn b f' => b = false ∧ isValid f' = false
  | LinksContinue next' _ =>
      next' = (if HumdrumLine.hasSpines l then Some i else next)
  end.
Proof.
  unfold analyzeLinks_line. intros H.
  destruct (HumdrumLine.hasSpines l); simpl in H.
  - destruct next as [p|].
    + destruct (stitchLinesTogether p i f) as [[ok f1]|] eqn:E; [|done].
      cbn [mbind option_bind] in H.
      apply stitchLinesTogether_within in E as [(Ha & Hn & Hp) Hv].
      assert (∀ k : TokenRef, Some p ≠ Some k.1 →
                nextTokens f1 !! k = nextTokens f !! k) as Hn'.
      { intros k Hk. apply Hn. congruence. }
      destruct ok; simpl in H; bind_inv; simpl; [auto|].
      specialize (Hv eq_refl). auto.
    + bind_inv. simpl. split; [apply same_analysis_refl | done].
  - bind_inv. simpl. split; [apply same_analysis_refl | done].
Qed.

Lemma analyzeLinks_loop_within ls : ∀ i next f b f',
  analyzeLinks_loop ls i next f = Some (b, f') →
  same_analysis f f' ∧
  (∀ k : TokenRef, (k.1 < i)%nat → next ≠ Some k.1 →
     nextTokens f' !! k = nextTokens f !! k) ∧
  (∀ k : TokenRef, (k.1 < i)%nat →
     previousTokens f' !! k = previousTokens f !! k).
Proof.
  induction ls as [|l ls IH]; intros i next f b f' H; simpl in H.
  - bind_inv. split; [apply same_analysis_refl | done].
  - destruct (analyzeLinks_line i l next f) as [r|] eqn:E; [|done].
    cbn [mbind option_bind] in H.
    apply analyzeLinks_line_within in E as (Ha & Hn & Hp & Hr).
    destruct r as [st f1 | next1 f1]; simpl in *.
    + bind_inv. split; [done|]. split; intros k Hk; auto. intros. apply Hp. lia.
    + apply IH in H as (Ha' & Hn' & Hp').
      split; [eauto using same_analysis_trans|].
      split.
      * intros k Hk Hne. rewrite Hn'; [by apply Hn | lia |].
        subst next1. destruct (HumdrumLine.hasSpines l); [|done].
        intros [= ?]. lia.
      * intros k Hk. rewrite Hp' by lia. apply Hp. lia.
Qed.

(** A successful run of the link loop over [pre ++ rest] passes through
    the loop over [rest]; the part over [pre] leaves the links of the
    lines from [rest] on untouched. *)
Lemma analyzeLinks_loop_app pre : ∀ rest i next f f',
  analyzeLinks_loop (pre ++ rest) i next f = Some (true, f') →
  (∀ p, next = Some p → (p < i)%nat) →
  ∃ next' f1,
    analyzeLinks_loop rest (i + length pre) next' f1 = Some (true, f') ∧
    (∀ p, next' = Some p → (p < i + length pre)%nat) ∧
    same_analysis f f1 ∧
    (∀ k : TokenRef, (i + length pre <= k.1)%nat →
       nextTokens f1 !! k = nextTokens f !! k ∧
       previousTokens f1 !! k = previousTokens f !! k).
Proof.
  induction pre as [|l pre IH]; intros rest i next f f' H Hnext; simpl in H.
  - exists next, f. rewrite Nat.add_0_r.
    split; [done|]. split; [done|]. split; [apply same_analysis_refl | done].
  - destruct (analyzeLinks_line i l next f) as [r|] eqn:E; [|done].
    cbn [mbind option_bind] in H.
    apply analyzeLinks_line_within in E as (Ha & Hn & Hp & Hr).
    destruct r as [st f1 | next1 f1]; simpl in *.
    { destruct Hr as [-> _]. bind_inv. }
    assert (∀ p, next1 = Some p → (p < S i)%nat) as Hnext1.
    { intros p ->. destruct (HumdrumLine.hasSpines l).
      - injection Hr as ->. lia.
      - specialize (Hnext p (eq_sym Hr)). lia. }
    apply IH in H as (next' & f2 & Hloop & Hnext' & Ha' & Hk'); [|done].
    exists next', f2.
    replace (i + S (length pre))%nat with (S i + length pre)%nat by lia.
    split; [done|]. split; [done|]. split; [eauto using same_analysis_trans|].
    intros k Hk. destruct (Hk' k Hk) as [-> ->]. split.
    + apply Hn. intros ->. specialize (Hnext _ eq_refl). lia.
    + apply Hp. lia.
Qed.

Lemma analyzeLinks_loop_skip mid : ∀ rest i next f r,
  analyzeLinks_loop (mid ++ rest) i next f = Some r →
  Forall (λ l, HumdrumLine.hasSpines l = false) mid →
  analyzeLinks_loop rest (i + length mid) next f = Some r.
Proof.
  induction mid as [|l mid IH]; intros rest i next f r H Hall; simpl in *.
  - by rewrite Nat.add_0_r.
  - inversion Hall as [|? ? Hl Hall']. subst.
    unfold analyzeLinks_line in H at 1. rewrite Hl in H. simpl in H.
    replace (i + S (length mid))%nat with (S i + length mid)%nat by lia. eauto.
Qed.

(** The link loop from a structural line [li] at index [i] to the next
    structural line [lj] at index [j], when the stitcher turns a state
    [g] into [G g] on these two lines: the forward links of line [i] and
    the backward links of line [j] are, in the end, those that [G] makes
    on a state [g] that has none of them. *)
Lemma analyzeLinks_between li mid lj post i j next f f' (G : HumdrumFileBase.t → HumdrumFileBase.t) :
  analyzeLinks_loop (li :: mid ++ lj :: post) i next f = Some (true, f') →
  j = (S i + length mid)%nat →
  HumdrumLine.hasSpines li = true →
  Forall (λ l, HumdrumLine.hasSpines l = false) mid →
  HumdrumLine.hasSpines lj = true →
  (∀ p, next = Some p → (p < i)%nat) →
  (∀ k : TokenRef, (i <= k.1)%nat →
     nextTokens f !! k = None ∧ previousTokens f !! k = None) →
  (∀ g, lines g = lines f → stitchLinesTogether i j g = Some (isValid g, G g)) →
  ∃ g,
    (∀ c, getNextTokens g (i, c) = []) ∧ (∀ c, getPreviousTokens g (j, c) = []) ∧
    (∀ c, getNextTokens f' (i, c) = getNextTokens (G g) (i, c)) ∧
    (∀ c, getPreviousTokens f' (j, c) = getPreviousTokens (G g) (j, c)).
Proof.
  intros H -> Hs Hmid Hsj Hnext Hfresh Hstitch. simpl in H.
  set (j := (S i + length mid)%nat) in *.
  destruct (analyzeLinks_line i li next f) as [r|] eqn:E; [|done].
  cbn [mbind option_bind] in H.
  apply analyzeLinks_line_within in E as ((Hl1 & _) & Hn1 & Hp1 & Hr).
  destruct r as [st f1 | next1 f1]; simpl in H, Hl1, Hn1, Hp1, Hr.
  { destruct Hr as [-> _]. discriminate. }
  rewrite Hs in Hr. subst next1.
  apply analyzeLinks_loop_skip in H; [|done]. fold j in H. simpl in H.
  unfold analyzeLinks_line in H at 1. rewrite Hsj in H. simpl in H.
  pose proof (Hstitch f1 Hl1) as Hst. rewrite Hst in H.
  apply stitchLinesTogether_within in Hst as [_ Hinv].
  cbn [mbind option_bind] in H.
  destruct (isValid f1) eqn:V; simpl in H.
  2: { injection H as Hv _. rewrite Hinv in Hv; done. }
  apply analyzeLinks_loop_within in H as (_ & Hn2 & Hp2).
  exists f1. unfold getNextTokens, getPreviousTokens.
  split; [|split; [|split]]; intros c.
  - rewrite Hn1.
    + by destruct (Hfresh (i, c)) as [-> _]; [simpl; lia|].
    + simpl. intros ->. specialize (Hnext i eq_refl). lia.
  - rewrite Hp1 by (simpl; lia).
    by destruct (Hfresh (j, c)) as [_ ->]; [simpl; lia|].
  - rewrite Hn2; [done | simpl; lia | simpl; intros [= ?]; lia].
  - rewrite Hp2; [done | simpl; lia].
Qed.

(** ** A valid read, stage by stage *)

Lemma line_analyzeTracks_frame li toks : ∀ j f,
  let f' := (line_analyzeTracks li toks j f).2 in
  lines f' = lines f ∧ spineinfo f' = spineinfo f ∧
  nextTokens f' = nextTokens f ∧ previousTokens f' = previousTokens f ∧
  trackstarts f' = trackstarts f ∧ trackends f' = trackends f ∧
  parseError f' = parseError f.
Proof.
  induction toks as [|tok toks IH]; intros j f; simpl; [done|].
  specialize (IH (S j) (with_track
    (<[(li, j) := HumdrumLine.track_of_spineinfo (getSpineInfo f (li, j))]> (track f)) f)).
  simpl in IH. exact IH.
Qed.

Lemma analyzeTracks_loop_frame ls : ∀ i f,
  let f' := (analyzeTracks_loop ls i f).2 in
  lines f' = lines f ∧ spineinfo f' = spineinfo f ∧
  nextTokens f' = nextTokens f ∧ previousTokens f' = previousTokens f ∧
  trackstarts f' = trackstarts f ∧ trackends f' = trackends f ∧
  parseError f' = parseError f.
Proof.
  induction ls as [|l ls IH]; intros i f; simpl; [done|].
  pose proof (line_analyzeTracks_frame i (HumdrumLine.tokens l) 0 f) as Hl.
  pose proof (line_analyzeTracks_status (HumdrumLine.tokens l) i 0%nat f) as Hs.
  destruct (line_analyzeTracks _ _ _ _) as [st f1]. simpl in *. subst st. simpl.
  specialize (IH (S i) f1). simpl in IH. intuition congruence.
Qed.

(** A read that is reported valid went through all stages. *)
Lemma read_valid contents f0 f :
  read contents f0 = Some (true, f) →
  ∃ f3 f4,
    analyzeSpines (tokenized contents f0) = Some (true, f3) ∧
    analyzeLinks f3 = Some (true, f4) ∧
    f = (analyzeTracks f4).2.
Proof.
  rewrite read_as_pipeline. unfold tokenized, pipeline_stages, run_until_error.
  generalize (append_lines contents f0). intros g.
  cbn [mbind option_bind].
  destruct (analyzeTokens g) as [ok1 f1]. cbn [fst snd].
  destruct (isValid f1); [|discriminate].
  destruct (analyzeLines f1) as [ok2 f2]. cbn [fst snd].
  destruct (isValid f2); [|discriminate].
  destruct (analyzeSpines f2) as [[ok3 f3]|] eqn:E3; cbn [mbind option_bind]; [|done].
  pose proof (analyzeSpines_status _ _ _ E3) as ->.
  destruct (isValid f3) eqn:V3; [|discriminate].
  destruct (analyzeLinks f3) as [[ok4 f4]|] eqn:E4; cbn [mbind option_bind]; [|done].
  pose proof (analyzeLinks_loop_status _ _ _ _ _ _ E4) as ->.
  destruct (isValid f4) eqn:V4; [|discriminate].
  destruct (analyzeTracks f4) as [ok5 f5] eqn:E5. cbn [fst snd].
  destruct (isValid f5); [|discriminate].
  intros [= <-]. exists f3, f4. by rewrite E5.
Qed.

Lemma tokenized_fresh contents f0 :
  spineinfo (tokenized contents f0) = ∅ ∧
  nextTokens (tokenized contents f0) = ∅ ∧
  previousTokens (tokenized contents f0) = ∅.
Proof. done. Qed.

(** The lines of the object after a valid read are those the spine
    analysis ran on. *)
Lemma read_valid_lines contents f0 f :
  read contents f0 = Some (true, f) → lines f = lines (tokenized contents f0).
Proof.
  intros H. apply read_valid in H as (f3 & f4 & H3 & H4 & ->).
  destruct (analyzeTracks_loop_frame (lines f4) 0 f4) as [Hl5 _].
  unfold analyzeTracks. rewrite Hl5.
  apply analyzeLinks_loop_within in H4 as [(-> & _) _].
  apply analyzeSpines_inv in H3 as (g & Hloop & (Hl & _) & _).
  apply analyzeSpines_loop_frame in Hloop as [(-> & _) _]. done.
Qed.

(** The same for the whole of a valid read. *)
Lemma read_links_between contents f0 f i j li lj (G : HumdrumFileBase.t → HumdrumFileBase.t) :
  read contents f0 = Some (true, f) →
  lines f !! i = Some li → HumdrumLine.hasSpines li = true →
  next_structural (lines f) i j → lines f !! j = Some lj →
  (∀ g, lines g = lines f → stitchLinesTogether i j g = Some (isValid g, G g)) →
  ∃ g,
    (∀ c, getNextTokens g (i, c) = []) ∧ (∀ c, getPreviousTokens g (j, c) = []) ∧
    (∀ c, getNextTokens f (i, c) = getNextTokens (G g) (i, c)) ∧
    (∀ c, getPreviousTokens f (j, c) = getPreviousTokens (G g) (j, c)).
Proof.
  intros Hread Hi Hs (Hij & (lj' & Hj' & Hsj) & Hmid) Hj Hstitch.
  assert (lj' = lj) as -> by congruence.
  pose proof (read_valid_lines _ _ _ Hread) as Hlines.
  apply read_valid in Hread as (f3 & f4 & H3 & H4 & ->).
  destruct (analyzeTracks_loop_frame (lines f4) 0 f4) as (_ & _ & Hn5 & Hp5 & _).
  fold (analyzeTracks f4) in Hn5, Hp5.
  apply analyzeSpines_inv in H3 as (g0 & Hloop & (Hlg & Hng & Hpg) & _).
  apply analyzeSpines_loop_frame in Hloop as [(Hl3 & Hn3 & Hp3) _].
  rewrite Hlines in Hi, Hj, Hmid, Hstitch.
  destruct (lookup_split_two _ _ _ _ _ Hi Hj Hij) as (pre & mid & post & Hls & Hpre & Hjm).
  assert (Forall (λ l, HumdrumLine.hasSpines l = false) mid) as Hglobal.
  { apply Forall_lookup. intros k lk Hk.
    apply (Hmid (S i + k)%nat); [apply lookup_lt_Some in Hk; lia|].
    rewrite Hls. rewrite lookup_app_r by lia.
    replace (S i + k - length pre)%nat with (S k) by lia. simpl.
    by rewrite lookup_app_l by (by apply lookup_lt_Some in Hk). }
  unfold analyzeLinks in H4. rewrite Hl3, Hlg, Hls in H4.
  apply analyzeLinks_loop_app in H4 as (next' & h1 & Hlinks & Hnext' & (Hlh & _) & Hfresh);
    [|done].
  rewrite Nat.add_0_l, Hpre in Hlinks, Hnext', Hfresh.
  destruct (analyzeLinks_between _ _ _ _ _ j _ _ _ G Hlinks) as (g & Hg1 & Hg2 & Hg3 & Hg4);
    try done.
  { intros k Hk. destruct (Hfresh k Hk) as [-> ->].
    rewrite Hn3, Hp3, Hng, Hpg.
    destruct (tokenized_fresh contents f0) as (_ & -> & ->). done. }
  { intros g Hg. apply Hstitch. by rewrite Hg, Hlh, Hl3, Hlg. }
  exists g. unfold getNextTokens, getPreviousTokens in *.
  rewrite Hn5, Hp5. done.
Qed.

(** ** Exchange (C5) *)

(** The stitcher on a pair of exchange tokens followed by a line of two
    tokens. *)
Lemma stitch_exchange f p n previous next a b c d :
  lines f !! p = Some previous → lines f !! n = Some next →
  HumdrumLine.tokens previous = [a; b] →
  HumdrumToken.isExchangeInterpretation a = true →
  HumdrumToken.isExchangeInterpretation b = true →
  HumdrumLine.tokens next = [c; d] →
  stitchLinesTogether p n f =
    Some (isValid f,
          makeForwardLink (p, 0%nat) (n, 1%nat)
            (makeForwardLink (p, 1%nat) (n, 0%nat) f)).
Proof.
  intros Hp Hn Hprev Ha Hb Hnext.
  destruct (exchange_facts a Ha) as (Ma & Sa & Ga & Ia).
  unfold stitchLinesTogether. rewrite Hp, Hn. simpl.
  unfold HumdrumLine.isInterpretation, HumdrumLine.first_token,
    HumdrumLine.getTokenCount, HumdrumLine.token.
  rewrite Hprev, Hnext. simpl. rewrite Ia. simpl.
  rewrite Ma, Sa, Ga, Ha. simpl.
  unfold HumdrumLine.getTokenCount, HumdrumLine.token.
  rewrite Hprev, Hnext. simpl. rewrite Hb. reflexivity.
Qed.

(** C5.  When the previous line is a pair of exchange tokens and the next
    line has two tokens, the stitcher links token 1 of the previous line
    to token 0 of the next line and then token 0 to token 1: next-line
    token 0 gains the backward link to previous token 1, next-line token 1
    the backward link to previous token 0.  In a file that is read as
    valid these are all the links between the two lines. *)
Theorem exchange_links_swapped :
  (∀ (f : HumdrumFileBase.t) (p n : nat) (previous next : HLine) (a b c d : string),
     lines f !! p = Some previous → lines f !! n = Some next →
     HumdrumLine.tokens previous = [a; b] →
     HumdrumToken.isExchangeInterpretation a = true →
     HumdrumToken.isExchangeInterpretation b = true →
     HumdrumLine.tokens next = [c; d] →
     ∃ f', stitchLinesTogether p n f = Some (isValid f, f') ∧
       getPreviousTokens f' (n, 0%nat) = getPreviousTokens f (n, 0%nat) ++ [(p, 1%nat)] ∧
       getPreviousTokens f' (n, 1%nat) = getPreviousTokens f (n, 1%nat) ++ [(p, 0%nat)] ∧
       getNextTokens f' (p, 1%nat) = getNextTokens f (p, 1%nat) ++ [(n, 0%nat)] ∧
       getNextTokens f' (p, 0%nat) = getNextTokens f (p, 0%nat) ++ [(n, 1%nat)]) ∧
  (∀ (contents : list string) (f0 f : HumdrumFileBase.t) (i j : nat)
     (li lj : HLine) (a b c d : string),
     read contents f0 = Some (true, f) →
     lines f !! i = Some li → HumdrumLine.tokens li = [a; b] →
     HumdrumToken.isExchangeInterpretation a = true →
     HumdrumToken.isExchangeInterpretation b = true →
     next_structural (lines f) i j → lines f !! j = Some lj →
     HumdrumLine.tokens lj = [c; d] →
     getPreviousTokens f (j, 0%nat) = [(i, 1%nat)] ∧
     getPreviousTokens f (j, 1%nat) = [(i, 0%nat)] ∧
     getNextTokens f (i, 1%nat) = [(j, 0%nat)] ∧
     getNextTokens f (i, 0%nat) = [(j, 1%nat)]).
Proof.
  split.
  - intros f p n previous next a b c d Hp Hn Hprev Ha Hb Hnext.
    eexists. split; [by eapply stitch_exchange|].
    rewrite !makeForwardLink_previous, !makeForwardLink_next.
    repeat case_decide; try congruence; done.
  - intros contents f0 f i j li lj a b c d Hread Hi Ht Ha Hb Hnext Hj Htj.
    pose proof (exchange_line_facts li a b Ht Ha) as Hs.
    destruct (read_links_between contents f0 f i j li lj
                (λ g, makeForwardLink (i, 0%nat) (j, 1%nat)
                        (makeForwardLink (i, 1%nat) (j, 0%nat) g)))
      as (g & Hg1 & Hg2 & Hg3 & Hg4); try done.
    { intros g Hg.
      apply (stitch_exchange g i j li lj a b c d); try done; by rewrite Hg. }
    rewrite !Hg3, !Hg4, !makeForwardLink_previous, !makeForwardLink_next.
    rewrite !Hg1, !Hg2.
    repeat case_decide; try congruence; done.
Qed.

(** C5 on [exchange_pair], two lines before any link is made, and on the
    parsed [exchange_file]. *)
Lemma exchange_links_swapped_witness :
  (∃ f', stitchLinesTogether 0 1 exchange_pair = Some (true, f') ∧
     getPreviousTokens f' (1%nat, 0%nat) = [(0%nat, 1%nat)] ∧
     getPreviousTokens f' (1%nat, 1%nat) = [(0%nat, 0%nat)] ∧
     getNextTokens f' (0%nat, 1%nat) = [(1%nat, 0%nat)] ∧
     getNextTokens f' (0%nat, 0%nat) = [(1%nat, 1%nat)]) ∧
  (let f := parsed exchange_file in
   getPreviousTokens f (2%nat, 0%nat) = [(1%nat, 1%nat)] ∧
   getPreviousTokens f (2%nat, 1%nat) = [(1%nat, 0%nat)] ∧
   getNextTokens f (1%nat, 1%nat) = [(2%nat, 0%nat)] ∧
   getNextTokens f (1%nat, 0%nat) = [(2%nat, 1%nat)]).
Proof.
  destruct exchange_links_swapped as [Hstitch Hfile]. split.
  - exact (Hstitch exchange_pair 0%nat 1%nat
             (HumdrumLine.mk (row ["*x"; "*x"]) ["*x"; "*x"] 0)
             (HumdrumLine.mk (row ["A"; "B"]) ["A"; "B"] 1)
             "*x" "*x" "A" "B"
             eq_refl eq_refl eq_refl eq_refl eq_refl eq_refl).
  - intros f.
    assert (read exchange_file new = Some (true, f)) as Hread
      by (vm_compute; reflexivity).
    assert (next_structural (lines f) 1 2) as Hnext.
    { split; [lia|]. split.
      - exists (HumdrumLine.mk (row ["A"; "B"]) ["A"; "B"] 2). by split.
      - intros k lk Hk. lia. }
    exact (Hfile exchange_file new f 1%nat 2%nat
             (HumdrumLine.mk (row ["*x"; "*x"]) ["*x"; "*x"] 1)
             (HumdrumLine.mk (row ["A"; "B"]) ["A"; "B"] 2)
             "*x" "*x" "A" "B"
             Hread eq_refl eq_refl eq_refl eq_refl Hnext eq_refl eq_refl).
Defined.

(** ** Lines of differing width (C7) *)

Lemma analyzeSpines_line_plain i l init datatype sinfo f init' datatype' sinfo' f' :
  analyzeSpines_line i l init datatype sinfo f
    = Some (SpinesContinue init' datatype' sinfo' f') →
  HumdrumLine.hasSpines l = true → HumdrumLine.isManipulator l = false →
  init = true ∧ init' = true ∧ datatype' = datatype ∧ sinfo' = sinfo ∧
  length datatype = HumdrumLine.getTokenCount l.
Proof.
  unfold analyzeSpines_line. intros H Hs Hm. rewrite Hs, Hm in H. simpl in H.
  destruct init; simpl in H.
  - destruct (length datatype =? HumdrumLine.getTokenCount l)%nat eqn:E; simpl in H;
      bind_inv. apply Nat.eqb_eq in E. done.
  - destruct (HumdrumLine.isExclusive l) eqn:E; simpl in H; bind_inv.
    apply exclusive_line_is_manipulator in E. congruence.
Qed.

Lemma analyzeSpines_line_width i l datatype sinfo f init' datatype' sinfo' f' :
  analyzeSpines_line i l true datatype sinfo f
    = Some (SpinesContinue init' datatype' sinfo' f') →
  HumdrumLine.hasSpines l = true →
  length datatype = HumdrumLine.getTokenCount l.
Proof.
  unfold analyzeSpines_line. intros H Hs. rewrite Hs in H. simpl in H.
  destruct (length datatype =? HumdrumLine.getTokenCount l)%nat eqn:E; simpl in H.
  - by apply Nat.eqb_eq in E.
  - bind_inv.
Qed.

Lemma analyzeSpines_loop_next_structural ls :
  ∀ i datatype sinfo f f' k lb,
  analyzeSpines_loop ls i true datatype sinfo f = Some (true, f') →
  ls !! k = Some lb →
  (∀ j lj, (j < k)%nat → ls !! j = Some lj → HumdrumLine.hasSpines lj = false) →
  HumdrumLine.hasSpines lb = true →
  length datatype = HumdrumLine.getTokenCount lb.
Proof.
  induction ls as [|l ls IH]; intros i datatype sinfo f f' k lb H Hk Hmid Hb;
    [done|]. simpl in H.
  destruct (analyzeSpines_line i l true datatype sinfo f) as [r|] eqn:E; [|done].
  cbn [mbind option_bind] in H.
  destruct k as [|k]; simpl in Hk.
  - injection Hk as ->.
    destruct r as [st f1 | init1 dt1 si1 f1].
    + apply analyzeSpines_line_return in E as [-> _]. discriminate.
    + eauto using analyzeSpines_line_width.
  - assert (HumdrumLine.hasSpines l = false) as Hl by (apply (Hmid 0%nat); [lia|done]).
    rewrite (analyzeSpines_line_global _ _ _ _ _ _ _ E Hl) in H.
    eapply IH; eauto. intros j lj Hj Hlj. apply (Hmid (S j)); [lia|done].
Qed.

Lemma analyzeSpines_loop_ragged ls :
  ∀ i init datatype sinfo f f' a b la lb,
  analyzeSpines_loop ls i init datatype sinfo f = Some (true, f') →
  ls !! a = Some la → ls !! b = Some lb → (a < b)%nat →
  HumdrumLine.hasSpines la = true → HumdrumLine.hasSpines lb = true →
  (∀ k lk, (a < k < b)%nat → ls !! k = Some lk → HumdrumLine.hasSpines lk = false) →
  HumdrumLine.isManipulator la = false →
  HumdrumLine.getTokenCount la = HumdrumLine.getTokenCount lb.
Proof.
  induction ls as [|l ls IH];
    intros i init datatype sinfo f f' a b la lb H Ha Hb Hab Hsa Hsb Hmid Hma; [done|].
  simpl in H.
  destruct (analyzeSpines_line i l init datatype sinfo f) as [r|] eqn:E; [|done].
  cbn [mbind option_bind] in H.
  destruct r as [st f1 | init1 dt1 si1 f1].
  { apply analyzeSpines_line_return in E as [-> _]. discriminate. }
  destruct b as [|b]; [lia|]. simpl in Hb.
  destruct a as [|a]; simpl in Ha.
  - injection Ha as ->.
    destruct (analyzeSpines_line_plain _ _ _ _ _ _ _ _ _ _ E Hsa Hma)
      as (-> & -> & -> & -> & Hlen).
    rewrite <- Hlen.
    eapply analyzeSpines_loop_next_structural; eauto.
    intros j lj Hj Hlj. apply (Hmid (S j)); [lia|done].
  - eapply (IH _ _ _ _ _ _ a b); eauto; [lia|].
    intros k lk Hk Hlk. apply (Hmid (S k)); [lia|done].
Qed.

Lemma read_rejects_ragged_pair contents f0 b f i j li lj :
  read contents f0 = Some (b, f) → ragged_pair (lines f) i j li lj →
  b = false.
Proof.
  intros H (Hi & Hj & Hsi & (Hij & (lj' & Hj' & Hsj) & Hmid) & Hmi & Hmj & Hne).
  destruct b; [|done]. exfalso. apply Hne.
  rewrite (read_valid_lines _ _ _ H) in *.
  apply read_valid in H as (f3 & f4 & H3 & _).
  apply analyzeSpines_inv in H3 as (g & Hloop & _).
  assert (lj' = lj) as -> by congruence.
  eapply analyzeSpines_loop_ragged; eauto.
Qed.

Lemma stitch_reports_both_lines f p n previous next :
  lines f !! p = Some previous → lines f !! n = Some next →
  HumdrumLine.isInterpretation previous = false →
  HumdrumLine.isInterpretation next = false →
  HumdrumLine.getTokenCount previous ≠ HumdrumLine.getTokenCount next →
  ∃ f', stitchLinesTogether p n f = Some (false, f') ∧
    parseError f' = length_error previous next ∧
    names_both_lines (parseError f') previous next.
Proof.
  intros Hp Hn Hip Hin Hne. eexists. split; [|split].
  - unfold stitchLinesTogether. rewrite Hp, Hn. cbn [mbind option_bind].
    rewrite Hip, Hin. cbn [negb andb].
    rewrite (proj2 (Nat.eqb_neq _ _) Hne). cbn [negb]. reflexivity.
  - reflexivity.
  - simpl. unfold length_error, names_both_lines.
    repeat split.
    + apply is_infix_app_r, is_infix_here.
    + do 3 apply is_infix_app_r. apply is_infix_here.
    + do 9 apply is_infix_app_r. apply is_infix_here.
    + do 14 apply is_infix_app_r. apply is_infix_refl.
Qed.

(** C7 as stated fails: in the file [ragged_data] lines 2 and 3 are
    adjacent data lines of 4 and 5 fields; the parse is invalid, but the
    stored text is the one of the spine analysis, "Error on line 3: ...
    Expected 4 fields, but found 5", which does not hold the number 2 of
    the first of the two lines. *)
Lemma ragged_data_error_names_one_line :
  let f := parsed ragged_data in
  let l1 := HumdrumLine.mk (row ["p"; "q"; "r"; "s"]) ["p"; "q"; "r"; "s"] 1 in
  let l2 := HumdrumLine.mk (row ["p"; "q"; "r"; "s"; "t"]) ["p"; "q"; "r"; "s"; "t"] 2 in
  read ragged_data new = Some (false, f) ∧
  ragged_pair (lines f) 1 2 l1 l2 ∧
  ¬ names_both_lines (parseError f) l1 l2.
Proof.
  intros f l1 l2. split; [vm_compute; reflexivity|]. split.
  - split; [reflexivity|]. split; [reflexivity|]. split; [reflexivity|].
    split; [|by repeat split].
    split; [lia|]. split; [exists l2; by split|]. intros k lk Hk. lia.
  - intros (H1 & _). apply infixb_complete in H1. vm_compute in H1. discriminate.
Qed.

(** ** Split (C3) *)

(** [adjustSpines] on a line that is a single split token. *)
Lemma adjustSpines_split li line tok d s f :
  HumdrumLine.tokens line = [tok] →
  HumdrumToken.isSplitInterpretation tok = true →
  adjustSpines li line [d] [s] f =
    Some (true, ([d; d], ["(" +:+ s +:+ ")a"; "(" +:+ s +:+ ")b"]), f).
Proof.
  intros Ht Hs. unfold adjustSpines. rewrite Ht. simpl. rewrite Hs. reflexivity.
Qed.

Lemma label_tokens_below li toks : ∀ j sinfo f f' c,
  label_tokens li toks j sinfo f = Some f' → (c < j)%nat →
  spineinfo f' !! (li, c) = spineinfo f !! (li, c).
Proof.
  induction toks as [|tok toks IH]; intros j sinfo f f' c H Hc; simpl in H.
  - by bind_inv.
  - bind_inv. rewrite (IH _ _ _ _ c H) by lia.
    rewrite setSpineInfo_lookup. case_decide; [|done].
    match goal with H : (_, _) = (_, _) |- _ => injection H as ? end. lia.
Qed.

Lemma label_tokens_spec li toks : ∀ j sinfo f f' c,
  label_tokens li toks j sinfo f = Some f' → (c < length toks)%nat →
  spineinfo f' !! (li, (j + c)%nat) = sinfo !! (j + c)%nat ∧
  is_Some (sinfo !! (j + c)%nat).
Proof.
  induction toks as [|tok toks IH]; intros j sinfo f f' c H Hc; simpl in *; [lia|].
  bind_inv. destruct c as [|c].
  - rewrite Nat.add_0_r.
    rewrite (label_tokens_below _ _ _ _ _ _ j H) by lia.
    rewrite setSpineInfo_lookup. case_decide; [|done]. split; [done|by eexists].
  - replace (j + S c)%nat with (S j + c)%nat by lia.
    apply (IH _ _ _ _ c H). lia.
Qed.

(** The body of the spine loop on a structural line, once the first
    exclusive line has been seen: the width matches and token [c] carries
    label [c] of the tracker. *)
Lemma analyzeSpines_line_labels i l datatype sinfo f init' datatype' sinfo' f' :
  analyzeSpines_line i l true datatype sinfo f
    = Some (SpinesContinue init' datatype' sinfo' f') →
  HumdrumLine.hasSpines l = true →
  length datatype = HumdrumLine.getTokenCount l ∧
  ∀ c, (c < HumdrumLine.getTokenCount l)%nat →
    spineinfo f' !! (i, c) = sinfo !! c ∧ is_Some (sinfo !! c).
Proof.
  intros H Hs. split; [eauto using analyzeSpines_line_width|].
  unfold analyzeSpines_line in H. rewrite Hs in H. simpl in H.
  destruct (length datatype =? HumdrumLine.getTokenCount l)%nat; simpl in H; [|bind_inv].
  destruct (label_tokens i (HumdrumLine.tokens l) 0 sinfo f) as [f1|] eqn:E; [|done].
  cbn [mbind option_bind] in H. intros c Hc.
  destruct (label_tokens_spec _ _ _ _ _ _ c E Hc) as [Hlab Hsome]. simpl in *.
  split; [|done]. rewrite <- Hlab.
  destruct (HumdrumLine.isManipulator l); simpl in H; bind_inv; [|done].
  match goal with H : adjustSpines _ _ _ _ _ = Some _ |- _ =>
    apply adjustSpines_frame in H as [_ ->] end. done.
Qed.

(** The body of the spine loop on a line that is a single split token. *)
Lemma analyzeSpines_line_split i l tok init datatype sinfo f init' datatype' sinfo' f' :
  analyzeSpines_line i l init datatype sinfo f
    = Some (SpinesContinue init' datatype' sinfo' f') →
  HumdrumLine.tokens l = [tok] → HumdrumToken.isSplitInterpretation tok = true →
  init' = true ∧
  ∃ d s, datatype' = [d; d] ∧
    sinfo' = ["(" +:+ s +:+ ")a"; "(" +:+ s +:+ ")b"] ∧
    spineinfo f' !! (i, 0%nat) = Some s.
Proof.
  intros H Ht Hsp.
  destruct (split_line_facts l tok Ht Hsp) as (Hs & He & _ & Hm & Hc).
  assert (init = true) as ->.
  { destruct init; [done|]. unfold analyzeSpines_line in H.
    rewrite Hs, He in H. simpl in H. bind_inv. }
  destruct (analyzeSpines_line_labels _ _ _ _ _ _ _ _ _ H Hs) as [Hlen Hlab].
  destruct (Hlab 0%nat) as [Hl0 [s Hs0]]; [lia|].
  rewrite Hc in Hlen.
  destruct datatype as [|d [|? ?]]; simpl in Hlen; try lia.
  unfold analyzeSpines_line in H. rewrite Hs, Hm, Hc in H. simpl in H.
  destruct (label_tokens i (HumdrumLine.tokens l) 0 sinfo f) as [f1|] eqn:E; [|done].
  cbn [mbind option_bind] in H.
  assert (adjustSpines i l [d] sinfo f1 =
            Some (true, ([d; d], ["(" +:+ s +:+ ")a"; "(" +:+ s +:+ ")b"]), f1))
    as Hadj.
  { unfold adjustSpines. rewrite Ht. simpl. rewrite Hsp.
    simpl. rewrite Hs0. simpl.
    pose proof (resize_length sinfo 2) as Hr.
    destruct (Cpp.resize sinfo 2) as [|? [|? [|? ?]]]; simpl in Hr; try lia.
    reflexivity. }
  rewrite Hadj in H. cbn [mbind option_bind] in H. simpl in H. bind_inv.
  split; [done|]. exists d, s. split; [done|]. split; [done|].
  by rewrite Hl0.
Qed.

(** The labels after a line that is a single split token: the next
    structural line has two tokens, labelled with the two halves. *)
Lemma spines_after_split li mid lj post tok i init datatype sinfo f f' :
  analyzeSpines_loop (li :: mid ++ lj :: post) i init datatype sinfo f = Some (true, f') →
  HumdrumLine.tokens li = [tok] → HumdrumToken.isSplitInterpretation tok = true →
  Forall (λ l, HumdrumLine.hasSpines l = false) mid →
  HumdrumLine.hasSpines lj = true →
  let j := (S i + length mid)%nat in
  HumdrumLine.getTokenCount lj = 2%nat ∧
  ∃ s, spineinfo f' !! (i, 0%nat) = Some s ∧
    spineinfo f' !! (j, 0%nat) = Some ("(" +:+ s +:+ ")a") ∧
    spineinfo f' !! (j, 1%nat) = Some ("(" +:+ s +:+ ")b").
Proof.
  intros H Ht Hsp Hmid Hsj j. simpl in H.
  destruct (analyzeSpines_line i li init datatype sinfo f) as [r|] eqn:E; [|done].
  cbn [mbind option_bind] in H.
  destruct r as [st f1 | init1 dt1 si1 f1].
  { apply analyzeSpines_line_return in E as [-> _]. discriminate. }
  destruct (analyzeSpines_line_split _ _ _ _ _ _ _ _ _ _ _ E Ht Hsp)
    as (-> & d & s & -> & -> & Hi).
  apply analyzeSpines_loop_skip in H; [|done]. fold j in H. simpl in H.
  destruct (analyzeSpines_line j lj true [d; d] _ f1) as [r|] eqn:E2; [|done].
  cbn [mbind option_bind] in H.
  destruct r as [st f2 | init2 dt2 si2 f2].
  { apply analyzeSpines_line_return in E2 as [-> _]. discriminate. }
  destruct (analyzeSpines_line_labels _ _ _ _ _ _ _ _ _ E2 Hsj) as [Hlen Hlab].
  simpl in Hlen. split; [done|].
  apply analyzeSpines_line_frame in E2 as [_ Hfr]. simpl in Hfr.
  apply analyzeSpines_loop_frame in H as [_ Hfr'].
  exists s. rewrite !Hfr' by (simpl; lia).
  destruct (Hlab 0%nat) as [-> _]; [lia|].
  destruct (Hlab 1%nat) as [-> _]; [lia|].
  rewrite Hfr by (simpl; lia). done.
Qed.

(** The stitcher on a line that is a single split token, followed by a
    line of two tokens. *)
Lemma stitch_split f i j li lj tok c e :
  lines f !! i = Some li → lines f !! j = Some lj →
  HumdrumLine.tokens li = [tok] → HumdrumToken.isSplitInterpretation tok = true →
  HumdrumLine.tokens lj = [c; e] →
  stitchLinesTogether i j f =
    Some (isValid f,
          makeForwardLink (i, 0%nat) (j, 1%nat)
            (makeForwardLink (i, 0%nat) (j, 0%nat) f)).
Proof.
  intros Hi Hj Ht Hsp Htj.
  destruct (split_line_facts li tok Ht Hsp) as (_ & _ & Hint & _ & _).
  destruct (split_facts tok Hsp) as (Hm & _).
  unfold stitchLinesTogether. rewrite Hi, Hj. cbn [mbind option_bind].
  rewrite Hint. cbn [negb andb]. rewrite Ht. simpl.
  rewrite Hm, Hsp. simpl. unfold HumdrumLine.token, HumdrumLine.getTokenCount.
  rewrite Ht, Htj. reflexivity.
Qed.

(** The labels around a line that is a single split token, for the whole
    of a valid read. *)
Lemma read_labels_after_split contents f0 f i j li lj tok :
  read contents f0 = Some (true, f) →
  lines f !! i = Some li → HumdrumLine.tokens li = [tok] →
  HumdrumToken.isSplitInterpretation tok = true →
  next_structural (lines f) i j → lines f !! j = Some lj →
  HumdrumLine.getTokenCount lj = 2%nat ∧
  getSpineInfo f (j, 0%nat) = "(" +:+ getSpineInfo f (i, 0%nat) +:+ ")a" ∧
  getSpineInfo f (j, 1%nat) = "(" +:+ getSpineInfo f (i, 0%nat) +:+ ")b".
Proof.
  intros Hread Hi Ht Hsp (Hij & (lj' & Hj' & Hsj) & Hmid) Hj.
  assert (lj' = lj) as -> by congruence.
  pose proof (read_valid_lines _ _ _ Hread) as Hlines.
  apply read_valid in Hread as (f3 & f4 & H3 & H4 & ->).
  destruct (analyzeTracks_loop_frame (lines f4) 0 f4) as (_ & Hsi5 & _).
  fold (analyzeTracks f4) in Hsi5.
  apply analyzeLinks_loop_within in H4 as ((_ & Hsi4 & _) & _).
  apply analyzeSpines_inv in H3 as (g & Hloop & _).
  rewrite Hlines in Hi, Hj, Hmid.
  destruct (lookup_split_two _ _ _ _ _ Hi Hj Hij) as (pre & mid & post & Hls & Hpre & Hjm).
  assert (Forall (λ l, HumdrumLine.hasSpines l = false) mid) as Hglobal.
  { apply Forall_lookup. intros k lk Hk.
    apply (Hmid (S i + k)%nat); [apply lookup_lt_Some in Hk; lia|].
    rewrite Hls. rewrite lookup_app_r by lia.
    replace (S i + k - length pre)%nat with (S k) by lia. simpl.
    by rewrite lookup_app_l by (by apply lookup_lt_Some in Hk). }
  rewrite Hls in Hloop.
  apply analyzeSpines_loop_app in Hloop as (init' & dt' & si' & g1 & Hloop & _).
  rewrite Nat.add_0_l, Hpre in Hloop.
  destruct (spines_after_split _ _ _ _ _ _ _ _ _ _ _ Hloop Ht Hsp Hglobal Hsj)
    as (Hcount & s & Hs0 & Hsa & Hsb).
  rewrite Hjm in Hsa, Hsb.
  split; [done|]. unfold getSpineInfo.
  by rewrite Hsi5, Hsi4, Hs0, Hsa, Hsb.
Qed.

(** C3.  In a file that is read as valid, let line [i] consist of a single
    split token and let [j] be the next structural line.  Then line [j]
    has exactly two tokens; the split token has exactly two forward links,
    to tokens 0 and 1 of line [j], which both link back to it alone; their
    spine infos are the spine info of the split token in parentheses
    followed by [a] and [b]; and the tracker hands the datatype of the
    split column to both new columns. *)
Theorem split_arity (contents : list string) (f0 f : HumdrumFileBase.t)
    (i j : nat) (li lj : HLine) (tok : string) :
  read contents f0 = Some (true, f) →
  lines f !! i = Some li → HumdrumLine.tokens li = [tok] →
  HumdrumToken.isSplitInterpretation tok = true →
  next_structural (lines f) i j → lines f !! j = Some lj →
  HumdrumLine.getTokenCount lj = 2%nat ∧
  getNextTokens f (i, 0%nat) = [(j, 0%nat); (j, 1%nat)] ∧
  getPreviousTokens f (j, 0%nat) = [(i, 0%nat)] ∧
  getPreviousTokens f (j, 1%nat) = [(i, 0%nat)] ∧
  getSpineInfo f (j, 0%nat) = "(" +:+ getSpineInfo f (i, 0%nat) +:+ ")a" ∧
  getSpineInfo f (j, 1%nat) = "(" +:+ getSpineInfo f (i, 0%nat) +:+ ")b" ∧
  (∀ d s g, adjustSpines i li [d] [s] g =
     Some (true, ([d; d], ["(" +:+ s +:+ ")a"; "(" +:+ s +:+ ")b"]), g)).
Proof.
  intros Hread Hi Ht Hsp Hnext Hj.
  destruct (read_labels_after_split _ _ _ _ _ _ _ _ Hread Hi Ht Hsp Hnext Hj)
    as (Hcount & Ha & Hb).
  destruct (split_line_facts li tok Ht Hsp) as (Hs & _).
  assert (∃ c e, HumdrumLine.tokens lj = [c; e]) as (c & e & Htj).
  { unfold HumdrumLine.getTokenCount in Hcount.
    destruct (HumdrumLine.tokens lj) as [|c [|e [|? ?]]]; simpl in Hcount; try lia.
    eauto. }
  destruct (read_links_between contents f0 f i j li lj
              (λ g, makeForwardLink (i, 0%nat) (j, 1%nat)
                      (makeForwardLink (i, 0%nat) (j, 0%nat) g)))
    as (g & Hg1 & Hg2 & Hg3 & Hg4); try done.
  { intros g Hg.
    apply (stitch_split g i j li lj tok c e); try done; by rewrite Hg. }
  rewrite Hg3, !Hg4, !makeForwardLink_previous, !makeForwardLink_next, !Hg1, !Hg2.
  split; [done|].
  split; [repeat case_decide; try congruence; done|].
  split; [repeat case_decide; try congruence; done|].
  split; [repeat case_decide; try congruence; done|].
  split; [done|]. split; [done|].
  intros d s g'. by apply (adjustSpines_split _ _ tok).
Qed.

(** C3 on [split_file], where a global comment stands between the split
    line and the next structural line. *)
Lemma split_arity_witness :
  let f := parsed split_file in
  read split_file new = Some (true, f) ∧
  getNextTokens f (1%nat, 0%nat) = [(3%nat, 0%nat); (3%nat, 1%nat)] ∧
  getPreviousTokens f (3%nat, 0%nat) = [(1%nat, 0%nat)] ∧
  getPreviousTokens f (3%nat, 1%nat) = [(1%nat, 0%nat)] ∧
  getSpineInfo f (3%nat, 0%nat) = "(" +:+ getSpineInfo f (1%nat, 0%nat) +:+ ")a" ∧
  getSpineInfo f (3%nat, 1%nat) = "(" +:+ getSpineInfo f (1%nat, 0%nat) +:+ ")b".
Proof.
  intros f.
  assert (read split_file new = Some (true, f)) as Hread by (vm_compute; reflexivity).
  assert (next_structural (lines f) 1 3) as Hnext.
  { split; [lia|]. split.
    - exists (HumdrumLine.mk (row ["4c"; "4e"]) ["4c"; "4e"] 3). by split.
    - intros k lk Hk Hlk. assert (k = 2%nat) as -> by lia.
      vm_compute in Hlk. by injection Hlk as <-. }
  destruct (split_arity split_file new f 1 3
              (HumdrumLine.mk "*^" ["*^"] 1)
              (HumdrumLine.mk (row ["4c"; "4e"]) ["4c"; "4e"] 3) "*^"
              Hread eq_refl eq_refl eq_refl Hnext eq_refl)
    as (_ & Hn & Hp0 & Hp1 & Ha & Hb & _).
  exact (conj Hread (conj Hn (conj Hp0 (conj Hp1 (conj Ha Hb))))).
Defined.

(** ** The track table *)

Lemma tracks_step_refl f : tracks_step f f.
Proof. split; [done|]. auto. Qed.

Lemma tracks_step_same f f' :
  trackstarts f' = trackstarts f → tracks_step f f'.
Proof.
  intros Ht. unfold tracks_step. rewrite Ht. split; [done|]. auto.
Qed.

Lemma tracks_step_trans f1 f2 f3 :
  tracks_step f1 f2 → tracks_step f2 f3 → tracks_step f1 f3.
Proof.
  intros (Hl & Hs) (Hl' & Hs'). split; [lia|]. eauto.
Qed.

Lemma track_numbers_snoc (n : nat) :
  track_numbers (S n) = track_numbers n ++ [Z.of_nat (S n)].
Proof. unfold track_numbers. by rewrite seq_S, map_app. Qed.

Lemma length_track_numbers (n : nat) : length (track_numbers n) = n.
Proof. unfold track_numbers. by rewrite length_map, length_seq. Qed.

Lemma track_numbers_lookup (n k : nat) :
  (k < n)%nat → track_numbers n !! k = Some (Z.of_nat k + 1).
Proof.
  intros Hk. unfold track_numbers. rewrite list_lookup_fmap, lookup_seq_lt by done.
  simpl. f_equal. lia.
Qed.

(** An add manipulator: [addToTrackStarts(NULL)]. *)
Lemma add_track_step f :
  tracks_step f (with_tracks (trackstarts f ++ [None]) (trackends f ++ [[]]) f).
Proof.
  split; [simpl; rewrite length_app; simpl; lia|].
  intros k r Hk; simpl; by apply lookup_app_l_Some.
Qed.

(** An exclusive interpretation after an add manipulator fills the open
    entry. *)
Lemma fill_track_step tok f f' :
  (1 <? Cpp.size (trackstarts f)) = true →
  Cpp.back (trackstarts f) = Some None →
  addToTrackStarts (Some tok) f = Some f' →
  tracks_step f f'.
Proof.
  unfold addToTrackStarts. intros Hsize Hback. rewrite Hsize, Hback.
  rewrite bool_decide_eq_true_2 by done. cbn [andb].
  destruct (Cpp.set_back (trackstarts f) (Some tok)) as [ts|] eqn:E; [|done].
  apply set_back_spec in E as ->.
  cbn [mbind option_bind]. intros [= <-].
  unfold tracks_step. simpl.
  rewrite length_insert. split; [done|].
  intros k r Hk. rewrite list_lookup_insert_ne; [done|].
  intros <-. unfold Cpp.back in Hback. rewrite last_lookup in Hback. congruence.
Qed.

Lemma adjustSpines_loop_tracks li line datatype sinfo rest :
  ∀ i skip newtype newinfo f r,
  adjustSpines_loop li line datatype sinfo rest i skip newtype newinfo f = Some r →
  tracks_step f (adjusted_state r).
Proof.
  induction rest as [|tok rest IH]; intros i skip newtype newinfo f r H; simpl in H.
  - bind_inv. apply tracks_step_refl.
  - destruct skip as [|k]; [|by apply IH in H].
    destruct (HumdrumToken.isSplitInterpretation tok); [bind_inv; eauto|].
    destruct (HumdrumToken.isMergeInterpretation tok); [bind_inv; eauto|].
    destruct (HumdrumToken.isAddInterpretation tok).
    { bind_inv. apply IH in H.
      eapply tracks_step_trans; [|exact H]. apply add_track_step. }
    destruct (HumdrumToken.isExchangeInterpretation tok).
    { bind_inv; eauto; by apply tracks_step_same. }
    destruct (HumdrumToken.isTerminateInterpretation tok).
    { bind_inv. apply IH in H.
      eapply tracks_step_trans; [|exact H]. by apply tracks_step_same. }
    destruct (String.eqb (String.substring 0 2 tok) "**"); [|bind_inv; eauto].
    destruct ((1 <? Cpp.size (trackstarts f)) &&
              bool_decide (Cpp.back (trackstarts f) = Some None)) eqn:Hprep;
      simpl in H; [|bind_inv; by apply tracks_step_same].
    apply andb_prop in Hprep as [Hsize _].
    bind_inv; apply IH in H; [|done].
    eapply tracks_step_trans; [|exact H].
    match goal with H : bool_decide (_ = None) = true |- _ =>
      apply bool_decide_eq_true in H; subst end.
    eapply fill_track_step; eauto.
Qed.

Lemma adjustSpines_tracks li line datatype sinfo f ok dt' si' f' :
  adjustSpines li line datatype sinfo f = Some (ok, (dt', si'), f') →
  tracks_step f f'.
Proof.
  unfold adjustSpines. intros H.
  destruct (adjustSpines_loop _ _ _ _ _ _ _ _ _ _) as [r|] eqn:E; [|done].
  apply adjustSpines_loop_tracks in E. cbn [mbind option_bind] in H.
  destruct r; bind_inv; done.
Qed.

Lemma analyzeSpines_line_tracks i l datatype sinfo f r :
  analyzeSpines_line i l true datatype sinfo f = Some r →
  tracks_step f (spines_state r).
Proof.
  unfold analyzeSpines_line. intros H. simpl in H.
  destruct (HumdrumLine.hasSpines l); simpl in H;
    [|bind_inv; apply tracks_step_refl].
  destruct (length datatype =? HumdrumLine.getTokenCount l)%nat; simpl in H;
    [|bind_inv; by apply tracks_step_same].
  destruct (label_tokens i (HumdrumLine.tokens l) 0 sinfo f) as [f1|] eqn:E; [|done].
  apply label_tokens_frame in E as (_ & _ & Hts & _).
  cbn [mbind option_bind] in H.
  destruct (HumdrumLine.isManipulator l); simpl in H.
  - destruct (adjustSpines i l datatype sinfo f1) as [[[ok [dt' si']] f2]|] eqn:E2;
      [|done].
    apply adjustSpines_tracks in E2. cbn [mbind option_bind] in H.
    assert (tracks_step f f2)
      by (eapply tracks_step_trans; [by apply tracks_step_same | done]).
    destruct ok; simpl in H; bind_inv; done.
  - bind_inv. by apply tracks_step_same.
Qed.

Lemma analyzeSpines_loop_tracks ls : ∀ i datatype sinfo f b f',
  analyzeSpines_loop ls i true datatype sinfo f = Some (b, f') →
  tracks_step f f'.
Proof.
  induction ls as [|l ls IH]; intros i datatype sinfo f b f' H; simpl in H.
  - bind_inv. apply tracks_step_refl.
  - destruct (analyzeSpines_line i l true datatype sinfo f) as [r|] eqn:E; [|done].
    cbn [mbind option_bind] in H.
    pose proof (analyzeSpines_line_tracks _ _ _ _ _ _ E) as Hstep.
    destruct r as [st f1 | init1 dt1 si1 f1]; simpl in *.
    + by bind_inv.
    + assert (init1 = true) as ->.
      { unfold analyzeSpines_line in E. simpl in E. by bind_inv. }
      eapply tracks_step_trans; eauto.
Qed.

Lemma open_tracks_below li toks : ∀ j f f' c,
  open_tracks li toks j f = Some f' → (c < j)%nat →
  spineinfo f' !! (li, c) = spineinfo f !! (li, c).
Proof.
  induction toks as [|tok toks IH]; intros j f f' c H Hc; simpl in H.
  - by bind_inv.
  - destruct (addToTrackStarts (Some (li, j)) f) as [f1|] eqn:E; [|done].
    cbn [mbind option_bind] in H.
    apply addToTrackStarts_frame in E as (_ & Hs & _).
    rewrite (IH _ _ _ c H) by lia.
    rewrite setSpineInfo_lookup. case_decide as Heq; [|by simpl; rewrite Hs].
    injection Heq as ?. lia.
Qed.



Lemma open_tracks_first li tok toks f f' :
  open_tracks li (tok :: toks) 0 f = Some f' →
  spineinfo f' !! (li, 0%nat) = Some "1".
Proof.
  simpl. intros H.
  destruct (addToTrackStarts (Some (li, 0%nat)) f) as [f1|] eqn:E; [|done].
  cbn [mbind option_bind] in H.
  rewrite (open_tracks_below _ _ _ _ _ 0%nat H) by lia.
  rewrite setSpineInfo_lookup. by case_decide.
Qed.

(** ** Track ends (C2) *)

(** C2 (code defect).  In the file of two spines that both end on the
    second line, the terminator of the first spine (token 0 of line 1,
    spine info ["1"], track 1) is not on the end list of track 1: that list
    is empty, and both terminators sit on the end list of track 2, the last
    track opened. *)
Theorem terminators_stored_under_last_track :
  let f := parsed two_spines in
  read two_spines new = Some (true, f) ∧
  tokenText f (1%nat, 0%nat) = Some "*-" ∧
  getSpineInfo f (1%nat, 0%nat) = "1" ∧ getTrack f (1%nat, 0%nat) = 1 ∧
  getMaxTrack f = 2 ∧
  getTrackEndCount f 1 = Some 0 ∧ getTrackEnd f 1 0 = Some None ∧
  getTrackEndCount f 2 = Some 2 ∧
  getTrackEnd f 2 0 = Some (Some (1%nat, 0%nat)).
Proof. vm_compute. repeat split. Qed.

(** ** Merged labels (C4) *)

(** The two halves of a split merge back into the label of the parent. *)
Lemma getMergedSpineInfo_siblings (info : list string) (starti : nat) (p : string) :
  info !! starti = Some ("(" +:+ p +:+ ")a") →
  info !! (starti + 1)%nat = Some ("(" +:+ p +:+ ")b") →
  Z.of_nat (String.length p) + 3 < 2 ^ 31 →
  getMergedSpineInfo info starti 1 = Some p.
Proof.
  intros Ha Hb Hlen. unfold getMergedSpineInfo.
  change (1 =? 1)%nat with true. cbn iota.
  rewrite Ha, Hb. cbn [mbind option_bind].
  assert (∀ x, String.length ("(" +:+ p +:+ String ")" (String x "")) =
               (String.length p + 3)%nat) as Hsz.
  { intros x. rewrite paren_append. simpl. rewrite length_append. simpl. lia. }
  unfold Cpp.ssize. rewrite !Hsz.
  rewrite !to_int_id by (unfold int_range; lia).
  rewrite Z.eqb_refl.
  assert (∀ x, Cpp.substr ("(" +:+ p +:+ String ")" (String x "")) 0
                 (Z.of_nat (String.length p + 3) - 1)
               = Some ("(" +:+ p +:+ ")")) as Hpre.
  { intros x. rewrite (substr_spec _ _ _ (S (String.length p + 1))).
    - rewrite paren_append. simpl. by rewrite substring_append.
    - lia.
    - lia.
    - unfold Cpp.ssize. rewrite Hsz. lia. }
  rewrite (Hpre "a"%char), (Hpre "b"%char). cbn [mbind option_bind].
  rewrite String.eqb_refl.
  rewrite (substr_spec _ _ _ (String.length p)).
  - rewrite paren_append. simpl.
    replace (String.length p) with (String.length p + 0)%nat at 1 by lia.
    by rewrite substring_append, substring_0_0, append_nil_r.
  - rewrite Hsz. lia.
  - lia.
  - unfold Cpp.ssize. rewrite Hsz. lia.
Qed.

(** Two merging columns whose labels differ in length are joined with a
    space. *)
Lemma getMergedSpineInfo_unequal (info : list string) (starti : nat) (a b : string) :
  info !! starti = Some a → info !! (starti + 1)%nat = Some b →
  Cpp.ssize a < 2 ^ 31 → Cpp.ssize b < 2 ^ 31 → Cpp.ssize a ≠ Cpp.ssize b →
  getMergedSpineInfo info starti 1 = Some (a +:+ " " +:+ b).
Proof.
  intros Ha Hb Hla Hlb Hne. unfold getMergedSpineInfo.
  change (1 =? 1)%nat with true. cbn iota.
  rewrite Ha, Hb. cbn [mbind option_bind].
  rewrite !to_int_id by (unfold int_range, Cpp.ssize in *; lia).
  by rewrite (proj2 (Z.eqb_neq _ _) Hne).
Qed.

(** C4 (code defect).  Three merging columns labelled 1, 2, 3 with a
    fourth column 4 beside them get the label ["1 4 4"], not ["1 2 3"];
    when the run reaches the last column the label is read past the end of
    the vector; two merging columns labelled 1 and 2, which are not the
    halves of a split, get the empty label, not ["1 2"]. *)
Theorem merged_label_of_three_and_of_unrelated_two :
  getMergedSpineInfo ["1"; "2"; "3"; "4"] 0 2 = Some "1 4 4" ∧
  getMergedSpineInfo ["1"; "2"; "3"] 0 2 = None ∧
  getMergedSpineInfo ["1"; "2"] 0 1 = Some "" ∧
  (let f := parsed three_way_merge in
   read three_way_merge new = Some (true, f) ∧
   getSpineInfo f (2%nat, 0%nat) = "1 4 4") ∧
  (let f := parsed two_way_merge in
   read two_way_merge new = Some (true, f) ∧
   getSpineInfo f (2%nat, 0%nat) = "").
Proof. vm_compute. repeat split. Qed.

(** ** Unmatched exchange (C6) *)

(** The branch of [adjustSpines] that would report an exchange token
    without partner is dead: no run ends with its message. *)
Lemma adjustSpines_loop_no_unmatched_report li line datatype sinfo rest :
  ∀ i skip newtype newinfo f b f',
  adjustSpines_loop li line datatype sinfo rest i skip newtype newinfo f
    = Some (AdjustReturn b f') →
  parseError f' ≠ "ERROR1 in *x calculation".
Proof.
  induction rest as [|tok rest IH]; intros i skip newtype newinfo f b f' H; simpl in H.
  - discriminate.
  - destruct skip as [|k]; [|by apply IH in H].
    destruct (HumdrumToken.isSplitInterpretation tok); [bind_inv; eauto|].
    destruct (HumdrumToken.isMergeInterpretation tok); [bind_inv; eauto|].
    destruct (HumdrumToken.isAddInterpretation tok); [bind_inv; eauto|].
    destruct (HumdrumToken.isExchangeInterpretation tok).
    { destruct (Z.of_nat i <? Z.of_nat (HumdrumLine.getTokenCount line) - 1);
        bind_inv; first [by eauto | simpl; discriminate]. }
    bind_inv; first [by eauto | simpl; discriminate].
Qed.

(** C6 (code defect).  A file whose last line holds an exchange token
    followed by a token that is not an exchange token is read without
    error: the parse is reported valid. *)
Theorem unmatched_exchange_parses_valid :
  let f := parsed unmatched_exchange in
  read unmatched_exchange new = Some (true, f) ∧
  isValid f = true ∧ parseError f = "" ∧
  (tokenText f (2%nat, 0%nat) ≫= λ t, Some (HumdrumToken.isExchangeInterpretation t)) = Some true ∧
  (tokenText f (2%nat, 1%nat) ≫= λ t, Some (HumdrumToken.isExchangeInterpretation t)) = Some false.
Proof. vm_compute. repeat split. Qed.

(* ================================================================= *)
(** * Part V: further properties *)

(** ** Indexed access *)

Lemma to_int_wrap (z : Z) : 2 ^ 31 <= z < 2 ^ 32 → Cpp.to_int z = z - 2 ^ 32.
Proof.
  intros H. unfold Cpp.to_int.
  rewrite <- (Z.mod_add (z + 2 ^ 31) (-1) (2 ^ 32)) by lia.
  rewrite Z.mod_small by lia. lia.
Qed.

Lemma operator_index_fallback (f : HumdrumFileBase.t) :
  1 <= Cpp.size (lines f) < 2 ^ 31 →
  (_ ← Cpp.at_ (lines f) (Cpp.to_size_t (Cpp.to_int (Cpp.to_size_t (Cpp.size (lines f) - 1))));
   Some (Z.to_nat (Cpp.to_size_t (Cpp.to_int (Cpp.to_size_t (Cpp.size (lines f) - 1))))))
  = Some (Z.to_nat (Cpp.size (lines f) - 1)).
Proof.
  intros Hsz.
  rewrite (to_size_t_nonneg (Cpp.size (lines f) - 1)) by lia.
  rewrite to_int_id by (unfold int_range; lia).
  rewrite (to_size_t_nonneg (Cpp.size (lines f) - 1)) by lia.
  destruct (at_in_range (lines f) (Cpp.size (lines f) - 1)) as [l Hl]; [lia|].
  by rewrite Hl.
Qed.

(** The line accessor on a file with lines. *)
Lemma operator_index_spec (f : HumdrumFileBase.t) (index : Z) :
  int_range index → 1 <= Cpp.size (lines f) < 2 ^ 31 →
  operator_index f index =
    Some (if (0 <=? index) && (index <? Cpp.size (lines f)) then Z.to_nat index
          else Z.to_nat (Cpp.size (lines f) - 1)).
Proof.
  intros Hi Hsz. unfold operator_index. cbv zeta.
  destruct (index <? 0) eqn:Eneg.
  + apply Z.ltb_lt in Eneg.
    rewrite (proj2 (Z.leb_gt 0 index)) by lia. cbn [andb].
    unfold int_range in Hi.
    rewrite (to_size_t_neg index) by lia.
    replace (Cpp.size (lines f) - (index + 2 ^ 64))
      with (Cpp.size (lines f) - index - 2 ^ 64) by lia.
    rewrite (to_size_t_neg (Cpp.size (lines f) - index - 2 ^ 64)) by lia.
    replace (Cpp.size (lines f) - index - 2 ^ 64 + 2 ^ 64)
      with (Cpp.size (lines f) - index) by lia.
    destruct (Z.lt_ge_cases (Cpp.size (lines f) - index) (2 ^ 31)) as [Hlo | Hhi].
    * rewrite (to_int_id (Cpp.size (lines f) - index)) by (unfold int_range; lia).
      rewrite (proj2 (Z.ltb_ge (Cpp.size (lines f) - index) 0)) by lia.
      rewrite (to_size_t_nonneg (Cpp.size (lines f) - index)) by lia.
      rewrite (proj2 (Z.leb_le _ _)) by lia. cbn [orb].
      by apply operator_index_fallback.
    * rewrite (to_int_wrap (Cpp.size (lines f) - index)) by lia.
      rewrite (proj2 (Z.ltb_lt (Cpp.size (lines f) - index - 2 ^ 32) 0)) by lia.
      cbn [orb]. by apply operator_index_fallback.
  + apply Z.ltb_ge in Eneg. unfold int_range in Hi.
    rewrite (proj2 (Z.leb_le 0 index)) by lia.
    rewrite (proj2 (Z.ltb_ge index 0)) by lia.
    rewrite (to_size_t_nonneg index) by lia. cbn [andb orb].
    destruct (index <? Cpp.size (lines f)) eqn:Elt.
    * apply Z.ltb_lt in Elt.
      rewrite (proj2 (Z.leb_gt _ _)) by lia.
      rewrite (to_size_t_nonneg index) by lia.
      destruct (at_in_range (lines f) index) as [l Hl]; [lia|].
      by rewrite Hl.
    * apply Z.ltb_ge in Elt.
      rewrite (proj2 (Z.leb_le _ _)) by lia.
      by apply operator_index_fallback.
Qed.

Lemma operator_index_in_range (f : HumdrumFileBase.t) (i : nat) :
  (i < length (lines f))%nat → Cpp.size (lines f) < 2 ^ 31 →
  operator_index f (Z.of_nat i) = Some i.
Proof.
  intros Hi Hsz. unfold Cpp.size in Hsz.
  rewrite operator_index_spec by (unfold int_range, Cpp.size; lia).
  rewrite (proj2 (Z.leb_le 0 (Z.of_nat i))) by lia.
  rewrite (proj2 (Z.ltb_lt (Z.of_nat i) (Cpp.size (lines f))))
    by (unfold Cpp.size; lia).
  cbn [andb]. by rewrite Nat2Z.id.
Qed.

(** X1.  On a file of at least one line (and fewer than [2^31]) the line
    accessor [operator[]] returns a line for every [int] index: the line
    at the index when [0 <= index < size], the last line otherwise; on a
    file without lines it reads outside of the vector whatever the
    index. *)
Theorem operator_index_clamps (f : HumdrumFileBase.t) (index : Z) :
  int_range index →
  (1 <= Cpp.size (lines f) < 2 ^ 31 →
   operator_index f index =
     Some (if (0 <=? index) && (index <? Cpp.size (lines f)) then Z.to_nat index
           else Z.to_nat (Cpp.size (lines f) - 1))) ∧
  (lines f = [] → operator_index f index = None).
Proof.
  intros Hi. split; [by apply operator_index_spec|].
  - intros Hnil. unfold operator_index. rewrite Hnil.
    change (Cpp.size (@nil HLine)) with 0. cbv zeta.
    destruct (index <? 0) eqn:Eneg.
    + apply Z.ltb_lt in Eneg. unfold int_range in Hi.
      rewrite (to_size_t_neg index) by lia.
      replace (0 - (index + 2 ^ 64)) with (- index - 2 ^ 64) by lia.
      rewrite (to_size_t_neg (- index - 2 ^ 64)) by lia.
      replace (- index - 2 ^ 64 + 2 ^ 64) with (- index) by lia.
      destruct (Z.lt_ge_cases (- index) (2 ^ 31)) as [Hlo | Hhi].
      * rewrite (to_int_id (- index)) by (unfold int_range; lia).
        rewrite (proj2 (Z.ltb_ge (- index) 0)) by lia.
        rewrite (to_size_t_nonneg (- index)) by lia.
        rewrite (proj2 (Z.leb_le 0 (- index))) by lia. reflexivity.
      * rewrite (to_int_wrap (- index)) by lia.
        rewrite (proj2 (Z.ltb_lt (- index - 2 ^ 32) 0)) by lia. reflexivity.
    + apply Z.ltb_ge in Eneg. unfold int_range in Hi.
      rewrite (proj2 (Z.ltb_ge index 0)) by lia.
      rewrite (to_size_t_nonneg index) by lia.
      rewrite (proj2 (Z.leb_le 0 index)) by lia. reflexivity.
Qed.

(** X1 on [three_lines]: index 7 yields the last line, index 1 line 1. *)
Lemma operator_index_clamps_witness :
  (int_range 7 ∧ 1 <= Cpp.size (lines three_lines) < 2 ^ 31) ∧
  operator_index three_lines 7 = Some 2%nat ∧
  operator_index three_lines 1 = Some 1%nat.
Proof.
  assert (int_range 7) as H7 by (unfold int_range; lia).
  assert (int_range 1) as H1 by (unfold int_range; lia).
  assert (1 <= Cpp.size (lines three_lines) < 2 ^ 31) as Hsz by (vm_compute; split; discriminate || reflexivity).
  split; [by split|]. split.
  - exact (proj1 (operator_index_clamps three_lines 7 H7) Hsz).
  - exact (proj1 (operator_index_clamps three_lines 1 H1) Hsz).
Defined.

Lemma at_int {A} (v : list A) (i : Z) :
  int_range i → Cpp.size v < 2 ^ 31 →
  Cpp.at_ v (Cpp.to_size_t i) = if 0 <=? i then v !! Z.to_nat i else None.
Proof.
  intros Hi Hv. unfold int_range in Hi.
  assert (0 <= Cpp.size v) as Hnn by (unfold Cpp.size; lia).
  destruct (0 <=? i) eqn:E.
  - apply Z.leb_le in E. rewrite to_size_t_nonneg by lia.
    unfold Cpp.at_. rewrite (proj2 (Z.leb_le 0 i)) by lia. cbn [andb].
    destruct (i <? Cpp.size v) eqn:E'; [done|].
    apply Z.ltb_ge in E'. symmetry. apply lookup_ge_None.
    unfold Cpp.size in E'. lia.
  - apply Z.leb_gt in E. rewrite to_size_t_neg by lia.
    unfold Cpp.at_. rewrite (proj2 (Z.ltb_ge (i + 2 ^ 64) (Cpp.size v))) by lia.
    by rewrite andb_false_r.
Qed.

(** X2.  The token accessor [token(lineindex, fieldindex)] returns a token
    exactly when the line index, counted from the end when negative, lies
    within the file and the field index lies within that line; a negative
    field index is never accepted.  (Fewer than [2^31] lines, and fewer
    than [2^31] tokens on every line.) *)
Theorem token_in_range (f : HumdrumFileBase.t) (lineindex fieldindex : Z) (r : TokenRef) :
  int_range lineindex → int_range fieldindex → Cpp.size (lines f) < 2 ^ 31 →
  Forall (λ l, Cpp.size (HumdrumLine.tokens l) < 2 ^ 31) (lines f) →
  token f lineindex fieldindex = Some r ↔
  (let li := from_end lineindex (Cpp.size (lines f)) in
   0 <= li ∧ 0 <= fieldindex ∧
   r = (Z.to_nat li, Z.to_nat fieldindex) ∧
   ∃ l, lines f !! Z.to_nat li = Some l ∧
        fieldindex < Z.of_nat (HumdrumLine.getTokenCount l)).
Proof.
  intros Hl Hf Hsz Hall. unfold token, getLineCount. cbv zeta.
  assert (0 <= Cpp.size (lines f)) as Hnn by (unfold Cpp.size; lia).
  rewrite (to_int_id (Cpp.size (lines f))) by (unfold int_range; lia).
  assert ((if lineindex <? 0 then Cpp.to_int (lineindex + Cpp.size (lines f))
           else lineindex) = from_end lineindex (Cpp.size (lines f))) as ->.
  { unfold from_end. destruct (lineindex <? 0) eqn:E; [|done].
    apply Z.ltb_lt in E. unfold int_range in Hl.
    apply to_int_id. unfold int_range. lia. }
  set (li := from_end lineindex (Cpp.size (lines f))).
  assert (int_range li) as Hli.
  { unfold li, from_end, int_range in *.
    destruct (lineindex <? 0) eqn:E; [apply Z.ltb_lt in E|]; lia. }
  rewrite (at_int (lines f) li Hli Hsz).
  unfold int_range in Hli, Hf.
  destruct (0 <=? li) eqn:Eli.
  2: { apply Z.leb_gt in Eli. cbn [mbind option_bind]. split; [done | lia]. }
  apply Z.leb_le in Eli.
  destruct (lines f !! Z.to_nat li) as [l|] eqn:El; cbn [mbind option_bind].
  2: { split; [done|]. intros (_ & _ & _ & l & ? & _). done. }
  assert (Cpp.size (HumdrumLine.tokens l) < 2 ^ 31) as Hlt.
  { rewrite Forall_forall in Hall. apply Hall. by eapply list_elem_of_lookup_2. }
  rewrite (at_int (HumdrumLine.tokens l) fieldindex) by done.
  rewrite (to_size_t_nonneg li) by lia.
  destruct (0 <=? fieldindex) eqn:Ef.
  2: { apply Z.leb_gt in Ef. cbn [mbind option_bind]. split; [done | lia]. }
  apply Z.leb_le in Ef. rewrite (to_size_t_nonneg fieldindex) by lia.
  destruct (HumdrumLine.tokens l !! Z.to_nat fieldindex) as [x|] eqn:Ex;
    cbn [mbind option_bind].
  - apply lookup_lt_Some in Ex. split.
    + intros [= <-]. repeat split; try lia. exists l. split; [done|].
      unfold HumdrumLine.getTokenCount. lia.
    + intros (_ & _ & -> & _). done.
  - apply lookup_ge_None in Ex. split; [done|].
    intros (_ & _ & _ & l' & Hl' & Hlt').
    assert (l' = l) as -> by (unfold li in *; congruence).
    unfold HumdrumLine.getTokenCount in Hlt'. lia.
Qed.

(** X2 on [three_lines]: line index [-1], field 0. *)
Lemma token_in_range_witness :
  token three_lines (-1) 0 = Some (2%nat, 0%nat) ∧
  token three_lines (-1) (-1) = None.
Proof.
  assert (int_range (-1)) as H1 by (unfold int_range; lia).
  assert (int_range 0) as H0 by (unfold int_range; lia).
  assert (Cpp.size (lines three_lines) < 2 ^ 31) as Hsz by (vm_compute; reflexivity).
  assert (Forall (λ l, Cpp.size (HumdrumLine.tokens l) < 2 ^ 31) (lines three_lines))
    as Hall by (repeat constructor).
  split.
  - apply (token_in_range three_lines (-1) 0 (2%nat, 0%nat) H1 H0 Hsz Hall).
    cbv zeta. split; [vm_compute; discriminate|]. split; [lia|]. split; [reflexivity|].
    exists (HumdrumLine.mk "x" ["x"] 2). split; [reflexivity | vm_compute; reflexivity].
  - destruct (token three_lines (-1) (-1)) as [r|] eqn:E; [|done].
    apply (token_in_range three_lines (-1) (-1) r H1 H1 Hsz Hall) in E.
    cbv zeta in E. lia.
Defined.

(** ** End lists by index *)

(** X3.  [getTrackEndCount] and [getTrackEnd] agree: when the track
    argument [n], counted from the end when negative, selects the end list
    [ends], the count is the length of [ends], every subtrack
    [0 <= k < count] yields element [k] of [ends], never [NULL], and the
    negative subtrack [k - count] yields the same element.  (Vectors of
    fewer than [2^31] entries.) *)
Theorem track_end_by_index (f : HumdrumFileBase.t) (n k : Z)
    (ends : list TokenRef) (r : TokenRef) :
  int_range n → Cpp.size (trackends f) < 2 ^ 31 →
  Forall (λ ends, Cpp.size ends < 2 ^ 31) (trackends f) →
  0 <= from_end n (Cpp.size (trackends f)) →
  trackends f !! Z.to_nat (from_end n (Cpp.size (trackends f))) = Some ends →
  ends !! Z.to_nat k = Some r → 0 <= k →
  getTrackEndCount f n = Some (Cpp.size ends) ∧
  getTrackEnd f n k = Some (Some r) ∧
  getTrackEnd f n (k - Cpp.size ends) = Some (Some r).
Proof.
  intros Hn Hsz Hall Hpos Hends Hr Hk.
  assert (Cpp.size ends < 2 ^ 31) as Hlen.
  { rewrite Forall_forall in Hall. apply Hall. by eapply list_elem_of_lookup_2. }
  pose proof (lookup_lt_Some _ _ _ Hends) as Hin.
  pose proof (lookup_lt_Some _ _ _ Hr) as Hkin.
  assert (0 <= Cpp.size ends) as Hnn by (unfold Cpp.size; lia).
  assert (k < Cpp.size ends) as Hk' by (unfold Cpp.size; lia).
  assert (int_range k) as Hki by (unfold int_range; lia).
  assert (int_range (k - Cpp.size ends)) as Hki' by (unfold int_range; lia).
  rewrite getTrackEndCount_spec, !getTrackEnd_spec by assumption. cbv zeta.
  rewrite (proj2 (Z.ltb_ge _ 0) Hpos).
  assert (from_end n (Cpp.size (trackends f)) < Cpp.size (trackends f)) as Hin'
    by (unfold Cpp.size in *; lia).
  rewrite (proj2 (Z.leb_gt _ _) Hin').
  cbn [orb]. rewrite Hends. cbn [mbind option_bind].
  rewrite to_int_id by (unfold int_range; lia).
  split; [done|].
  assert (from_end k (Cpp.size ends) = k) as ->.
  { unfold from_end. by rewrite (proj2 (Z.ltb_ge k 0)) by lia. }
  assert (from_end (k - Cpp.size ends) (Cpp.size ends) = k) as ->.
  { unfold from_end. rewrite (proj2 (Z.ltb_lt (k - Cpp.size ends) 0)) by lia. lia. }
  rewrite (proj2 (Z.ltb_ge k 0)) by lia.
  rewrite (proj2 (Z.leb_gt (Cpp.size ends) k)) by lia.
  cbn [orb]. by rewrite Hr.
Qed.

(** X3 on the parsed [two_spines]: the end list of track 2 holds two
    tokens; subtrack 1 and subtrack -1 are its second token. *)
Lemma track_end_by_index_witness :
  let f := parsed two_spines in
  getTrackEndCount f 2 = Some 2 ∧
  getTrackEnd f 2 1 = Some (Some (1%nat, 1%nat)) ∧
  getTrackEnd f 2 (-1) = Some (Some (1%nat, 1%nat)).
Proof.
  intros f.
  assert (int_range 2) as H2 by (unfold int_range; lia).
  assert (Cpp.size (trackends f) < 2 ^ 31) as Hsz by (vm_compute; reflexivity).
  assert (Forall (λ ends, Cpp.size ends < 2 ^ 31) (trackends f)) as Hall
    by (repeat constructor).
  assert (0 <= from_end 2 (Cpp.size (trackends f))) as Hpos by (vm_compute; discriminate).
  exact (track_end_by_index f 2 1 [(1%nat, 0%nat); (1%nat, 1%nat)] (1%nat, 1%nat)
           H2 Hsz Hall Hpos eq_refl eq_refl ltac:(lia)).
Defined.

(** ** The comparator of token pairs *)

Lemma sortTokenPairsByLineIndex_spec {Token : Type} (li fi : Token → Z)
    (a b : Token * Token) :
  sortTokenPairsByLineIndex li fi a b = true ↔
  li a.1 < li b.1 ∨ (li a.1 = li b.1 ∧ fi a.1 < fi b.1).
Proof.
  unfold sortTokenPairsByLineIndex.
  destruct (Z.ltb_spec (li a.1) (li b.1)); [split; [auto | done]|].
  destruct (Z.eqb_spec (li a.1) (li b.1)); cbn [andb].
  - destruct (Z.ltb_spec (fi a.1) (fi b.1)); split; try done; [auto | lia].
  - split; [done | lia].
Qed.

(** X4.  [sortTokenPairsByLineIndex] is a strict weak ordering, as
    [std::sort] requires of its comparator: it is the lexicographic order
    on (line index, field index) of the first tokens, hence irreflexive,
    asymmetric and transitive, and two pairs that it does not order either
    way have first tokens with the same line index and field index. *)
Theorem sortTokenPairsByLineIndex_strict_weak_order {Token : Type}
    (getLineIndex getFieldIndex : Token → Z) :
  let lt := sortTokenPairsByLineIndex getLineIndex getFieldIndex in
  (∀ a b, lt a b = true ↔
     getLineIndex a.1 < getLineIndex b.1 ∨
     (getLineIndex a.1 = getLineIndex b.1 ∧ getFieldIndex a.1 < getFieldIndex b.1)) ∧
  (∀ a, lt a a = false) ∧
  (∀ a b, lt a b = true → lt b a = false) ∧
  (∀ a b c, lt a b = true → lt b c = true → lt a c = true) ∧
  (∀ a b, lt a b = false → lt b a = false →
     getLineIndex a.1 = getLineIndex b.1 ∧ getFieldIndex a.1 = getFieldIndex b.1).
Proof.
  intros lt. unfold lt.
  split; [apply sortTokenPairsByLineIndex_spec|].
  split; [|split; [|split]].
  - intros a. apply not_true_is_false.
    rewrite sortTokenPairsByLineIndex_spec. lia.
  - intros a b H. apply not_true_is_false.
    rewrite sortTokenPairsByLineIndex_spec in *. lia.
  - intros a b c H1 H2. rewrite sortTokenPairsByLineIndex_spec in *. lia.
  - intros a b H1 H2. apply not_true_iff_false in H1, H2.
    rewrite sortTokenPairsByLineIndex_spec in *. lia.
Qed.

(** X4 for tokens given by (line, field): on one line the token further
    left comes first, and not the other way round. *)
Lemma sortTokenPairsByLineIndex_strict_weak_order_witness :
  let lt := sortTokenPairsByLineIndex (λ r : TokenRef, Z.of_nat r.1)
              (λ r : TokenRef, Z.of_nat r.2) in
  lt ((1%nat, 0%nat), (0%nat, 0%nat)) ((1%nat, 2%nat), (0%nat, 0%nat)) = true ∧
  lt ((1%nat, 2%nat), (0%nat, 0%nat)) ((1%nat, 0%nat), (0%nat, 0%nat)) = false.
Proof.
  intros lt.
  destruct (sortTokenPairsByLineIndex_strict_weak_order
              (λ r : TokenRef, Z.of_nat r.1) (λ r : TokenRef, Z.of_nat r.2))
    as (Hspec & _ & Hasym & _).
  assert (lt ((1%nat, 0%nat), (0%nat, 0%nat)) ((1%nat, 2%nat), (0%nat, 0%nat)) = true)
    as H by (apply Hspec; right; simpl; lia).
  split; [exact H | exact (Hasym _ _ H)].
Defined.

(** ** [addUniqueTokens] *)

Lemma addUnique_found_spec (rounds : nat) (x y : TokenRef) (target : list TokenRef)
    (i : nat) (found : bool) :
  target !! i = Some y →
  addUnique_found rounds x target i found =
    Some (match rounds with O => found | S _ => if decide (x = y) then true else found end).
Proof.
  intros Hy. revert found. induction rounds as [|r IH]; intros found; [done|].
  simpl. rewrite Hy. cbn [mbind option_bind]. rewrite IH.
  destruct r; [done|]. by destruct (decide (x = y)).
Qed.

Lemma addUnique_found_inv (rounds : nat) (x : TokenRef) (target : list TokenRef)
    (i : nat) (b : bool) :
  addUnique_found rounds x target i false = Some b →
  b = true → (0 < rounds)%nat ∧ target !! i = Some x.
Proof.
  destruct rounds as [|r]; [simpl; congruence|].
  intros H ->. destruct (target !! i) as [y|] eqn:Hy.
  - rewrite (addUnique_found_spec _ x y) in H by done.
    destruct (decide (x = y)) as [->|]; [split; [lia | done] | done].
  - simpl in H. by rewrite Hy in H.
Qed.

Lemma addUnique_loop_prefix (source : list TokenRef) :
  ∀ i target target', addUnique_loop source i target = Some target' →
  ∃ added, target' = target ++ added ∧
    (∀ x, x ∈ added → x ∈ source) ∧ (length added <= length source)%nat.
Proof.
  induction source as [|x source IH]; intros i target target' H; simpl in H.
  - injection H as <-. exists []. rewrite app_nil_r. split; [done|].
    split; [intros x Hx; by apply elem_of_nil in Hx | done].
  - destruct (addUnique_found (length target) x target i false) as [b|] eqn:E;
      [|done]. cbn [mbind option_bind] in H.
    apply IH in H as (added & -> & Hin & Hlen).
    destruct b.
    + exists added. split; [done|]. split; [|simpl; lia].
      intros y Hy. apply elem_of_cons. right. auto.
    + exists (x :: added). rewrite <- app_assoc. split; [done|].
      split; [|simpl; lia].
      intros y [->|Hy]%elem_of_cons; apply elem_of_cons; auto.
Qed.

(** X5.  [addUniqueTokens] only appends: when the call is defined the old
    contents of [target] are a prefix of the new contents, and everything
    appended is an element of [source].  For a source of one element (the
    callers pass at most one) the call is always defined and appends the
    element unless it equals the FIRST element of [target]: later elements
    of [target] are not compared, so an element that [target] holds at
    another position is appended again.  With an empty [target] and two
    or more elements in [source] the second round reads [target[1]] of a
    vector of one element. *)
Theorem addUniqueTokens_appends (target source : list TokenRef) :
  (∀ target', addUniqueTokens target source = Some target' →
     ∃ added, target' = target ++ added ∧ (∀ x, x ∈ added → x ∈ source) ∧
       (length added <= length source)%nat) ∧
  (∀ x, addUniqueTokens target [x] =
     Some (if decide (target !! 0%nat = Some x) then target else target ++ [x])) ∧
  (∀ x y, x ≠ y → addUniqueTokens (y :: target ++ [x]) [x] =
     Some (y :: target ++ [x; x])) ∧
  (∀ x y rest, addUniqueTokens [] (x :: y :: rest) = None).
Proof.
  split; [intros target'; apply addUnique_loop_prefix|].
  assert (∀ tg x, addUniqueTokens tg [x] =
     Some (if decide (tg !! 0%nat = Some x) then tg else tg ++ [x])) as Hone.
  { intros tg x. unfold addUniqueTokens. simpl.
    destruct tg as [|y tg]; [done|].
    rewrite (addUnique_found_spec _ x y) by done. cbn [mbind option_bind length].
    simpl. destruct (decide (x = y)) as [->|Hne].
    - by rewrite decide_True.
    - by rewrite decide_False by congruence. }
  split; [apply Hone|]. split; [|done].
  intros x y Hne. rewrite Hone. simpl.
  rewrite decide_False by congruence.
  by rewrite <- app_assoc.
Qed.

(** X5: a token that [target] holds at its second position is appended
    again. *)
Lemma addUniqueTokens_appends_witness :
  addUniqueTokens [(0%nat, 0%nat); (1%nat, 0%nat)] [(1%nat, 0%nat)]
  = Some [(0%nat, 0%nat); (1%nat, 0%nat); (1%nat, 0%nat)].
Proof.
  destruct (addUniqueTokens_appends [] []) as (_ & _ & Hdup & _).
  exact (Hdup (1%nat, 0%nat) (0%nat, 0%nat) ltac:(discriminate)).
Defined.

(** ** Lines of a stream *)

Lemma c_str_id (s : string) : no_char "000" s = true → c_str s = s.
Proof.
  induction s as [|c s IH]; [done|]. simpl.
  destruct (Ascii.eqb c "000") eqn:E; [done|]. simpl. intros H. by rewrite IH.
Qed.

Lemma append_snoc (s : string) (c : ascii) (t : string) :
  (s +:+ String c "") +:+ t = s +:+ String c t.
Proof. by rewrite append_assoc. Qed.

Lemma no_char_append (c : ascii) (s t : string) :
  no_char c (s +:+ t) = no_char c s && no_char c t.
Proof.
  induction s as [|d s IH]; [done|].
  rewrite append_cons. simpl. rewrite IH. by rewrite andb_assoc.
Qed.

(** One call of [getline] on a line that ends with a newline. *)
Lemma getlines_from_line (l : string) : ∀ (rest cur : string) (stored : N),
  no_char "010" l = true →
  (stored + N.of_nat (String.length l) < buffer_size)%N →
  getlines_from (l +:+ Cpp.endl +:+ rest) cur stored
  = c_str (cur +:+ l) :: getlines_from rest "" 0.
Proof.
  induction l as [|c l IH]; intros rest cur stored Hnl Hlen.
  - change ("" +:+ Cpp.endl +:+ rest) with (String "010" rest).
    simpl. by rewrite append_nil_r.
  - rewrite append_cons. simpl in Hnl |- *.
    destruct (Ascii.eqb c "010") eqn:E; [done|]. simpl in Hnl.
    cbn [String.length] in Hlen. rewrite Nat2N.inj_succ in Hlen.
    unfold buffer_size in *.
    rewrite (proj2 (N.eqb_neq stored (123123 - 1))) by lia.
    rewrite IH by (done || lia). by rewrite append_snoc.
Qed.

(** The last call of [getline] on a stream that does not end with a
    newline. *)
Lemma getlines_from_last (l : string) : ∀ (cur : string) (stored : N),
  no_char "010" l = true →
  (stored + N.of_nat (String.length l) < buffer_size)%N →
  (0 < stored + N.of_nat (String.length l))%N →
  getlines_from l cur stored = [c_str (cur +:+ l)].
Proof.
  induction l as [|c l IH]; intros cur stored Hnl Hlen Hpos.
  - cbn [String.length] in Hpos. simpl.
    rewrite (proj2 (N.eqb_neq stored 0)) by lia.
    by rewrite append_nil_r.
  - simpl in Hnl |- *.
    destruct (Ascii.eqb c "010") eqn:E; [done|]. simpl in Hnl.
    cbn [String.length] in Hlen, Hpos. rewrite Nat2N.inj_succ in Hlen, Hpos.
    unfold buffer_size in *.
    rewrite (proj2 (N.eqb_neq stored (123123 - 1))) by lia.
    rewrite IH by (done || lia). by rewrite append_snoc.
Qed.

(** A call of [getline] that fills the buffer fails. *)
Lemma getlines_from_overflow (l : string) : ∀ (rest cur : string) (stored : N),
  no_char "010" l = true →
  (stored < buffer_size)%N →
  (buffer_size <= stored + N.of_nat (String.length l))%N →
  getlines_from (l +:+ rest) cur stored = [].
Proof.
  induction l as [|c l IH]; intros rest cur stored Hnl Hst Hlen.
  - cbn [String.length] in Hlen. lia.
  - rewrite append_cons. simpl in Hnl |- *.
    destruct (Ascii.eqb c "010") eqn:E; [done|]. simpl in Hnl.
    cbn [String.length] in Hlen. rewrite Nat2N.inj_succ in Hlen.
    unfold buffer_size in *.
    destruct (N.eqb_spec stored (123123 - 1)) as [Heq | Hne]; [done|].
    apply IH; [done | lia | lia].
Qed.

Lemma getlines_from_unlines (ls : list string) (rest : string) :
  Forall fits_buffer ls →
  getlines_from (unlines ls +:+ rest) "" 0 = ls ++ getlines_from rest "" 0.
Proof.
  induction ls as [|l ls IH]; intros Hall; [done|].
  apply Forall_cons in Hall as [(Hnl & Hnul & Hlen) Hall].
  simpl. rewrite !append_assoc.
  rewrite getlines_from_line by (done || lia).
  change ("" +:+ l) with l.
  rewrite c_str_id by done. by rewrite IH.
Qed.

(** X6.  Reading a text line by line gives back the lines it was made of:
    for lines without newline and NUL and of at most 123122 characters,
    the stream loop of [read] turns the text in which every line ends with
    a newline into exactly these lines; a last line without newline is
    read as well when it is not empty.  [readString] thus hands these
    lines to the analysis. *)
Theorem getlines_unlines (ls : list string) (l : string) (f : HumdrumFileBase.t) :
  Forall fits_buffer ls → fits_buffer l → l ≠ "" →
  getlines (unlines ls) = ls ∧
  getlines (unlines ls +:+ l) = ls ++ [l] ∧
  readString (unlines ls) f = read ls f ∧
  readString (unlines ls +:+ l) f = read (ls ++ [l]) f.
Proof.
  intros Hall (Hnl & Hnul & Hlen) Hne.
  assert (getlines (unlines ls) = ls) as H1.
  { unfold getlines. rewrite <- (append_nil_r (unlines ls)).
    rewrite getlines_from_unlines by done. simpl. by rewrite app_nil_r. }
  assert (getlines (unlines ls +:+ l) = ls ++ [l]) as H2.
  { unfold getlines. rewrite getlines_from_unlines by done.
    rewrite getlines_from_last; [by rewrite c_str_id | done | lia |].
    destruct l; [done | cbn [String.length]; lia]. }
  unfold readString. by rewrite H1, H2.
Qed.

(** X6 on the lines of [kern_file]. *)
Lemma getlines_unlines_witness :
  getlines (unlines ["**kern"; "4c"; "4d"]) = ["**kern"; "4c"; "4d"] ∧
  getlines (unlines ["**kern"; "4c"; "4d"] +:+ "*-") = kern_file.
Proof.
  assert (∀ s, no_char "010" s = true → no_char "000" s = true →
               (N.of_nat (String.length s) < 1000)%N → fits_buffer s) as Hfit.
  { intros s H1 H2 H3. unfold fits_buffer, buffer_size. repeat split; [done..|lia]. }
  assert (Forall fits_buffer ["**kern"; "4c"; "4d"]) as Hall.
  { repeat constructor; apply Hfit; vm_compute; reflexivity. }
  assert (fits_buffer "*-") as Hl by (apply Hfit; vm_compute; reflexivity).
  destruct (getlines_unlines ["**kern"; "4c"; "4d"] "*-" new Hall Hl ltac:(discriminate))
    as (H1 & H2 & _).
  exact (conj H1 H2).
Defined.

(** X7.  A line that does not fit the buffer ends the reading without any
    error: when a line of 123123 characters or more follows the lines
    [ls], the stream loop of [read] yields [ls] only; the long line and
    everything after it, whatever it is, never reach the analysis. *)
Theorem getlines_stops_at_long_line (ls : list string) (l rest : string)
    (f : HumdrumFileBase.t) :
  Forall fits_buffer ls → no_char "010" l = true →
  (buffer_size <= N.of_nat (String.length l))%N →
  getlines (unlines ls +:+ l +:+ rest) = ls ∧
  readString (unlines ls +:+ l +:+ rest) f = read ls f.
Proof.
  intros Hall Hnl Hlen.
  assert (getlines (unlines ls +:+ l +:+ rest) = ls) as H.
  { unfold getlines. rewrite getlines_from_unlines by done.
    rewrite getlines_from_overflow; [by rewrite app_nil_r | done | done | lia]. }
  unfold readString. by rewrite H.
Qed.

(** X7 on a first line [**kern] followed by [long_line]. *)
Lemma getlines_stops_at_long_line_witness :
  getlines (unlines ["**kern"] +:+ long_line +:+ unlines ["4c"; "*-"]) = ["**kern"].
Proof.
  assert (Forall fits_buffer ["**kern"]) as Hall.
  { repeat constructor; try (vm_compute; reflexivity). }
  assert (no_char "010" long_line = true) as Hnl by (vm_compute; reflexivity).
  assert (buffer_size <= N.of_nat (String.length long_line))%N as Hlen
    by (vm_compute; discriminate).
  exact (proj1 (getlines_stops_at_long_line ["**kern"] long_line
                  (unlines ["4c"; "*-"]) new Hall Hnl Hlen)).
Defined.

(** ** [read], stage by stage *)

Lemma isValid_true_iff (f : HumdrumFileBase.t) : isValid f = true ↔ parseError f = "".
Proof.
  unfold isValid. destruct (parseError f); simpl; split; congruence.
Qed.

(** Where a read that returns has stopped. *)
Lemma read_stages contents f0 b f :
  read contents f0 = Some (b, f) →
  b = isValid f ∧
  ((isValid f0 = false ∧ f = (analyzeTokens (append_lines contents f0)).2) ∨
   (isValid f0 = true ∧
    ∃ ok3 f3, analyzeSpines (tokenized contents f0) = Some (ok3, f3) ∧
      ((ok3 = false ∧ f = f3) ∨
       (ok3 = true ∧ ∃ ok4 f4, analyzeLinks f3 = Some (ok4, f4) ∧
          ((ok4 = false ∧ f = f4) ∨ (ok4 = true ∧ f = (analyzeTracks f4).2)))))).
Proof.
  intros H. split; [by eapply read_status|].
  revert H. unfold read, tokenized.
  unfold analyzeTokens at 1 2. cbv zeta.
  change (isValid (mk (map HumdrumLine.createTokensFromLine (lines (append_lines contents f0)))
            (trackstarts (append_lines contents f0)) (trackends (append_lines contents f0))
            (parseError (append_lines contents f0)) ∅ ∅ ∅ ∅))
    with (isValid f0).
  destruct (isValid f0) eqn:V0; cbn [negb].
  2: { intros [= <- <-]. left. done. }
  cbn [snd].
  set (f1 := mk _ _ _ _ _ _ _ _).
  unfold analyzeLines at 1 2. cbv zeta.
  change (isValid (with_lines (imap (λ i l, HumdrumLine.setLineIndex (Z.of_nat i) l) (lines f1)) f1))
    with (isValid f0).
  rewrite V0. cbn [negb snd].
  set (f2 := with_lines _ f1).
  intros H. right. split; [done|].
  destruct (analyzeSpines f2) as [[ok3 f3]|] eqn:E3; cbn [mbind option_bind] in H; [|done].
  exists ok3, f3. split; [done|].
  destruct ok3; cbn [negb] in H.
  2: { left. by injection H as <- <-. }
  right. split; [done|].
  destruct (analyzeLinks f3) as [[ok4 f4]|] eqn:E4; cbn [mbind option_bind] in H; [|done].
  exists ok4, f4. split; [done|].
  destruct ok4; cbn [negb] in H.
  2: { left. by injection H as <- <-. }
  right. split; [done|].
  destruct (analyzeTracks f4) as [ok5 f5]. cbn [snd].
  destruct ok5; cbn [negb] in H; by injection H as <- <-.
Qed.

(** The lines on which the analysis runs: every line of the object,
    old or new, tokenized from its text and numbered by its position. *)
Lemma tokenized_lines contents f0 :
  lines (tokenized contents f0) =
  imap (λ i l, HumdrumLine.mk (HumdrumLine.text l)
                 (HumdrumLine.split_fields (HumdrumLine.text l)) (Z.of_nat i))
       (lines f0 ++ map (λ s, HumdrumLine.mk s [] 0) contents).
Proof. unfold tokenized. simpl. by rewrite imap_fmap. Qed.

Lemma imap_texts (F : nat → HLine → HLine) (ls : list HLine) :
  (∀ i l, HumdrumLine.text (F i l) = HumdrumLine.text l) →
  map HumdrumLine.text (imap F ls) = map HumdrumLine.text ls.
Proof.
  intros HF. apply list_eq. intros k.
  rewrite !list_lookup_fmap, list_lookup_imap.
  destruct (ls !! k); simpl; [by rewrite HF | done].
Qed.

(** [read] keeps the text of every line and adds the new ones at the
    end. *)
Lemma read_texts contents f0 b f :
  read contents f0 = Some (b, f) →
  map HumdrumLine.text (lines f) = map HumdrumLine.text (lines f0) ++ contents.
Proof.
  intros H.
  assert (map HumdrumLine.text (lines f0 ++ map (λ s, HumdrumLine.mk s [] 0) contents)
          = map HumdrumLine.text (lines f0) ++ contents) as Hnew.
  { rewrite map_app. f_equal. rewrite map_map. simpl. apply map_id. }
  assert (map HumdrumLine.text (lines (analyzeTokens (append_lines contents f0)).2)
          = map HumdrumLine.text (lines f0) ++ contents) as Htok.
  { rewrite <- Hnew. simpl. rewrite map_map. done. }
  assert (map HumdrumLine.text (lines (tokenized contents f0))
          = map HumdrumLine.text (lines f0) ++ contents) as Htk.
  { rewrite <- Hnew, tokenized_lines. by apply imap_texts. }
  apply read_stages in H as (_ & [(_ & ->) | (_ & ok3 & f3 & H3 & Hr)]); [done|].
  rewrite <- Htk.
  apply analyzeSpines_inv in H3 as (g & Hloop & (Hlg & _) & _).
  apply analyzeSpines_loop_frame in Hloop as [(Hl3 & _) _].
  destruct Hr as [(_ & ->) | (_ & ok4 & f4 & H4 & Hr)]; [by rewrite Hl3, Hlg|].
  apply analyzeLinks_loop_within in H4 as [(Hl4 & _) _].
  destruct Hr as [(_ & ->) | (_ & ->)]; [by rewrite Hl4, Hl3, Hlg|].
  destruct (analyzeTracks_loop_frame (lines f4) 0 f4) as [Hl5 _].
  unfold analyzeTracks. by rewrite Hl5, Hl4, Hl3, Hlg.
Qed.

(** ** Printing *)

Lemma unlines_app (a b : list string) : unlines (a ++ b) = unlines a +:+ unlines b.
Proof.
  induction a as [|l a IH]; [done|]. simpl. by rewrite IH, !append_assoc.
Qed.

Lemma print_lines_spec (f : HumdrumFileBase.t) (rounds : nat) : ∀ (i : nat) (out : string),
  (i + rounds <= length (lines f))%nat → Cpp.size (lines f) < 2 ^ 31 →
  print_lines f rounds (Z.of_nat i) out =
  Some (out +:+ unlines (map HumdrumLine.text (take rounds (drop i (lines f))))).
Proof.
  induction rounds as [|r IH]; intros i out Hi Hsz.
  - simpl. by rewrite append_nil_r.
  - simpl. rewrite operator_index_in_range by (done || lia).
    cbn [mbind option_bind].
    destruct (lookup_lt_is_Some_2 (lines f) i ltac:(lia)) as [l Hl].
    rewrite Hl. cbn [mbind option_bind].
    replace (Z.of_nat i + 1) with (Z.of_nat (S i)) by lia.
    rewrite IH by (done || lia).
    rewrite (drop_S _ _ _ Hl). simpl. by rewrite !append_assoc.
Qed.

Lemma operator_out_spec (f : HumdrumFileBase.t) :
  Cpp.size (lines f) < 2 ^ 31 →
  operator_out f = Some (unlines (map HumdrumLine.text (lines f))).
Proof.
  intros Hsz. unfold operator_out, getLineCount.
  rewrite to_int_id by (unfold int_range, Cpp.size in *; lia).
  unfold Cpp.size at 1. rewrite Nat2Z.id.
  change 0 with (Z.of_nat 0).
  rewrite print_lines_spec by (done || lia).
  by rewrite drop_0, firstn_all.
Qed.

(** X8.  Printing gives back what was read: after [readString] of a text
    whose lines all end with a newline (lines without NUL and of at most
    123122 characters), whether the parse is valid or not, [operator<<]
    writes the lines the object held before followed by exactly that text;
    on a new object it writes the text itself.  (Fewer than [2^31] lines
    in all.) *)
Theorem print_after_readString (ls : list string) (f0 f : HumdrumFileBase.t) (b : bool) :
  Forall fits_buffer ls →
  Cpp.size (lines f0) + Cpp.size ls < 2 ^ 31 →
  readString (unlines ls) f0 = Some (b, f) →
  operator_out f =
    Some (unlines (map HumdrumLine.text (lines f0)) +:+ unlines ls) ∧
  (lines f0 = [] → operator_out f = Some (unlines ls)).
Proof.
  intros Hall Hsz Hread. unfold readString, getlines in Hread.
  rewrite <- (append_nil_r (unlines ls)) in Hread.
  rewrite getlines_from_unlines in Hread by done.
  simpl in Hread. rewrite app_nil_r in Hread.
  apply read_texts in Hread.
  assert (operator_out f =
          Some (unlines (map HumdrumLine.text (lines f0)) +:+ unlines ls)) as H.
  { rewrite operator_out_spec.
    - by rewrite Hread, unlines_app.
    - assert (length (lines f) = (length (lines f0) + length ls)%nat) as Hlen.
      { rewrite <- (length_map HumdrumLine.text), Hread, length_app.
        by rewrite length_map. }
      unfold Cpp.size in *. lia. }
  split; [done|]. intros Hnil. by rewrite H, Hnil.
Qed.

(** X8 on the text of [kern_file]. *)
Lemma print_after_readString_witness :
  operator_out (parsed kern_file) = Some (unlines kern_file).
Proof.
  assert (Forall fits_buffer kern_file) as Hall.
  { repeat constructor; try (vm_compute; reflexivity). }
  assert (Cpp.size (lines new) + Cpp.size kern_file < 2 ^ 31) as Hsz
    by (vm_compute; reflexivity).
  assert (readString (unlines kern_file) new = Some (true, parsed kern_file)) as Hread
    by (vm_compute; reflexivity).
  exact (proj2 (print_after_readString kern_file new (parsed kern_file) true
                  Hall Hsz Hread) eq_refl).
Defined.

(** ** Reading more than once *)

(** X9.  An error is never cleared by reading: on an object whose last
    read failed, every further [read] fails as well; it only tokenizes the
    lines, old and new, and leaves the stored error text and the track
    table as they are. *)
Theorem failed_read_is_final (c1 c2 : list string) (f0 f1 : HumdrumFileBase.t) :
  read c1 f0 = Some (false, f1) →
  ∃ f2, read c2 f1 = Some (false, f2) ∧
    f2 = (analyzeTokens (append_lines c2 f1)).2 ∧
    parseError f2 = parseError f1 ∧ parseError f2 ≠ "" ∧
    trackstarts f2 = trackstarts f1 ∧ trackends f2 = trackends f1 ∧
    map HumdrumLine.text (lines f2) = map HumdrumLine.text (lines f1) ++ c2.
Proof.
  intros H1. apply read_status in H1. symmetry in H1.
  assert (read c2 f1 = Some (false, (analyzeTokens (append_lines c2 f1)).2)) as H2.
  { unfold read, analyzeTokens. cbv zeta.
    change (isValid (mk (map HumdrumLine.createTokensFromLine (lines (append_lines c2 f1)))
              (trackstarts (append_lines c2 f1)) (trackends (append_lines c2 f1))
              (parseError (append_lines c2 f1)) ∅ ∅ ∅ ∅))
      with (isValid f1).
    by rewrite H1. }
  eexists. split; [exact H2|]. split; [done|].
  split; [done|]. split; [by apply isValid_false_iff|].
  split; [done|]. split; [done|].
  by apply read_texts in H2.
Qed.

(** X9: after the failed read of [ragged_data], reading the well-formed
    [kern_file] fails with the error of the first read. *)
Lemma failed_read_is_final_witness :
  ∃ f2, read kern_file (parsed ragged_data) = Some (false, f2) ∧
    parseError f2 = parseError (parsed ragged_data).
Proof.
  assert (read ragged_data new = Some (false, parsed ragged_data)) as H1
    by (vm_compute; reflexivity).
  destruct (failed_read_is_final ragged_data kern_file new (parsed ragged_data) H1)
    as (f2 & H2 & _ & He & _).
  exists f2. by split.
Defined.

Lemma read_valid_start contents f0 :
  isValid f0 = true →
  read contents f0 =
  ('(ok3, f3) ← analyzeSpines (tokenized contents f0);
   if negb ok3 then Some (isValid f3, f3) else
   '(ok4, f4) ← analyzeLinks f3;
   if negb ok4 then Some (isValid f4, f4) else
   let '(ok5, f5) := analyzeTracks f4 in
   if negb ok5 then Some (isValid f5, f5) else Some (isValid f5, f5)).
Proof.
  intros V0. unfold read, tokenized.
  unfold analyzeTokens at 1 2. cbv zeta.
  change (isValid (mk (map HumdrumLine.createTokensFromLine (lines (append_lines contents f0)))
            (trackstarts (append_lines contents f0)) (trackends (append_lines contents f0))
            (parseError (append_lines contents f0)) ∅ ∅ ∅ ∅))
    with (isValid f0).
  rewrite V0. cbn [negb snd].
  set (f1 := mk _ _ _ _ _ _ _ _).
  unfold analyzeLines at 1 2. cbv zeta.
  change (isValid (with_lines (imap (λ i l, HumdrumLine.setLineIndex (Z.of_nat i) l) (lines f1)) f1))
    with (isValid f0).
  rewrite V0. cbn [negb snd]. reflexivity.
Qed.

(** The spine analysis starts from the lines and the error text only. *)
Lemma analyzeSpines_tokenized contents f0 :
  analyzeSpines (tokenized contents f0) =
  analyzeSpines (mk (lines (tokenized contents f0)) [] [] (parseError f0) ∅ ∅ ∅ ∅).
Proof. reflexivity. Qed.

Lemma imap_idem {A} (F : nat → A → A) (a b : list A) :
  (∀ i x, F i (F i x) = F i x) →
  imap F (imap F a ++ b) = imap F (a ++ b).
Proof.
  intros HF. rewrite !imap_app, length_imap. f_equal.
  apply list_eq. intros k. rewrite !list_lookup_imap.
  destruct (a !! k); simpl; [by rewrite HF | done].
Qed.

(** X10.  Reading in portions is reading at once: when a first [read] is
    reported valid, a second [read] on the same object gives exactly the
    result of one [read] of both portions together; the whole analysis
    is redone from the texts of the lines. *)
Theorem read_in_portions (c1 c2 : list string) (f0 f1 : HumdrumFileBase.t) :
  read c1 f0 = Some (true, f1) →
  read c2 f1 = read (c1 ++ c2) f0.
Proof.
  intros H1.
  pose proof (read_valid_lines _ _ _ H1) as Hl1.
  apply read_stages in H1 as (V1 & [(V0 & ->) | (V0 & _)]).
  { change (isValid (analyzeTokens (append_lines c1 f0)).2) with (isValid f0) in V1.
    congruence. }
  symmetry in V1.
  rewrite !read_valid_start by done.
  rewrite (analyzeSpines_tokenized c2 f1), (analyzeSpines_tokenized (c1 ++ c2) f0).
  apply isValid_true_iff in V0, V1. rewrite V0, V1.
  rewrite (tokenized_lines c2 f1), (tokenized_lines (c1 ++ c2) f0).
  rewrite Hl1, tokenized_lines, map_app, app_assoc.
  by rewrite imap_idem.
Qed.

(** X10: [kern_file] read as its first two lines and then its last two. *)
Lemma read_in_portions_witness :
  read ["4d"; "*-"] (parsed ["**kern"; "4c"]) = read kern_file new.
Proof.
  assert (read ["**kern"; "4c"] new = Some (true, parsed ["**kern"; "4c"])) as H1
    by (vm_compute; reflexivity).
  exact (read_in_portions ["**kern"; "4c"] ["4d"; "*-"] new _ H1).
Defined.

(** ** Ragged lines (C7) *)

(** A read on an object without stored error that meets a ragged pair
    ends in the spine analysis. *)
Lemma read_ragged_stops_at_spines contents f0 b f i j li lj :
  isValid f0 = true →
  read contents f0 = Some (b, f) → ragged_pair (lines f) i j li lj →
  analyzeSpines (tokenized contents f0) = Some (false, f).
Proof.
  intros V0 H (Hi & Hj & Hsi & (Hij & (lj' & Hj' & Hsj) & Hmid) & Hmi & Hmj & Hne).
  assert (lj' = lj) as -> by congruence.
  apply read_stages in H as (_ & [(V0' & _) | (_ & ok3 & f3 & H3 & Hr)]); [congruence|].
  destruct ok3.
  2: { destruct Hr as [(_ & ->) | (? & _)]; done. }
  exfalso. apply Hne.
  assert (lines f = lines f3) as Hl.
  { destruct Hr as [(? & _) | (_ & ok4 & f4 & H4 & Hr)]; [done|].
    apply analyzeLinks_loop_within in H4 as [(Hl4 & _) _].
    destruct Hr as [(_ & ->) | (_ & ->)]; [done|].
    destruct (analyzeTracks_loop_frame (lines f4) 0 f4) as [Hl5 _].
    unfold analyzeTracks. by rewrite Hl5. }
  apply analyzeSpines_inv in H3 as (g & Hloop & (Hlg & _) & _).
  pose proof (analyzeSpines_loop_frame _ _ _ _ _ _ _ _ Hloop) as [(Hl3 & _) _].
  rewrite Hl, Hl3, Hlg in Hi, Hj, Hmid.
  eapply analyzeSpines_loop_ragged; eauto.
Qed.

(** C7 (amended).  A file that holds two adjacent structural lines without
    manipulator tokens and with differing field counts is never reported
    valid: [read] returns false and a non-empty error text is stored; on
    an object without stored error the read ends in the spine analysis,
    whose state is what [read] leaves, so that the stitcher is not
    reached.  The text that names both lines, with their numbers and their
    texts, is the one the stitcher stores when it is handed two lines that
    are not interpretation lines and differ in their token counts. *)
Theorem ragged_lines_rejected :
  (∀ contents f0 b f i j li lj,
     read contents f0 = Some (b, f) → ragged_pair (lines f) i j li lj →
     b = false ∧ isValid f = false ∧ parseError f ≠ "" ∧
     (isValid f0 = true →
      analyzeSpines (tokenized contents f0) = Some (false, f))) ∧
  (∀ f p n previous next,
     lines f !! p = Some previous → lines f !! n = Some next →
     HumdrumLine.isInterpretation previous = false →
     HumdrumLine.isInterpretation next = false →
     HumdrumLine.getTokenCount previous ≠ HumdrumLine.getTokenCount next →
     ∃ f', stitchLinesTogether p n f = Some (false, f') ∧
       names_both_lines (parseError f') previous next).
Proof.
  split.
  - intros contents f0 b f i j li lj H Hr.
    pose proof (read_rejects_ragged_pair _ _ _ _ _ _ _ _ H Hr) as ->.
    pose proof (read_status _ _ _ _ H) as Hv.
    split; [done|]. split; [done|]. split; [by apply isValid_false_iff|].
    intros V0. by eapply read_ragged_stops_at_spines.
  - intros f p n previous next Hp Hn Hip Hin Hne.
    destruct (stitch_reports_both_lines f p n previous next) as (f' & ? & ? & ?); eauto.
Qed.

(** The amended C7 on [ragged_data]. *)
Lemma ragged_lines_rejected_witness :
  let f := parsed ragged_data in
  let l1 := HumdrumLine.mk (row ["p"; "q"; "r"; "s"]) ["p"; "q"; "r"; "s"] 1 in
  let l2 := HumdrumLine.mk (row ["p"; "q"; "r"; "s"; "t"]) ["p"; "q"; "r"; "s"; "t"] 2 in
  (isValid f = false ∧ parseError f ≠ "" ∧
   analyzeSpines (tokenized ragged_data new) = Some (false, f)) ∧
  ∃ f', stitchLinesTogether 1 2 f = Some (false, f') ∧
    names_both_lines (parseError f') l1 l2.
Proof.
  intros f l1 l2. destruct ragged_lines_rejected as [Hread Hstitch].
  assert (read ragged_data new = Some (false, f)) as Hr by (vm_compute; reflexivity).
  assert (ragged_pair (lines f) 1 2 l1 l2) as Hpair.
  { split; [reflexivity|]. split; [reflexivity|]. split; [reflexivity|].
    split; [|by repeat split].
    split; [lia|]. split; [exists l2; by split|]. intros k lk Hk. lia. }
  destruct (Hread ragged_data new false f 1%nat 2%nat l1 l2 Hr Hpair)
    as (_ & Hv & He & Hs).
  split; [split; [exact Hv | split; [exact He | apply Hs; reflexivity]]|].
  apply (Hstitch f 1%nat 2%nat l1 l2); try reflexivity. vm_compute. discriminate.
Defined.

(** ** Files without spines, data before the first exclusive line *)

Lemma split_fields_nonempty (s : string) : HumdrumLine.split_fields s ≠ [].
Proof.
  destruct s as [|c s]; [done|]. simpl.
  destruct (Ascii.eqb c "009"); [done|].
  by destruct (HumdrumLine.split_fields s).
Qed.

(** What the analysis sees of the line at position [k]. *)
Lemma tokenized_lookup contents f0 k l :
  lines (tokenized contents f0) !! k = Some l →
  (map HumdrumLine.text (lines f0) ++ contents) !! k = Some (HumdrumLine.text l) ∧
  HumdrumLine.hasSpines l = text_has_spines (HumdrumLine.text l) ∧
  HumdrumLine.isExclusive l = text_is_exclusive (HumdrumLine.text l) ∧
  HumdrumLine.getLineIndex l = Z.of_nat k ∧
  is_Some (HumdrumLine.token l 0).
Proof.
  rewrite tokenized_lines, list_lookup_imap.
  assert (map HumdrumLine.text (lines f0) ++ contents
          = map HumdrumLine.text (lines f0 ++ map (λ s, HumdrumLine.mk s [] 0) contents))
    as ->.
  { rewrite map_app, map_map. simpl. by rewrite map_id. }
  rewrite list_lookup_fmap.
  destruct ((lines f0 ++ _) !! k) as [l0|]; [|done]. simpl.
  intros [= <-]. simpl. repeat split.
  unfold HumdrumLine.token. simpl.
  pose proof (split_fields_nonempty (HumdrumLine.text l0)).
  destruct (HumdrumLine.split_fields (HumdrumLine.text l0)); [done | by eexists].
Qed.

Lemma tokenized_length contents f0 :
  length (lines (tokenized contents f0)) = (length (lines f0) + length contents)%nat.
Proof. by rewrite tokenized_lines, length_imap, length_app, length_map. Qed.

(** The spine analysis passes over lines without spines. *)
Lemma analyzeSpines_loop_globals mid : ∀ rest i init datatype sinfo f,
  Forall (λ l, HumdrumLine.hasSpines l = false ∧ is_Some (HumdrumLine.token l 0)) mid →
  analyzeSpines_loop (mid ++ rest) i init datatype sinfo f =
  analyzeSpines_loop rest (i + length mid) init datatype sinfo f.
Proof.
  induction mid as [|l mid IH]; intros rest i init datatype sinfo f Hall.
  - simpl. by rewrite Nat.add_0_r.
  - apply Forall_cons in Hall as [[Hs [t Ht]] Hall]. simpl.
    unfold analyzeSpines_line. rewrite Hs, Ht. cbn [negb mbind option_bind].
    rewrite IH by done. f_equal. lia.
Qed.

(** So does the link analysis. *)
Lemma analyzeLinks_loop_globals mid : ∀ rest i next f,
  Forall (λ l, HumdrumLine.hasSpines l = false) mid →
  analyzeLinks_loop (mid ++ rest) i next f =
  analyzeLinks_loop rest (i + length mid) next f.
Proof.
  induction mid as [|l mid IH]; intros rest i next f Hall.
  - simpl. by rewrite Nat.add_0_r.
  - apply Forall_cons in Hall as [Hs Hall]. simpl.
    unfold analyzeLinks_line. rewrite Hs. cbn [negb mbind option_bind].
    rewrite IH by done. f_equal. lia.
Qed.

Lemma analyzeSpines_start (f : HumdrumFileBase.t) :
  analyzeSpines f =
  analyzeSpines_loop (lines f) 0 false [] []
    (with_tracks [None] [[]] (with_tracks [] [] f)).
Proof. reflexivity. Qed.

(** X11.  A file without any line that has spines (blank lines, global
    comments, reference records; an empty file) is read as valid: there is
    no track, [getTrackStart] is [NULL] for every track, and no token has
    a link or a spine info. *)
Theorem read_without_spines (contents : list string) (f0 : HumdrumFileBase.t) :
  isValid f0 = true →
  Forall (λ s, text_has_spines s = false)
         (map HumdrumLine.text (lines f0) ++ contents) →
  ∃ f, read contents f0 = Some (true, f) ∧
    getMaxTrack f = 0 ∧ trackstarts f = [None] ∧ trackends f = [[]] ∧
    (∀ r, getNextTokens f r = [] ∧ getPreviousTokens f r = [] ∧ getSpineInfo f r = "") ∧
    map HumdrumLine.text (lines f) = map HumdrumLine.text (lines f0) ++ contents.
Proof.
  intros V0 Hall.
  assert (Forall (λ l, HumdrumLine.hasSpines l = false ∧ is_Some (HumdrumLine.token l 0))
            (lines (tokenized contents f0))) as Hglobal.
  { apply Forall_lookup. intros k l Hk.
    destruct (tokenized_lookup _ _ _ _ Hk) as (Ht & Hs & _ & _ & H0).
    split; [|done]. rewrite Hs.
    rewrite Forall_lookup in Hall. by apply (Hall k). }
  assert (isValid (tokenized contents f0) = true) as V2 by exact V0.
  set (g := with_tracks [None] [[]] (with_tracks [] [] (tokenized contents f0))).
  assert (analyzeSpines (tokenized contents f0) = Some (true, g)) as H3.
  { rewrite analyzeSpines_start. fold g.
    rewrite <- (app_nil_r (lines (tokenized contents f0))).
    rewrite analyzeSpines_loop_globals by done. simpl.
    change (isValid g) with (isValid f0). by rewrite V0. }
  assert (analyzeLinks g = Some (true, g)) as H4.
  { unfold analyzeLinks. change (lines g) with (lines (tokenized contents f0)).
    rewrite <- (app_nil_r (lines (tokenized contents f0))).
    rewrite analyzeLinks_loop_globals by (eapply Forall_impl; [exact Hglobal | by intros ? []]).
    simpl. change (isValid g) with (isValid f0). by rewrite V0. }
  pose proof (analyzeTracks_status g) as H5.
  destruct (analyzeTracks_loop_frame (lines g) 0 g)
    as (Hl5 & Hsi5 & Hn5 & Hp5 & Hts5 & Hte5 & He5).
  fold (analyzeTracks g) in Hl5, Hsi5, Hn5, Hp5, Hts5, Hte5, He5.
  destruct (analyzeTracks g) as [ok5 f5] eqn:E5. cbn [fst snd] in *.
  assert (isValid f5 = true) as V5.
  { apply isValid_true_iff. rewrite He5. by apply isValid_true_iff. }
  exists f5. split.
  { rewrite read_valid_start by done. rewrite H3. cbn [mbind option_bind negb].
    rewrite H4. cbn [mbind option_bind negb]. rewrite E5, H5, V5. done. }
  split; [unfold getMaxTrack; by rewrite Hts5|].
  split; [by rewrite Hts5|]. split; [by rewrite Hte5|].
  split.
  { intros r. unfold getNextTokens, getPreviousTokens, getSpineInfo.
    rewrite Hn5, Hp5, Hsi5. done. }
  rewrite Hl5. change (lines g) with (lines (tokenized contents f0)).
  rewrite tokenized_lines. rewrite imap_texts by done.
  rewrite map_app, map_map. simpl. by rewrite map_id.
Qed.

(** X11 on a file of a reference record, a blank line and a comment. *)
Lemma read_without_spines_witness :
  ∃ f, read ["!!!COM: Bach"; ""; "!! a comment"] new = Some (true, f) ∧
       getMaxTrack f = 0.
Proof.
  destruct (read_without_spines ["!!!COM: Bach"; ""; "!! a comment"] new eq_refl)
    as (f & Hread & Hmax & _).
  { repeat constructor. }
  exists f. by split.
Defined.

(** X12.  When the first line with spines is not a line of exclusive
    interpretations, the read fails at this line: the stored message
    names the line by its number counted from one and quotes its text, no
    track is opened and no link is made. *)
Theorem data_before_exclusive_rejected (contents : list string)
    (f0 : HumdrumFileBase.t) (i : nat) (s : string) :
  isValid f0 = true →
  (map HumdrumLine.text (lines f0) ++ contents) !! i = Some s →
  text_has_spines s = true → text_is_exclusive s = false →
  (∀ k t, (k < i)%nat → (map HumdrumLine.text (lines f0) ++ contents) !! k = Some t →
          text_has_spines t = false) →
  ∃ f, read contents f0 = Some (false, f) ∧
    parseError f =
      "Error on line: " +:+ Cpp.to_string (Z.of_nat i + 1) +:+ ":" +:+ Cpp.endl +:+
      "   Data found before exclusive interpretation" +:+ Cpp.endl +:+
      "   LINE: " +:+ s ∧
    getMaxTrack f = 0 ∧
    (∀ r, getNextTokens f r = [] ∧ getPreviousTokens f r = []).
Proof.
  intros V0 Hi Hs He Hbefore.
  assert (i < length (lines (tokenized contents f0)))%nat as Hlt.
  { rewrite tokenized_length. apply lookup_lt_Some in Hi.
    by rewrite length_app, length_map in Hi. }
  destruct (lookup_lt_is_Some_2 _ _ Hlt) as [l Hl].
  destruct (tokenized_lookup _ _ _ _ Hl) as (Ht & Hsl & Hel & _ & _).
  assert (HumdrumLine.text l = s) as Htext by congruence.
  rewrite Htext in Hsl, Hel. rewrite Hs in Hsl. rewrite He in Hel.
  pose proof (take_drop_middle _ _ _ Hl) as Hsplit.
  assert (Forall (λ l, HumdrumLine.hasSpines l = false ∧ is_Some (HumdrumLine.token l 0))
            (take i (lines (tokenized contents f0)))) as Hglobal.
  { apply Forall_lookup. intros k lk Hk.
    pose proof (lookup_lt_Some _ _ _ Hk) as Hk'. rewrite length_take in Hk'.
    rewrite lookup_take_lt in Hk by lia.
    destruct (tokenized_lookup _ _ _ _ Hk) as (Htk & Hsk & _ & _ & H0).
    split; [|done]. rewrite Hsk. apply (Hbefore k); [lia | done]. }
  set (g := with_tracks [None] [[]] (with_tracks [] [] (tokenized contents f0))).
  set (err := "Error on line: " +:+ Cpp.to_string (Z.of_nat i + 1) +:+ ":" +:+ Cpp.endl +:+
      "   Data found before exclusive interpretation" +:+ Cpp.endl +:+
      "   LINE: " +:+ s).
  assert (analyzeSpines (tokenized contents f0) = Some (false, with_parseError err g)) as H3.
  { rewrite analyzeSpines_start. fold g. rewrite <- Hsplit.
    rewrite analyzeSpines_loop_globals by done.
    rewrite length_take, Nat.add_0_l, Nat.min_l by lia. simpl.
    unfold analyzeSpines_line. rewrite Hsl, Hel, Htext. cbn [negb andb].
    unfold setParseError. cbn [mbind option_bind]. done. }
  exists (with_parseError err g). split.
  { rewrite read_valid_start by done. rewrite H3. done. }
  split; [done|]. split; [done|].
  intros r. done.
Qed.

(** X12 on a file whose first line with spines is a data line. *)
Lemma data_before_exclusive_rejected_witness :
  ∃ f, read ["!! comment"; row ["4c"; "4e"]; row ["**kern"; "**kern"]] new = Some (false, f) ∧
       infixb "Error on line: 2:" (parseError f) = true.
Proof.
  destruct (data_before_exclusive_rejected
              ["!! comment"; row ["4c"; "4e"]; row ["**kern"; "**kern"]] new 1
              (row ["4c"; "4e"]) eq_refl eq_refl eq_refl eq_refl)
    as (f & Hread & Herr & _).
  { intros k t Hk Ht. assert (k = 0%nat) as -> by lia.
    injection Ht as <-. reflexivity. }
  exists f. split; [done|]. rewrite Herr. vm_compute. reflexivity.
Defined.

(** ** The track table *)

Lemma table_addToTrackStarts ls tok f f' :
  addToTrackStarts tok f = Some f' → track_table_ok ls f → track_table_ok ls f'.
Proof.
  unfold addToTrackStarts, track_table_ok. intros H (Hlen & Hpos & Hall).
  destruct tok as [r|].
  - destruct ((1 <? Cpp.size (trackstarts f)) &&
              bool_decide (Cpp.back (trackstarts f) = Some None)).
    + destruct (Cpp.set_back (trackstarts f) (Some r)) as [ts|] eqn:E; [|done].
      injection H as <-. simpl. apply set_back_spec in E as ->.
      rewrite length_insert. done.
    + injection H as <-. simpl. rewrite !length_app. simpl.
      split; [lia|]. split; [lia|].
      apply Forall_app. split; [done | by repeat constructor].
  - injection H as <-. simpl. rewrite !length_app. simpl.
    split; [lia|]. split; [lia|].
    apply Forall_app. split; [done | by repeat constructor].
Qed.

Lemma table_push_end ls f k ends x :
  Cpp.at_ (trackends f) k = Some ends → is_terminator_of ls x →
  track_table_ok ls f →
  track_table_ok ls
    (with_tracks (trackstarts f) (<[Z.to_nat k := ends ++ [x]]> (trackends f)) f).
Proof.
  unfold track_table_ok. intros Hat Hx (Hlen & Hpos & Hall). simpl.
  rewrite length_insert. split; [done|]. split; [done|].
  apply Forall_insert; [done|].
  apply Forall_app. split; [|by repeat constructor].
  unfold Cpp.at_ in Hat.
  destruct ((0 <=? k) && (k <? Cpp.size (trackends f))); [|done].
  rewrite Forall_forall in Hall. apply Hall. by eapply list_elem_of_lookup_2.
Qed.

Lemma adjustSpines_loop_table ls li line datatype sinfo rest :
  ∀ i skip newtype newinfo f r,
  ls !! li = Some line →
  (∀ k tok, rest !! k = Some tok → HumdrumLine.tokens line !! (i + k)%nat = Some tok) →
  adjustSpines_loop li line datatype sinfo rest i skip newtype newinfo f = Some r →
  track_table_ok ls f → track_table_ok ls (adjusted_state r).
Proof.
  induction rest as [|tok rest IH]; intros i skip newtype newinfo f r Hli Hrest H Hok;
    simpl in H.
  - by injection H as <-.
  - assert (∀ k tok', rest !! k = Some tok' →
              HumdrumLine.tokens line !! (S i + k)%nat = Some tok') as Hrest'.
    { intros k tok' Hk. specialize (Hrest (S k) tok' Hk).
      by replace (S i + k)%nat with (i + S k)%nat by lia. }
    assert (HumdrumLine.tokens line !! i = Some tok) as Htok.
    { specialize (Hrest 0%nat tok eq_refl). by rewrite Nat.add_0_r in Hrest. }
    destruct skip as [|k]; [|by eapply IH].
    destruct (HumdrumToken.isSplitInterpretation tok).
    { bind_inv. eapply IH; eauto. }
    destruct (HumdrumToken.isMergeInterpretation tok).
    { bind_inv. eapply IH; eauto. }
    destruct (HumdrumToken.isAddInterpretation tok).
    { bind_inv. eapply IH; eauto.
      by apply (table_addToTrackStarts ls None f). }
    destruct (HumdrumToken.isExchangeInterpretation tok).
    { bind_inv; first [ by eapply IH; eauto | exact Hok ]. }
    destruct (HumdrumToken.isTerminateInterpretation tok) eqn:Hterm.
    { bind_inv. eapply IH; eauto.
      eapply table_push_end; eauto. exists line, tok. done. }
    bind_inv; first [ exact Hok | eapply IH; eauto ].
    all: try (eapply table_addToTrackStarts; eauto).
Qed.

Lemma table_same ls f g :
  trackstarts g = trackstarts f → trackends g = trackends f →
  track_table_ok ls f → track_table_ok ls g.
Proof. unfold track_table_ok. by intros -> ->. Qed.

Lemma adjustSpines_table ls li line datatype sinfo f ok dt' si' f' :
  ls !! li = Some line →
  adjustSpines li line datatype sinfo f = Some (ok, (dt', si'), f') →
  track_table_ok ls f → track_table_ok ls f'.
Proof.
  unfold adjustSpines. intros Hli H Hok.
  destruct (adjustSpines_loop li line datatype sinfo (HumdrumLine.tokens line) 0 0 [] [] f)
    as [r|] eqn:E; [|done].
  cbn [mbind option_bind] in H.
  eapply adjustSpines_loop_table in E; eauto.
  destruct r; bind_inv; exact E.
Qed.

Lemma open_tracks_table ls li toks : ∀ j f f',
  open_tracks li toks j f = Some f' → track_table_ok ls f → track_table_ok ls f'.
Proof.
  induction toks as [|tok toks IH]; intros j f f' H Hok; simpl in H.
  - by injection H as <-.
  - destruct (addToTrackStarts (Some (li, j)) f) as [f1|] eqn:E; [|done].
    cbn [mbind option_bind] in H.
    apply IH in H; [done|].
    eapply table_addToTrackStarts in E; eauto.
Qed.

Lemma analyzeSpines_line_table ls i l init datatype sinfo f r :
  ls !! i = Some l →
  analyzeSpines_line i l init datatype sinfo f = Some r →
  track_table_ok ls f → track_table_ok ls (spines_state r).
Proof.
  unfold analyzeSpines_line. intros Hl H Hok.
  bind_inv; simpl;
    repeat match goal with
    | H : open_tracks _ _ _ _ = Some _ |- _ => apply (open_tracks_table ls) in H; [|done]
    | H : label_tokens _ _ _ _ _ = Some _ |- _ =>
        apply label_tokens_frame in H as (_ & _ & ? & ? & _)
    | H : adjustSpines _ _ _ _ _ = Some _ |- _ =>
        eapply (adjustSpines_table ls) in H; [| done | by eapply table_same]
    end; try done.
  all: by eapply table_same.
Qed.

Lemma analyzeSpines_loop_table all ls : ∀ i init datatype sinfo f b f',
  (∀ k l, ls !! k = Some l → all !! (i + k)%nat = Some l) →
  analyzeSpines_loop ls i init datatype sinfo f = Some (b, f') →
  track_table_ok all f → track_table_ok all f'.
Proof.
  induction ls as [|l ls IH]; intros i init datatype sinfo f b f' Hall H Hok; simpl in H.
  - by injection H as _ <-.
  - destruct (analyzeSpines_line i l init datatype sinfo f) as [r|] eqn:E; [|done].
    cbn [mbind option_bind] in H.
    eapply (analyzeSpines_line_table all) in E; [| | done].
    2: { specialize (Hall 0%nat l eq_refl). by rewrite Nat.add_0_r in Hall. }
    destruct r as [st f1 | init1 dt1 si1 f1]; simpl in *.
    + by injection H as _ <-.
    + eapply IH; eauto. intros k l' Hk.
      specialize (Hall (S k) l' Hk). by replace (S i + k)%nat with (i + S k)%nat by lia.
Qed.

(** The track table after a read that ran the spine analysis. *)
Lemma read_table contents f0 b f :
  isValid f0 = true → read contents f0 = Some (b, f) →
  track_table_ok (lines f) f.
Proof.
  intros V0 H.
  apply read_stages in H as (_ & [(V0' & _) | (_ & ok3 & f3 & H3 & Hr)]); [congruence|].
  apply analyzeSpines_inv in H3 as (g & Hloop & (Hlg & _) & _ & Hts & Hte).
  pose proof (analyzeSpines_loop_frame _ _ _ _ _ _ _ _ Hloop) as [(Hl3 & _) _].
  assert (track_table_ok (lines f3) f3) as H3.
  { rewrite Hl3.
    eapply (analyzeSpines_loop_table (lines g)) in Hloop; [done | |].
    - intros k l Hk. by rewrite Hlg.
    - unfold track_table_ok. rewrite Hts, Hte. simpl.
      split; [done|]. split; [lia|]. by repeat constructor. }
  destruct Hr as [(_ & ->) | (_ & ok4 & f4 & H4 & Hr)]; [done|].
  apply analyzeLinks_loop_within in H4 as [(Hl4 & _ & Hts4 & Hte4 & _) _].
  assert (track_table_ok (lines f4) f4) as H4.
  { rewrite Hl4. by eapply table_same. }
  destruct Hr as [(_ & ->) | (_ & ->)]; [done|].
  destruct (analyzeTracks_loop_frame (lines f4) 0 f4) as (Hl5 & _ & _ & _ & Hts5 & Hte5 & _).
  fold (analyzeTracks f4) in Hl5, Hts5, Hte5.
  rewrite Hl5. by eapply table_same.
Qed.

Lemma getTrackEnd_elem (f : HumdrumFileBase.t) (n k : Z) (r : TokenRef) :
  getTrackEnd f n k = Some (Some r) → ∃ ends, ends ∈ trackends f ∧ r ∈ ends.
Proof.
  unfold getTrackEnd. cbv zeta. intros H.
  repeat match type of H with
  | (if ?c then _ else _) = _ => destruct c; [done|]
  end.
  destruct (Cpp.at_ (trackends f) _) as [ends|] eqn:E; [|done].
  cbn [mbind option_bind] in H.
  repeat match type of H with
  | (if ?c then _ else _) = _ => destruct c; [done|]
  end.
  destruct (Cpp.at_ ends _) as [r'|] eqn:E'; [|done].
  injection H as <-. exists ends.
  unfold Cpp.at_ in E, E'.
  destruct (_ && _) in E; [|done]. destruct (_ && _) in E'; [|done].
  split; by eapply list_elem_of_lookup_2.
Qed.

(** X13.  After every read on an object without stored error the track
    table is well-formed, valid parse or not: there are as many end lists
    as start entries, the reserved entry 0 is there, and [getMaxTrack()]
    is the number of end lists less one (fewer than [2^31] tracks). *)
Theorem track_table_shape (contents : list string) (f0 f : HumdrumFileBase.t) (b : bool) :
  isValid f0 = true → read contents f0 = Some (b, f) →
  Cpp.size (trackstarts f) <= 2 ^ 31 →
  Cpp.size (trackends f) = Cpp.size (trackstarts f) ∧
  0 <= getMaxTrack f ∧ getMaxTrack f = Cpp.size (trackends f) - 1 ∧
  getTrackStart f 0 = Some None.
Proof.
  intros V0 H Hsz. apply read_table in H as (Hlen & Hpos & _); [|done].
  assert (Cpp.size (trackends f) = Cpp.size (trackstarts f)) as Heq
    by (unfold Cpp.size; lia).
  split; [done|].
  rewrite getMaxTrack_small by (unfold Cpp.size in *; lia).
  split; [unfold Cpp.size; lia|]. split; [lia|]. done.
Qed.

(** X13 on the parsed [add_file]. *)
Lemma track_table_shape_witness :
  let f := parsed add_file in
  Cpp.size (trackends f) = Cpp.size (trackstarts f) ∧ getMaxTrack f = 2.
Proof.
  intros f.
  assert (read add_file new = Some (true, f)) as H by (vm_compute; reflexivity).
  assert (Cpp.size (trackstarts f) <= 2 ^ 31) as Hsz by (vm_compute; discriminate).
  destruct (track_table_shape add_file new f true eq_refl H Hsz) as (H1 & _ & H2 & _).
  split; [exact H1|]. rewrite H2. vm_compute. reflexivity.
Defined.

(** X14.  Whatever [getTrackEnd] returns after a read (on an object
    without stored error) is a terminate token of the file: a token that
    is not [NULL] designates a field of a line of the file whose text is a
    terminate manipulator. *)
Theorem track_ends_are_terminators (contents : list string) (f0 f : HumdrumFileBase.t)
    (b : bool) (n k : Z) (r : TokenRef) :
  isValid f0 = true → read contents f0 = Some (b, f) →
  getTrackEnd f n k = Some (Some r) →
  ∃ txt, tokenText f r = Some txt ∧
    HumdrumToken.isTerminateInterpretation txt = true.
Proof.
  intros V0 H Hend. apply read_table in H as (_ & _ & Hall); [|done].
  apply getTrackEnd_elem in Hend as (ends & He & Hr).
  rewrite Forall_forall in Hall. specialize (Hall ends He).
  rewrite Forall_forall in Hall. destruct (Hall r Hr) as (l & txt & Hl & Ht & Hterm).
  exists txt. split; [|done].
  unfold tokenText. rewrite Hl. done.
Qed.

(** X14 on the parsed [two_spines]. *)
Lemma track_ends_are_terminators_witness :
  ∃ txt, tokenText (parsed two_spines) (1%nat, 0%nat) = Some txt ∧
    HumdrumToken.isTerminateInterpretation txt = true.
Proof.
  assert (read two_spines new = Some (true, parsed two_spines)) as H
    by (vm_compute; reflexivity).
  exact (track_ends_are_terminators two_spines new (parsed two_spines) true 2 0
           (1%nat, 0%nat) eq_refl H eq_refl).
Defined.

(** ** The links of a file *)

Section LinkInvariant.

(** A property [Q] of the object that every link from a token of line [p]
    to a token of line [n] keeps, and that does not depend on the error
    text, is kept by the stitcher. *)
Context (Q : HumdrumFileBase.t → Prop) (p n : nat) (previous next : HLine).
Hypothesis Qlink : ∀ a b g,
  (a < HumdrumLine.getTokenCount previous)%nat →
  (b < HumdrumLine.getTokenCount next)%nat →
  Q g → Q (makeForwardLink (p, a) (n, b) g).
Hypothesis Qerr : ∀ e g, Q g → Q (with_parseError e g).

Lemma token_lt (l : HLine) (j : nat) (t : string) :
  HumdrumLine.token l j = Some t → (j < HumdrumLine.getTokenCount l)%nat.
Proof. unfold HumdrumLine.token, HumdrumLine.getTokenCount. apply lookup_lt_Some. Qed.

Lemma link_columns_inv rest : ∀ i f f',
  (i + length rest <= HumdrumLine.getTokenCount previous)%nat →
  link_columns p n next rest i f = Some f' → Q f → Q f'.
Proof using Qlink.
  induction rest as [|tok rest IH]; intros i f f' Hlen H HQ; simpl in H.
  - by injection H as <-.
  - destruct (HumdrumLine.token next i) as [t|] eqn:E; [|done].
    cbn [mbind option_bind] in H. apply token_lt in E.
    eapply IH in H; [done | simpl in Hlen; lia |].
    apply Qlink; [simpl in Hlen; lia | done | done].
Qed.

Lemma link_merges_inv run : ∀ i ii f,
  (i + run <= HumdrumLine.getTokenCount previous)%nat →
  (ii < HumdrumLine.getTokenCount next)%nat →
  Q f → Q (link_merges p n run i ii f).
Proof using Qlink.
  induction run as [|r IH]; intros i ii f Hlen Hii HQ; simpl; [done|].
  apply IH; [lia | done |]. apply Qlink; [lia | done | done].
Qed.

Lemma count_merges_le (rest : list string) : (count_merges rest <= length rest)%nat.
Proof.
  induction rest as [|tok rest IH]; simpl; [done|].
  destruct (HumdrumToken.isMergeInterpretation tok); lia.
Qed.

Lemma stitch_loop_inv rest : ∀ i skip ii f r,
  (i + length rest <= HumdrumLine.getTokenCount previous)%nat →
  stitch_loop p n previous next rest i skip ii f = Some r →
  Q f → Q (stitched_state r).
Proof using Qlink Qerr.
  induction rest as [|tok rest IH]; intros i skip ii f r Hlen H HQ; simpl in H.
  - by injection H as <-.
  - simpl in Hlen. pose proof (count_merges_le rest) as Hcm.
    destruct skip as [|k]; [|eapply IH; eauto; lia].
    bind_inv;
      repeat match goal with
      | H : HumdrumLine.token _ _ = Some _ |- _ => apply token_lt in H
      end;
      first [ by apply Qerr
            | eapply IH; [| eassumption |]; [lia|];
              repeat first [ apply Qlink; [lia | lia |]
                           | apply link_merges_inv; [lia | lia |] ];
              exact HQ ].
Qed.

End LinkInvariant.

Lemma stitchLinesTogether_inv (Q : HumdrumFileBase.t → Prop) p n previous next f b f' :
  lines f !! p = Some previous → lines f !! n = Some next →
  (∀ a c g, (a < HumdrumLine.getTokenCount previous)%nat →
            (c < HumdrumLine.getTokenCount next)%nat →
            Q g → Q (makeForwardLink (p, a) (n, c) g)) →
  (∀ e g, Q g → Q (with_parseError e g)) →
  stitchLinesTogether p n f = Some (b, f') → Q f → Q f'.
Proof.
  intros Hp Hn Qlink Qerr H HQ. unfold stitchLinesTogether in H.
  rewrite Hp, Hn in H. cbn [mbind option_bind] in H.
  destruct (negb (HumdrumLine.isInterpretation previous) &&
            negb (HumdrumLine.isInterpretation next)).
  - destruct (negb (_ =? _)%nat).
    + injection H as _ <-. by apply Qerr.
    + destruct (link_columns p n next (HumdrumLine.tokens previous) 0 f) as [g|] eqn:E;
        [|done].
      injection H as _ <-.
      eapply (link_columns_inv Q p n previous next Qlink) in E;
        [done | unfold HumdrumLine.getTokenCount; simpl; lia | done].
  - destruct (stitch_loop p n previous next (HumdrumLine.tokens previous) 0 0 0 f)
      as [r|] eqn:E; [|done].
    cbn [mbind option_bind] in H.
    eapply (stitch_loop_inv Q p n previous next Qlink Qerr) in E;
      [| unfold HumdrumLine.getTokenCount; simpl; lia | done].
    destruct r as [st g | i ii g]; simpl in *.
    + by injection H as _ <-.
    + destruct (_ || _).
      * injection H as _ <-. by apply Qerr.
      * by injection H as _ <-.
Qed.

Lemma makeForwardLink_links_ok ls a b g :
  link_ok ls a b → links_ok ls g → links_ok ls (makeForwardLink a b g).
Proof.
  intros Hab [Hfwd Hmirror]. split.
  - intros a' b'. rewrite makeForwardLink_next.
    destruct (decide (a = a')) as [<-|]; [|by apply Hfwd].
    intros [H | ->%list_elem_of_singleton]%elem_of_app; [by apply Hfwd | done].
  - intros a' b'. rewrite makeForwardLink_next, makeForwardLink_previous.
    destruct (decide (a = a')) as [<-|Ha], (decide (b = b')) as [<-|Hb];
      rewrite ?elem_of_app, ?list_elem_of_singleton, ?Hmirror;
      intuition congruence.
Qed.

Lemma links_ok_same ls f g :
  nextTokens g = nextTokens f → previousTokens g = previousTokens f →
  links_ok ls f → links_ok ls g.
Proof.
  unfold links_ok, getNextTokens, getPreviousTokens. by intros -> ->.
Qed.

(** The link analysis keeps [links_ok]: [next] points to the last line
    with spines before line [i]. *)
Lemma analyzeLinks_loop_ok all ls : ∀ i next f b f',
  lines f = all →
  (∀ k l, ls !! k = Some l → all !! (i + k)%nat = Some l) →
  (∀ q, next = Some q →
     (q < i)%nat ∧ (∃ lq, all !! q = Some lq ∧ HumdrumLine.hasSpines lq = true) ∧
     (∀ k lk, (q < k < i)%nat → all !! k = Some lk → HumdrumLine.hasSpines lk = false)) →
  analyzeLinks_loop ls i next f = Some (b, f') →
  links_ok all f → links_ok all f'.
Proof.
  induction ls as [|l ls IH]; intros i next f b f' Hlines Hall Hnext H Hok; simpl in H.
  - by injection H as _ <-.
  - assert (all !! i = Some l) as Hi.
    { specialize (Hall 0%nat l eq_refl). by rewrite Nat.add_0_r in Hall. }
    assert (∀ k l', ls !! k = Some l' → all !! (S i + k)%nat = Some l') as Hall'.
    { intros k l' Hk. specialize (Hall (S k) l' Hk).
      by replace (S i + k)%nat with (i + S k)%nat by lia. }
    unfold analyzeLinks_line in H.
    destruct (HumdrumLine.hasSpines l) eqn:Hs; cbn [negb mbind option_bind] in H.
    2: { eapply (IH (S i) next); eauto.
         intros q Hq. destruct (Hnext q Hq) as (Hlt & Hq' & Hmid).
         split; [lia|]. split; [done|].
         intros k lk Hk Hlk. destruct (decide (k = i)) as [->|].
         - congruence.
         - apply (Hmid k); [lia | done]. }
    assert (∀ q, Some i = Some q →
       (q < S i)%nat ∧ (∃ lq, all !! q = Some lq ∧ HumdrumLine.hasSpines lq = true) ∧
       (∀ k lk, (q < k < S i)%nat → all !! k = Some lk → HumdrumLine.hasSpines lk = false))
      as Hnext'.
    { intros q [= <-]. split; [lia|]. split; [eauto|]. intros k lk Hk. lia. }
    destruct next as [q|]; cbn [mbind option_bind] in H.
    2: { eapply (IH (S i) (Some i)); eauto. }
    destruct (Hnext q eq_refl) as (Hlt & (lq & Hq & Hsq) & Hmid).
    destruct (stitchLinesTogether q i f) as [[ok f1]|] eqn:E; [|done].
    cbn [mbind option_bind] in H.
    pose proof (stitchLinesTogether_within _ _ _ _ _ E) as [((Hl1 & _) & _) _].
    assert (links_ok all f1) as Hok1.
    { eapply (stitchLinesTogether_inv (links_ok all) q i lq l) in E; eauto.
      - by rewrite Hlines.
      - by rewrite Hlines.
      - intros a c g Ha Hc Hg. apply makeForwardLink_links_ok; [|done].
        split; [by exists lq|]. split; [by exists l|]. split; [by exists lq|].
        split; [done|]. split; [by exists l|]. done. }
    destruct ok; cbn [negb] in H.
    + eapply (IH (S i) (Some i) f1);
        [congruence | exact Hall' | exact Hnext' | exact H | exact Hok1].
    + by injection H as _ <-.
Qed.

(** The links after any read. *)
Lemma read_links_ok contents f0 b f :
  read contents f0 = Some (b, f) → links_ok (lines f) f.
Proof.
  intros H.
  assert (∀ ls g, nextTokens g = ∅ → previousTokens g = ∅ → links_ok ls g) as Hempty.
  { intros ls g Hn Hp. unfold links_ok, getNextTokens, getPreviousTokens.
    rewrite Hn, Hp. split; intros a c; rewrite !lookup_empty; simpl.
    - by intros ?%elem_of_nil.
    - split; by intros ?%elem_of_nil. }
  apply read_stages in H as (_ & [(_ & ->) | (_ & ok3 & f3 & H3 & Hr)]).
  { by apply Hempty. }
  apply analyzeSpines_inv in H3 as (g & Hloop & (Hlg & Hng & Hpg) & _).
  apply analyzeSpines_loop_frame in Hloop as [(Hl3 & Hn3 & Hp3) _].
  destruct (tokenized_fresh contents f0) as (_ & Hn0 & Hp0).
  assert (links_ok (lines f3) f3) as Hok3.
  { apply Hempty; congruence. }
  destruct Hr as [(_ & ->) | (_ & ok4 & f4 & H4 & Hr)]; [done|].
  pose proof (analyzeLinks_loop_within _ _ _ _ _ _ H4) as [(Hl4 & _) _].
  assert (links_ok (lines f4) f4) as Hok4.
  { rewrite Hl4. eapply (analyzeLinks_loop_ok (lines f3)) in H4; eauto.
    intros q Hq. done. }
  destruct Hr as [(_ & ->) | (_ & ->)]; [done|].
  destruct (analyzeTracks_loop_frame (lines f4) 0 f4) as (Hl5 & _ & Hn5 & Hp5 & _).
  fold (analyzeTracks f4) in Hl5, Hn5, Hp5.
  rewrite Hl5. by eapply links_ok_same.
Qed.

(** X15.  After any read every forward link leads from a token of a line
    with spines to a token of the next line with spines, both tokens being
    fields of lines of the file; and the backward links mirror the
    forward links: [c] is among the next tokens of [a] exactly when [a]
    is among the previous tokens of [c]. *)
Theorem links_lead_to_next_structural_line (contents : list string)
    (f0 f : HumdrumFileBase.t) (b : bool) (a c : TokenRef) :
  read contents f0 = Some (b, f) →
  (c ∈ getNextTokens f a ↔ a ∈ getPreviousTokens f c) ∧
  (c ∈ getNextTokens f a →
   next_structural (lines f) a.1 c.1 ∧
   is_Some (tokenText f a) ∧ is_Some (tokenText f c) ∧
   ∃ la, lines f !! a.1 = Some la ∧ HumdrumLine.hasSpines la = true).
Proof.
  intros H. apply read_links_ok in H as [Hfwd Hmirror].
  split; [apply Hmirror|].
  intros Hc. destruct (Hfwd a c Hc) as ((la & Hla & Ha) & (lc & Hlc & Hc') & Hs & Hnext).
  split; [done|]. split; [|split; [|exact Hs]].
  - unfold tokenText. rewrite Hla. simpl. by apply lookup_lt_is_Some_2.
  - unfold tokenText. rewrite Hlc. simpl. by apply lookup_lt_is_Some_2.
Qed.

(** X15 on [split_file]: the link from the split token to the second
    token of line 3, over the global comment on line 2. *)
Lemma links_lead_to_next_structural_line_witness :
  let f := parsed split_file in
  (1%nat, 0%nat) ∈ getPreviousTokens f (3%nat, 1%nat) ∧
  next_structural (lines f) 1 3.
Proof.
  intros f.
  assert (read split_file new = Some (true, f)) as H by (vm_compute; reflexivity).
  destruct (links_lead_to_next_structural_line split_file new f true
              (1%nat, 0%nat) (3%nat, 1%nat) H) as [Hm Hf].
  assert ((3%nat, 1%nat) ∈ getNextTokens f (1%nat, 0%nat)) as Hin.
  { change (getNextTokens f (1%nat, 0%nat)) with [(3%nat, 0%nat); (3%nat, 1%nat)].
    apply elem_of_cons. right. apply elem_of_cons. by left. }
  split; [by apply Hm | by apply Hf].
Defined.

(** ** The primary sequence of a track *)

Lemma lines_increase_cons (a : TokenRef) (l : list TokenRef) :
  (∀ r, r ∈ l → (a.1 < r.1)%nat) → lines_increase l → lines_increase (a :: l).
Proof.
  intros Ha Hl i j x y Hij Hi Hj.
  destruct j as [|j]; [lia|]. simpl in Hj.
  destruct i as [|i]; simpl in Hi.
  - injection Hi as <-. apply Ha. by eapply list_elem_of_lookup_2.
  - apply (Hl i j); [lia | done | done].
Qed.

Lemma walk_track_spec (f : HumdrumFileBase.t) (nullQ manipQ : bool) :
  links_ok (lines f) f →
  ∀ fuel current output,
  is_token_of (lines f) current →
  (length (lines f) - current.1 < fuel)%nat →
  ∃ added,
    walk_track fuel f nullQ manipQ false current output = Some (output ++ added) ∧
    (∀ r, r ∈ added →
       follows_first f current r ∧ is_token_of (lines f) r ∧ (current.1 <= r.1)%nat ∧
       ∃ txt, tokenText f r = Some txt ∧ kept_by nullQ manipQ txt = true) ∧
    lines_increase added ∧
    (∀ txt, tokenText f current = Some txt → kept_by nullQ manipQ txt = true →
       head added = Some current).
Proof.
  intros [Hfwd _]. induction fuel as [|fuel IH]; intros current output Htok Hfuel; [lia|].
  destruct Htok as (l & Hl & Hlt).
  destruct (lookup_lt_is_Some_2 (HumdrumLine.tokens l) current.2 Hlt) as [txt Htxt].
  assert (tokenText f current = Some txt) as Htext.
  { unfold tokenText. rewrite Hl. done. }
  simpl. rewrite Htext. cbn [mbind option_bind].
  set (here := if kept_by nullQ manipQ txt then [current] else []).
  assert ((if negb nullQ && HumdrumToken.isNull txt then Some output
           else if negb manipQ && HumdrumToken.isManipulator txt &&
                   negb (HumdrumToken.isTerminator txt) &&
                   negb (HumdrumToken.isExclusive txt) then Some output
           else filled ← (if (0 <? Cpp.size output) && false then
                            last_tok ← Cpp.back output;
                            from ← tokenLineIndex f last_tok;
                            upto ← tokenLineIndex f current;
                            push_globals f (Z.to_nat (upto - from)) from output
                          else Some output);
                Some (filled ++ [current])) = Some (output ++ here)) as ->.
  { unfold here, kept_by. rewrite andb_false_r.
    destruct (negb nullQ && HumdrumToken.isNull txt); simpl; [by rewrite app_nil_r|].
    destruct (negb manipQ && HumdrumToken.isManipulator txt &&
              negb (HumdrumToken.isTerminator txt) &&
              negb (HumdrumToken.isExclusive txt)); simpl; [by rewrite app_nil_r | done]. }
  cbn [mbind option_bind].
  assert (∀ r, r ∈ here →
       follows_first f current r ∧ is_token_of (lines f) r ∧ (current.1 <= r.1)%nat ∧
       ∃ txt, tokenText f r = Some txt ∧ kept_by nullQ manipQ txt = true) as Hhere.
  { intros r. unfold here. destruct (kept_by nullQ manipQ txt) eqn:Hk.
    - intros ->%list_elem_of_singleton. split; [constructor|].
      split; [by exists l|]. split; [lia|]. eauto.
    - by intros ?%elem_of_nil. }
  destruct (getNextTokens f current) as [|nxt rest] eqn:Hnext.
  - simpl. exists here. split; [done|]. split; [done|]. split.
    + unfold here. destruct (kept_by nullQ manipQ txt).
      * intros [|i] [|j] x y Hij Hi Hj; simpl in *; try lia; done.
      * intros i j x y _ Hi. done.
    + intros txt' Ht' Hk. unfold here.
      assert (txt' = txt) as -> by (unfold tokenText in *; congruence). by rewrite Hk.
  - change (0 <? Cpp.size (nxt :: rest)) with true. cbn [lookup list_lookup mbind option_bind].
    simpl.
    assert (nxt ∈ getNextTokens f current) as Hin by (rewrite Hnext; apply elem_of_cons; by left).
    destruct (Hfwd current nxt Hin) as (_ & Hnxt & _ & (Hlt' & _)).
    pose proof Hnxt as (ln & Hln & _). apply lookup_lt_Some in Hln.
    destruct (IH nxt (output ++ here) Hnxt ltac:(lia)) as (added & Hwalk & Hall & Hinc & Hhead).
    exists (here ++ added). rewrite Hwalk, app_assoc. split; [done|].
    split.
    { intros r [Hr | Hr]%elem_of_app; [by apply Hhere|].
      destruct (Hall r Hr) as (Hfol & Htok & Hle & Hkept).
      split; [eapply follows_step; [by rewrite Hnext | done]|].
      split; [done|]. split; [lia | done]. }
    split.
    { unfold here. destruct (kept_by nullQ manipQ txt); [|done].
      apply lines_increase_cons; [|done].
      intros r Hr. destruct (Hall r Hr) as (_ & _ & Hle & _). lia. }
    intros txt' Ht' Hk. unfold here.
    assert (txt' = txt) as -> by (unfold tokenText in *; congruence). by rewrite Hk.
Qed.

Lemma exclusive_is_kept (nullQ manipQ : bool) (txt : string) :
  HumdrumToken.isExclusiveInterpretation txt = true → kept_by nullQ manipQ txt = true.
Proof.
  intros H. unfold kept_by, HumdrumToken.isExclusive. rewrite H.
  apply prefix_two in H as [r ->]. cbn [negb]. by rewrite !andb_false_r.
Qed.

(** X16.  The primary sequence of a track.  After any read, for a track
    whose start token is an exclusive interpretation and for options
    without the bit [OPT_NOGLOBAL], [getPrimaryTrackSeq] returns a
    sequence that begins with the start token; every token of it is a
    field of the file reached from the start token along first forward
    links; the tokens stand on lines further and further down, so no line
    gives two tokens.  The option bits work as the code tests them: null
    tokens appear only when the bit [OPT_NONULLS] is SET, and
    manipulators other than terminators and exclusive interpretations
    only when the bit [OPT_NOMANIP] is set. *)
Theorem primary_track_sequence (contents : list string) (f0 f : HumdrumFileBase.t)
    (b : bool) (track options : Z) (start : TokenRef) (txt : string) :
  read contents f0 = Some (b, f) →
  getTrackStart f track = Some (Some start) →
  tokenText f start = Some txt →
  HumdrumToken.isExclusiveInterpretation txt = true →
  Z.land options OPT_NOGLOBAL = 0 →
  ∃ out, getPrimaryTrackSeq f track options = Some (start :: out) ∧
    lines_increase (start :: out) ∧
    (∀ r, r ∈ start :: out →
       follows_first f start r ∧
       ∃ t, tokenText f r = Some t ∧
         (Z.land options OPT_NONULLS = 0 → HumdrumToken.isNull t = false) ∧
         (Z.land options OPT_NOMANIP = 0 → HumdrumToken.isManipulator t = true →
            HumdrumToken.isTerminator t = true ∨ HumdrumToken.isExclusive t = true)).
Proof.
  intros Hread Hstart Htxt Hex Hglobal.
  pose proof (read_links_ok _ _ _ _ Hread) as Hok.
  assert (is_token_of (lines f) start) as Htok.
  { unfold tokenText in Htxt.
    destruct (lines f !! start.1) as [l|] eqn:Hl; [|done]. simpl in Htxt.
    exists l. split; [done|]. by apply lookup_lt_Some in Htxt. }
  set (nullQ := negb (Z.land options OPT_NONULLS =? 0)).
  set (manipQ := negb (Z.land options OPT_NOMANIP =? 0)).
  destruct (walk_track_spec f nullQ manipQ Hok (S (length (lines f))) start [] Htok
              ltac:(lia)) as (added & Hwalk & Hall & Hinc & Hhead).
  specialize (Hhead txt Htxt (exclusive_is_kept _ _ _ Hex)).
  destruct added as [|s out]; [done|]. injection Hhead as ->.
  exists out. split.
  { unfold getPrimaryTrackSeq. rewrite Hstart. cbn [mbind option_bind].
    fold nullQ manipQ. rewrite Hglobal. change (negb (0 =? 0)) with false. cbv zeta.
    destruct Htok as (l & Hl & _).
    assert (tokenLineIndex f start = Some (HumdrumLine.getLineIndex l)) as ->
      by (unfold tokenLineIndex; by rewrite Hl).
    cbn [mbind option_bind].
    rewrite Hwalk. cbn [mbind option_bind app].
    destruct (Cpp.back (start :: out)) as [lst|] eqn:Hback.
    2: { unfold Cpp.back in Hback. by apply last_None in Hback. }
    cbn [mbind option_bind].
    assert (lst ∈ start :: out) as Hin.
    { unfold Cpp.back in Hback. apply last_Some in Hback as [pre ->].
      apply elem_of_app. right. by apply list_elem_of_singleton. }
    destruct (Hall lst Hin) as (_ & (ll & Hll & _) & _).
    unfold tokenLineIndex. rewrite Hll. done. }
  split; [done|].
  intros r Hr. destruct (Hall r Hr) as (Hfol & _ & _ & t & Ht & Hkept).
  split; [done|]. exists t. split; [done|].
  unfold kept_by in Hkept. apply andb_prop in Hkept as [Hk1 Hk2].
  split.
  - intros Hz. unfold nullQ in Hk1. rewrite Hz in Hk1. simpl in Hk1.
    by destruct (HumdrumToken.isNull t).
  - intros Hz Hm. unfold manipQ in Hk2. rewrite Hz, Hm in Hk2. simpl in Hk2.
    destruct (HumdrumToken.isTerminator t); [by left|].
    destruct (HumdrumToken.isExclusive t); [by right | done].
Qed.

(** X16 on [split_file]: the primary sequence of track 1 with no option
    bit set is the exclusive interpretation, the first token of the data
    line and the terminator. *)
Lemma primary_track_sequence_witness :
  getPrimaryTrackSeq (parsed split_file) 1 0
  = Some [(0%nat, 0%nat); (3%nat, 0%nat); (5%nat, 0%nat)].
Proof.
  assert (read split_file new = Some (true, parsed split_file)) as H
    by (vm_compute; reflexivity).
  destruct (primary_track_sequence split_file new (parsed split_file) true 1 0
              (0%nat, 0%nat) "**kern" H eq_refl eq_refl eq_refl eq_refl)
    as (out & Hseq & _).
  rewrite Hseq. vm_compute in Hseq. by injection Hseq as <-.
Defined.

(** ** The sequence of all tokens of a track *)

Lemma trackseq_fields_spec (f : HumdrumFileBase.t) (pos : nat) (track : Z)
    (nullQ manipQ : bool) (toks : list string) : ∀ (j : nat) (tempout : list TokenRef),
  ∃ added,
    trackseq_fields f pos toks j track nullQ manipQ tempout = tempout ++ added ∧
    (∀ r, r ∈ added ↔
       r.1 = pos ∧ (j <= r.2)%nat ∧ getTrack f r = track ∧
       ∃ txt, toks !! (r.2 - j)%nat = Some txt ∧ kept_by nullQ manipQ txt = true) ∧
    (∀ a b x y, (a < b)%nat → added !! a = Some x → added !! b = Some y →
       (x.2 < y.2)%nat).
Proof.
  induction toks as [|txt toks IH]; intros j tempout.
  - exists []. simpl. rewrite app_nil_r. split; [done|]. split.
    + intros r. split; [by intros ?%elem_of_nil|].
      intros (_ & _ & _ & t & Ht & _). by rewrite lookup_nil in Ht.
    + intros a b x y _ Ha. by rewrite lookup_nil in Ha.
  - simpl.
    set (here := if (getTrack f (pos, j) =? track) && kept_by nullQ manipQ txt
                 then [(pos, j)] else []).
    destruct (IH (S j) (tempout ++ here)) as (added & Heq & Hmem & Hord).
    exists (here ++ added). split.
    { rewrite app_assoc, <- Heq. unfold here, kept_by.
      destruct (getTrack f (pos, j) =? track); simpl.
      - destruct (negb nullQ && HumdrumToken.isNull txt); simpl;
          [by rewrite app_nil_r|].
        destruct (negb manipQ && HumdrumToken.isManipulator txt &&
                  negb (HumdrumToken.isTerminator txt) &&
                  negb (HumdrumToken.isExclusive txt)); simpl;
          [by rewrite app_nil_r | done].
      - by rewrite app_nil_r. }
    assert (∀ r, r ∈ here ↔
              r = (pos, j) ∧ getTrack f (pos, j) = track ∧
              kept_by nullQ manipQ txt = true) as Hhere.
    { intros r. unfold here.
      destruct (Z.eqb_spec (getTrack f (pos, j)) track) as [Ht | Ht]; simpl.
      - destruct (kept_by nullQ manipQ txt).
        + rewrite list_elem_of_singleton. split; [by intros -> | by intros [-> _]].
        + split; [by intros ?%elem_of_nil | by intros (_ & _ & ?)].
      - split; [by intros ?%elem_of_nil | by intros (_ & ? & _)]. }
    split.
    { intros r. rewrite elem_of_app, Hhere, Hmem. split.
      - intros [(-> & Ht & Hk) | (Hp & Hj & Ht & t & Hl & Hk)].
        + simpl. split; [done|]. split; [lia|]. split; [done|].
          exists txt. by rewrite Nat.sub_diag.
        + split; [done|]. split; [lia|]. split; [done|].
          exists t. split; [|done].
          replace (r.2 - j)%nat with (S (r.2 - S j)) by lia. done.
      - intros (Hp & Hj & Ht & t & Hl & Hk).
        destruct (decide (r.2 = j)) as [Hj' | Hj'].
        + left. rewrite Hj', Nat.sub_diag in Hl. injection Hl as <-.
          destruct r as [r1 r2]. simpl in *. subst. done.
        + right. split; [done|]. split; [lia|]. split; [done|].
          exists t. split; [|done].
          replace (r.2 - j)%nat with (S (r.2 - S j)) in Hl by lia. done. }
    intros a b x y Hab Ha Hb.
    assert (∀ z, z ∈ added → (j < z.2)%nat) as Hlater.
    { intros z Hz. apply Hmem in Hz as (_ & Hj & _). lia. }
    unfold here in Ha, Hb.
    destruct ((getTrack f (pos, j) =? track) && kept_by nullQ manipQ txt);
      [|by eapply Hord].
    destruct b as [|b]; [lia|]. simpl in Hb.
    destruct a as [|a]; simpl in Ha.
    + injection Ha as <-. simpl. apply Hlater. by eapply list_elem_of_lookup_2.
    + apply (Hord a b); [lia | done | done].
Qed.

Lemma trackseq_lines_spec (f : HumdrumFileBase.t) (track : Z)
    (nullQ manipQ globalQ : bool) (rounds : nat) :
  ∀ (i : nat) (output : list (list TokenRef)),
  (i + rounds <= length (lines f))%nat → Cpp.size (lines f) < 2 ^ 31 →
  ∃ rows,
    trackseq_lines f rounds (Z.of_nat i) track nullQ manipQ globalQ output
      = Some (output ++ rows) ∧
    (length rows <= rounds)%nat ∧
    (globalQ = false → ∀ row, row ∈ rows → row ≠ []) ∧
    (∀ row r, row ∈ rows → r ∈ row →
       (i <= r.1 < i + rounds)%nat ∧ getTrack f r = track ∧
       ∃ txt, tokenText f r = Some txt ∧ kept_by nullQ manipQ txt = true) ∧
    (∀ r l txt, (i <= r.1 < i + rounds)%nat → lines f !! r.1 = Some l →
       globalQ && negb (HumdrumLine.hasSpines l) = false →
       tokenText f r = Some txt → getTrack f r = track →
       kept_by nullQ manipQ txt = true → ∃ row, row ∈ rows ∧ r ∈ row) ∧
    (∀ row a b x y, row ∈ rows → (a < b)%nat → row !! a = Some x → row !! b = Some y →
       x.1 = y.1 ∧ (x.2 < y.2)%nat) ∧
    (∀ p q rp rq x y, (p < q)%nat → rows !! p = Some rp → rows !! q = Some rq →
       x ∈ rp → y ∈ rq → (x.1 < y.1)%nat) ∧
    (globalQ = true → ∀ i' l, (i <= i' < i + rounds)%nat → lines f !! i' = Some l →
       HumdrumLine.hasSpines l = false →
       ∃ k, rows !! k = Some [] ∧
         ∀ p rp x, rows !! p = Some rp → x ∈ rp → (p < k)%nat ↔ (x.1 < i')%nat) ∧
    (globalQ = true →
       length (filter (λ row, row = []) rows) =
       length (filter (λ l, HumdrumLine.hasSpines l = false)
                      (take rounds (drop i (lines f))))).
Proof.
  induction rounds as [|rounds IH]; intros i output Hlen Hsz.
  - exists []. simpl. rewrite app_nil_r. split; [done|]. split; [done|].
    split; [by intros _ row ?%elem_of_nil|].
    split; [by intros row r ?%elem_of_nil|].
    split; [intros r l txt Hr; lia|].
    split; [by intros row a b x y ?%elem_of_nil|].
    split; [intros p q rp rq x y _ Hp; by rewrite lookup_nil in Hp|].
    split; [intros _ i' l Hi'; lia | done].
  - simpl. rewrite operator_index_in_range by (done || lia).
    cbn [mbind option_bind].
    destruct (lookup_lt_is_Some_2 (lines f) i ltac:(lia)) as [l Hl].
    rewrite Hl. cbn [mbind option_bind].
    replace (Z.of_nat i + 1) with (Z.of_nat (S i)) by lia.
    destruct (trackseq_fields_spec f i track nullQ manipQ (HumdrumLine.tokens l) 0 [])
      as (row0 & Hrow0 & Hmem0 & Hord0).
    simpl in Hrow0. rewrite Hrow0.
    set (here := if globalQ && negb (HumdrumLine.hasSpines l) then [[]]
                 else if 0 <? Cpp.size row0 then [row0] else []).
    assert ((if globalQ && negb (HumdrumLine.hasSpines l)
             then trackseq_lines f rounds (Z.of_nat (S i)) track nullQ manipQ globalQ
                    (output ++ [[]])
             else trackseq_lines f rounds (Z.of_nat (S i)) track nullQ manipQ globalQ
                    (if 0 <? Cpp.size row0 then output ++ [row0] else output))
            = trackseq_lines f rounds (Z.of_nat (S i)) track nullQ manipQ globalQ
                (output ++ here)) as ->.
    { unfold here. destruct (globalQ && negb (HumdrumLine.hasSpines l)); [done|].
      destruct (0 <? Cpp.size row0); [done | by rewrite app_nil_r]. }
    destruct (IH (S i) (output ++ here) ltac:(lia) Hsz)
      as (rows & Heq & Hcount & Hne & Hmem & Hall & Hrow & Hrows & Hempty & Hnum).
    exists (here ++ rows). rewrite Heq, app_assoc. split; [done|].
    assert (length here <= 1)%nat as Hhere1.
    { unfold here. destruct (globalQ && negb (HumdrumLine.hasSpines l)); [simpl; lia|].
      destruct (0 <? Cpp.size row0); simpl; lia. }
    assert (∀ row, row ∈ here → row = [] ∨ (row = row0 ∧ row0 ≠ [] ∧
              globalQ && negb (HumdrumLine.hasSpines l) = false)) as Hhere.
    { intros row. unfold here.
      destruct (globalQ && negb (HumdrumLine.hasSpines l)) eqn:Hg.
      - intros ->%list_elem_of_singleton. by left.
      - destruct row0 as [|x row0]; simpl.
        + by intros ?%elem_of_nil.
        + intros ->%list_elem_of_singleton. right. by split. }
    assert (∀ row r, row ∈ here → r ∈ row →
              r.1 = i ∧ getTrack f r = track ∧
              ∃ txt, tokenText f r = Some txt ∧ kept_by nullQ manipQ txt = true) as Hhere_mem.
    { intros row r Hrow' Hr. destruct (Hhere row Hrow') as [-> | (-> & _)].
      - by apply elem_of_nil in Hr.
      - apply Hmem0 in Hr as (Hp & _ & Ht & txt & Htxt & Hk).
        split; [done|]. split; [done|]. exists txt. split; [|done].
        unfold tokenText. rewrite Hp, Hl. simpl.
        by rewrite Nat.sub_0_r in Htxt. }
    split; [rewrite length_app; lia|].
    split.
    { intros Hg row [Hr | Hr]%elem_of_app; [|by apply Hne].
      destruct (Hhere row Hr) as [-> | (-> & Hn & _)]; [|done].
      unfold here in Hr. rewrite Hg in Hr. simpl in Hr.
      destruct (0 <? Cpp.size row0) eqn:E.
      - apply list_elem_of_singleton in Hr. rewrite <- Hr in E. cbv in E. done.
      - by apply elem_of_nil in Hr. }
    split.
    { intros row r [Hrow' | Hrow']%elem_of_app Hr.
      - destruct (Hhere_mem row r Hrow' Hr) as (Hp & Ht & Hk).
        split; [lia | done].
      - destruct (Hmem row r Hrow' Hr) as (Hp & Ht & Hk). split; [lia | done]. }
    split.
    { intros r lr txt Hr Hlr Hg Htxt Ht Hk.
      destruct (decide (r.1 = i)) as [Hi | Hi].
      - exists row0. rewrite Hi, Hl in Hlr. injection Hlr as <-.
        assert (r ∈ row0) as Hin.
        { apply Hmem0. split; [done|]. split; [lia|]. split; [done|].
          exists txt. split; [|done]. rewrite Nat.sub_0_r.
          unfold tokenText in Htxt. rewrite Hi, Hl in Htxt. done. }
        split; [|done]. apply elem_of_app. left. unfold here. rewrite Hg.
        destruct row0; [by apply elem_of_nil in Hin|]. simpl.
        by apply list_elem_of_singleton.
      - destruct (Hall r lr txt ltac:(lia) Hlr Hg Htxt Ht Hk) as (row & Hrow' & Hin).
        exists row. split; [|done]. apply elem_of_app. by right. }
    split.
    { intros row a b x y [Hrow' | Hrow']%elem_of_app Hab Ha Hb; [|by eapply Hrow].
      destruct (Hhere row Hrow') as [-> | (-> & _)]; [by rewrite lookup_nil in Ha|].
      split; [|by eapply Hord0].
      apply list_elem_of_lookup_2 in Ha, Hb.
      apply Hmem0 in Ha as (-> & _). apply Hmem0 in Hb as (-> & _). done. }
    split.
    { intros p q rp rq x y Hpq Hp Hq Hx Hy.
      destruct (decide (p < length here)%nat) as [Hph | Hph].
      + rewrite lookup_app_l in Hp by done.
        apply list_elem_of_lookup_2 in Hp.
        destruct (Hhere_mem rp x Hp Hx) as (Hx1 & _).
        rewrite lookup_app_r in Hq by lia.
        apply list_elem_of_lookup_2 in Hq.
        destruct (Hmem rq y Hq Hy) as (Hy1 & _). lia.
      + rewrite lookup_app_r in Hp, Hq by lia.
        apply (Hrows (p - length here)%nat (q - length here)%nat rp rq); try done. lia. }
    split.
    { intros Hg i' l' Hi' Hl' Hs'.
      destruct (decide (i' = i)) as [-> | Hne'].
      - assert (l' = l) as -> by congruence.
        exists 0%nat. unfold here. rewrite Hg, Hs'. simpl. split; [done|].
        intros p rp x Hp Hx. split; [lia|]. intros Hlt. exfalso.
        destruct p as [|p]; simpl in Hp.
        + injection Hp as <-. by apply elem_of_nil in Hx.
        + apply list_elem_of_lookup_2 in Hp.
          destruct (Hmem rp x Hp Hx) as (Hx1 & _). lia.
      - destruct (Hempty Hg i' l' ltac:(lia) Hl' Hs') as (k & Hk & Hpos).
        exists (length here + k)%nat. split.
        { rewrite lookup_app_r by lia.
          by replace (length here + k - length here)%nat with k by lia. }
        intros p rp x Hp Hx.
        destruct (decide (p < length here)%nat) as [Hph | Hph].
        + rewrite lookup_app_l in Hp by done.
          apply list_elem_of_lookup_2 in Hp.
          destruct (Hhere_mem rp x Hp Hx) as (Hx1 & _). lia.
        + rewrite lookup_app_r in Hp by lia.
          specialize (Hpos (p - length here)%nat rp x Hp Hx). lia. }
    intros Hg. specialize (Hnum Hg).
    rewrite filter_app, length_app, Hnum.
    rewrite (drop_S _ _ _ Hl), firstn_cons.
    rewrite (filter_cons (λ l0 : HLine, HumdrumLine.hasSpines l0 = false)).
    unfold here. rewrite Hg. cbn [andb].
    destruct (HumdrumLine.hasSpines l) eqn:Hs; cbn [negb].
    + rewrite decide_False by done.
      destruct (0 <? Cpp.size row0) eqn:E; [|done].
      rewrite (filter_cons (λ row : list TokenRef, row = [])).
      rewrite decide_False; [done|]. intros ->. cbv in E. done.
    + rewrite decide_True by done.
      rewrite (filter_cons (λ row : list TokenRef, row = [])).
      rewrite decide_True by done. done.
Qed.

(** X17.  [getTrackSeq] returns, line by line from the top, the tokens
    whose track is the requested one: every token of a row has this
    track; a row holds tokens of one line in field order and later rows
    come from later lines; and every token of the track is in some row,
    unless a test on the option bits drops it.  The bits work as the code
    tests them: null tokens pass only when [OPT_NONULLS] is SET,
    manipulators other than terminators and exclusive interpretations
    only when [OPT_NOMANIP] is set.  With [OPT_NOGLOBAL] set every line
    without spines gives an empty row, which stands between the rows of
    the lines above it and those of the lines below it, and there are as
    many empty rows as lines without spines; without the bit no row is
    empty.  (Fewer than [2^31] lines.) *)
Theorem track_sequence_rows (f : HumdrumFileBase.t) (track options : Z) :
  Cpp.size (lines f) < 2 ^ 31 →
  let nullQ := negb (Z.land options OPT_NONULLS =? 0) in
  let manipQ := negb (Z.land options OPT_NOMANIP =? 0) in
  ∃ rows, getTrackSeq f track options = Some rows ∧
    (length rows <= length (lines f))%nat ∧
    (Z.land options OPT_NOGLOBAL = 0 → ∀ row, row ∈ rows → row ≠ []) ∧
    (∀ row r, row ∈ rows → r ∈ row →
       getTrack f r = track ∧
       ∃ txt, tokenText f r = Some txt ∧ kept_by nullQ manipQ txt = true) ∧
    (∀ r l txt, lines f !! r.1 = Some l →
       (Z.land options OPT_NOGLOBAL = 0 ∨ HumdrumLine.hasSpines l = true) →
       tokenText f r = Some txt → getTrack f r = track →
       kept_by nullQ manipQ txt = true → ∃ row, row ∈ rows ∧ r ∈ row) ∧
    (∀ row a b x y, row ∈ rows → (a < b)%nat → row !! a = Some x → row !! b = Some y →
       x.1 = y.1 ∧ (x.2 < y.2)%nat) ∧
    (∀ p q rp rq x y, (p < q)%nat → rows !! p = Some rp → rows !! q = Some rq →
       x ∈ rp → y ∈ rq → (x.1 < y.1)%nat) ∧
    (Z.land options OPT_NOGLOBAL ≠ 0 →
       (∀ i l, lines f !! i = Some l → HumdrumLine.hasSpines l = false →
          ∃ k, rows !! k = Some [] ∧
            ∀ p rp x, rows !! p = Some rp → x ∈ rp → (p < k)%nat ↔ (x.1 < i)%nat) ∧
       length (filter (λ row, row = []) rows) =
       length (filter (λ l, HumdrumLine.hasSpines l = false) (lines f))).
Proof.
  intros Hsz nullQ manipQ. unfold getTrackSeq, getLineCount. cbv zeta.
  fold nullQ manipQ.
  rewrite to_int_id by (unfold int_range, Cpp.size in *; lia).
  unfold Cpp.size at 1. rewrite Nat2Z.id. change 0 with (Z.of_nat 0) at 1.
  destruct (trackseq_lines_spec f track nullQ manipQ
              (negb (Z.land options OPT_NOGLOBAL =? 0)) (length (lines f)) 0 []
              ltac:(lia) Hsz)
    as (rows & Heq & Hcount & Hne & Hmem & Hall & Hrow & Hrows & Hempty & Hnum).
  exists rows. split; [done|]. split; [done|].
  split.
  { intros Hz. apply Hne. by rewrite Hz. }
  split.
  { intros row r Hr Hin. destruct (Hmem row r Hr Hin) as (_ & Ht & Hk). done. }
  split.
  { intros r l txt Hl Hg Htxt Ht Hk.
    apply (Hall r l txt); try done.
    - apply lookup_lt_Some in Hl. lia.
    - destruct Hg as [-> | ->]; [done | by rewrite andb_false_r]. }
  split; [done|]. split; [done|].
  intros Hg.
  assert (negb (Z.land options OPT_NOGLOBAL =? 0) = true) as Hq.
  { apply negb_true_iff. by apply Z.eqb_neq. }
  split.
  - intros i l Hl Hs. apply (Hempty Hq i l); [|done|done].
    apply lookup_lt_Some in Hl. lia.
  - rewrite (Hnum Hq). by rewrite drop_0, firstn_all.
Qed.

(** X17 on [split_file]: with no option bit set the rows of track 1 are
    the exclusive interpretation, the two data tokens and the terminator;
    the split and merge tokens are dropped. *)
Lemma track_sequence_rows_witness :
  getTrackSeq (parsed split_file) 1 0
  = Some [[(0%nat, 0%nat)]; [(3%nat, 0%nat); (3%nat, 1%nat)]; [(5%nat, 0%nat)]].
Proof.
  assert (Cpp.size (lines (parsed split_file)) < 2 ^ 31) as Hsz
    by (vm_compute; reflexivity).
  destruct (track_sequence_rows (parsed split_file) 1 0 Hsz) as (rows & Heq & _).
  rewrite Heq. vm_compute in Heq. by injection Heq as <-.
Defined.

(** ** Links between two lines, in general *)

(** As [analyzeLinks_between], for a stitcher whose status is not
    known. *)
Lemma analyzeLinks_between_any li mid lj post i j next f f'
    (G : HumdrumFileBase.t → HumdrumFileBase.t) :
  analyzeLinks_loop (li :: mid ++ lj :: post) i next f = Some (true, f') →
  j = (S i + length mid)%nat →
  HumdrumLine.hasSpines li = true →
  Forall (λ l, HumdrumLine.hasSpines l = false) mid →
  HumdrumLine.hasSpines lj = true →
  (∀ p, next = Some p → (p < i)%nat) →
  (∀ k : TokenRef, (i <= k.1)%nat →
     nextTokens f !! k = None ∧ previousTokens f !! k = None) →
  (∀ g, lines g = lines f → ∃ b, stitchLinesTogether i j g = Some (b, G g)) →
  ∃ g,
    (∀ c, getNextTokens g (i, c) = []) ∧ (∀ c, getPreviousTokens g (j, c) = []) ∧
    (∀ c, getNextTokens f' (i, c) = getNextTokens (G g) (i, c)) ∧
    (∀ c, getPreviousTokens f' (j, c) = getPreviousTokens (G g) (j, c)).
Proof.
  intros H -> Hs Hmid Hsj Hnext Hfresh Hstitch. simpl in H.
  set (j := (S i + length mid)%nat) in *.
  destruct (analyzeLinks_line i li next f) as [r|] eqn:E; [|done].
  cbn [mbind option_bind] in H.
  apply analyzeLinks_line_within in E as ((Hl1 & _) & Hn1 & Hp1 & Hr).
  destruct r as [st f1 | next1 f1]; simpl in H, Hl1, Hn1, Hp1, Hr.
  { destruct Hr as [-> _]. discriminate. }
  rewrite Hs in Hr. subst next1.
  apply analyzeLinks_loop_skip in H; [|done]. fold j in H. simpl in H.
  unfold analyzeLinks_line in H at 1. rewrite Hsj in H. simpl in H.
  destruct (Hstitch f1 Hl1) as [b Hst]. rewrite Hst in H.
  apply stitchLinesTogether_within in Hst as [_ Hinv].
  cbn [mbind option_bind] in H.
  destruct b; simpl in H.
  2: { injection H as Hv _. rewrite Hinv in Hv; done. }
  apply analyzeLinks_loop_within in H as (_ & Hn2 & Hp2).
  exists f1. unfold getNextTokens, getPreviousTokens.
  split; [|split; [|split]]; intros c.
  - rewrite Hn1.
    + by destruct (Hfresh (i, c)) as [-> _]; [simpl; lia|].
    + simpl. intros ->. specialize (Hnext i eq_refl). lia.
  - rewrite Hp1 by (simpl; lia).
    by destruct (Hfresh (j, c)) as [_ ->]; [simpl; lia|].
  - rewrite Hn2; [done | simpl; lia | simpl; intros [= ?]; lia].
  - rewrite Hp2; [done | simpl; lia].
Qed.

Lemma read_links_between_any contents f0 f i j li lj
    (G : HumdrumFileBase.t → HumdrumFileBase.t) :
  read contents f0 = Some (true, f) →
  lines f !! i = Some li → HumdrumLine.hasSpines li = true →
  next_structural (lines f) i j → lines f !! j = Some lj →
  (∀ g, lines g = lines f → ∃ b, stitchLinesTogether i j g = Some (b, G g)) →
  ∃ g,
    (∀ c, getNextTokens g (i, c) = []) ∧ (∀ c, getPreviousTokens g (j, c) = []) ∧
    (∀ c, getNextTokens f (i, c) = getNextTokens (G g) (i, c)) ∧
    (∀ c, getPreviousTokens f (j, c) = getPreviousTokens (G g) (j, c)).
Proof.
  intros Hread Hi Hs (Hij & (lj' & Hj' & Hsj) & Hmid) Hj Hstitch.
  assert (lj' = lj) as -> by congruence.
  pose proof (read_valid_lines _ _ _ Hread) as Hlines.
  apply read_valid in Hread as (f3 & f4 & H3 & H4 & ->).
  destruct (analyzeTracks_loop_frame (lines f4) 0 f4) as (_ & _ & Hn5 & Hp5 & _).
  fold (analyzeTracks f4) in Hn5, Hp5.
  apply analyzeSpines_inv in H3 as (g0 & Hloop & (Hlg & Hng & Hpg) & _).
  apply analyzeSpines_loop_frame in Hloop as [(Hl3 & Hn3 & Hp3) _].
  rewrite Hlines in Hi, Hj, Hmid, Hstitch.
  destruct (lookup_split_two _ _ _ _ _ Hi Hj Hij) as (pre & mid & post & Hls & Hpre & Hjm).
  assert (Forall (λ l, HumdrumLine.hasSpines l = false) mid) as Hglobal.
  { apply Forall_lookup. intros k lk Hk.
    apply (Hmid (S i + k)%nat); [apply lookup_lt_Some in Hk; lia|].
    rewrite Hls. rewrite lookup_app_r by lia.
    replace (S i + k - length pre)%nat with (S k) by lia. simpl.
    by rewrite lookup_app_l by (by apply lookup_lt_Some in Hk). }
  unfold analyzeLinks in H4. rewrite Hl3, Hlg, Hls in H4.
  apply analyzeLinks_loop_app in H4 as (next' & h1 & Hlinks & Hnext' & (Hlh & _) & Hfresh);
    [|done].
  rewrite Nat.add_0_l, Hpre in Hlinks, Hnext', Hfresh.
  destruct (analyzeLinks_between_any _ _ _ _ _ j _ _ _ G Hlinks)
    as (g & Hg1 & Hg2 & Hg3 & Hg4); try done.
  { intros k Hk. destruct (Hfresh k Hk) as [-> ->].
    rewrite Hn3, Hp3, Hng, Hpg.
    destruct (tokenized_fresh contents f0) as (_ & -> & ->). done. }
  { intros g Hg. apply Hstitch. by rewrite Hg, Hlh, Hl3, Hlg. }
  exists g. unfold getNextTokens, getPreviousTokens in *.
  rewrite Hn5, Hp5. done.
Qed.

(** The spine analysis up to two given lines of a valid read. *)
Lemma read_spines_between contents f0 f i j li lj :
  read contents f0 = Some (true, f) →
  lines f !! i = Some li → next_structural (lines f) i j → lines f !! j = Some lj →
  ∃ mid post init datatype sinfo g f3,
    analyzeSpines_loop (li :: mid ++ lj :: post) i init datatype sinfo g = Some (true, f3) ∧
    Forall (λ l, HumdrumLine.hasSpines l = false) mid ∧
    j = (S i + length mid)%nat ∧ HumdrumLine.hasSpines lj = true ∧
    (∀ r, getSpineInfo f r = default "" (spineinfo f3 !! r)).
Proof.
  intros Hread Hi (Hij & (lj' & Hj' & Hsj) & Hmid) Hj.
  assert (lj' = lj) as -> by congruence.
  pose proof (read_valid_lines _ _ _ Hread) as Hlines.
  apply read_valid in Hread as (f3 & f4 & H3 & H4 & ->).
  destruct (analyzeTracks_loop_frame (lines f4) 0 f4) as (_ & Hsi5 & _).
  fold (analyzeTracks f4) in Hsi5.
  apply analyzeLinks_loop_within in H4 as ((_ & Hsi4 & _) & _).
  apply analyzeSpines_inv in H3 as (g & Hloop & (Hlg & _) & _).
  rewrite Hlines in Hi, Hj, Hmid.
  destruct (lookup_split_two _ _ _ _ _ Hi Hj Hij) as (pre & mid & post & Hls & Hpre & Hjm).
  assert (Forall (λ l, HumdrumLine.hasSpines l = false) mid) as Hglobal.
  { apply Forall_lookup. intros k lk Hk.
    apply (Hmid (S i + k)%nat); [apply lookup_lt_Some in Hk; lia|].
    rewrite Hls. rewrite lookup_app_r by lia.
    replace (S i + k - length pre)%nat with (S k) by lia. simpl.
    by rewrite lookup_app_l by (by apply lookup_lt_Some in Hk). }
  rewrite Hls in Hloop.
  apply analyzeSpines_loop_app in Hloop as (init' & dt' & si' & g1 & Hloop & _).
  rewrite Nat.add_0_l, Hpre in Hloop.
  exists mid, post, init', dt', si', g1, f3.
  split; [done|]. split; [done|]. split; [lia|]. split; [done|].
  intros r. unfold getSpineInfo. by rewrite Hsi5, Hsi4.
Qed.

(** ** Lines without manipulators *)

Lemma link_columns_straight p n next rest : ∀ i f,
  (i + length rest <= HumdrumLine.getTokenCount next)%nat →
  link_columns p n next rest i f = Some (link_straight p n (length rest) i f).
Proof.
  induction rest as [|tok rest IH]; intros i f Hlen; [done|].
  cbn [length] in Hlen. simpl.
  destruct (lookup_lt_is_Some_2 (HumdrumLine.tokens next) i) as [t Ht].
  { unfold HumdrumLine.getTokenCount in Hlen. lia. }
  unfold HumdrumLine.token. rewrite Ht. cbn [mbind option_bind].
  apply IH. lia.
Qed.

Lemma stitch_loop_straight p n previous next rest : ∀ i f,
  Forall (λ t, HumdrumToken.isManipulator t = false) rest →
  (i + length rest <= HumdrumLine.getTokenCount next)%nat →
  stitch_loop p n previous next rest i 0 i f =
  Some (StitchDone (i + length rest) (i + length rest)
          (link_straight p n (length rest) i f)).
Proof.
  induction rest as [|tok rest IH]; intros i f Hall Hlen.
  - simpl. by rewrite Nat.add_0_r.
  - apply Forall_cons in Hall as [Hm Hall]. cbn [length] in Hlen.
    simpl. rewrite Hm. cbn [negb].
    destruct (lookup_lt_is_Some_2 (HumdrumLine.tokens next) i) as [t Ht].
    { unfold HumdrumLine.getTokenCount in Hlen. lia. }
    unfold HumdrumLine.token. rewrite Ht. cbn [mbind option_bind].
    rewrite IH by (done || lia).
    replace (S i + length rest)%nat with (i + S (length rest))%nat by lia.
    reflexivity.
Qed.

Lemma plain_tokens (l : HLine) :
  HumdrumLine.isManipulator l = false →
  Forall (λ t, HumdrumToken.isManipulator t = false) (HumdrumLine.tokens l).
Proof.
  unfold HumdrumLine.isManipulator. intros H. apply Forall_forall. intros t Ht.
  destruct (HumdrumToken.isManipulator t) eqn:E; [|done].
  assert (existsb HumdrumToken.isManipulator (HumdrumLine.tokens l) = true); [|congruence].
  apply existsb_exists. exists t. split; [|done]. by apply list_elem_of_In.
Qed.

Lemma stitch_plain g p n previous next :
  lines g !! p = Some previous → lines g !! n = Some next →
  HumdrumLine.isManipulator previous = false →
  HumdrumLine.getTokenCount previous = HumdrumLine.getTokenCount next →
  ∃ b, stitchLinesTogether p n g =
    Some (b, link_straight p n (HumdrumLine.getTokenCount previous) 0 g).
Proof.
  intros Hp Hn Hm Hc.
  assert (length (HumdrumLine.tokens previous) = length (HumdrumLine.tokens next))
    as Hc' by exact Hc.
  unfold stitchLinesTogether. rewrite Hp, Hn.
  cbn [mbind option_bind].
  destruct (negb (HumdrumLine.isInterpretation previous) &&
            negb (HumdrumLine.isInterpretation next)).
  - rewrite Hc, Nat.eqb_refl. cbn [negb].
    rewrite link_columns_straight by (unfold HumdrumLine.getTokenCount; lia).
    cbn [mbind option_bind]. rewrite <- Hc. by eexists.
  - rewrite stitch_loop_straight;
      [| by apply plain_tokens | unfold HumdrumLine.getTokenCount; lia ].
    cbn [mbind option_bind]. simpl.
    fold (HumdrumLine.getTokenCount previous).
    rewrite Nat.eqb_refl, Hc, Nat.eqb_refl. cbn [negb orb].
    rewrite <- Hc. by eexists.
Qed.

Lemma link_straight_next p n k : ∀ i g c,
  getNextTokens (link_straight p n k i g) (p, c) =
  if decide (i <= c < i + k)%nat then getNextTokens g (p, c) ++ [(n, c)]
  else getNextTokens g (p, c).
Proof.
  induction k as [|k IH]; intros i g c; simpl.
  - rewrite decide_False by lia. done.
  - rewrite IH, makeForwardLink_next.
    destruct (decide (c = i)) as [->|Hne].
    + rewrite decide_False by lia. rewrite decide_True by done.
      rewrite decide_True by lia. done.
    + rewrite (decide_False (P := (p, i) = (p, c))) by congruence.
      destruct (decide (S i <= c < S i + k)%nat).
      * rewrite decide_True by lia. done.
      * rewrite decide_False by lia. done.
Qed.

Lemma link_straight_previous p n k : ∀ i g c,
  getPreviousTokens (link_straight p n k i g) (n, c) =
  if decide (i <= c < i + k)%nat then getPreviousTokens g (n, c) ++ [(p, c)]
  else getPreviousTokens g (n, c).
Proof.
  induction k as [|k IH]; intros i g c; simpl.
  - rewrite decide_False by lia. done.
  - rewrite IH, makeForwardLink_previous.
    destruct (decide (c = i)) as [->|Hne].
    + rewrite decide_False by lia. rewrite decide_True by done.
      rewrite decide_True by lia. done.
    + rewrite (decide_False (P := (n, i) = (n, c))) by congruence.
      destruct (decide (S i <= c < S i + k)%nat).
      * rewrite decide_True by lia. done.
      * rewrite decide_False by lia. done.
Qed.

(** The labels on and after a line without manipulator tokens. *)
Lemma spines_after_plain li mid lj post i init datatype sinfo f f' :
  analyzeSpines_loop (li :: mid ++ lj :: post) i init datatype sinfo f = Some (true, f') →
  HumdrumLine.hasSpines li = true → HumdrumLine.isManipulator li = false →
  Forall (λ l, HumdrumLine.hasSpines l = false) mid →
  HumdrumLine.hasSpines lj = true →
  let j := (S i + length mid)%nat in
  HumdrumLine.getTokenCount lj = HumdrumLine.getTokenCount li ∧
  ∀ c, (c < HumdrumLine.getTokenCount li)%nat →
    spineinfo f' !! (j, c) = spineinfo f' !! (i, c).
Proof.
  intros H Hs Hm Hmid Hsj j. simpl in H.
  destruct (analyzeSpines_line i li init datatype sinfo f) as [r|] eqn:E; [|done].
  cbn [mbind option_bind] in H.
  destruct r as [st f1 | init1 dt1 si1 f1].
  { apply analyzeSpines_line_return in E as [-> _]. discriminate. }
  destruct (analyzeSpines_line_plain _ _ _ _ _ _ _ _ _ _ E Hs Hm)
    as (-> & -> & -> & -> & Hlen).
  destruct (analyzeSpines_line_labels _ _ _ _ _ _ _ _ _ E Hs) as [_ Hlab].
  apply analyzeSpines_loop_skip in H; [|done]. fold j in H. simpl in H.
  destruct (analyzeSpines_line j lj true datatype sinfo f1) as [r|] eqn:E2; [|done].
  cbn [mbind option_bind] in H.
  destruct r as [st f2 | init2 dt2 si2 f2].
  { apply analyzeSpines_line_return in E2 as [-> _]. discriminate. }
  destruct (analyzeSpines_line_labels _ _ _ _ _ _ _ _ _ E2 Hsj) as [Hlen2 Hlab2].
  split; [lia|]. intros c Hc.
  apply analyzeSpines_line_frame in E2 as [_ Hfr]. simpl in Hfr.
  apply analyzeSpines_loop_frame in H as [_ Hfr'].
  rewrite !Hfr' by (simpl; lia).
  destruct (Hlab2 c) as [-> _]; [lia|].
  rewrite Hfr by (simpl; lia).
  by destruct (Hlab c) as [-> _].
Qed.

(** X18.  A line without manipulator tokens passes every spine straight
    down.  In a valid read, when line [i] has spines and none of its
    tokens is a manipulator and [j] is the next line with spines, line
    [j] has as many tokens as line [i], and for every field [c] the only
    forward link of token [c] of line [i] leads to token [c] of line [j],
    which links back to it alone and carries the same spine info. *)
Theorem plain_line_links_straight (contents : list string) (f0 f : HumdrumFileBase.t)
    (i j : nat) (li lj : HLine) :
  read contents f0 = Some (true, f) →
  lines f !! i = Some li → HumdrumLine.hasSpines li = true →
  HumdrumLine.isManipulator li = false →
  next_structural (lines f) i j → lines f !! j = Some lj →
  HumdrumLine.getTokenCount lj = HumdrumLine.getTokenCount li ∧
  ∀ c, (c < HumdrumLine.getTokenCount li)%nat →
    getNextTokens f (i, c) = [(j, c)] ∧ getPreviousTokens f (j, c) = [(i, c)] ∧
    getSpineInfo f (j, c) = getSpineInfo f (i, c).
Proof.
  intros Hread Hi Hs Hm Hnext Hj.
  destruct (read_spines_between _ _ _ _ _ _ _ Hread Hi Hnext Hj)
    as (mid & post & init & dt & si & g & f3 & Hloop & Hmid & Hjm & Hsj & Hinfo).
  destruct (spines_after_plain _ _ _ _ _ _ _ _ _ _ Hloop Hs Hm Hmid Hsj) as [Hcount Hlab].
  rewrite <- Hjm in Hlab.
  split; [done|]. intros c Hc.
  destruct (read_links_between_any contents f0 f i j li lj
              (link_straight i j (HumdrumLine.getTokenCount li) 0))
    as (g' & Hg1 & Hg2 & Hg3 & Hg4); try done.
  { intros g' Hg'. apply (stitch_plain g' i j li lj); try done; by rewrite Hg'. }
  rewrite Hg3, Hg4, link_straight_next, link_straight_previous, Hg1, Hg2.
  rewrite !decide_True by lia.
  split; [done|]. split; [done|].
  rewrite !Hinfo. by rewrite Hlab.
Qed.

(** X18 on [kern_file], from the first data line to the second. *)
Lemma plain_line_links_straight_witness :
  let f := parsed kern_file in
  getNextTokens f (1%nat, 0%nat) = [(2%nat, 0%nat)] ∧
  getPreviousTokens f (2%nat, 0%nat) = [(1%nat, 0%nat)] ∧
  getSpineInfo f (2%nat, 0%nat) = getSpineInfo f (1%nat, 0%nat).
Proof.
  intros f.
  assert (read kern_file new = Some (true, f)) as Hread by (vm_compute; reflexivity).
  assert (next_structural (lines f) 1 2) as Hnext.
  { split; [lia|]. split.
    - exists (HumdrumLine.mk "4d" ["4d"] 2). by split.
    - intros k lk Hk. lia. }
  destruct (plain_line_links_straight kern_file new f 1 2
              (HumdrumLine.mk "4c" ["4c"] 1) (HumdrumLine.mk "4d" ["4d"] 2)
              Hread eq_refl eq_refl eq_refl Hnext eq_refl) as [_ H].
  apply (H 0%nat). vm_compute. lia.
Defined.

(** ** Merge *)

Lemma merge_facts (t : string) :
  HumdrumToken.isMergeInterpretation t = true →
  HumdrumToken.isManipulator t = true ∧
  HumdrumToken.isSplitInterpretation t = false ∧
  HumdrumToken.isExclusiveInterpretation t = false ∧
  String.prefix "*" t = true ∧ String.prefix "!!" t = false ∧
  String.eqb t "" = false.
Proof.
  intros H. destruct (prefix_two _ _ _ H) as [r ->].
  destruct r; repeat split; reflexivity.
Qed.

Lemma merge_line_facts (l : HLine) (a b : string) :
  HumdrumLine.tokens l = [a; b] → HumdrumToken.isMergeInterpretation a = true →
  HumdrumLine.hasSpines l = true ∧ HumdrumLine.isExclusive l = false ∧
  HumdrumLine.isInterpretation l = true ∧ HumdrumLine.isManipulator l = true ∧
  HumdrumLine.getTokenCount l = 2%nat.
Proof.
  intros Ht Hs. destruct (merge_facts a Hs) as (Hm & _ & He & Hi & Hg & Hn).
  unfold HumdrumLine.hasSpines, HumdrumLine.isExclusive, HumdrumLine.isInterpretation,
    HumdrumLine.isManipulator, HumdrumLine.getTokenCount, HumdrumLine.first_token.
  rewrite Ht. simpl. rewrite Hn, Hg, Hi, Hm.
  unfold HumdrumToken.isExclusiveInterpretation in He. rewrite He. done.
Qed.

(** The merged label depends on the labels of the two merging columns
    only. *)
Lemma getMergedSpineInfo_two (info : list string) (s0 s1 : string) :
  info !! 0%nat = Some s0 → info !! 1%nat = Some s1 →
  getMergedSpineInfo info 0 1 = getMergedSpineInfo [s0; s1] 0 1.
Proof.
  intros H0 H1. unfold getMergedSpineInfo.
  change (1 =? 1)%nat with true. cbn iota.
  rewrite H0. change (0 + 1)%nat with 1%nat. rewrite H1. reflexivity.
Qed.

(** [adjustSpines] on a line of two merge tokens. *)
Lemma adjustSpines_merge li line a b d0 d1 sinfo m f :
  HumdrumLine.tokens line = [a; b] →
  HumdrumToken.isMergeInterpretation a = true →
  HumdrumToken.isMergeInterpretation b = true →
  getMergedSpineInfo sinfo 0 1 = Some m →
  adjustSpines li line [d0; d1] sinfo f = Some (true, ([d0], [m]), f).
Proof.
  intros Ht Ha Hb Hm. destruct (merge_facts a Ha) as (_ & Hs & _).
  unfold adjustSpines. rewrite Ht. simpl. rewrite Hs, Ha, Hb. simpl.
  rewrite Hm. simpl.
  pose proof (resize_length sinfo 1) as Hr.
  destruct (Cpp.resize sinfo 1) as [|? [|? ?]]; simpl in Hr; try lia.
  reflexivity.
Qed.

(** The body of the spine loop on a line of two merge tokens. *)
Lemma analyzeSpines_line_merge i l a b init datatype sinfo f init' datatype' sinfo' f' :
  analyzeSpines_line i l init datatype sinfo f
    = Some (SpinesContinue init' datatype' sinfo' f') →
  HumdrumLine.tokens l = [a; b] →
  HumdrumToken.isMergeInterpretation a = true →
  HumdrumToken.isMergeInterpretation b = true →
  init' = true ∧
  ∃ d m s0 s1, datatype' = [d] ∧ sinfo' = [m] ∧
    spineinfo f' !! (i, 0%nat) = Some s0 ∧ spineinfo f' !! (i, 1%nat) = Some s1 ∧
    getMergedSpineInfo [s0; s1] 0 1 = Some m.
Proof.
  intros H Ht Ha Hb.
  destruct (merge_line_facts l a b Ht Ha) as (Hs & He & _ & Hm & Hc).
  assert (init = true) as ->.
  { destruct init; [done|]. unfold analyzeSpines_line in H.
    rewrite Hs, He in H. simpl in H. bind_inv. }
  destruct (analyzeSpines_line_labels _ _ _ _ _ _ _ _ _ H Hs) as [Hlen Hlab].
  destruct (Hlab 0%nat) as [Hl0 [s0 Hs0]]; [lia|].
  destruct (Hlab 1%nat) as [Hl1 [s1 Hs1]]; [lia|].
  rewrite Hc in Hlen.
  destruct datatype as [|d0 [|d1 [|? ?]]]; simpl in Hlen; try lia.
  unfold analyzeSpines_line in H. rewrite Hs, Hm, Hc in H. simpl in H.
  destruct (label_tokens i (HumdrumLine.tokens l) 0 sinfo f) as [f1|] eqn:E; [|done].
  cbn [mbind option_bind] in H.
  destruct (getMergedSpineInfo sinfo 0 1) as [m|] eqn:Hmerged.
  2: { unfold adjustSpines in H. rewrite Ht in H. simpl in H.
       destruct (merge_facts a Ha) as (_ & Hsp & _).
       rewrite Hsp, Ha, Hb in H. simpl in H. rewrite Hmerged in H. done. }
  rewrite (adjustSpines_merge i l a b d0 d1 sinfo m f1 Ht Ha Hb Hmerged) in H.
  cbn [mbind option_bind] in H. simpl in H. bind_inv.
  split; [done|]. exists d0, m, s0, s1.
  split; [done|]. split; [done|].
  rewrite Hl0, Hl1. split; [done|]. split; [done|].
  by rewrite <- (getMergedSpineInfo_two sinfo s0 s1).
Qed.

(** The labels after a line of two merge tokens. *)
Lemma spines_after_merge li mid lj post a b i init datatype sinfo f f' :
  analyzeSpines_loop (li :: mid ++ lj :: post) i init datatype sinfo f = Some (true, f') →
  HumdrumLine.tokens li = [a; b] →
  HumdrumToken.isMergeInterpretation a = true →
  HumdrumToken.isMergeInterpretation b = true →
  Forall (λ l, HumdrumLine.hasSpines l = false) mid →
  HumdrumLine.hasSpines lj = true →
  let j := (S i + length mid)%nat in
  HumdrumLine.getTokenCount lj = 1%nat ∧
  ∃ m s0 s1, spineinfo f' !! (i, 0%nat) = Some s0 ∧
    spineinfo f' !! (i, 1%nat) = Some s1 ∧
    spineinfo f' !! (j, 0%nat) = Some m ∧
    getMergedSpineInfo [s0; s1] 0 1 = Some m.
Proof.
  intros H Ht Ha Hb Hmid Hsj j. simpl in H.
  destruct (analyzeSpines_line i li init datatype sinfo f) as [r|] eqn:E; [|done].
  cbn [mbind option_bind] in H.
  destruct r as [st f1 | init1 dt1 si1 f1].
  { apply analyzeSpines_line_return in E as [-> _]. discriminate. }
  destruct (analyzeSpines_line_merge _ _ _ _ _ _ _ _ _ _ _ _ E Ht Ha Hb)
    as (-> & d & m & s0 & s1 & -> & -> & Hi0 & Hi1 & Hm).
  apply analyzeSpines_loop_skip in H; [|done]. fold j in H. simpl in H.
  destruct (analyzeSpines_line j lj true [d] [m] f1) as [r|] eqn:E2; [|done].
  cbn [mbind option_bind] in H.
  destruct r as [st f2 | init2 dt2 si2 f2].
  { apply analyzeSpines_line_return in E2 as [-> _]. discriminate. }
  destruct (analyzeSpines_line_labels _ _ _ _ _ _ _ _ _ E2 Hsj) as [Hlen Hlab].
  simpl in Hlen. split; [done|].
  apply analyzeSpines_line_frame in E2 as [_ Hfr]. simpl in Hfr.
  apply analyzeSpines_loop_frame in H as [_ Hfr'].
  exists m, s0, s1. rewrite !Hfr' by (simpl; lia).
  destruct (Hlab 0%nat) as [-> _]; [lia|].
  rewrite !Hfr by (simpl; lia). done.
Qed.

(** The stitcher on a line of two merge tokens followed by a line of one
    token. *)
Lemma stitch_merge f i j li lj a b c :
  lines f !! i = Some li → lines f !! j = Some lj →
  HumdrumLine.tokens li = [a; b] →
  HumdrumToken.isMergeInterpretation a = true →
  HumdrumToken.isMergeInterpretation b = true →
  HumdrumLine.tokens lj = [c] →
  stitchLinesTogether i j f =
    Some (isValid f,
          makeForwardLink (i, 1%nat) (j, 0%nat)
            (makeForwardLink (i, 0%nat) (j, 0%nat) f)).
Proof.
  intros Hi Hj Ht Ha Hb Htj.
  destruct (merge_line_facts li a b Ht Ha) as (_ & _ & Hint & _ & _).
  destruct (merge_facts a Ha) as (Hm & Hs & _).
  unfold stitchLinesTogether. rewrite Hi, Hj. cbn [mbind option_bind].
  rewrite Hint. cbn [negb andb]. rewrite Ht. simpl.
  rewrite Hm, Hs, Ha, Hb. simpl. unfold HumdrumLine.token, HumdrumLine.getTokenCount.
  rewrite Ht, Htj. reflexivity.
Qed.

(** X19.  Merge arity.  In a valid read, when line [i] consists of two
    merge tokens and [j] is the next line with spines, line [j] has
    exactly one token; both merge tokens have exactly one forward link,
    to this token, whose backward links are the two merge tokens in field
    order; and its spine info is what [getMergedSpineInfo] makes of the
    spine infos of the two merge tokens. *)
Theorem merge_arity (contents : list string) (f0 f : HumdrumFileBase.t)
    (i j : nat) (li lj : HLine) (a b : string) :
  read contents f0 = Some (true, f) →
  lines f !! i = Some li → HumdrumLine.tokens li = [a; b] →
  HumdrumToken.isMergeInterpretation a = true →
  HumdrumToken.isMergeInterpretation b = true →
  next_structural (lines f) i j → lines f !! j = Some lj →
  HumdrumLine.getTokenCount lj = 1%nat ∧
  getNextTokens f (i, 0%nat) = [(j, 0%nat)] ∧
  getNextTokens f (i, 1%nat) = [(j, 0%nat)] ∧
  getPreviousTokens f (j, 0%nat) = [(i, 0%nat); (i, 1%nat)] ∧
  getMergedSpineInfo [getSpineInfo f (i, 0%nat); getSpineInfo f (i, 1%nat)] 0 1
    = Some (getSpineInfo f (j, 0%nat)).
Proof.
  intros Hread Hi Ht Ha Hb Hnext Hj.
  destruct (merge_line_facts li a b Ht Ha) as (Hs & _).
  destruct (read_spines_between _ _ _ _ _ _ _ Hread Hi Hnext Hj)
    as (mid & post & init & dt & si & g & f3 & Hloop & Hmid & Hjm & Hsj & Hinfo).
  destruct (spines_after_merge _ _ _ _ _ _ _ _ _ _ _ _ Hloop Ht Ha Hb Hmid Hsj)
    as (Hcount & m & s0 & s1 & Hs0 & Hs1 & Hsm & Hmerged).
  rewrite <- Hjm in Hsm.
  assert (∃ c, HumdrumLine.tokens lj = [c]) as (c & Htj).
  { unfold HumdrumLine.getTokenCount in Hcount.
    destruct (HumdrumLine.tokens lj) as [|c [|? ?]]; simpl in Hcount; try lia. eauto. }
  destruct (read_links_between contents f0 f i j li lj
              (λ g, makeForwardLink (i, 1%nat) (j, 0%nat)
                      (makeForwardLink (i, 0%nat) (j, 0%nat) g)))
    as (g' & Hg1 & Hg2 & Hg3 & Hg4); try done.
  { intros g' Hg'.
    apply (stitch_merge g' i j li lj a b c); try done; by rewrite Hg'. }
  rewrite !Hg3, !Hg4, !makeForwardLink_previous, !makeForwardLink_next, !Hg1, !Hg2.
  split; [done|].
  split; [repeat case_decide; try congruence; done|].
  split; [repeat case_decide; try congruence; done|].
  split; [repeat case_decide; try congruence; done|].
  rewrite !Hinfo, Hs0, Hs1, Hsm. done.
Qed.

(** X19 on [split_file], whose line 4 merges the two halves of the split:
    the terminator on line 5 gets the label of the track again. *)
Lemma merge_arity_witness :
  let f := parsed split_file in
  getPreviousTokens f (5%nat, 0%nat) = [(4%nat, 0%nat); (4%nat, 1%nat)] ∧
  getSpineInfo f (4%nat, 0%nat) = "(1)a" ∧ getSpineInfo f (4%nat, 1%nat) = "(1)b" ∧
  getSpineInfo f (5%nat, 0%nat) = "1".
Proof.
  intros f.
  assert (read split_file new = Some (true, f)) as Hread by (vm_compute; reflexivity).
  assert (next_structural (lines f) 4 5) as Hnext.
  { split; [lia|]. split.
    - exists (HumdrumLine.mk "*-" ["*-"] 5). by split.
    - intros k lk Hk. lia. }
  destruct (merge_arity split_file new f 4 5
              (HumdrumLine.mk (row ["*v"; "*v"]) ["*v"; "*v"] 4)
              (HumdrumLine.mk "*-" ["*-"] 5) "*v" "*v"
              Hread eq_refl eq_refl eq_refl eq_refl Hnext eq_refl)
    as (_ & _ & _ & Hp & Hm).
  split; [exact Hp|].
  assert (getSpineInfo f (4%nat, 0%nat) = "(1)a") as H0 by (vm_compute; reflexivity).
  assert (getSpineInfo f (4%nat, 1%nat) = "(1)b") as H1 by (vm_compute; reflexivity).
  split; [exact H0|]. split; [exact H1|].
  rewrite H0, H1 in Hm.
  assert (getMergedSpineInfo ["(1)a"; "(1)b"] 0 1 = Some "1") as Hc
    by (vm_compute; reflexivity).
  rewrite Hc in Hm. symmetry. exact (Some_inj _ _ Hm).
Defined.

(** ** Manipulators that undo one another *)

(** [adjustSpines] on a pair of exchange tokens. *)
Lemma adjustSpines_exchange li line a b d0 d1 s0 s1 f :
  HumdrumLine.tokens line = [a; b] →
  HumdrumToken.isExchangeInterpretation a = true →
  adjustSpines li line [d0; d1] [s0; s1] f = Some (true, ([d1; d0], [s1; s0]), f).
Proof.
  intros Ht Ha. destruct (exchange_facts a Ha) as (_ & Hs & Hm & _).
  assert (HumdrumToken.isAddInterpretation a = false) as Hadd.
  { apply exchange_shape in Ha as [r ->]. by destruct r. }
  unfold adjustSpines. rewrite Ht. simpl. rewrite Hs, Hm, Hadd, Ha.
  unfold HumdrumLine.getTokenCount. rewrite Ht. reflexivity.
Qed.

(** X20.  The tracker undoes a split by the merge of its two halves, and
    an exchange by a second exchange: after [adjustSpines] on a split
    token and then on a line of two merge tokens the datatype and the
    spine-info label of the column are what they were (for a label of
    fewer than [2^31 - 3] characters, whose length the code handles as an
    [int]); after [adjustSpines] on two lines of two tokens that begin
    with an exchange token (the code does not look at the second token)
    the datatypes and labels of the two columns are in their first order
    again.  The object itself is not touched. *)
Theorem split_merge_and_exchange_round_trip (f : HumdrumFileBase.t)
    (i1 i2 : nat) (l1 l2 : HLine) (tok a b d d' s s' : string) :
  Z.of_nat (String.length s) + 3 < 2 ^ 31 →
  (HumdrumLine.tokens l1 = [tok] → HumdrumToken.isSplitInterpretation tok = true →
   HumdrumLine.tokens l2 = [a; b] →
   HumdrumToken.isMergeInterpretation a = true →
   HumdrumToken.isMergeInterpretation b = true →
   ('(_, (datatype, sinfo), f') ← adjustSpines i1 l1 [d] [s] f;
    adjustSpines i2 l2 datatype sinfo f') = Some (true, ([d], [s]), f)) ∧
  (HumdrumLine.tokens l1 = [a; b] → HumdrumToken.isExchangeInterpretation a = true →
   HumdrumLine.tokens l2 = [a; b] →
   ('(_, (datatype, sinfo), f') ← adjustSpines i1 l1 [d; d'] [s; s'] f;
    adjustSpines i2 l2 datatype sinfo f') = Some (true, ([d; d'], [s; s']), f)).
Proof.
  intros Hlen. split.
  - intros Ht Hsp Ht2 Ha Hb.
    rewrite (adjustSpines_split i1 l1 tok d s f Ht Hsp). cbn [mbind option_bind].
    apply (adjustSpines_merge i2 l2 a b d d _ s f Ht2 Ha Hb).
    by apply getMergedSpineInfo_siblings.
  - intros Ht Ha Ht2.
    rewrite (adjustSpines_exchange i1 l1 a b d d' s s' f Ht Ha). cbn [mbind option_bind].
    apply (adjustSpines_exchange i2 l2 a b d' d s' s f Ht2 Ha).
Qed.

(** X20 for the label ["1"] of a [**kern] column. *)
Lemma split_merge_and_exchange_round_trip_witness :
  ('(_, (datatype, sinfo), f') ←
     adjustSpines 1 (HumdrumLine.mk "*^" ["*^"] 1) ["**kern"] ["1"] new;
   adjustSpines 2 (HumdrumLine.mk (row ["*v"; "*v"]) ["*v"; "*v"] 2) datatype sinfo f')
  = Some (true, (["**kern"], ["1"]), new).
Proof.
  assert (Z.of_nat (String.length "1") + 3 < 2 ^ 31) as Hlen by (vm_compute; reflexivity).
  exact (proj1 (split_merge_and_exchange_round_trip new 1 2
                  (HumdrumLine.mk "*^" ["*^"] 1)
                  (HumdrumLine.mk (row ["*v"; "*v"]) ["*v"; "*v"] 2)
                  "*^" "*v" "*v" "**kern" "" "1" "" Hlen)
           eq_refl eq_refl eq_refl eq_refl eq_refl).
Defined.

(** ** The stitcher within a valid read *)

(** In a run of the link analysis that is reported valid, the stitcher
    was called on every line with spines and the next one, and returned
    true. *)
Lemma analyzeLinks_between_stitch li mid lj post i j next f f' :
  analyzeLinks_loop (li :: mid ++ lj :: post) i next f = Some (true, f') →
  j = (S i + length mid)%nat →
  HumdrumLine.hasSpines li = true →
  Forall (λ l, HumdrumLine.hasSpines l = false) mid →
  HumdrumLine.hasSpines lj = true →
  ∃ g g', lines g = lines f ∧ stitchLinesTogether i j g = Some (true, g').
Proof.
  intros H -> Hs Hmid Hsj. simpl in H.
  set (j := (S i + length mid)%nat) in *.
  destruct (analyzeLinks_line i li next f) as [r|] eqn:E; [|done].
  cbn [mbind option_bind] in H.
  apply analyzeLinks_line_within in E as ((Hl1 & _) & _ & _ & Hr).
  destruct r as [st f1 | next1 f1]; simpl in H, Hl1, Hr.
  { destruct Hr as [-> _]. discriminate. }
  rewrite Hs in Hr. subst next1.
  apply analyzeLinks_loop_skip in H; [|done]. fold j in H. simpl in H.
  unfold analyzeLinks_line in H at 1. rewrite Hsj in H. simpl in H.
  destruct (stitchLinesTogether i j f1) as [[ok f2]|] eqn:Hst; [|done].
  cbn [mbind option_bind] in H.
  destruct ok.
  - by exists f1, f2.
  - apply stitchLinesTogether_within in Hst as [_ Hinv].
    simpl in H. injection H as Hv _. rewrite Hinv in Hv; done.
Qed.

Lemma read_stitch_between contents f0 f i j li lj :
  read contents f0 = Some (true, f) →
  lines f !! i = Some li → HumdrumLine.hasSpines li = true →
  next_structural (lines f) i j → lines f !! j = Some lj →
  ∃ g g', lines g = lines f ∧ stitchLinesTogether i j g = Some (true, g').
Proof.
  intros Hread Hi Hs (Hij & (lj' & Hj' & Hsj) & Hmid) Hj.
  assert (lj' = lj) as -> by congruence.
  pose proof (read_valid_lines _ _ _ Hread) as Hlines.
  apply read_valid in Hread as (f3 & f4 & H3 & H4 & ->).
  apply analyzeSpines_inv in H3 as (g0 & Hloop & (Hlg & _) & _).
  apply analyzeSpines_loop_frame in Hloop as [(Hl3 & _) _].
  rewrite Hlines in Hi, Hj, Hmid.
  destruct (lookup_split_two _ _ _ _ _ Hi Hj Hij) as (pre & mid & post & Hls & Hpre & Hjm).
  assert (Forall (λ l, HumdrumLine.hasSpines l = false) mid) as Hglobal.
  { apply Forall_lookup. intros k lk Hk.
    apply (Hmid (S i + k)%nat); [apply lookup_lt_Some in Hk; lia|].
    rewrite Hls. rewrite lookup_app_r by lia.
    replace (S i + k - length pre)%nat with (S k) by lia. simpl.
    by rewrite lookup_app_l by (by apply lookup_lt_Some in Hk). }
  unfold analyzeLinks in H4. rewrite Hl3, Hlg, Hls in H4.
  apply analyzeLinks_loop_app in H4 as (next' & h1 & Hlinks & _ & (Hlh & _) & _);
    [|done].
  rewrite Nat.add_0_l, Hpre in Hlinks.
  destruct (analyzeLinks_between_stitch _ _ _ _ _ j _ _ _ Hlinks)
    as (g & g' & Hg & Hst); try done.
  exists g, g'. split; [|done].
  rewrite Hlines. by rewrite Hg, Hlh, Hl3, Hlg.
Qed.

Lemma hasSpines_tokens (l : HLine) :
  HumdrumLine.hasSpines l = true → (0 < HumdrumLine.getTokenCount l)%nat.
Proof.
  unfold HumdrumLine.hasSpines, HumdrumLine.first_token, HumdrumLine.getTokenCount.
  destruct (HumdrumLine.tokens l); simpl; [done | lia].
Qed.

(** ** An exchange token without partner *)

(** The stitcher on an exchange token whose right neighbour is no
    exchange token: no link is made and the cursor on the next line stays
    behind. *)
Lemma stitch_unmatched_exchange g i j li lj a b :
  lines g !! i = Some li → lines g !! j = Some lj →
  HumdrumLine.tokens li = [a; b] →
  HumdrumToken.isExchangeInterpretation a = true →
  HumdrumToken.isExchangeInterpretation b = false →
  HumdrumLine.hasSpines lj = true →
  stitchLinesTogether i j g = Some (false, with_parseError (alignment_error li lj 2 0) g).
Proof.
  intros Hi Hj Ht Ha Hb Hsj.
  destruct (exchange_facts a Ha) as (Hm & Hs & Hmg & Hint).
  pose proof (hasSpines_tokens lj Hsj) as Hc.
  unfold stitchLinesTogether. rewrite Hi, Hj. cbn [mbind option_bind].
  assert (HumdrumLine.isInterpretation li = true) as ->.
  { unfold HumdrumLine.isInterpretation, HumdrumLine.first_token. by rewrite Ht. }
  cbn [negb andb]. rewrite Ht. simpl. rewrite Hm, Hs, Hmg, Ha. simpl.
  unfold HumdrumLine.getTokenCount, HumdrumLine.token. rewrite Ht. simpl.
  rewrite Hb. simpl.
  unfold HumdrumLine.getTokenCount in Hc.
  destruct (HumdrumLine.tokens lj) as [|c toks] eqn:Htj; [simpl in Hc; lia|].
  simpl. unfold setParseError, alignment_error, HumdrumLine.getTokenCount.
  rewrite Ht, Htj. reflexivity.
Qed.

(** X21.  An exchange token without partner is caught when another line
    with spines follows: if a line of two tokens begins with an exchange
    token and its second token is no exchange token, and a later line has
    spines, no read of the file is reported valid.  (The tracker swaps the
    two columns all the same; it is the stitcher that finds no partner,
    makes no link and then misses two tokens on the next line.) *)
Theorem unmatched_exchange_before_line_rejected (contents : list string)
    (f0 f : HumdrumFileBase.t) (st : bool) (i j : nat) (li : HLine) (a b : string) :
  read contents f0 = Some (st, f) →
  lines f !! i = Some li → HumdrumLine.tokens li = [a; b] →
  HumdrumToken.isExchangeInterpretation a = true →
  HumdrumToken.isExchangeInterpretation b = false →
  next_structural (lines f) i j →
  st = false ∧ isValid f = false ∧ parseError f ≠ "".
Proof.
  intros Hread Hi Ht Ha Hb Hnext.
  assert (st = false) as ->.
  { destruct st; [|done]. exfalso.
    pose proof Hnext as (_ & (lj & Hj & Hsj) & _).
    pose proof (exchange_line_facts li a b Ht Ha) as Hs.
    destruct (read_stitch_between _ _ _ _ _ _ _ Hread Hi Hs Hnext Hj)
      as (g & g' & Hg & Hst).
    rewrite (stitch_unmatched_exchange g i j li lj a b) in Hst; try done;
      by rewrite Hg. }
  split; [done|]. apply read_status in Hread. split; [done|].
  by apply isValid_false_iff.
Qed.

(** X21 on the file of the unmatched exchange with a terminator line
    added. *)
Lemma unmatched_exchange_before_line_rejected_witness :
  ∃ f, read (unmatched_exchange ++ [row ["*-"; "*-"]]) new = Some (false, f) ∧
       parseError f ≠ "".
Proof.
  set (f := parsed (unmatched_exchange ++ [row ["*-"; "*-"]])).
  assert (read (unmatched_exchange ++ [row ["*-"; "*-"]]) new = Some (false, f)) as Hread
    by (vm_compute; reflexivity).
  assert (next_structural (lines f) 2 3) as Hnext.
  { split; [lia|]. split.
    - exists (HumdrumLine.mk (row ["*-"; "*-"]) ["*-"; "*-"] 3). by split.
    - intros k lk Hk. lia. }
  destruct (unmatched_exchange_before_line_rejected _ new f false 2 3
              (HumdrumLine.mk (row ["*x"; "*"]) ["*x"; "*"] 2) "*x" "*"
              Hread eq_refl eq_refl eq_refl eq_refl Hnext) as (_ & _ & He).
  exists f. by split.
Defined.

(** ** Add *)

Lemma add_facts (t : string) :
  HumdrumToken.isAddInterpretation t = true →
  HumdrumToken.isManipulator t = true ∧
  HumdrumToken.isSplitInterpretation t = false ∧
  HumdrumToken.isMergeInterpretation t = false ∧
  HumdrumToken.isExchangeInterpretation t = false ∧
  HumdrumToken.isTerminateInterpretation t = false ∧
  HumdrumToken.isExclusiveInterpretation t = false ∧
  String.prefix "*" t = true ∧ String.prefix "!!" t = false ∧
  String.eqb t "" = false.
Proof.
  intros H. destruct (prefix_two _ _ _ H) as [r ->].
  destruct r; repeat split; reflexivity.
Qed.

Lemma add_line_facts (l : HLine) (tok : string) :
  HumdrumLine.tokens l = [tok] → HumdrumToken.isAddInterpretation tok = true →
  HumdrumLine.hasSpines l = true ∧ HumdrumLine.isExclusive l = false ∧
  HumdrumLine.isInterpretation l = true ∧ HumdrumLine.isManipulator l = true ∧
  HumdrumLine.getTokenCount l = 1%nat.
Proof.
  intros Ht Hs. destruct (add_facts tok Hs) as (Hm & _ & _ & _ & _ & He & Hi & Hg & Hn).
  unfold HumdrumLine.hasSpines, HumdrumLine.isExclusive, HumdrumLine.isInterpretation,
    HumdrumLine.isManipulator, HumdrumLine.getTokenCount, HumdrumLine.first_token.
  rewrite Ht. simpl. rewrite Hn, Hg, Hi, Hm.
  unfold HumdrumToken.isExclusiveInterpretation in He. rewrite He. done.
Qed.

Lemma exclusive_facts (t : string) :
  HumdrumToken.isExclusiveInterpretation t = true →
  HumdrumToken.isManipulator t = true ∧
  HumdrumToken.isSplitInterpretation t = false ∧
  HumdrumToken.isMergeInterpretation t = false ∧
  HumdrumToken.isAddInterpretation t = false ∧
  HumdrumToken.isExchangeInterpretation t = false ∧
  HumdrumToken.isTerminateInterpretation t = false.
Proof.
  intros H. destruct (prefix_two _ _ _ H) as [r ->].
  destruct r; repeat split; reflexivity.
Qed.

Lemma plain_facts (t : string) :
  HumdrumToken.isManipulator t = false →
  HumdrumToken.isExclusiveInterpretation t = false ∧
  HumdrumToken.isSplitInterpretation t = false ∧
  HumdrumToken.isMergeInterpretation t = false ∧
  HumdrumToken.isExchangeInterpretation t = false ∧
  HumdrumToken.isAddInterpretation t = false ∧
  HumdrumToken.isTerminateInterpretation t = false.
Proof.
  unfold HumdrumToken.isManipulator. intros H.
  repeat (apply orb_false_elim in H as [H ?]). done.
Qed.

(** The test [substr(0, 2) == "**"] of [adjustSpines] is the test for an
    exclusive interpretation. *)
Lemma substr2_exclusive (t : string) :
  String.eqb (String.substring 0 2 t) "**" = HumdrumToken.isExclusiveInterpretation t.
Proof.
  destruct (HumdrumToken.isExclusiveInterpretation t) eqn:E.
  - destruct (prefix_two _ _ _ E) as [r ->]. cbn [String.substring].
    rewrite substring_0_0. reflexivity.
  - apply not_true_is_false. intros H. apply String.eqb_eq in H.
    assert (HumdrumToken.isExclusiveInterpretation t = true); [|congruence].
    destruct t as [|a [|c r]]; cbn [String.substring] in H; try discriminate.
    rewrite substring_0_0 in H. injection H as -> ->. by destruct r.
Qed.

(** [adjustSpines] on a line that is a single add token. *)
Lemma adjustSpines_add li line tok d sinfo s f :
  HumdrumLine.tokens line = [tok] →
  HumdrumToken.isAddInterpretation tok = true →
  sinfo !! 0%nat = Some s →
  let f1 := with_tracks (trackstarts f ++ [None]) (trackends f ++ [[]]) f in
  adjustSpines li line [d] sinfo f =
    Some (true, ([d; ""], [s; Cpp.to_string (getMaxTrack f1)]), f1).
Proof.
  intros Ht Ha Hs f1. destruct (add_facts tok Ha) as (_ & Hsp & Hm & _).
  unfold adjustSpines. rewrite Ht. simpl. rewrite Hsp, Hm, Ha. simpl.
  rewrite Hs. simpl.
  pose proof (resize_length sinfo 2) as Hr.
  destruct (Cpp.resize sinfo 2) as [|? [|? [|? ?]]]; simpl in Hr; try lia.
  reflexivity.
Qed.

(** The body of the spine loop on a line that is a single add token. *)
Lemma analyzeSpines_line_add i l tok init datatype sinfo f init' datatype' sinfo' f' :
  analyzeSpines_line i l init datatype sinfo f
    = Some (SpinesContinue init' datatype' sinfo' f') →
  HumdrumLine.tokens l = [tok] → HumdrumToken.isAddInterpretation tok = true →
  init' = true ∧
  ∃ d s, datatype' = [d; ""] ∧
    sinfo' = [s; Cpp.to_string (getMaxTrack f')] ∧
    spineinfo f' !! (i, 0%nat) = Some s ∧
    trackstarts f' = trackstarts f ++ [None].
Proof.
  intros H Ht Ha.
  destruct (add_line_facts l tok Ht Ha) as (Hs & He & _ & Hm & Hc).
  assert (init = true) as ->.
  { destruct init; [done|]. unfold analyzeSpines_line in H.
    rewrite Hs, He in H. simpl in H. bind_inv. }
  destruct (analyzeSpines_line_labels _ _ _ _ _ _ _ _ _ H Hs) as [Hlen Hlab].
  destruct (Hlab 0%nat) as [Hl0 [s Hs0]]; [lia|].
  rewrite Hc in Hlen.
  destruct datatype as [|d [|? ?]]; simpl in Hlen; try lia.
  unfold analyzeSpines_line in H. rewrite Hs, Hm, Hc in H. simpl in H.
  destruct (label_tokens i (HumdrumLine.tokens l) 0 sinfo f) as [f1|] eqn:E; [|done].
  cbn [mbind option_bind] in H.
  apply label_tokens_frame in E as (_ & _ & Hts & _).
  rewrite (adjustSpines_add i l tok d sinfo s f1 Ht Ha Hs0) in H.
  cbn [mbind option_bind] in H. simpl in H. bind_inv.
  split; [done|]. exists d, s. split; [done|]. split; [done|].
  split; [by rewrite Hl0|]. simpl. by rewrite Hts.
Qed.

Lemma setParseError_false (c : ascii) (s t : string) (f : HumdrumFileBase.t) :
  setParseError (String c s +:+ t) f = (false, with_parseError (String c s +:+ t) f).
Proof. unfold setParseError, isValid. simpl. by rewrite append_cons. Qed.

(** The stitcher after a line that is a single add token: when it
    returns true the next line has two tokens, the second one an
    exclusive interpretation, and one link was made. *)
Lemma stitch_add_inv g i j li lj tok g' :
  lines g !! i = Some li → lines g !! j = Some lj →
  HumdrumLine.tokens li = [tok] → HumdrumToken.isAddInterpretation tok = true →
  stitchLinesTogether i j g = Some (true, g') →
  ∃ c e, HumdrumLine.tokens lj = [c; e] ∧
    HumdrumToken.isExclusiveInterpretation e = true ∧
    stitchLinesTogether i j g =
      Some (isValid g, makeForwardLink (i, 0%nat) (j, 0%nat) g).
Proof.
  intros Hi Hj Ht Ha H.
  destruct (add_line_facts li tok Ht Ha) as (_ & _ & Hint & _ & _).
  destruct (add_facts tok Ha) as (Hm & Hs & Hmg & Hx & Hterm & _).
  unfold stitchLinesTogether in H |- *. rewrite Hi, Hj in H |- *.
  cbn [mbind option_bind] in H |- *.
  rewrite Hint in H |- *. cbn [negb andb] in H |- *. rewrite Ht in H |- *.
  simpl in H |- *. rewrite Hm, Hs, Hmg, Hx, Hterm, Ha in H |- *. simpl in H |- *.
  unfold HumdrumLine.token, HumdrumLine.getTokenCount in H |- *. rewrite Ht in H |- *.
  destruct (HumdrumLine.tokens lj) as [|c [|e rest]] eqn:Htj; simpl in H; try done.
  destruct (HumdrumToken.isExclusiveInterpretation e) eqn:He; simpl in H.
  2: { injection H as Hv _. unfold isValid in Hv. simpl in Hv.
       done. }
  destruct rest as [|x rest]; simpl in H.
  - exists c, e. split; [done|]. split; [done|]. simpl. rewrite He. simpl. done.
  - exfalso. unfold alignment_error in H. rewrite setParseError_false in H. done.
Qed.

(** The stitcher on a single add token followed by a line of two tokens,
    the second an exclusive interpretation. *)
Lemma stitch_add g i j li lj tok c e :
  lines g !! i = Some li → lines g !! j = Some lj →
  HumdrumLine.tokens li = [tok] → HumdrumToken.isAddInterpretation tok = true →
  HumdrumLine.tokens lj = [c; e] → HumdrumToken.isExclusiveInterpretation e = true →
  stitchLinesTogether i j g =
    Some (isValid g, makeForwardLink (i, 0%nat) (j, 0%nat) g).
Proof.
  intros Hi Hj Ht Ha Htj He.
  destruct (add_line_facts li tok Ht Ha) as (_ & _ & Hint & _ & _).
  destruct (add_facts tok Ha) as (Hm & Hs & Hmg & Hx & Hterm & _).
  unfold stitchLinesTogether. rewrite Hi, Hj. cbn [mbind option_bind].
  rewrite Hint. cbn [negb andb]. rewrite Ht. simpl.
  rewrite Hm, Hs, Hmg, Hx, Hterm, Ha. simpl.
  unfold HumdrumLine.token, HumdrumLine.getTokenCount. rewrite Ht, Htj. simpl.
  rewrite He. simpl. done.
Qed.

(** The loop of [adjustSpines] on the token that fills the track an add
    token opened: the placeholder at the back of the track table is
    replaced by the token. *)
Lemma adjustSpines_loop_fill li line datatype sinfo e i newtype newinfo f nt ni f' :
  adjustSpines_loop li line datatype sinfo [e] i 0 newtype newinfo f
    = Some (AdjustDone nt ni f') →
  HumdrumToken.isExclusiveInterpretation e = true →
  (1 < length (trackstarts f))%nat ∧
  trackstarts f' = <[pred (length (trackstarts f)) := Some (li, i)]> (trackstarts f).
Proof.
  intros H He.
  destruct (exclusive_facts e He) as (_ & Hs & Hm & Ha & Hx & Ht).
  simpl in H. rewrite Hs, Hm, Ha, Hx, Ht, substr2_exclusive, He in H.
  destruct (sinfo !! i) as [s|]; [|done]. cbn [mbind option_bind] in H.
  destruct ((1 <? Cpp.size (trackstarts f)) &&
            bool_decide (Cpp.back (trackstarts f) = Some None)) eqn:Hp;
    cbn [negb] in H.
  2: { done. }
  apply andb_prop in Hp as Hp'. destruct Hp' as [Hsz Hb].
  apply bool_decide_eq_true in Hb. rewrite Hb in H. cbn [mbind option_bind] in H.
  rewrite bool_decide_eq_true_2 in H by done.
  unfold addToTrackStarts in H. rewrite Hp in H.
  apply Z.ltb_lt in Hsz. unfold Cpp.size in Hsz.
  destruct (trackstarts f) as [|t0 ts] eqn:Ets; [simpl in Hsz; lia|].
  unfold Cpp.set_back in H. cbn [mbind option_bind] in H.
  injection H as _ _ <-. split; [lia|]. done.
Qed.

(** A first token that is no add, exchange or exclusive token leaves the
    track starts alone and passes to the next token. *)
Lemma adjustSpines_loop_pass li line datatype sinfo c rest f r :
  adjustSpines_loop li line datatype sinfo (c :: rest) 0 0 [] [] f = Some r →
  HumdrumToken.isAddInterpretation c = false →
  HumdrumToken.isExchangeInterpretation c = false →
  HumdrumToken.isExclusiveInterpretation c = false →
  count_merges rest = 0%nat →
  ∃ nt0 ni0 f0, trackstarts f0 = trackstarts f ∧
    adjustSpines_loop li line datatype sinfo rest 1 0 nt0 ni0 f0 = Some r.
Proof.
  intros H Ha Hx Hc Hcm.
  cbn [adjustSpines_loop] in H. fold adjustSpines_loop in H.
  rewrite Ha, Hx, (substr2_exclusive c), Hc, Hcm in H.
  destruct (HumdrumToken.isSplitInterpretation c).
  { destruct (datatype !! 0%nat); [|done]. destruct (sinfo !! 0%nat); [|done].
    cbn [mbind option_bind] in H. eauto. }
  destruct (HumdrumToken.isMergeInterpretation c).
  { destruct (getMergedSpineInfo sinfo 0 0); [|done]. cbn [mbind option_bind] in H.
    destruct (Cpp.set_back _ _); [|done]. cbn [mbind option_bind] in H.
    destruct (datatype !! 0%nat); [|done]. cbn [mbind option_bind] in H. eauto. }
  destruct (HumdrumToken.isTerminateInterpretation c).
  { destruct (Cpp.at_ _ _); [|done]. cbn [mbind option_bind] in H.
    eexists _, _, _. split; [|exact H]. done. }
  destruct (datatype !! 0%nat); [|done]. destruct (sinfo !! 0%nat); [|done].
  cbn [mbind option_bind] in H. eauto.
Qed.

Lemma adjustSpines_loop_pair li line datatype sinfo c e f nt ni f' :
  adjustSpines_loop li line datatype sinfo [c; e] 0 0 [] [] f
    = Some (AdjustDone nt ni f') →
  HumdrumToken.isAddInterpretation c = false →
  HumdrumToken.isExchangeInterpretation c = false →
  HumdrumToken.isExclusiveInterpretation c = false →
  HumdrumToken.isExclusiveInterpretation e = true →
  (1 < length (trackstarts f))%nat ∧
  trackstarts f' = <[pred (length (trackstarts f)) := Some (li, 1%nat)]> (trackstarts f).
Proof.
  intros H Ha Hx Hc He.
  destruct (exclusive_facts e He) as (_ & _ & Hme & _).
  apply adjustSpines_loop_pass in H as (nt0 & ni0 & f0 & Hts & H); try done.
  - apply adjustSpines_loop_fill in H; [|done]. by rewrite Hts in H.
  - simpl. by rewrite Hme.
Qed.

(** The body of the spine loop on the line that follows an add token. *)
Lemma analyzeSpines_line_fill j lj c e datatype sinfo f init' datatype' sinfo' f' :
  analyzeSpines_line j lj true datatype sinfo f
    = Some (SpinesContinue init' datatype' sinfo' f') →
  HumdrumLine.hasSpines lj = true → HumdrumLine.tokens lj = [c; e] →
  HumdrumToken.isAddInterpretation c = false →
  HumdrumToken.isExchangeInterpretation c = false →
  HumdrumToken.isExclusiveInterpretation c = false →
  HumdrumToken.isExclusiveInterpretation e = true →
  (1 < length (trackstarts f))%nat ∧
  trackstarts f' = <[pred (length (trackstarts f)) := Some (j, 1%nat)]> (trackstarts f).
Proof.
  intros H Hs Ht Ha Hx Hc He.
  destruct (exclusive_facts e He) as (Hm & _).
  unfold analyzeSpines_line in H. rewrite Hs in H. simpl in H.
  destruct (length datatype =? HumdrumLine.getTokenCount lj)%nat; simpl in H;
    [|bind_inv].
  destruct (label_tokens j (HumdrumLine.tokens lj) 0 sinfo f) as [f1|] eqn:E; [|done].
  cbn [mbind option_bind] in H.
  apply label_tokens_frame in E as (_ & _ & Hts & _).
  assert (HumdrumLine.isManipulator lj = true) as Hml.
  { unfold HumdrumLine.isManipulator. rewrite Ht. simpl. rewrite Hm.
    by destruct (HumdrumToken.isManipulator c). }
  rewrite Hml in H. cbn [negb] in H.
  unfold adjustSpines in H. rewrite Ht in H.
  destruct (adjustSpines_loop j lj datatype sinfo [c; e] 0 0 [] [] f1) as [r|] eqn:E;
    [|done].
  cbn [mbind option_bind] in H. destruct r as [b f2 | nt ni f2].
  { apply adjustSpines_loop_return in E as [-> _]. simpl in H. done. }
  apply adjustSpines_loop_pair in E; try done. rewrite Hts in E.
  destruct (length nt <=? length ni)%nat; [|done]. simpl in H.
  injection H as _ _ _ <-. done.
Qed.

(** The spine loop from a line that is a single add token to the next
    line with spines. *)
Lemma spines_after_add li mid lj post tok i init datatype sinfo f f' :
  analyzeSpines_loop (li :: mid ++ lj :: post) i init datatype sinfo f = Some (true, f') →
  HumdrumLine.tokens li = [tok] →
  HumdrumToken.isAddInterpretation tok = true →
  Forall (λ l, HumdrumLine.hasSpines l = false) mid →
  HumdrumLine.hasSpines lj = true →
  let j := (S i + length mid)%nat in
  let n := length (trackstarts f) in
  HumdrumLine.getTokenCount lj = 2%nat ∧
  (∃ s, spineinfo f' !! (i, 0%nat) = Some s ∧ spineinfo f' !! (j, 0%nat) = Some s) ∧
  spineinfo f' !! (j, 1%nat) = Some (Cpp.to_string (Cpp.to_int (Cpp.to_size_t (Z.of_nat n)))) ∧
  (∀ c e, HumdrumLine.tokens lj = [c; e] →
     HumdrumToken.isAddInterpretation c = false →
     HumdrumToken.isExchangeInterpretation c = false →
     HumdrumToken.isExclusiveInterpretation c = false →
     HumdrumToken.isExclusiveInterpretation e = true →
     (0 < n)%nat ∧ trackstarts f' !! n = Some (Some (j, 1%nat))).
Proof.
  intros H Ht Ha Hmid Hsj j n. simpl in H.
  destruct (analyzeSpines_line i li init datatype sinfo f) as [r|] eqn:E; [|done].
  cbn [mbind option_bind] in H.
  destruct r as [st f1 | init1 dt1 si1 f1].
  { apply analyzeSpines_line_return in E as [-> _]. discriminate. }
  destruct (analyzeSpines_line_add _ _ _ _ _ _ _ _ _ _ _ E Ht Ha)
    as (-> & d & s & -> & -> & Hi0 & Hts1).
  apply analyzeSpines_loop_skip in H; [|done]. fold j in H. simpl in H.
  destruct (analyzeSpines_line j lj true [d; ""] [s; Cpp.to_string (getMaxTrack f1)] f1)
    as [r|] eqn:E2; [|done].
  cbn [mbind option_bind] in H.
  destruct r as [st f2 | init2 dt2 si2 f2].
  { apply analyzeSpines_line_return in E2 as [-> _]. discriminate. }
  destruct (analyzeSpines_line_labels _ _ _ _ _ _ _ _ _ E2 Hsj) as [Hlen Hlab].
  simpl in Hlen. split; [done|].
  pose proof (analyzeSpines_line_frame _ _ _ _ _ _ _ E2) as [_ Hfr]. simpl in Hfr.
  pose proof (analyzeSpines_loop_frame _ _ _ _ _ _ _ _ H) as [_ Hfr'].
  assert (getMaxTrack f1 = Cpp.to_int (Cpp.to_size_t (Z.of_nat n))) as Hn.
  { unfold getMaxTrack, Cpp.size. rewrite Hts1, length_app. simpl. fold n.
    do 2 f_equal. lia. }
  split; [|split].
  - exists s. rewrite !Hfr' by (simpl; lia).
    destruct (Hlab 0%nat) as [-> _]; [lia|].
    rewrite Hfr by (simpl; lia). done.
  - rewrite !Hfr' by (simpl; lia).
    destruct (Hlab 1%nat) as [-> _]; [lia|]. simpl. by rewrite Hn.
  - intros c e Htj Hac Hxc Hcc Hee.
    destruct (analyzeSpines_line_fill _ _ _ _ _ _ _ _ _ _ _ E2 Hsj Htj Hac Hxc Hcc Hee)
      as [Hlt Hts2].
    rewrite Hts1, length_app in Hlt, Hts2. simpl in Hlt, Hts2. fold n in Hlt, Hts2.
    split; [lia|].
    assert (init2 = true) as ->.
    { unfold analyzeSpines_line in E2. simpl in E2. by bind_inv. }
    apply analyzeSpines_loop_tracks in H as (_ & Hkeep).
    apply Hkeep. rewrite Hts2.
    replace (pred (n + 1)) with n by lia.
    apply list_lookup_insert_eq. rewrite length_app. simpl. fold n. lia.
Qed.

(** The spine loop between two lines of a valid read, with the track
    starts it ends with. *)
Lemma read_spines_between_tracks contents f0 f i j li lj :
  read contents f0 = Some (true, f) →
  lines f !! i = Some li → next_structural (lines f) i j → lines f !! j = Some lj →
  ∃ mid post init datatype sinfo g f3,
    analyzeSpines_loop (li :: mid ++ lj :: post) i init datatype sinfo g = Some (true, f3) ∧
    Forall (λ l, HumdrumLine.hasSpines l = false) mid ∧
    j = (S i + length mid)%nat ∧ HumdrumLine.hasSpines lj = true ∧
    (∀ r, getSpineInfo f r = default "" (spineinfo f3 !! r)) ∧
    trackstarts f = trackstarts f3.
Proof.
  intros Hread Hi (Hij & (lj' & Hj' & Hsj) & Hmid) Hj.
  assert (lj' = lj) as -> by congruence.
  pose proof (read_valid_lines _ _ _ Hread) as Hlines.
  apply read_valid in Hread as (f3 & f4 & H3 & H4 & ->).
  destruct (analyzeTracks_loop_frame (lines f4) 0 f4) as (_ & Hsi5 & _ & _ & Hts5 & _).
  fold (analyzeTracks f4) in Hsi5, Hts5.
  apply analyzeLinks_loop_within in H4 as ((_ & Hsi4 & Hts4 & _) & _).
  apply analyzeSpines_inv in H3 as (g & Hloop & (Hlg & _) & _).
  rewrite Hlines in Hi, Hj, Hmid.
  destruct (lookup_split_two _ _ _ _ _ Hi Hj Hij) as (pre & mid & post & Hls & Hpre & Hjm).
  assert (Forall (λ l, HumdrumLine.hasSpines l = false) mid) as Hglobal.
  { apply Forall_lookup. intros k lk Hk.
    apply (Hmid (S i + k)%nat); [apply lookup_lt_Some in Hk; lia|].
    rewrite Hls. rewrite lookup_app_r by lia.
    replace (S i + k - length pre)%nat with (S k) by lia. simpl.
    by rewrite lookup_app_l by (by apply lookup_lt_Some in Hk). }
  rewrite Hls in Hloop.
  apply analyzeSpines_loop_app in Hloop as (init' & dt' & si' & g1 & Hloop & _).
  rewrite Nat.add_0_l, Hpre in Hloop.
  exists mid, post, init', dt', si', g1, f3.
  split; [done|]. split; [done|]. split; [lia|]. split; [done|].
  split; [|by rewrite Hts5, Hts4].
  intros r. unfold getSpineInfo. by rewrite Hsi5, Hsi4.
Qed.

(** X22.  A new spine.  In a valid read, when line [i] is a single add
    token and [j] is the next line with spines, line [j] has exactly two
    tokens and the second is an exclusive interpretation.  The add token
    has one forward link, to token 0 of line [j], which carries its spine
    info on; token 1 of line [j] has no backward link and its spine info
    is the decimal text of a track number [n]; and, when token 0 of line
    [j] is itself no add, exchange or exclusive token and the track count
    fits an [int], [getTrackStart(n)] is token 1 of line [j]. *)
Theorem add_opens_track (contents : list string) (f0 f : HumdrumFileBase.t)
    (i j : nat) (li lj : HLine) (tok : string) :
  read contents f0 = Some (true, f) →
  lines f !! i = Some li → HumdrumLine.tokens li = [tok] →
  HumdrumToken.isAddInterpretation tok = true →
  next_structural (lines f) i j → lines f !! j = Some lj →
  ∃ c e n, HumdrumLine.tokens lj = [c; e] ∧
    HumdrumToken.isExclusiveInterpretation e = true ∧
    getNextTokens f (i, 0%nat) = [(j, 0%nat)] ∧
    getPreviousTokens f (j, 0%nat) = [(i, 0%nat)] ∧
    getPreviousTokens f (j, 1%nat) = [] ∧
    getSpineInfo f (j, 0%nat) = getSpineInfo f (i, 0%nat) ∧
    getSpineInfo f (j, 1%nat) = Cpp.to_string n ∧
    (HumdrumToken.isAddInterpretation c = false →
     HumdrumToken.isExchangeInterpretation c = false →
     HumdrumToken.isExclusiveInterpretation c = false →
     Cpp.size (trackstarts f) <= 2 ^ 31 →
     getTrackStart f n = Some (Some (j, 1%nat))).
Proof.
  intros Hread Hi Ht Ha Hnext Hj.
  destruct (add_line_facts li tok Ht Ha) as (Hs & _).
  destruct (read_stitch_between _ _ _ _ _ _ _ Hread Hi Hs Hnext Hj)
    as (g & g' & Hlg & Hst).
  destruct (stitch_add_inv g i j li lj tok g') as (c & e & Htj & He & _);
    try done; try (by rewrite Hlg).
  destruct (read_spines_between_tracks _ _ _ _ _ _ _ Hread Hi Hnext Hj)
    as (mid & post & init & dt & si & g0 & f3 & Hloop & Hmid & Hjm & Hsj & Hinfo & Hts).
  destruct (spines_after_add _ _ _ _ _ _ _ _ _ _ _ Hloop Ht Ha Hmid Hsj)
    as (_ & (s & Hs0 & Hs1) & Hsn & Hstart).
  rewrite <- Hjm in Hs1, Hsn, Hstart.
  set (m := length (trackstarts g0)) in *.
  exists c, e, (Cpp.to_int (Cpp.to_size_t (Z.of_nat m))).
  split; [done|]. split; [done|].
  destruct (read_links_between_any contents f0 f i j li lj
              (λ g, makeForwardLink (i, 0%nat) (j, 0%nat) g))
    as (g1 & Hg1 & Hg2 & Hg3 & Hg4); try done.
  { intros g2 Hg2. eexists.
    apply (stitch_add g2 i j li lj tok c e); try done; by rewrite Hg2. }
  rewrite !Hg3, !Hg4, !makeForwardLink_previous, !makeForwardLink_next, !Hg1, !Hg2.
  split; [repeat case_decide; try congruence; done|].
  split; [repeat case_decide; try congruence; done|].
  split; [repeat case_decide; try congruence; done|].
  split; [by rewrite !Hinfo, Hs0, Hs1|].
  split; [by rewrite Hinfo, Hsn|].
  intros Hac Hxc Hcc Hbound.
  destruct (Hstart c e Htj Hac Hxc Hcc He) as [Hpos Hlook].
  rewrite <- Hts in Hlook.
  pose proof (lookup_lt_Some _ _ _ Hlook) as Hlt.
  unfold Cpp.size in Hbound.
  assert (Cpp.to_int (Cpp.to_size_t (Z.of_nat m)) = Z.of_nat m) as ->.
  { rewrite to_size_t_nonneg by lia. apply to_int_id. unfold int_range. lia. }
  unfold getTrackStart, Cpp.at_, Cpp.size.
  rewrite to_size_t_nonneg by lia.
  rewrite (proj2 (Z.ltb_lt 0 (Z.of_nat m))) by lia.
  rewrite (proj2 (Z.ltb_lt (Z.of_nat m) (Z.of_nat (length (trackstarts f))))) by lia.
  rewrite (proj2 (Z.leb_le 0 (Z.of_nat m))) by lia.
  simpl. by rewrite Nat2Z.id.
Qed.

(** X22 on [add_file], whose line 1 is an add token: token 1 of line 2
    starts the new track. *)
Lemma add_opens_track_witness :
  let f := parsed add_file in
  ∃ n, getSpineInfo f (2%nat, 1%nat) = Cpp.to_string n ∧
    getTrackStart f n = Some (Some (2%nat, 1%nat)) ∧
    getNextTokens f (1%nat, 0%nat) = [(2%nat, 0%nat)] ∧
    getPreviousTokens f (2%nat, 1%nat) = [].
Proof.
  intros f.
  assert (read add_file new = Some (true, f)) as Hread by (vm_compute; reflexivity).
  assert (next_structural (lines f) 1 2) as Hnext.
  { split; [lia|]. split.
    - exists (HumdrumLine.mk (row ["*"; "**b"]) ["*"; "**b"] 2). by split.
    - intros k lk Hk. lia. }
  destruct (add_opens_track add_file new f 1 2
              (HumdrumLine.mk "*+" ["*+"] 1)
              (HumdrumLine.mk (row ["*"; "**b"]) ["*"; "**b"] 2) "*+"
              Hread eq_refl eq_refl eq_refl Hnext eq_refl)
    as (c & e & n & Htj & _ & Hn & _ & Hp & _ & Hs & Hstart).
  exists n. split; [exact Hs|]. split; [|split; [exact Hn | exact Hp]].
  injection Htj as <- <-.
  apply Hstart; [reflexivity | reflexivity | reflexivity |].
  vm_compute. discriminate.
Defined.

(** ** No token is left out by the stitcher *)

(** In a run of the link analysis that is reported valid: the state the
    stitcher was called on for two lines, the state it returned, and what
    became of the links of the two lines. *)
Lemma analyzeLinks_between_states li mid lj post i j next f f' :
  analyzeLinks_loop (li :: mid ++ lj :: post) i next f = Some (true, f') →
  j = (S i + length mid)%nat →
  HumdrumLine.hasSpines li = true →
  Forall (λ l, HumdrumLine.hasSpines l = false) mid →
  HumdrumLine.hasSpines lj = true →
  (∀ p, next = Some p → (p < i)%nat) →
  (∀ k : TokenRef, (i <= k.1)%nat →
     nextTokens f !! k = None ∧ previousTokens f !! k = None) →
  ∃ g g', lines g = lines f ∧ stitchLinesTogether i j g = Some (true, g') ∧
    (∀ c, getNextTokens g (i, c) = []) ∧ (∀ c, getPreviousTokens g (j, c) = []) ∧
    (∀ c, getNextTokens f' (i, c) = getNextTokens g' (i, c)) ∧
    (∀ c, getPreviousTokens f' (j, c) = getPreviousTokens g' (j, c)).
Proof.
  intros H -> Hs Hmid Hsj Hnext Hfresh. simpl in H.
  set (j := (S i + length mid)%nat) in *.
  destruct (analyzeLinks_line i li next f) as [r|] eqn:E; [|done].
  cbn [mbind option_bind] in H.
  apply analyzeLinks_line_within in E as ((Hl1 & _) & Hn1 & Hp1 & Hr).
  destruct r as [st f1 | next1 f1]; simpl in H, Hl1, Hn1, Hp1, Hr.
  { destruct Hr as [-> _]. discriminate. }
  rewrite Hs in Hr. subst next1.
  apply analyzeLinks_loop_skip in H; [|done]. fold j in H. simpl in H.
  unfold analyzeLinks_line in H at 1. rewrite Hsj in H. simpl in H.
  destruct (stitchLinesTogether i j f1) as [[ok f2]|] eqn:Hst; [|done].
  cbn [mbind option_bind] in H.
  destruct ok; simpl in H.
  2: { apply stitchLinesTogether_within in Hst as [_ Hinv].
       injection H as Hv _. rewrite Hinv in Hv; done. }
  apply analyzeLinks_loop_within in H as (_ & Hn2 & Hp2).
  exists f1, f2. split; [done|]. split; [done|].
  unfold getNextTokens, getPreviousTokens.
  split; [|split; [|split]]; intros c.
  - rewrite Hn1.
    + by destruct (Hfresh (i, c)) as [-> _]; [simpl; lia|].
    + simpl. intros ->. specialize (Hnext i eq_refl). lia.
  - rewrite Hp1 by (simpl; lia).
    by destruct (Hfresh (j, c)) as [_ ->]; [simpl; lia|].
  - rewrite Hn2; [done | simpl; lia | simpl; intros [= ?]; lia].
  - rewrite Hp2; [done | simpl; lia].
Qed.

Lemma read_between_states contents f0 f i j li lj :
  read contents f0 = Some (true, f) →
  lines f !! i = Some li → HumdrumLine.hasSpines li = true →
  next_structural (lines f) i j → lines f !! j = Some lj →
  ∃ g g', lines g = lines f ∧ stitchLinesTogether i j g = Some (true, g') ∧
    (∀ c, getNextTokens g (i, c) = []) ∧ (∀ c, getPreviousTokens g (j, c) = []) ∧
    (∀ c, getNextTokens f (i, c) = getNextTokens g' (i, c)) ∧
    (∀ c, getPreviousTokens f (j, c) = getPreviousTokens g' (j, c)).
Proof.
  intros Hread Hi Hs (Hij & (lj' & Hj' & Hsj) & Hmid) Hj.
  assert (lj' = lj) as -> by congruence.
  pose proof (read_valid_lines _ _ _ Hread) as Hlines.
  apply read_valid in Hread as (f3 & f4 & H3 & H4 & ->).
  destruct (analyzeTracks_loop_frame (lines f4) 0 f4) as (_ & _ & Hn5 & Hp5 & _).
  fold (analyzeTracks f4) in Hn5, Hp5.
  apply analyzeSpines_inv in H3 as (g0 & Hloop & (Hlg & Hng & Hpg) & _).
  apply analyzeSpines_loop_frame in Hloop as [(Hl3 & Hn3 & Hp3) _].
  rewrite Hlines in Hi, Hj, Hmid.
  destruct (lookup_split_two _ _ _ _ _ Hi Hj Hij) as (pre & mid & post & Hls & Hpre & Hjm).
  assert (Forall (λ l, HumdrumLine.hasSpines l = false) mid) as Hglobal.
  { apply Forall_lookup. intros k lk Hk.
    apply (Hmid (S i + k)%nat); [apply lookup_lt_Some in Hk; lia|].
    rewrite Hls. rewrite lookup_app_r by lia.
    replace (S i + k - length pre)%nat with (S k) by lia. simpl.
    by rewrite lookup_app_l by (by apply lookup_lt_Some in Hk). }
  unfold analyzeLinks in H4. rewrite Hl3, Hlg, Hls in H4.
  apply analyzeLinks_loop_app in H4 as (next' & h1 & Hlinks & Hnext' & (Hlh & _) & Hfresh);
    [|done].
  rewrite Nat.add_0_l, Hpre in Hlinks, Hnext', Hfresh.
  destruct (analyzeLinks_between_states _ _ _ _ _ j _ _ _ Hlinks)
    as (g & g' & Hg & Hst & Hg1 & Hg2 & Hg3 & Hg4); try done.
  { intros k Hk. destruct (Hfresh k Hk) as [-> ->].
    rewrite Hn3, Hp3, Hng, Hpg.
    destruct (tokenized_fresh contents f0) as (_ & -> & ->). done. }
  exists g, g'. split; [by rewrite Hlines, Hg, Hlh, Hl3, Hlg|]. split; [done|].
  unfold getNextTokens, getPreviousTokens in *.
  rewrite Hn5, Hp5. done.
Qed.

(** A link never empties a list of backward links. *)
Lemma reached_link n next ii a b f :
  reached_upto n next ii f → reached_upto n next ii (makeForwardLink a b f).
Proof.
  intros H c t Hc Ht. destruct (H c t Hc Ht) as [Hp | He]; [left | by right].
  rewrite makeForwardLink_previous. case_decide; [|done].
  by destruct (getPreviousTokens f b).
Qed.

Lemma reached_link_next n next ii a f :
  reached_upto n next ii f →
  reached_upto n next (S ii) (makeForwardLink a (n, ii) f).
Proof.
  intros H c t Hc Ht. destruct (decide (c = ii)) as [->|Hne].
  - left. rewrite makeForwardLink_previous. rewrite decide_True by done.
    by destruct (getPreviousTokens f (n, ii)).
  - apply (reached_link n next ii a (n, ii) f H c t); [lia | done].
Qed.

Lemma reached_opened n next ii t f :
  HumdrumLine.token next ii = Some t →
  HumdrumToken.isExclusiveInterpretation t = true →
  reached_upto n next ii f → reached_upto n next (S ii) f.
Proof.
  intros Ht He H c t' Hc Ht'. destruct (decide (c = ii)) as [->|Hne].
  - right. congruence.
  - apply H; [lia | done].
Qed.

Lemma reached_merges p n next run : ∀ i ii f,
  reached_upto n next (S ii) f → reached_upto n next (S ii) (link_merges p n run i ii f).
Proof.
  induction run as [|r IH]; intros i ii f H; simpl; [done|].
  apply IH. by apply reached_link.
Qed.

Lemma link_columns_reached p n next rest : ∀ i f f',
  link_columns p n next rest i f = Some f' →
  reached_upto n next i f → reached_upto n next (i + length rest) f'.
Proof.
  induction rest as [|tok rest IH]; intros i f f' H Hr; simpl in H.
  - injection H as <-. by rewrite Nat.add_0_r.
  - destruct (HumdrumLine.token next i); [|done]. cbn [mbind option_bind] in H.
    apply IH in H; [|by apply reached_link_next].
    simpl. by replace (i + S (length rest))%nat with (S i + length rest)%nat by lia.
Qed.

Lemma stitch_loop_reached p n previous next rest : ∀ i skip ii f i' ii' f',
  stitch_loop p n previous next rest i skip ii f = Some (StitchDone i' ii' f') →
  reached_upto n next ii f → reached_upto n next ii' f'.
Proof.
  induction rest as [|tok rest IH]; intros i skip ii f i' ii' f' H Hr; simpl in H.
  - by injection H as _ <- <-.
  - destruct skip as [|k]; [|by eapply IH].
    destruct (negb (HumdrumToken.isManipulator tok)).
    { destruct (HumdrumLine.token next ii); [|done]. cbn [mbind option_bind] in H.
      eapply IH; [exact H|]. by apply reached_link_next. }
    destruct (HumdrumToken.isSplitInterpretation tok).
    { destruct (HumdrumLine.token next ii); [|done]. cbn [mbind option_bind] in H.
      destruct (HumdrumLine.token next (S ii)); [|done]. cbn [mbind option_bind] in H.
      eapply IH; [exact H|]. by do 2 apply reached_link_next. }
    destruct (HumdrumToken.isMergeInterpretation tok).
    { destruct (HumdrumLine.token next ii); [|done]. cbn [mbind option_bind] in H.
      eapply IH; [exact H|]. cbn [link_merges].
      apply reached_merges. by apply reached_link_next. }
    destruct (HumdrumToken.isExchangeInterpretation tok).
    { destruct (i <? HumdrumLine.getTokenCount previous)%nat; [|by eapply IH].
      destruct (HumdrumLine.token previous (S i)) as [partner|]; [|done].
      cbn [mbind option_bind] in H.
      destruct (HumdrumToken.isExchangeInterpretation partner); [|by eapply IH].
      destruct (HumdrumLine.token next ii); [|done]. cbn [mbind option_bind] in H.
      destruct (HumdrumLine.token next (S ii)); [|done]. cbn [mbind option_bind] in H.
      eapply IH; [exact H|]. by do 2 apply reached_link_next. }
    destruct (HumdrumToken.isTerminateInterpretation tok); [by eapply IH|].
    destruct (HumdrumToken.isAddInterpretation tok).
    { destruct (HumdrumLine.token next (S ii)) as [opened|] eqn:Eo; [|done].
      cbn [mbind option_bind] in H.
      destruct (HumdrumToken.isExclusiveInterpretation opened) eqn:He; cbn [negb] in H.
      2: { destruct (HumdrumLine.token next i); [|done]. done. }
      destruct (HumdrumLine.token next ii); [|done]. cbn [mbind option_bind] in H.
      eapply IH; [exact H|].
      apply (reached_opened n next (S ii) opened); [done | done |].
      by apply reached_link_next. }
    destruct (HumdrumToken.isExclusiveInterpretation tok); [|done].
    destruct (HumdrumLine.token next ii); [|done]. cbn [mbind option_bind] in H.
    eapply IH; [exact H|]. by apply reached_link_next.
Qed.

(** When the stitcher returns true every token of the lower line is
    reached. *)
Lemma stitchLinesTogether_reached p n previous next f f' :
  lines f !! p = Some previous → lines f !! n = Some next →
  stitchLinesTogether p n f = Some (true, f') →
  reached_upto n next 0 f →
  reached_upto n next (HumdrumLine.getTokenCount next) f'.
Proof.
  intros Hp Hn H Hr. unfold stitchLinesTogether in H. rewrite Hp, Hn in H.
  cbn [mbind option_bind] in H.
  destruct (negb (HumdrumLine.isInterpretation previous) &&
            negb (HumdrumLine.isInterpretation next)).
  - destruct (HumdrumLine.getTokenCount previous =? HumdrumLine.getTokenCount next)%nat
      eqn:Hc; cbn [negb] in H.
    2: { unfold length_error in H. rewrite setParseError_false in H. done. }
    apply Nat.eqb_eq in Hc.
    destruct (link_columns p n next (HumdrumLine.tokens previous) 0 f) as [g|] eqn:E;
      [|done].
    injection H as <-. apply link_columns_reached in E; [|done].
    rewrite <- Hc. exact E.
  - destruct (stitch_loop p n previous next (HumdrumLine.tokens previous) 0 0 0 f)
      as [r|] eqn:E; [|done].
    cbn [mbind option_bind] in H. destruct r as [st g | i ii g].
    { apply stitch_loop_within in E as [_ [-> _]]. done. }
    destruct (ii =? HumdrumLine.getTokenCount next)%nat eqn:Hc.
    2: { rewrite orb_true_r in H. unfold alignment_error in H.
         rewrite setParseError_false in H. done. }
    apply Nat.eqb_eq in Hc. subst ii.
    destruct (negb (i =? HumdrumLine.getTokenCount previous)%nat).
    { simpl in H. unfold alignment_error in H.
      rewrite setParseError_false in H. done. }
    simpl in H. injection H as _ <-.
    by eapply stitch_loop_reached in E.
Qed.

(** X23.  No token is left out.  In a valid read, every token of a line
    with spines that follows another line with spines has at least one
    backward link, unless it is an exclusive interpretation (the start of
    a spine that an add token opened). *)
Theorem every_token_is_reached (contents : list string) (f0 f : HumdrumFileBase.t)
    (i j : nat) (li lj : HLine) (c : nat) (t : string) :
  read contents f0 = Some (true, f) →
  lines f !! i = Some li → HumdrumLine.hasSpines li = true →
  next_structural (lines f) i j → lines f !! j = Some lj →
  HumdrumLine.token lj c = Some t →
  getPreviousTokens f (j, c) ≠ [] ∨ HumdrumToken.isExclusiveInterpretation t = true.
Proof.
  intros Hread Hi Hs Hnext Hj Ht.
  destruct (read_between_states _ _ _ _ _ _ _ Hread Hi Hs Hnext Hj)
    as (g & g' & Hlg & Hst & _ & _ & _ & Hprev).
  rewrite Hprev.
  eapply (stitchLinesTogether_reached i j li lj g g'); try done;
    try (by rewrite Hlg).
  - intros c' t' Hc'. lia.
  - by apply token_lt in Ht.
Qed.

(** X23 on [add_file]: the token under the add token is reached, the
    exclusive interpretation beside it is not. *)
Lemma every_token_is_reached_witness :
  let f := parsed add_file in
  getPreviousTokens f (2%nat, 0%nat) ≠ [] ∧ getPreviousTokens f (2%nat, 1%nat) = [].
Proof.
  intros f.
  assert (read add_file new = Some (true, f)) as Hread by (vm_compute; reflexivity).
  assert (next_structural (lines f) 1 2) as Hnext.
  { split; [lia|]. split.
    - exists (HumdrumLine.mk (row ["*"; "**b"]) ["*"; "**b"] 2). by split.
    - intros k lk Hk. lia. }
  destruct (every_token_is_reached add_file new f 1 2
              (HumdrumLine.mk "*+" ["*+"] 1)
              (HumdrumLine.mk (row ["*"; "**b"]) ["*"; "**b"] 2) 0 "*"
              Hread eq_refl eq_refl Hnext eq_refl eq_refl) as [H | H].
  - split; [exact H|]. vm_compute. reflexivity.
  - discriminate H.
Defined.

(** ** Where spines go on and where they end *)

Lemma terminator_facts (t : string) :
  HumdrumToken.isTerminateInterpretation t = true →
  HumdrumToken.isManipulator t = true ∧
  HumdrumToken.isSplitInterpretation t = false ∧
  HumdrumToken.isMergeInterpretation t = false ∧
  HumdrumToken.isExchangeInterpretation t = false.
Proof.
  intros H. destruct (prefix_two _ _ _ H) as [r ->].
  destruct r; repeat split; reflexivity.
Qed.

(** A link never empties a list of forward links. *)
Lemma linked_link p previous k a b f :
  linked_upto p previous k f → linked_upto p previous k (makeForwardLink a b f).
Proof.
  intros H c t Hc Ht Hn. specialize (H c t Hc Ht Hn).
  rewrite makeForwardLink_next. case_decide; [|done].
  by destruct (getNextTokens f a).
Qed.

Lemma linked_link_next p previous k b f :
  linked_upto p previous k f →
  linked_upto p previous (S k) (makeForwardLink (p, k) b f).
Proof.
  intros H c t Hc Ht Hn. destruct (decide (c = k)) as [->|Hne].
  - rewrite makeForwardLink_next. rewrite decide_True by done.
    by destruct (getNextTokens f (p, k)).
  - apply (linked_link p previous k (p, k) b f H c t); [lia | done | done].
Qed.

Lemma linked_terminator p previous k t f :
  HumdrumLine.token previous k = Some t →
  HumdrumToken.isTerminateInterpretation t = true →
  linked_upto p previous k f → linked_upto p previous (S k) f.
Proof.
  intros Ht He H c t' Hc Ht' Hn. destruct (decide (c = k)) as [->|Hne].
  - congruence.
  - apply (H c t'); [lia | done | done].
Qed.

Lemma linked_merges p n previous run : ∀ i ii f,
  linked_upto p previous i f →
  linked_upto p previous (i + run) (link_merges p n run i ii f).
Proof.
  induction run as [|r IH]; intros i ii f H; simpl.
  - by rewrite Nat.add_0_r.
  - replace (i + S r)%nat with (S i + r)%nat by lia.
    apply IH. by apply linked_link_next.
Qed.

Lemma linked_upto_le p previous k k' f :
  (k' <= k)%nat → linked_upto p previous k f → linked_upto p previous k' f.
Proof. intros Hle H c t Hc. apply H. lia. Qed.

Lemma link_columns_linked p n previous next rest : ∀ i f f',
  link_columns p n next rest i f = Some f' →
  linked_upto p previous i f → linked_upto p previous (i + length rest) f'.
Proof.
  induction rest as [|tok rest IH]; intros i f f' H Hr; simpl in H.
  - injection H as <-. by rewrite Nat.add_0_r.
  - destruct (HumdrumLine.token next i); [|done]. cbn [mbind option_bind] in H.
    apply IH in H; [|by apply linked_link_next].
    simpl. by replace (i + S (length rest))%nat with (S i + length rest)%nat by lia.
Qed.

(** The general loop of the stitcher on tokens none of which is an
    exchange token: [rest] holds the tokens of [previous] from [i] on. *)
Lemma stitch_loop_linked p n previous next rest : ∀ i skip ii f i' ii' f',
  (∀ k t, rest !! k = Some t → HumdrumLine.token previous (i + k) = Some t) →
  Forall (λ t, HumdrumToken.isExchangeInterpretation t = false) rest →
  stitch_loop p n previous next rest i skip ii f = Some (StitchDone i' ii' f') →
  linked_upto p previous (i + skip) f →
  linked_upto p previous (i + length rest) f'.
Proof.
  induction rest as [|tok rest IH]; intros i skip ii f i' ii' f' Hrest Hx H Hl;
    simpl in H.
  - injection H as _ _ <-. simpl. eapply linked_upto_le; [|exact Hl]. lia.
  - apply Forall_cons in Hx as [Hxt Hx].
    assert (HumdrumLine.token previous i = Some tok) as Hi.
    { specialize (Hrest 0%nat tok eq_refl). by rewrite Nat.add_0_r in Hrest. }
    assert (∀ k t, rest !! k = Some t →
              HumdrumLine.token previous (S i + k) = Some t) as Hrest'.
    { intros k t Hk. specialize (Hrest (S k) t Hk).
      by replace (S i + k)%nat with (i + S k)%nat by lia. }
    simpl. replace (i + S (length rest))%nat with (S i + length rest)%nat by lia.
    destruct skip as [|k].
    2: { eapply IH; [done | done | exact H |].
         by replace (S i + k)%nat with (i + S k)%nat by lia. }
    rewrite Nat.add_0_r in Hl. rewrite Hxt in H.
    destruct (negb (HumdrumToken.isManipulator tok)).
    { destruct (HumdrumLine.token next ii); [|done]. cbn [mbind option_bind] in H.
      eapply IH; [done | done | exact H |].
      rewrite Nat.add_0_r. by apply linked_link_next. }
    destruct (HumdrumToken.isSplitInterpretation tok).
    { destruct (HumdrumLine.token next ii); [|done]. cbn [mbind option_bind] in H.
      destruct (HumdrumLine.token next (S ii)); [|done]. cbn [mbind option_bind] in H.
      eapply IH; [done | done | exact H |].
      rewrite Nat.add_0_r. apply linked_link. by apply linked_link_next. }
    destruct (HumdrumToken.isMergeInterpretation tok).
    { destruct (HumdrumLine.token next ii); [|done]. cbn [mbind option_bind] in H.
      eapply IH; [done | done | exact H |].
      apply linked_merges. by apply linked_link_next. }
    destruct (HumdrumToken.isTerminateInterpretation tok) eqn:Ht.
    { eapply IH; [done | done | exact H |].
      rewrite Nat.add_0_r. by apply (linked_terminator p previous i tok). }
    destruct (HumdrumToken.isAddInterpretation tok).
    { destruct (HumdrumLine.token next (S ii)) as [opened|]; [|done].
      cbn [mbind option_bind] in H.
      destruct (HumdrumToken.isExclusiveInterpretation opened); cbn [negb] in H.
      2: { destruct (HumdrumLine.token next i); [|done]. done. }
      destruct (HumdrumLine.token next ii); [|done]. cbn [mbind option_bind] in H.
      eapply IH; [done | done | exact H |].
      rewrite Nat.add_0_r. by apply linked_link_next. }
    destruct (HumdrumToken.isExclusiveInterpretation tok); [|done].
    destruct (HumdrumLine.token next ii); [|done]. cbn [mbind option_bind] in H.
    eapply IH; [done | done | exact H |].
    rewrite Nat.add_0_r. by apply linked_link_next.
Qed.

(** When the stitcher returns true on an upper line without exchange
    tokens, every token of the upper line but the terminators has a
    forward link. *)
Lemma stitchLinesTogether_linked p n previous next f f' :
  lines f !! p = Some previous → lines f !! n = Some next →
  Forall (λ t, HumdrumToken.isExchangeInterpretation t = false)
         (HumdrumLine.tokens previous) →
  stitchLinesTogether p n f = Some (true, f') →
  linked_upto p previous (HumdrumLine.getTokenCount previous) f'.
Proof.
  intros Hp Hn Hx H. unfold stitchLinesTogether in H. rewrite Hp, Hn in H.
  cbn [mbind option_bind] in H.
  assert (linked_upto p previous 0 f) as H0 by (intros c t Hc; lia).
  destruct (negb (HumdrumLine.isInterpretation previous) &&
            negb (HumdrumLine.isInterpretation next)).
  - destruct (negb (_ =? _)%nat).
    { unfold length_error in H. rewrite setParseError_false in H. done. }
    destruct (link_columns p n next (HumdrumLine.tokens previous) 0 f) as [g|] eqn:E;
      [|done].
    injection H as <-. by apply (link_columns_linked p n previous) in E.
  - destruct (stitch_loop p n previous next (HumdrumLine.tokens previous) 0 0 0 f)
      as [r|] eqn:E; [|done].
    cbn [mbind option_bind] in H. destruct r as [st g | i ii g].
    { apply stitch_loop_within in E as [_ [-> _]]. done. }
    destruct (_ || _).
    { unfold alignment_error in H. rewrite setParseError_false in H. done. }
    injection H as _ <-.
    by eapply (stitch_loop_linked p n previous next) in E.
Qed.

(** X24.  Spines go on.  In a valid read, on a line with spines that has
    no exchange token and is followed by another line with spines, every
    token other than a terminate token has at least one forward link. *)
Theorem tokens_continue (contents : list string) (f0 f : HumdrumFileBase.t)
    (i j : nat) (li : HLine) (a : nat) (t : string) :
  read contents f0 = Some (true, f) →
  lines f !! i = Some li → HumdrumLine.hasSpines li = true →
  next_structural (lines f) i j →
  Forall (λ t, HumdrumToken.isExchangeInterpretation t = false)
         (HumdrumLine.tokens li) →
  HumdrumLine.token li a = Some t →
  HumdrumToken.isTerminateInterpretation t = false →
  getNextTokens f (i, a) ≠ [].
Proof.
  intros Hread Hi Hs Hnext Hx Ht Hn.
  pose proof Hnext as (_ & (lj & Hj & _) & _).
  destruct (read_between_states _ _ _ _ _ _ _ Hread Hi Hs Hnext Hj)
    as (g & g' & Hlg & Hst & _ & _ & Hfwd & _).
  rewrite Hfwd.
  eapply (stitchLinesTogether_linked i j li lj g g'); try done;
    try (by rewrite Hlg).
  by apply token_lt in Ht.
Qed.

(** X24 on [split_file]: both tokens of the data line 3 lead on to the
    merge line. *)
Lemma tokens_continue_witness :
  let f := parsed split_file in
  getNextTokens f (3%nat, 0%nat) ≠ [] ∧ getNextTokens f (3%nat, 1%nat) ≠ [].
Proof.
  intros f.
  assert (read split_file new = Some (true, f)) as Hread by (vm_compute; reflexivity).
  assert (next_structural (lines f) 3 4) as Hnext.
  { split; [lia|]. split.
    - exists (HumdrumLine.mk (row ["*v"; "*v"]) ["*v"; "*v"] 4). by split.
    - intros k lk Hk. lia. }
  assert (Forall (λ t, HumdrumToken.isExchangeInterpretation t = false) ["4c"; "4e"])
    as Hx by (by repeat constructor).
  split.
  - exact (tokens_continue split_file new f 3 4
             (HumdrumLine.mk (row ["4c"; "4e"]) ["4c"; "4e"] 3) 0 "4c"
             Hread eq_refl eq_refl Hnext Hx eq_refl eq_refl).
  - exact (tokens_continue split_file new f 3 4
             (HumdrumLine.mk (row ["4c"; "4e"]) ["4c"; "4e"] 3) 1 "4e"
             Hread eq_refl eq_refl Hnext Hx eq_refl eq_refl).
Defined.

(** A link from a token that is no terminate token keeps the terminate
    tokens of its line without forward link. *)
Lemma ends_link p previous a t b f :
  HumdrumLine.token previous a = Some t →
  HumdrumToken.isTerminateInterpretation t = false →
  ends_unlinked p previous f → ends_unlinked p previous (makeForwardLink (p, a) b f).
Proof.
  intros Ht Hn H a' t' Ht' He. rewrite makeForwardLink_next.
  case_decide as Heq; [|by apply (H a' t')].
  injection Heq as ->. congruence.
Qed.

Lemma ends_error p previous e f :
  ends_unlinked p previous f → ends_unlinked p previous (with_parseError e f).
Proof. intros H a t Ht He. by apply (H a t). Qed.

Lemma count_merges_spec rest : ∀ k,
  (k < count_merges rest)%nat →
  ∃ t, rest !! k = Some t ∧ HumdrumToken.isMergeInterpretation t = true.
Proof.
  induction rest as [|tok rest IH]; intros k Hk; simpl in Hk; [lia|].
  destruct (HumdrumToken.isMergeInterpretation tok) eqn:E; [|lia].
  destruct k as [|k]; [by exists tok|]. apply IH. lia.
Qed.

Lemma ends_merges p n previous run : ∀ i ii f,
  (∀ k, (k < run)%nat → ∃ t, HumdrumLine.token previous (i + k) = Some t ∧
                          HumdrumToken.isTerminateInterpretation t = false) →
  ends_unlinked p previous f → ends_unlinked p previous (link_merges p n run i ii f).
Proof.
  induction run as [|r IH]; intros i ii f Hrun H; simpl; [done|].
  apply IH.
  - intros k Hk. destruct (Hrun (S k)) as (t & Ht & Hn); [lia|].
    exists t. by replace (S i + k)%nat with (i + S k)%nat by lia.
  - destruct (Hrun 0%nat) as (t & Ht & Hn); [lia|]. rewrite Nat.add_0_r in Ht.
    by apply (ends_link p previous i t).
Qed.

Lemma not_terminator (t : string) :
  HumdrumToken.isManipulator t = false ∨
  HumdrumToken.isSplitInterpretation t = true ∨
  HumdrumToken.isMergeInterpretation t = true ∨
  HumdrumToken.isExchangeInterpretation t = true →
  HumdrumToken.isTerminateInterpretation t = false.
Proof.
  intros H. destruct (HumdrumToken.isTerminateInterpretation t) eqn:E; [|done].
  destruct (terminator_facts t E) as (? & ? & ? & ?).
  destruct H as [H | [H | [H | H]]]; congruence.
Qed.

(** The general loop of the stitcher makes no link from a terminate
    token. *)
Lemma stitch_loop_ends p n previous next rest : ∀ i skip ii f r,
  (∀ k t, rest !! k = Some t → HumdrumLine.token previous (i + k) = Some t) →
  stitch_loop p n previous next rest i skip ii f = Some r →
  ends_unlinked p previous f → ends_unlinked p previous (stitched_state r).
Proof.
  induction rest as [|tok rest IH]; intros i skip ii f r Hrest H He; simpl in H.
  - by injection H as <-.
  - assert (HumdrumLine.token previous i = Some tok) as Hi.
    { specialize (Hrest 0%nat tok eq_refl). by rewrite Nat.add_0_r in Hrest. }
    assert (∀ k t, rest !! k = Some t →
              HumdrumLine.token previous (S i + k) = Some t) as Hrest'.
    { intros k t Hk. specialize (Hrest (S k) t Hk).
      by replace (S i + k)%nat with (i + S k)%nat by lia. }
    destruct skip as [|k]; [|by eapply IH].
    destruct (HumdrumToken.isManipulator tok) eqn:Hm; cbn [negb] in H.
    2: { destruct (HumdrumLine.token next ii); [|done]. cbn [mbind option_bind] in H.
         eapply IH; [done | exact H |].
         apply (ends_link p previous i tok); [done | | done].
         apply not_terminator. by left. }
    destruct (HumdrumToken.isSplitInterpretation tok) eqn:Hs.
    { destruct (HumdrumLine.token next ii); [|done]. cbn [mbind option_bind] in H.
      destruct (HumdrumLine.token next (S ii)); [|done]. cbn [mbind option_bind] in H.
      assert (HumdrumToken.isTerminateInterpretation tok = false) as Hn
        by (apply not_terminator; auto).
      eapply IH; [done | exact H |].
      apply (ends_link p previous i tok); [done | done |].
      by apply (ends_link p previous i tok). }
    destruct (HumdrumToken.isMergeInterpretation tok) eqn:Hg.
    { destruct (HumdrumLine.token next ii); [|done]. cbn [mbind option_bind] in H.
      eapply IH; [done | exact H |].
      apply ends_merges.
      - intros k Hk. destruct (count_merges_spec rest k Hk) as (t & Ht & Hmt).
        exists t. split; [by apply Hrest'|]. apply not_terminator. auto.
      - apply (ends_link p previous i tok); [done | | done].
        apply not_terminator. auto. }
    destruct (HumdrumToken.isExchangeInterpretation tok) eqn:Hx.
    { assert (HumdrumToken.isTerminateInterpretation tok = false) as Hn
        by (apply not_terminator; auto).
      destruct (i <? HumdrumLine.getTokenCount previous)%nat; [|by eapply IH].
      destruct (HumdrumLine.token previous (S i)) as [partner|] eqn:Hp; [|done].
      cbn [mbind option_bind] in H.
      destruct (HumdrumToken.isExchangeInterpretation partner) eqn:Hxp;
        [|by eapply IH].
      destruct (HumdrumLine.token next ii); [|done]. cbn [mbind option_bind] in H.
      destruct (HumdrumLine.token next (S ii)); [|done]. cbn [mbind option_bind] in H.
      eapply IH; [done | exact H |].
      apply (ends_link p previous i tok); [done | done |].
      apply (ends_link p previous (S i) partner); [done | | done].
      apply not_terminator. auto. }
    destruct (HumdrumToken.isTerminateInterpretation tok) eqn:Ht; [by eapply IH|].
    destruct (HumdrumToken.isAddInterpretation tok).
    { destruct (HumdrumLine.token next (S ii)) as [opened|]; [|done].
      cbn [mbind option_bind] in H.
      destruct (HumdrumToken.isExclusiveInterpretation opened); cbn [negb] in H.
      2: { destruct (HumdrumLine.token next i); [|done].
           cbn [mbind option_bind] in H. injection H as <-. by apply ends_error. }
      destruct (HumdrumLine.token next ii); [|done]. cbn [mbind option_bind] in H.
      eapply IH; [done | exact H |]. by apply (ends_link p previous i tok). }
    destruct (HumdrumToken.isExclusiveInterpretation tok).
    2: { injection H as <-. by apply ends_error. }
    destruct (HumdrumLine.token next ii); [|done]. cbn [mbind option_bind] in H.
    eapply IH; [done | exact H |]. by apply (ends_link p previous i tok).
Qed.

Lemma stitchLinesTogether_ends p n previous next f b f' :
  lines f !! p = Some previous → lines f !! n = Some next →
  HumdrumLine.isInterpretation previous = true →
  stitchLinesTogether p n f = Some (b, f') →
  ends_unlinked p previous f → ends_unlinked p previous f'.
Proof.
  intros Hp Hn Hint H He. unfold stitchLinesTogether in H. rewrite Hp, Hn in H.
  cbn [mbind option_bind] in H. rewrite Hint in H. cbn [negb andb] in H.
  destruct (stitch_loop p n previous next (HumdrumLine.tokens previous) 0 0 0 f)
    as [r|] eqn:E; [|done].
  cbn [mbind option_bind] in H.
  apply (stitch_loop_ends p n previous next) in E; [|done|done].
  destruct r as [st g | i ii g]; simpl in E.
  - by injection H as _ <-.
  - destruct (_ || _).
    + injection H as _ <-. by apply ends_error.
    + by injection H as _ <-.
Qed.

(** X25.  Spines end at their terminators.  In a valid read a terminate
    token on an interpretation line has no forward link. *)
Theorem terminators_end (contents : list string) (f0 f : HumdrumFileBase.t)
    (i : nat) (li : HLine) (a : nat) (t : string) :
  read contents f0 = Some (true, f) →
  lines f !! i = Some li → HumdrumLine.isInterpretation li = true →
  HumdrumLine.token li a = Some t →
  HumdrumToken.isTerminateInterpretation t = true →
  getNextTokens f (i, a) = [].
Proof.
  intros Hread Hi Hint Ht He.
  destruct (getNextTokens f (i, a)) as [|b l] eqn:E; [done|]. exfalso.
  pose proof (read_links_ok _ _ _ _ Hread) as [Hfwd _].
  destruct (Hfwd (i, a) b) as (_ & _ & (la & Hla & Hs) & Hnext).
  { rewrite E. apply elem_of_cons. by left. }
  simpl in Hla, Hnext. assert (la = li) as -> by congruence.
  pose proof Hnext as (_ & (lj & Hj & _) & _).
  destruct (read_between_states _ _ _ _ _ _ _ Hread Hi Hs Hnext Hj)
    as (g & g' & Hlg & Hst & Hg & _ & Hf & _).
  rewrite Hf in E.
  eapply (stitchLinesTogether_ends i b.1 li lj g true g') in Hst; try done;
    try (by rewrite Hlg).
  - by rewrite (Hst a t Ht He) in E.
  - intros a' t' _ _. apply Hg.
Qed.

(** X25 on a file whose first spine ends on line 1 while the second goes
    on. *)
Lemma terminators_end_witness :
  let contents := [row ["**a"; "**b"]; row ["*-"; "*"]; "x"; "*-"] in
  let f := parsed contents in
  read contents new = Some (true, f) ∧
  getNextTokens f (1%nat, 0%nat) = [] ∧
  getNextTokens f (1%nat, 1%nat) = [(2%nat, 0%nat)].
Proof.
  intros contents f.
  assert (read contents new = Some (true, f)) as Hread by (vm_compute; reflexivity).
  split; [exact Hread|]. split.
  - exact (terminators_end contents new f 1
             (HumdrumLine.mk (row ["*-"; "*"]) ["*-"; "*"] 1) 0 "*-"
             Hread eq_refl eq_refl eq_refl eq_refl).
  - vm_compute. reflexivity.
Defined.

(** ** A second spine start on one line *)

(** The stitcher after a line of two add tokens: when it returns true the
    next line has four tokens, and the second and the fourth are
    exclusive interpretations. *)
Lemma stitch_add2_inv g i j li lj a b g' :
  lines g !! i = Some li → lines g !! j = Some lj →
  HumdrumLine.tokens li = [a; b] →
  HumdrumToken.isAddInterpretation a = true →
  HumdrumToken.isAddInterpretation b = true →
  stitchLinesTogether i j g = Some (true, g') →
  ∃ c0 e0 c1 e1, HumdrumLine.tokens lj = [c0; e0; c1; e1] ∧
    HumdrumToken.isExclusiveInterpretation e0 = true ∧
    HumdrumToken.isExclusiveInterpretation e1 = true.
Proof.
  intros Hi Hj Ht Ha Hb H.
  destruct (add_facts a Ha) as (Hm & Hs & Hmg & Hx & Hterm & _ & Hint & _).
  destruct (add_facts b Hb) as (Hm' & Hs' & Hmg' & Hx' & Hterm' & _).
  unfold stitchLinesTogether in H. rewrite Hi, Hj in H.
  cbn [mbind option_bind] in H.
  assert (HumdrumLine.isInterpretation li = true) as Hli.
  { unfold HumdrumLine.isInterpretation, HumdrumLine.first_token. by rewrite Ht. }
  rewrite Hli in H. cbn [negb andb] in H. rewrite Ht in H.
  simpl in H. rewrite Hm, Hs, Hmg, Hx, Hterm, Ha in H. simpl in H.
  rewrite Hm', Hs', Hmg', Hx', Hterm', Hb in H. simpl in H.
  unfold HumdrumLine.token, HumdrumLine.getTokenCount in H. rewrite Ht in H.
  destruct (HumdrumLine.tokens lj) as [|c0 [|e0 [|c1 [|e1 rest]]]] eqn:Htj;
    simpl in H; try done.
  - destruct (HumdrumToken.isExclusiveInterpretation e0); simpl in H; done.
  - destruct (HumdrumToken.isExclusiveInterpretation e0); simpl in H; done.
  - destruct (HumdrumToken.isExclusiveInterpretation e0) eqn:He0; simpl in H;
      [|done].
    destruct (HumdrumToken.isExclusiveInterpretation e1) eqn:He1; simpl in H;
      [|done].
    destruct rest as [|x rest]; simpl in H.
    + by exists c0, e0, c1, e1.
    + exfalso. unfold alignment_error in H. rewrite setParseError_false in H. done.
Qed.

(** A token that is no manipulator passes to the next token. *)
Lemma adjustSpines_loop_plain li line datatype sinfo c rest i nt ni f r :
  adjustSpines_loop li line datatype sinfo (c :: rest) i 0 nt ni f = Some r →
  HumdrumToken.isManipulator c = false →
  ∃ nt' ni', adjustSpines_loop li line datatype sinfo rest (S i) 0 nt' ni' f = Some r.
Proof.
  intros H Hm.
  destruct (plain_facts c Hm) as (He & Hs & Hmg & Hx & Ha & Ht).
  cbn [adjustSpines_loop] in H. fold adjustSpines_loop in H.
  rewrite Hs, Hmg, Ha, Hx, Ht, (substr2_exclusive c), He in H.
  destruct (datatype !! i); [|done]. destruct (sinfo !! i); [|done].
  cbn [mbind option_bind] in H. eauto.
Qed.

(** An exclusive interpretation is reported, or takes the place at the
    back of the track starts. *)
Lemma adjustSpines_loop_exclusive li line datatype sinfo e rest i nt ni f r :
  adjustSpines_loop li line datatype sinfo (e :: rest) i 0 nt ni f = Some r →
  HumdrumToken.isExclusiveInterpretation e = true →
  (∃ b f', r = AdjustReturn b f') ∨
  (Cpp.back (trackstarts f) = Some None ∧
   ∃ nt' ni' f', adjustSpines_loop li line datatype sinfo rest (S i) 0 nt' ni' f' = Some r ∧
     Cpp.back (trackstarts f') = Some (Some (li, i))).
Proof.
  intros H He.
  destruct (exclusive_facts e He) as (_ & Hs & Hm & Ha & Hx & Ht).
  cbn [adjustSpines_loop] in H. fold adjustSpines_loop in H.
  rewrite Hs, Hm, Ha, Hx, Ht, (substr2_exclusive e), He in H.
  destruct (sinfo !! i) as [s|]; [|done]. cbn [mbind option_bind] in H.
  destruct ((1 <? Cpp.size (trackstarts f)) &&
            bool_decide (Cpp.back (trackstarts f) = Some None)) eqn:Hp;
    cbn [negb] in H.
  2: { left. unfold setParseError in H. injection H as <-. eauto. }
  right. apply andb_prop in Hp as Hp'. destruct Hp' as [Hsz Hb].
  apply bool_decide_eq_true in Hb. split; [done|].
  rewrite Hb in H. cbn [mbind option_bind] in H.
  rewrite bool_decide_eq_true_2 in H by done.
  unfold addToTrackStarts in H. rewrite Hp in H.
  destruct (trackstarts f) as [|t0 ts] eqn:Ets; [done|].
  unfold Cpp.set_back in H. cbn [mbind option_bind] in H.
  eexists _, _, _. split; [exact H|].
  unfold Cpp.back. cbn [trackstarts with_tracks].
  rewrite last_lookup, length_insert.
  apply list_lookup_insert_eq. simpl. lia.
Qed.

(** An exclusive interpretation that finds no empty place at the back of
    the track starts is reported. *)
Lemma adjustSpines_loop_unprepared li line datatype sinfo e rest i nt ni f r :
  adjustSpines_loop li line datatype sinfo (e :: rest) i 0 nt ni f = Some r →
  HumdrumToken.isExclusiveInterpretation e = true →
  Cpp.back (trackstarts f) ≠ Some None →
  ∃ b f', r = AdjustReturn b f'.
Proof.
  intros H He Hb.
  apply adjustSpines_loop_exclusive in H as [H | [H _]]; done.
Qed.

(** After one exclusive interpretation took the place, the next one among
    plain tokens and exclusive interpretations is reported. *)
Lemma adjustSpines_loop_taken li line datatype sinfo rest : ∀ i nt ni f r,
  adjustSpines_loop li line datatype sinfo rest i 0 nt ni f = Some r →
  Forall (λ t, HumdrumToken.isManipulator t = false ∨
               HumdrumToken.isExclusiveInterpretation t = true) rest →
  Exists (λ t, HumdrumToken.isExclusiveInterpretation t = true) rest →
  Cpp.back (trackstarts f) ≠ Some None →
  ∃ b f', r = AdjustReturn b f'.
Proof.
  induction rest as [|t rest IH]; intros i nt ni f r H Hall Hex Hb.
  - by apply Exists_nil in Hex.
  - apply Forall_cons in Hall as [[Hm | He] Hall].
    + apply adjustSpines_loop_plain in H as (nt' & ni' & H); [|done].
      apply Exists_cons in Hex as [Hex | Hex].
      * destruct (plain_facts t Hm) as (He & _). congruence.
      * by eapply IH.
    + by eapply adjustSpines_loop_unprepared.
Qed.

(** Two exclusive interpretations among plain tokens and exclusive
    interpretations: the second one is reported. *)
Lemma adjustSpines_loop_two_starts li line datatype sinfo pre e mid e' post :
  ∀ i nt ni f r,
  adjustSpines_loop li line datatype sinfo (pre ++ e :: mid ++ e' :: post) i 0 nt ni f
    = Some r →
  Forall (λ t, HumdrumToken.isManipulator t = false ∨
               HumdrumToken.isExclusiveInterpretation t = true)
         (pre ++ e :: mid ++ e' :: post) →
  HumdrumToken.isExclusiveInterpretation e = true →
  HumdrumToken.isExclusiveInterpretation e' = true →
  ∃ b f', r = AdjustReturn b f'.
Proof.
  induction pre as [|t pre IH]; intros i nt ni f r H Hall He He'; cbn [app] in *.
  - apply Forall_cons in Hall as [_ Hall].
    apply adjustSpines_loop_exclusive in H; [|done].
    destruct H as [H | (_ & nt' & ni' & f' & H & Hb)]; [done|].
    eapply adjustSpines_loop_taken; [exact H | done | | by rewrite Hb].
    apply Exists_app. right. by apply Exists_cons_hd.
  - apply Forall_cons in Hall as [[Hm | Het] Hall].
    + apply adjustSpines_loop_plain in H as (nt' & ni' & H); [|done].
      by eapply IH.
    + apply adjustSpines_loop_exclusive in H; [|done].
      destruct H as [H | (_ & nt' & ni' & f' & H & Hb)]; [done|].
      eapply adjustSpines_loop_taken; [exact H | done | | by rewrite Hb].
      apply Exists_app. right. apply Exists_cons_tl.
      apply Exists_app. right. by apply Exists_cons_hd.
Qed.

(** The body of the spine loop, past the first line with spines, on a
    line that holds two exclusive interpretations among plain tokens and
    exclusive interpretations. *)
Lemma analyzeSpines_line_two_starts j lj pre e mid e' post datatype sinfo f r :
  analyzeSpines_line j lj true datatype sinfo f = Some r →
  HumdrumLine.hasSpines lj = true →
  HumdrumLine.tokens lj = pre ++ e :: mid ++ e' :: post →
  Forall (λ t, HumdrumToken.isManipulator t = false ∨
               HumdrumToken.isExclusiveInterpretation t = true)
         (HumdrumLine.tokens lj) →
  HumdrumToken.isExclusiveInterpretation e = true →
  HumdrumToken.isExclusiveInterpretation e' = true →
  ∃ b f', r = SpinesReturn b f'.
Proof.
  intros H Hs Ht Hall He He'.
  destruct (exclusive_facts e He) as (Hm & _).
  unfold analyzeSpines_line in H. rewrite Hs in H. simpl in H.
  destruct (length datatype =? HumdrumLine.getTokenCount lj)%nat; simpl in H.
  2: { injection H as <-. eauto. }
  destruct (label_tokens j (HumdrumLine.tokens lj) 0 sinfo f) as [f1|]; [|done].
  cbn [mbind option_bind] in H.
  assert (HumdrumLine.isManipulator lj = true) as Hml.
  { unfold HumdrumLine.isManipulator. apply existsb_exists. exists e.
    split; [|done]. rewrite Ht. apply in_or_app. right. by left. }
  rewrite Hml in H. cbn [negb] in H.
  unfold adjustSpines in H.
  destruct (adjustSpines_loop j lj datatype sinfo (HumdrumLine.tokens lj) 0 0 [] [] f1)
    as [a|] eqn:E; [|done].
  cbn [mbind option_bind] in H.
  rewrite Ht in E, Hall.
  destruct (adjustSpines_loop_two_starts _ _ _ _ _ _ _ _ _ _ _ _ _ _ E Hall He He')
    as (b & f' & ->).
  apply adjustSpines_loop_return in E as [-> _]. simpl in H.
  injection H as <-. eauto.
Qed.

(** Past its first line, the spine loop always ends on [init = true]. *)
Lemma analyzeSpines_line_init i l init datatype sinfo f init' datatype' sinfo' f' :
  analyzeSpines_line i l init datatype sinfo f
    = Some (SpinesContinue init' datatype' sinfo' f') →
  HumdrumLine.hasSpines l = true → init' = true.
Proof.
  unfold analyzeSpines_line. intros H Hs. rewrite Hs in H. simpl in H.
  destruct init; simpl in H; by bind_inv.
Qed.

(** No valid read has such a line after another line with spines. *)
Lemma read_two_starts contents f0 f i j li lj pre e mid e' post :
  read contents f0 = Some (true, f) →
  lines f !! i = Some li → HumdrumLine.hasSpines li = true →
  next_structural (lines f) i j → lines f !! j = Some lj →
  HumdrumLine.tokens lj = pre ++ e :: mid ++ e' :: post →
  Forall (λ t, HumdrumToken.isManipulator t = false ∨
               HumdrumToken.isExclusiveInterpretation t = true)
         (HumdrumLine.tokens lj) →
  HumdrumToken.isExclusiveInterpretation e = true →
  HumdrumToken.isExclusiveInterpretation e' = true →
  False.
Proof.
  intros Hread Hi Hs Hnext Hj Ht Hall He He'.
  destruct (read_spines_between _ _ _ _ _ _ _ Hread Hi Hnext Hj)
    as (mid' & post' & init & dt & si & g & f3 & Hloop & Hmid & Hjm & Hsj & _).
  simpl in Hloop.
  destruct (analyzeSpines_line i li init dt si g) as [r|] eqn:E; [|done].
  cbn [mbind option_bind] in Hloop.
  destruct r as [st f1 | init1 dt1 si1 f1].
  { apply analyzeSpines_line_return in E as [-> _]. discriminate. }
  apply analyzeSpines_line_init in E as ->; [|done].
  apply analyzeSpines_loop_skip in Hloop; [|done].
  set (j' := (S i + length mid')%nat) in *. simpl in Hloop.
  destruct (analyzeSpines_line j' lj true dt1 si1 f1) as [r|] eqn:E2; [|done].
  cbn [mbind option_bind] in Hloop.
  destruct (analyzeSpines_line_two_starts _ _ _ _ _ _ _ _ _ _ _ E2 Hsj Ht Hall He He')
    as (b & f' & ->).
  apply analyzeSpines_line_return in E2 as [-> _]. discriminate.
Qed.

(** X26.  One spine start per line.  Past the first line with spines, a
    line with spines that holds two exclusive interpretations, and
    besides exclusive interpretations only tokens that are no
    manipulators, is always rejected: no read of such a file is reported
    valid.  (The second exclusive interpretation finds the place at the
    back of the track starts taken by the first.) *)
Theorem second_start_rejected (contents : list string) (f0 f : HumdrumFileBase.t)
    (st : bool) (i j : nat) (li lj : HLine) (pre mid post : list string)
    (e e' : string) :
  read contents f0 = Some (st, f) →
  lines f !! i = Some li → HumdrumLine.hasSpines li = true →
  next_structural (lines f) i j → lines f !! j = Some lj →
  HumdrumLine.tokens lj = pre ++ e :: mid ++ e' :: post →
  Forall (λ t, HumdrumToken.isManipulator t = false ∨
               HumdrumToken.isExclusiveInterpretation t = true)
         (HumdrumLine.tokens lj) →
  HumdrumToken.isExclusiveInterpretation e = true →
  HumdrumToken.isExclusiveInterpretation e' = true →
  st = false ∧ isValid f = false ∧ parseError f ≠ "".
Proof.
  intros Hread Hi Hs Hnext Hj Ht Hall He He'.
  assert (st = false) as ->.
  { destruct st; [|done]. exfalso.
    by eapply (read_two_starts contents f0 f i j li lj pre e mid e' post). }
  split; [done|]. apply read_status in Hread. split; [done|].
  by apply isValid_false_iff.
Qed.

(** X26 on a file that tries to open two spines on one line. *)
Lemma second_start_rejected_witness :
  let contents := [row ["**a"; "**b"]; row ["*+"; "*+"];
                   row ["*"; "**c"; "*"; "**d"]] in
  ∃ f, read contents new = Some (false, f) ∧ parseError f ≠ "".
Proof.
  intros contents. set (f := parsed contents).
  assert (read contents new = Some (false, f)) as Hread by (vm_compute; reflexivity).
  assert (next_structural (lines f) 1 2) as Hnext.
  { split; [lia|]. split.
    - exists (HumdrumLine.mk (row ["*"; "**c"; "*"; "**d"]) ["*"; "**c"; "*"; "**d"] 2).
      split; vm_compute; reflexivity.
    - intros k lk Hk. lia. }
  assert (lines f !! 1%nat = Some (HumdrumLine.mk (row ["*+"; "*+"]) ["*+"; "*+"] 1))
    as Hi by (vm_compute; reflexivity).
  assert (lines f !! 2%nat =
          Some (HumdrumLine.mk (row ["*"; "**c"; "*"; "**d"])
                               ["*"; "**c"; "*"; "**d"] 2))
    as Hj by (vm_compute; reflexivity).
  assert (Forall (λ t, HumdrumToken.isManipulator t = false ∨
               HumdrumToken.isExclusiveInterpretation t = true)
          ["*"; "**c"; "*"; "**d"]) as Hall.
  { repeat constructor; by (left + right). }
  pose proof (second_start_rejected contents new f false 1 2 _ _
              ["*"] ["*"] [] "**c" "**d"
              Hread Hi eq_refl Hnext Hj eq_refl Hall eq_refl eq_refl) as (_ & _ & Herr).
  exists f. split; [exact Hread | exact Herr].
Defined.

(** X27.  Two add tokens on one line cannot be parsed.  When a line
    consists of two add tokens and the next line with spines holds, besides
    exclusive interpretations, only tokens that are no manipulators, no
    read of the file is reported valid: the stitcher asks for two
    exclusive interpretations on that line and the tracker accepts only
    one. *)
Theorem two_adds_rejected (contents : list string) (f0 f : HumdrumFileBase.t)
    (st : bool) (i j : nat) (li lj : HLine) (a b : string) :
  read contents f0 = Some (st, f) →
  lines f !! i = Some li → HumdrumLine.tokens li = [a; b] →
  HumdrumToken.isAddInterpretation a = true →
  HumdrumToken.isAddInterpretation b = true →
  next_structural (lines f) i j → lines f !! j = Some lj →
  Forall (λ t, HumdrumToken.isManipulator t = false ∨
               HumdrumToken.isExclusiveInterpretation t = true)
         (HumdrumLine.tokens lj) →
  st = false ∧ isValid f = false ∧ parseError f ≠ "".
Proof.
  intros Hread Hi Ht Ha Hb Hnext Hj Hall.
  assert (HumdrumLine.hasSpines li = true) as Hs.
  { destruct (add_facts a Ha) as (_ & _ & _ & _ & _ & _ & _ & Hg & Hn).
    unfold HumdrumLine.hasSpines, HumdrumLine.first_token. rewrite Ht. simpl.
    by rewrite Hn, Hg. }
  assert (st = false) as ->.
  { destruct st; [|done]. exfalso.
    destruct (read_stitch_between _ _ _ _ _ _ _ Hread Hi Hs Hnext Hj)
      as (g & g' & Hlg & Hst).
    destruct (stitch_add2_inv g i j li lj a b g')
      as (c0 & e0 & c1 & e1 & Htj & He0 & He1); try done; try (by rewrite Hlg).
    by eapply (read_two_starts contents f0 f i j li lj [c0] e0 [c1] e1 []). }
  split; [done|]. apply read_status in Hread. split; [done|].
  by apply isValid_false_iff.
Qed.

(** X27 on a file with two add tokens on line 1. *)
Lemma two_adds_rejected_witness :
  let contents := [row ["**a"; "**b"]; row ["*+"; "*+"];
                   row ["1"; "**c"; "2"; "**d"]] in
  ∃ f, read contents new = Some (false, f) ∧ isValid f = false.
Proof.
  intros contents. set (f := parsed contents).
  assert (read contents new = Some (false, f)) as Hread by (vm_compute; reflexivity).
  assert (next_structural (lines f) 1 2) as Hnext.
  { split; [lia|]. split.
    - exists (HumdrumLine.mk (row ["1"; "**c"; "2"; "**d"]) ["1"; "**c"; "2"; "**d"] 2).
      split; vm_compute; reflexivity.
    - intros k lk Hk. lia. }
  assert (lines f !! 1%nat = Some (HumdrumLine.mk (row ["*+"; "*+"]) ["*+"; "*+"] 1))
    as Hi by (vm_compute; reflexivity).
  assert (lines f !! 2%nat =
          Some (HumdrumLine.mk (row ["1"; "**c"; "2"; "**d"])
                               ["1"; "**c"; "2"; "**d"] 2))
    as Hj by (vm_compute; reflexivity).
  assert (Forall (λ t, HumdrumToken.isManipulator t = false ∨
               HumdrumToken.isExclusiveInterpretation t = true)
          ["1"; "**c"; "2"; "**d"]) as Hall.
  { repeat constructor; by (left + right). }
  pose proof (two_adds_rejected contents new f false 1 2 _ _
              "*+" "*+" Hread Hi eq_refl eq_refl eq_refl Hnext Hj Hall)
    as (_ & Hv & _).
  exists f. split; [exact Hread | exact Hv].
Defined.

(** ** Counting fields: the tracker and the stitcher *)














(** ** The numbers the tracker hands out *)








(** ** The fields the stitcher leaves without backward link *)











(** ** The fields the link analysis leaves without backward link *)








(** ** The numbers of the spine starts (C1) *)



